(** * A paged virtual-memory simulator: allocator, page-table driver, walker, TLB

    Shallow embedding of the C++ sources and the properties of their
    specification.  Unsigned 64-bit quantities are integers in [Z] with the
    wrap-around written out by [wrap64]; structs are records; [std::list]
    and [std::vector] are lists; [std::unordered_map] is a [gmap]. *)

From stdpp Require Import gmap list sorting.
From Stdlib Require Import ZArith Lia Bool.

Local Open Scope Z_scope.

(** ** Machine arithmetic *)

Definition wrap64 (z : Z) : Z := z mod 2 ^ 64.

(** [physMemBase]: the simulated RAM starts at 16 GiB. *)
Definition physMemBase : Z := 16 * 1024 * 1024 * 1024.

(** ** The hole-list allocator (pagetables-base-2024/os/physmemmanager.cc) *)

Module HoleList.

Record Hole := mkHole { startPage : Z; count : Z }.

Record PhysMemManager := mkPMM {
  baseAddress : Z;
  pageSize : Z;
  memorySize : Z;
  nPages : Z;
  nAllocatedPages : Z;
  maxAllocatedPages : Z;
  holes : list Hole
}.

(** The constructor; [None] stands for a constructor that does not
    return: the division by a [pageSize] of zero in the initialiser list,
    the [std::runtime_error] of the 2 GiB circuit breaker, and the one of
    an [mmap] that fails, as it does for a length of zero.  For any other
    length [mmap], asked for [MAP_FIXED] at [physMemBase], is taken to
    succeed. *)
Definition create (pageSize memorySize : Z) : option PhysMemManager :=
  if pageSize =? 0 then None
  else if 2 * 1024 * 1024 * 1024 <? memorySize then None
  else if memorySize =? 0 then None
  else
    let nPages := memorySize / pageSize in
    Some (mkPMM physMemBase pageSize memorySize nPages 0 0
                [mkHole 0 nPages]).

(** [findFit]: the iterator is the position in the list together with
    the hole it points at; [None] is [holes.end()]. *)
Fixpoint findFit (hs : list Hole) (cnt : Z) : option (nat * Hole) :=
  match hs with
  | [] => None
  | h :: rest =>
      if cnt <=? count h then Some (0%nat, h)
      else match findFit rest cnt with
           | Some (i, h') => Some (S i, h')
           | None => None
           end
  end.

(** [holes.erase(it)] *)
Definition erase (hs : list Hole) (it : nat) : list Hole :=
  take it hs ++ drop (S it) hs.

(** [splitHole]: the hole is erased and what is left of it on either
    side of the allocation is put at the back of the list. *)
Definition splitHole (hs : list Hole) (it : nat) (original : Hole)
    (start cnt : Z) : list Hole :=
  let hs1 := erase hs it in
  let hs2 :=
    if startPage original <? start
    then hs1 ++ [mkHole (startPage original)
                        (wrap64 (start - startPage original))]
    else hs1 in
  let endPage := wrap64 (start + cnt) in
  let originalEndPage := wrap64 (startPage original + count original) in
  if endPage <? originalEndPage
  then hs2 ++ [mkHole endPage (wrap64 (originalEndPage - endPage))]
  else hs2.

Definition addHole (hs : list Hole) (start cnt : Z) : list Hole :=
  hs ++ [mkHole start cnt].

(** [holes.sort] with the comparison on [startPage]; [std::list::sort]
    is stable, as is this insertion sort. *)
Fixpoint insertHole (h : Hole) (hs : list Hole) : list Hole :=
  match hs with
  | [] => [h]
  | y :: ys =>
      if startPage y <? startPage h then y :: insertHole h ys
      else h :: y :: ys
  end.

Fixpoint sortHoles (hs : list Hole) : list Hole :=
  match hs with
  | [] => []
  | h :: rest => insertHole h (sortHoles rest)
  end.

(** The merging loop of [mergeHoles]: [cur] is [*it], [rest] what
    follows it. *)
Fixpoint mergeFrom (cur : Hole) (rest : list Hole) : list Hole :=
  match rest with
  | [] => [cur]
  | next :: rest' =>
      if wrap64 (startPage cur + count cur) =? startPage next
      then mergeFrom (mkHole (startPage cur)
                             (wrap64 (count cur + count next))) rest'
      else cur :: mergeFrom next rest'
  end.

Definition mergeHoles (hs : list Hole) : list Hole :=
  match sortHoles hs with
  | [] => []
  | h :: rest => mergeFrom h rest
  end.

(** [allocatePages(count, addr)]: the result, the value of the
    reference parameter [addr] afterwards, and the new state. *)
Definition allocatePages (m : PhysMemManager) (cnt : Z) (addr : Z)
    : bool * Z * PhysMemManager :=
  if nPages m <? wrap64 (nAllocatedPages m + cnt) then (false, addr, m)
  else
    match findFit (holes m) cnt with
    | None => (false, addr, m)
    | Some (it, h) =>
        let start := startPage h in
        let addr' := wrap64 (baseAddress m + start * pageSize m) in
        let hs := splitHole (holes m) it h start cnt in
        let n := wrap64 (nAllocatedPages m + cnt) in
        (true, addr',
         mkPMM (baseAddress m) (pageSize m) (memorySize m) (nPages m)
               n (Z.max (maxAllocatedPages m) n) hs)
    end.

Definition releasePages (m : PhysMemManager) (addr cnt : Z)
    : PhysMemManager :=
  let start := wrap64 (addr - baseAddress m) / pageSize m in
  let hs := mergeHoles (addHole (holes m) start cnt) in
  mkPMM (baseAddress m) (pageSize m) (memorySize m) (nPages m)
        (wrap64 (nAllocatedPages m - cnt)) (maxAllocatedPages m) hs.

Definition allReleased (m : PhysMemManager) : bool :=
  nAllocatedPages m =? 0.

Definition getMaxAllocatedPages (m : PhysMemManager) : Z :=
  maxAllocatedPages m.

End HoleList.

(** ** The bitmap allocator (os/physmemmanager.cc) *)

Module Bitmap.

Record PhysMemManager := mkPMM {
  baseAddress : Z;
  pageSize : Z;
  memorySize : Z;
  nPages : Z;
  nAllocatedPages : Z;
  maxAllocatedPages : Z;
  allocated : list bool
}.

(** The constructor, as that of the hole-list allocator: [None] for the
    division by a [pageSize] of zero, for the circuit breaker and for the
    [mmap] of a length of zero. *)
Definition create (pageSize memorySize : Z) : option PhysMemManager :=
  if pageSize =? 0 then None
  else if 2 * 1024 * 1024 * 1024 <? memorySize then None
  else if memorySize =? 0 then None
  else
    let nPages := memorySize / pageSize in
    Some (mkPMM physMemBase pageSize memorySize nPages 0 0
                (replicate (Z.to_nat nPages) false)).

(** [allocated[index]]; the loops below only read below [nPages]. *)
Definition isAllocated (bits : list bool) (index : Z) : bool :=
  match bits !! Z.to_nat index with
  | Some b => b
  | None => false
  end.

(** The inner [for] loop: it advances [index] while it is below both
    [limit] (that is [start + count]) and [nPages], and stops early on an
    allocated page.  The value is [index] when the loop is left. *)
Fixpoint probe (fuel : nat) (bits : list bool) (nPages limit index : Z) : Z :=
  match fuel with
  | O => index
  | S fuel' =>
      if (index <? limit) && (index <? nPages) then
        if isAllocated bits index then index
        else probe fuel' bits nPages limit (wrap64 (index + 1))
      else index
  end.

(** The outer [while] loop; the value is the start of the run found. *)
Fixpoint scan (fuel : nat) (bits : list bool) (nPages cnt index : Z)
    : option Z :=
  match fuel with
  | O => None
  | S fuel' =>
      if index <? nPages then
        if negb (isAllocated bits index) then
          let start := index in
          let limit := wrap64 (start + cnt) in
          let index' := probe (length bits) bits nPages limit index in
          if index' =? limit then Some start
          else scan fuel' bits nPages cnt (wrap64 (index' + 1))
        else scan fuel' bits nPages cnt (wrap64 (index + 1))
      else None
  end.

(** [for (i = lo; i < hi; ++i) allocated[i] = v] *)
Definition setRange (bits : list bool) (lo hi : Z) (v : bool) : list bool :=
  imap (fun i b => if (lo <=? Z.of_nat i) && (Z.of_nat i <? hi) then v else b)
       bits.

Definition allocatePages (m : PhysMemManager) (cnt : Z) (addr : Z)
    : bool * Z * PhysMemManager :=
  if nPages m <? wrap64 (nAllocatedPages m + cnt) then (false, addr, m)
  else
    match scan (S (length (allocated m))) (allocated m) (nPages m) cnt 0 with
    | None => (false, addr, m)
    | Some start =>
        let index := wrap64 (start + cnt) in
        let n := wrap64 (nAllocatedPages m + cnt) in
        (true, wrap64 (baseAddress m + start * pageSize m),
         mkPMM (baseAddress m) (pageSize m) (memorySize m) (nPages m)
               n (Z.max (maxAllocatedPages m) n)
               (setRange (allocated m) start index true))
    end.

(** [releasePages]; writing [allocated[i]] at or beyond [nPages] is
    undefined in the source and has no effect here. *)
Definition releasePages (m : PhysMemManager) (addr cnt : Z)
    : PhysMemManager :=
  let index := wrap64 (addr - baseAddress m) / pageSize m in
  mkPMM (baseAddress m) (pageSize m) (memorySize m) (nPages m)
        (wrap64 (nAllocatedPages m - cnt)) (maxAllocatedPages m)
        (setRange (allocated m) index (wrap64 (index + cnt)) false).

Definition allReleased (m : PhysMemManager) : bool :=
  nAllocatedPages m =? 0.

Definition getMaxAllocatedPages (m : PhysMemManager) : Z :=
  maxAllocatedPages m.

End Bitmap.

(** ** Scenario S5 on both allocators *)

Definition S5_pageSize : Z := 16384.

(** The address of a page of the memory of S5. *)
Definition S5_page (i : Z) : Z := physMemBase + i * S5_pageSize.

Definition S5_holelist : option (list Z * list HoleList.Hole) :=
  match HoleList.create S5_pageSize (30 * S5_pageSize) with
  | None => None
  | Some m0 =>
      let '(_, a0, m1) := HoleList.allocatePages m0 5 0 in
      let '(_, a1, m2) := HoleList.allocatePages m1 5 0 in
      let '(_, a2, m3) := HoleList.allocatePages m2 5 0 in
      let '(_, a3, m4) := HoleList.allocatePages m3 5 0 in
      let '(_, a4, m5) := HoleList.allocatePages m4 5 0 in
      let '(_, a5, m6) := HoleList.allocatePages m5 5 0 in
      let m7 := HoleList.releasePages m6 a0 5 in
      let m8 := HoleList.releasePages m7 a2 5 in
      let m9 := HoleList.releasePages m8 a4 5 in
      let '(_, b0, m10) := HoleList.allocatePages m9 3 0 in
      let '(_, b1, m11) := HoleList.allocatePages m10 2 0 in
      Some ([a0; a1; a2; a3; a4; a5; b0; b1], HoleList.holes m10)
  end.

Definition S5_bitmap : option (list Z) :=
  match Bitmap.create S5_pageSize (30 * S5_pageSize) with
  | None => None
  | Some m0 =>
      let '(_, a0, m1) := Bitmap.allocatePages m0 5 0 in
      let '(_, a1, m2) := Bitmap.allocatePages m1 5 0 in
      let '(_, a2, m3) := Bitmap.allocatePages m2 5 0 in
      let '(_, a3, m4) := Bitmap.allocatePages m3 5 0 in
      let '(_, a4, m5) := Bitmap.allocatePages m4 5 0 in
      let '(_, a5, m6) := Bitmap.allocatePages m5 5 0 in
      let m7 := Bitmap.releasePages m6 a0 5 in
      let m8 := Bitmap.releasePages m7 a2 5 in
      let m9 := Bitmap.releasePages m8 a4 5 in
      let '(_, b0, m10) := Bitmap.allocatePages m9 3 0 in
      let '(_, b1, m11) := Bitmap.allocatePages m10 2 0 in
      Some [a0; a1; a2; a3; a4; a5; b0; b1]
  end.

(** ** [std::list] with stable iterators

    A node keeps its identity from [push_front] until it is erased, and an
    iterator is the identity of the node it points at.  Using an iterator
    whose node is gone is undefined in C++: those operations return
    [None]. *)

Module StdList.
Section StdList.
Context {A : Type}.

Record t := mk { nodes : list (nat * A); fresh : nat }.

Definition empty : t := mk [] 0%nat.

Definition size (l : t) : Z := Z.of_nat (length (nodes l)).

Definition values (l : t) : list A := map snd (nodes l).

Definition push_front (x : A) (l : t) : t :=
  mk ((fresh l, x) :: nodes l) (S (fresh l)).

(** [begin()]; on an empty list it is [end()], an iterator to no node. *)
Definition begin (l : t) : nat :=
  match nodes l with
  | (i, _) :: _ => i
  | [] => fresh l
  end.

Definition deref (l : t) (it : nat) : option A :=
  match find (fun n => Nat.eqb (fst n) it) (nodes l) with
  | Some n => Some (snd n)
  | None => None
  end.

Definition unlink (it : nat) (ns : list (nat * A)) : list (nat * A) :=
  List.filter (fun n => negb (Nat.eqb (fst n) it)) ns.

Definition erase (l : t) (it : nat) : option t :=
  match deref l it with
  | Some _ => Some (mk (unlink it (nodes l)) (fresh l))
  | None => None
  end.

Definition back (l : t) : option A :=
  match last (nodes l) with
  | Some n => Some (snd n)
  | None => None
  end.

Definition pop_back (l : t) : option t :=
  match nodes l with
  | [] => None
  | _ :: _ => Some (mk (removelast (nodes l)) (fresh l))
  end.

(** [l.splice(l.begin(), l, it)]: the node of [it] moves to the front and
    keeps its identity. *)
Definition splice_front (l : t) (it : nat) : option t :=
  match deref l it with
  | Some x => Some (mk ((it, x) :: unlink it (nodes l)) (fresh l))
  | None => None
  end.

Definition clear (l : t) : t := mk [] (fresh l).

End StdList.
Arguments t : clear implicits.
End StdList.

(** ** The instance-scoped TLB (tlb.h and its implementation) *)

Module Tlb.

Record TLBEntry := mkEntry {
  virtualAddress : Z;
  physicalAddress : Z;
  asid : Z
}.

Record TLB := mkTLB {
  numEntries : Z;
  entries : StdList.t TLBEntry;
  cache : gmap Z nat
}.

Definition create (numEntries : Z) : TLB := mkTLB numEntries StdList.empty ∅.

Definition addEntry (t : TLB) (va pa a : Z) : option TLB :=
  t1 ← match cache t !! va with
       | Some it =>
           es ← StdList.erase (entries t) it;
           Some (mkTLB (numEntries t) es (delete va (cache t)))
       | None => Some t
       end;
  t2 ← (if StdList.size (entries t1) =? numEntries t1 then
          lst ← StdList.back (entries t1);
          es ← StdList.pop_back (entries t1);
          Some (mkTLB (numEntries t1) es
                      (delete (virtualAddress lst) (cache t1)))
        else Some t1);
  let es := StdList.push_front (mkEntry va pa a) (entries t2) in
  Some (mkTLB (numEntries t2) es (<[va := StdList.begin es]> (cache t2))).

(** [lookup(virtualAddress, physicalAddress, asid)]: the result, the
    reference parameter afterwards, and the new state. *)
Definition lookup (t : TLB) (va pa a : Z) : option (bool * Z * TLB) :=
  match cache t !! va with
  | Some it =>
      e ← StdList.deref (entries t) it;
      if asid e =? a then
        es ← StdList.splice_front (entries t) it;
        Some (true, physicalAddress e, mkTLB (numEntries t) es (cache t))
      else Some (false, pa, t)
  | None => Some (false, pa, t)
  end.

Definition flush (t : TLB) : TLB :=
  mkTLB (numEntries t) (StdList.clear (entries t)) ∅.

(** The loop of [flushASID] over the nodes, front to back. *)
Fixpoint flushASID_loop (ns : list (nat * TLBEntry)) (c : gmap Z nat) (a : Z)
    : list (nat * TLBEntry) * gmap Z nat :=
  match ns with
  | [] => ([], c)
  | n :: rest =>
      if asid (snd n) =? a
      then flushASID_loop rest (delete (virtualAddress (snd n)) c) a
      else let '(rest', c') := flushASID_loop rest c a in (n :: rest', c')
  end.

Definition flushASID (t : TLB) (a : Z) : TLB :=
  let '(ns, c) := flushASID_loop (StdList.nodes (entries t)) (cache t) a in
  mkTLB (numEntries t) (StdList.mk ns (StdList.fresh (entries t))) c.

(** Sequences of operations. *)
Inductive Op :=
| Add (va pa a : Z)
| Lookup (va a : Z)
| Flush
| FlushASID (a : Z).

Definition step (t : TLB) (o : Op) : option TLB :=
  match o with
  | Add va pa a => addEntry t va pa a
  | Lookup va a =>
      match lookup t va 0 a with
      | Some (_, _, t') => Some t'
      | None => None
      end
  | Flush => Some (flush t)
  | FlushASID a => Some (flushASID t a)
  end.

Fixpoint run (t : TLB) (ops : list Op) : option TLB :=
  match ops with
  | [] => Some t
  | o :: rest =>
      match step t o with
      | Some t' => run t' rest
      | None => None
      end
  end.

(** What a lookup answers, without the state: [Some pa] on a hit. *)
Definition answer (t : TLB) (va a : Z) : option Z :=
  match lookup t va 0 a with
  | Some (true, pa, _) => Some pa
  | _ => None
  end.

(** The cached translations, most recently used first. *)
Definition contents (t : TLB) : list TLBEntry := StdList.values (entries t).

End Tlb.

(** ** The TLB of mmu.cc, with its file-level state

    The entries, the LRU order, its index and the initialisation flag are
    file-level [static] variables: every [TLB] object works on the same
    ones.  An object owns its capacity and its counters.  The constructor
    initialises a member [currentASID] to zero, so the class, whose
    declaration is not among the sources, has a member of that name; in the
    member functions the plain name [currentASID] denotes this member, and
    the file-level variable of the same name is only written by
    [MMU::setCurrentASID].  The counters are [int]s; they are counted in [Z]
    here, which is what the program does until one of them passes
    [INT_MAX], from where on the program is undefined. *)

Module MmuTlb.

Record TLBEntry := mkEntry {
  vPage : Z;
  pPage : Z;
  asid : Z;
  valid : bool
}.

(** [TLBEntry()] *)
Definition noEntry : TLBEntry := mkEntry 0 0 0 false.

(** The file-level variables. *)
Record Statics := mkStatics {
  tlbEntries : list TLBEntry;
  lruOrder : StdList.t nat;
  lruMap : gmap nat nat;
  tlbInitialized : bool;
  static_currentASID : Z
}.

Definition statics0 : Statics := mkStatics [] StdList.empty ∅ false 0.

(** One [TLB] object. *)
Record TLB := mkTLB {
  nEntries : nat;
  nLookups : Z;
  nHits : Z;
  nEvictions : Z;
  nFlush : Z;
  nFlushEvictions : Z;
  currentASID : Z
}.

Definition create (nEntries : nat) : TLB := mkTLB nEntries 0 0 0 0 0 0.

(** [tlbEntries.resize(n)] *)
Definition resize (v : list TLBEntry) (n : nat) : list TLBEntry :=
  take n v ++ replicate (n - length v) noEntry.

(** The [for] loop of [lookup]: the first slot below [nEntries], from [i]
    on, that holds a valid entry for the page and the ASID.  The outer
    [None] is a read beyond the end of the vector. *)
Fixpoint findEntry (n : nat) (v : list TLBEntry) (i : nat) (vp a : Z)
    : option (option (nat * TLBEntry)) :=
  match n with
  | O => Some None
  | S n' =>
      match v !! i with
      | None => None
      | Some e =>
          if valid e && (vPage e =? vp) && (asid e =? a) then Some (Some (i, e))
          else findEntry n' v (S i) vp a
      end
  end.

(** [lruOrder.push_front(i); lruMap[i] = lruOrder.begin()] *)
Definition touch (s : Statics) (i : nat) : Statics :=
  let order := StdList.push_front i (lruOrder s) in
  mkStatics (tlbEntries s) order (<[i := StdList.begin order]> (lruMap s))
            (tlbInitialized s) (static_currentASID s).

Definition setEntries (s : Statics) (v : list TLBEntry) : Statics :=
  mkStatics v (lruOrder s) (lruMap s) (tlbInitialized s) (static_currentASID s).

Definition setOrder (s : Statics) (o : StdList.t nat) (m : gmap nat nat)
    : Statics :=
  mkStatics (tlbEntries s) o m (tlbInitialized s) (static_currentASID s).

Definition countLookup (t : TLB) (hit : bool) : TLB :=
  mkTLB (nEntries t) (nLookups t + 1) (if hit then nHits t + 1 else nHits t)
        (nEvictions t) (nFlush t) (nFlushEvictions t) (currentASID t).

(** [lookup(vPage, pPage)]: the result, the reference parameter
    afterwards, the file-level state and the object. *)
Definition lookup (s : Statics) (t : TLB) (vp pp : Z)
    : option (bool * Z * Statics * TLB) :=
  if negb (tlbInitialized s) then
    Some (false, pp,
          mkStatics (resize (tlbEntries s) (nEntries t)) (lruOrder s)
                    (lruMap s) true (static_currentASID s),
          countLookup t false)
  else
    found ← findEntry (nEntries t) (tlbEntries s) 0 vp (currentASID t);
    match found with
    | Some (i, e) =>
        order ← match lruMap s !! i with
                | Some it => StdList.erase (lruOrder s) it
                | None => Some (lruOrder s)
                end;
        Some (true, pPage e, touch (setOrder s order (lruMap s)) i,
              countLookup t true)
    | None => Some (false, pp, s, countLookup t false)
    end.

(** The first loop of [add]: the first slot below [nEntries] that is not
    valid. *)
Fixpoint findEmpty (n : nat) (v : list TLBEntry) (i : nat)
    : option (option nat) :=
  match n with
  | O => Some None
  | S n' =>
      match v !! i with
      | None => None
      | Some e => if negb (valid e) then Some (Some i)
                  else findEmpty n' v (S i)
      end
  end.

Definition add (s : Statics) (t : TLB) (vp pp : Z) : option (Statics * TLB) :=
  let s :=
    if negb (tlbInitialized s) then
      mkStatics (resize (tlbEntries s) (nEntries t)) (lruOrder s) (lruMap s)
                true (static_currentASID s)
    else s in
  empty ← findEmpty (nEntries t) (tlbEntries s) 0;
  '(replaceIndex, s, t) ←
    match empty with
    | Some i => Some (i, s, t)
    | None =>
        let t' := mkTLB (nEntries t) (nLookups t) (nHits t) (nEvictions t + 1)
                        (nFlush t) (nFlushEvictions t) (currentASID t) in
        match StdList.back (lruOrder s) with
        | Some victim =>
            order ← StdList.pop_back (lruOrder s);
            Some (victim, setOrder s order (delete victim (lruMap s)), t')
        | None => Some (0%nat, s, t')
        end
    end;
  if decide (replaceIndex < length (tlbEntries s))%nat then
    Some (touch (setEntries s (<[replaceIndex := mkEntry vp pp (currentASID t) true]>
                                 (tlbEntries s)))
                replaceIndex, t)
  else None.

(** The two loops of [flush] over the slots below [nEntries]. *)
Fixpoint countValid (n : nat) (v : list TLBEntry) (i : nat) : option Z :=
  match n with
  | O => Some 0
  | S n' =>
      e ← v !! i;
      c ← countValid n' v (S i);
      Some (if valid e then 1 + c else c)
  end.

Fixpoint invalidate (n : nat) (v : list TLBEntry) (i : nat)
    : option (list TLBEntry) :=
  match n with
  | O => Some v
  | S n' =>
      e ← v !! i;
      invalidate n' (<[i := mkEntry (vPage e) (pPage e) (asid e) false]> v) (S i)
  end.

Definition flush (s : Statics) (t : TLB) : option (Statics * TLB) :=
  let t1 := mkTLB (nEntries t) (nLookups t) (nHits t) (nEvictions t)
                  (nFlush t + 1) (nFlushEvictions t) (currentASID t) in
  if negb (tlbInitialized s) then Some (s, t1)
  else
    validCount ← countValid (nEntries t) (tlbEntries s) 0;
    v ← invalidate (nEntries t) (tlbEntries s) 0;
    Some (mkStatics v (StdList.clear (lruOrder s)) ∅ (tlbInitialized s)
                    (static_currentASID s),
          mkTLB (nEntries t) (nLookups t) (nHits t) (nEvictions t)
                (nFlush t + 1) (nFlushEvictions t + validCount)
                (currentASID t)).

(** [clear]: a flush, then the counters are set to zero. *)
Definition clear (s : Statics) (t : TLB) : option (Statics * TLB) :=
  '(s', t') ← flush s t;
  Some (s', mkTLB (nEntries t') 0 0 0 0 0 (currentASID t')).

Definition getStatistics (t : TLB) : Z * Z * Z * Z * Z :=
  (nLookups t, nHits t, nEvictions t, nFlush t, nFlushEvictions t).

(** Two objects [A] and [B] in one program: the operations of either work
    on the one set of file-level variables. *)
Record Program := mkProgram { statics : Statics; tlbA : TLB; tlbB : TLB }.

Inductive Op :=
| Add (vp pp : Z)
| Lookup (vp : Z)
| Flush.

(** An operation on object [A]. *)
Definition stepA (p : Program) (o : Op) : option Program :=
  match o with
  | Add vp pp =>
      '(s, a) ← add (statics p) (tlbA p) vp pp; Some (mkProgram s a (tlbB p))
  | Lookup vp =>
      '(_, _, s, a) ← lookup (statics p) (tlbA p) vp 0;
      Some (mkProgram s a (tlbB p))
  | Flush =>
      '(s, a) ← flush (statics p) (tlbA p); Some (mkProgram s a (tlbB p))
  end.

Fixpoint runA (p : Program) (ops : list Op) : option Program :=
  match ops with
  | [] => Some p
  | o :: rest => p' ← stepA p o; runA p' rest
  end.

(** What object [B] reports for a lookup now: hit and page, and its
    statistics afterwards. *)
Definition observeB (p : Program) (vp : Z)
    : option (bool * Z * (Z * Z * Z * Z * Z)) :=
  '(hit, pp, _, b) ← lookup (statics p) (tlbB p) vp 0;
  Some (hit, pp, getStatistics b).

End MmuTlb.

(** ** AArch64: four-level tables with a 16 KiB granule (aarch64.h) *)

Module AArch64.

Definition addressSpaceBits : Z := 48.
Definition pageBits : Z := 14.
Definition pageSize : Z := Z.shiftl 1 pageBits.

Definition L0_BITS : Z := 1.
Definition L1_BITS : Z := 11.
Definition L2_BITS : Z := 11.
Definition L3_BITS : Z := 11.

Definition L0_ENTRIES : Z := Z.shiftl 1 L0_BITS.
Definition L1_ENTRIES : Z := Z.shiftl 1 L1_BITS.
Definition L2_ENTRIES : Z := Z.shiftl 1 L2_BITS.
Definition L3_ENTRIES : Z := Z.shiftl 1 L3_BITS.

Definition L0_INDEX (vaddr : Z) : Z :=
  Z.land (Z.shiftr vaddr (L1_BITS + L2_BITS + L3_BITS + pageBits))
         (Z.shiftl 1 L0_BITS - 1).
Definition L1_INDEX (vaddr : Z) : Z :=
  Z.land (Z.shiftr vaddr (L2_BITS + L3_BITS + pageBits))
         (Z.shiftl 1 L1_BITS - 1).
Definition L2_INDEX (vaddr : Z) : Z :=
  Z.land (Z.shiftr vaddr (L3_BITS + pageBits)) (Z.shiftl 1 L2_BITS - 1).
Definition L3_INDEX (vaddr : Z) : Z :=
  Z.land (Z.shiftr vaddr pageBits) (Z.shiftl 1 L3_BITS - 1).

Definition pageTableAlign : Z := pageSize.

(** [SimpleTableEntry]: a 64-bit word of bit-fields.  The code reads and
    writes the fields by name only; a field of [n] bits keeps the low [n]
    bits of what is assigned to it. *)
Record SimpleTableEntry := mkEntry {
  valid : bool;
  type_ : bool;
  reserved : Z;
  physicalPageNum : Z;
  referenced : bool;
  dirty : bool;
  padding : Z
}.

Definition sizeofEntry : Z := 8.

Definition zeroEntry : SimpleTableEntry := mkEntry false false 0 0 false false 0.

(** Memory as the tables see it: the entry at each byte address.  All
    tables are aligned to 16 KiB, so that entries never overlap in part. *)
Definition Memory : Type := Z -> SimpleTableEntry.

Definition store (m : Memory) (a : Z) (e : SimpleTableEntry) : Memory :=
  fun a' => if a' =? a then e else m a'.

(** [memset(p, 0, size)] *)
Definition memset0 (m : Memory) (p size : Z) : Memory :=
  fun a => if (p <=? a) && (a <? p + size) then zeroEntry else m a.

(** [&table[idx]] *)
Definition slot (table idx : Z) : Z := table + sizeofEntry * idx.

Definition initTableEntry (address : Z) (isTable : bool) : SimpleTableEntry :=
  mkEntry true isTable 0 (Z.shiftr address pageBits mod 2 ^ 34) false false 0.

Definition getAddress (e : SimpleTableEntry) : Z :=
  Z.shiftl (physicalPageNum e) pageBits.

Definition setReferenced (e : SimpleTableEntry) : SimpleTableEntry :=
  mkEntry (valid e) (type_ e) (reserved e) (physicalPageNum e) true (dirty e)
          (padding e).

Definition setDirty (e : SimpleTableEntry) : SimpleTableEntry :=
  mkEntry (valid e) (type_ e) (reserved e) (physicalPageNum e) (referenced e)
          true (padding e).

Definition setValid (e : SimpleTableEntry) (v : bool) : SimpleTableEntry :=
  mkEntry v (type_ e) (reserved e) (physicalPageNum e) (referenced e)
          (dirty e) (padding e).

(** *** The walker, [AArch64MMU::performTranslation]

    [root] is the member of the MMU.  The result is [None] for the
    exception on an unaligned root, and else the value returned, the
    reference parameter [pPage] afterwards and the memory afterwards. *)
Definition performTranslation (m : Memory) (root vPage pPage : Z)
    (isWrite : bool) : option (bool * Z * Memory) :=
  if negb (Z.land root (pageTableAlign - 1) =? 0) then None
  else
    let vAddr := wrap64 (Z.shiftl vPage pageBits) in
    let l0_idx := L0_INDEX vAddr in
    let l1_idx := L1_INDEX vAddr in
    let l2_idx := L2_INDEX vAddr in
    let l3_idx := L3_INDEX vAddr in
    let l0_table := root in
    let e0 := m (slot l0_table l0_idx) in
    if negb (valid e0) || negb (type_ e0) then Some (false, pPage, m)
    else
      let l1_table := Z.shiftl (physicalPageNum e0) pageBits in
      let e1 := m (slot l1_table l1_idx) in
      if negb (valid e1) || negb (type_ e1) then Some (false, pPage, m)
      else
        let l2_table := Z.shiftl (physicalPageNum e1) pageBits in
        let e2 := m (slot l2_table l2_idx) in
        if negb (valid e2) || negb (type_ e2) then Some (false, pPage, m)
        else
          let l3_table := Z.shiftl (physicalPageNum e2) pageBits in
          let e3 := m (slot l3_table l3_idx) in
          if negb (valid e3) then Some (false, pPage, m)
          else
            let m1 := store m (slot l3_table l3_idx) (setReferenced e3) in
            let m2 :=
              if isWrite
              then store m1 (slot l3_table l3_idx)
                         (setDirty (m1 (slot l3_table l3_idx)))
              else m1 in
            Some (true, physicalPageNum e3, m2).

(** The address of the L3 entry the walk of [vPage] reaches, when the three
    interior slots on the way are valid table descriptors. *)
Definition leafSlot (m : Memory) (root vPage : Z) : option Z :=
  let vAddr := wrap64 (Z.shiftl vPage pageBits) in
  let e0 := m (slot root (L0_INDEX vAddr)) in
  if valid e0 && type_ e0 then
    let e1 := m (slot (getAddress e0) (L1_INDEX vAddr)) in
    if valid e1 && type_ e1 then
      let e2 := m (slot (getAddress e1) (L2_INDEX vAddr)) in
      if valid e2 && type_ e2 then
        Some (slot (getAddress e2) (L3_INDEX vAddr))
      else None
    else None
  else None.

(** The walk of [vPage] misses: an interior slot is invalid or not a
    table, or the leaf is invalid. *)
Definition walkMisses (m : Memory) (root vPage : Z) : Prop :=
  match leafSlot m root vPage with
  | Some a => valid (m a) = false
  | None => True
  end.

(** *** The fixture of the unit tests: four tables and [setupValidMapping] *)

Record Fixture := mkFixture {
  l0_table : Z; l1_table : Z; l2_table : Z; l3_table : Z
}.

Definition setupValidMapping (f : Fixture) (m : Memory) (vPage pPage : Z)
    : Memory :=
  let vAddr := wrap64 (Z.shiftl vPage pageBits) in
  let link (m : Memory) (a : Z) (isTable : bool) (ppn : Z) : Memory :=
    let e := m a in
    store m a (mkEntry true isTable (reserved e) (ppn mod 2 ^ 34)
                       (referenced e) (dirty e) (padding e)) in
  let m := link m (slot (l0_table f) (L0_INDEX vAddr)) true
                (Z.shiftr (l1_table f) pageBits) in
  let m := link m (slot (l1_table f) (L1_INDEX vAddr)) true
                (Z.shiftr (l2_table f) pageBits) in
  let m := link m (slot (l2_table f) (L2_INDEX vAddr)) true
                (Z.shiftr (l3_table f) pageBits) in
  link m (slot (l3_table f) (L3_INDEX vAddr)) false pPage.

(** *** The kernel the driver is hosted by *)

(** Modelled from the spec: the kernel collaborator, the class [OSKernel]
    with [allocateMemory] and [releaseMemory], whose code is not among the
    sources.  It hands out regions and takes them back.  [pending] lists
    the addresses its next allocations return, [live] the regions handed
    out and not taken back; with nothing pending the allocation fails with
    an exception. *)
Record Kernel := mkKernel { pending : list Z; live : gset Z }.

Definition allocateMemory (k : Kernel) (size align : Z) : option (Z * Kernel) :=
  match pending k with
  | [] => None
  | p :: rest => Some (p, mkKernel rest ({[p]} ∪ live k))
  end.

Definition releaseMemory (k : Kernel) (p size : Z) : Kernel :=
  mkKernel (pending k) (live k ∖ {[p]}).

(** *** The driver, [AArch64MMUDriver] *)

Record PhysPage := mkPhysPage { addr : Z; driverData : Z }.

(** The driver object, the kernel its pointer refers to once
    [setHostKernel] has run, and the memory the tables are in. *)
Record Driver := mkDriver {
  pageTables : gmap Z Z;
  bytesAllocated : Z;
  kernel : option Kernel;
  mem : Memory
}.

Definition create (m : Memory) : Driver := mkDriver ∅ 0 None m.

(** What a call leaves behind: a value and a state, an exception thrown in
    a state, or undefined behaviour (a call through the null kernel
    pointer). *)
Inductive result (A : Type) :=
| Ok (a : A) (d : Driver)
| Throw (d : Driver)
| Undef.
Arguments Ok {A} a d.
Arguments Throw {A} d.
Arguments Undef {A}.

Definition M (A : Type) : Type := Driver -> result A.

Definition ret {A} (a : A) : M A := fun d => Ok a d.

Definition bind {A B} (c : M A) (f : A -> M B) : M B :=
  fun d => match c d with
           | Ok a d' => f a d'
           | Throw d' => Throw d'
           | Undef => Undef
           end.

Definition throw {A} : M A := fun d => Throw d.

Definition readEntry (a : Z) : M SimpleTableEntry := fun d => Ok (mem d a) d.

Definition writeEntry (a : Z) (e : SimpleTableEntry) : M unit :=
  fun d => Ok tt (mkDriver (pageTables d) (bytesAllocated d) (kernel d)
                           (store (mem d) a e)).

Notation "'let*' x ':=' c 'in' k" := (bind c (fun x => k))
  (at level 10, x name, c at level 100, k at level 200).
Notation "'do' c 'then' k" := (bind c (fun _ => k))
  (at level 10, c at level 100, k at level 200).

Definition setHostKernel (k : Kernel) : M unit :=
  fun d => Ok tt (mkDriver (pageTables d) (bytesAllocated d) (Some k) (mem d)).

Definition getPageSize : Z := pageSize.

(** [kernel->allocateMemory(size, pageTableAlign)], the addition to
    [bytesAllocated] and the [memset], as both allocation sites do them. *)
Definition allocateTable (size : Z) : M Z :=
  fun d =>
    match kernel d with
    | None => Undef
    | Some k =>
        match allocateMemory k size pageTableAlign with
        | None => Throw d
        | Some (table, k') =>
            Ok table (mkDriver (pageTables d)
                               (wrap64 (bytesAllocated d + size))
                               (Some k') (memset0 (mem d) table size))
        end
    end.

Definition allocatePageTableLevel : M Z :=
  allocateTable (L1_ENTRIES * sizeofEntry).

(** [releasePageTableLevel(table, level)], where [below] counts the levels
    under this one: [level = 3 - below]. *)
Fixpoint releasePageTableLevel (below : nat) (m : Memory) (table : Z)
    (k : Kernel) : Kernel :=
  if table =? 0 then k
  else
    let level := 3 - Z.of_nat below in
    let numEntries := if level =? 0 then L0_ENTRIES else L1_ENTRIES in
    let tableSize := numEntries * sizeofEntry in
    let k' :=
      match below with
      | O => k
      | S below' =>
          fold_left
            (fun k i =>
               let e := m (slot table (Z.of_nat i)) in
               if valid e && type_ e
               then releasePageTableLevel below' m (getAddress e) k
               else k)
            (seq 0 (Z.to_nat numEntries)) k
      end in
    releaseMemory k' table tableSize.
Arguments releasePageTableLevel : simpl never.

Definition getOrCreateTable (parent idx : Z) : M Z :=
  let* e := readEntry (slot parent idx) in
  if negb (valid e) then
    let* newTable := allocatePageTableLevel in
    do writeEntry (slot parent idx) (initTableEntry newTable true) then
    ret newTable
  else if type_ e then ret (getAddress e)
  else throw.

Definition allocatePageTable (PID : Z) : M unit :=
  let* l0_table := allocateTable (L0_ENTRIES * sizeofEntry) in
  fun d => Ok tt (mkDriver (<[PID := l0_table]> (pageTables d))
                           (bytesAllocated d) (kernel d) (mem d)).

Definition releasePageTable (PID : Z) : M unit :=
  fun d =>
    match pageTables d !! PID with
    | Some table =>
        match kernel d with
        | None => if table =? 0 then
                    Ok tt (mkDriver (delete PID (pageTables d))
                                    (bytesAllocated d) None (mem d))
                  else Undef
        | Some k =>
            Ok tt (mkDriver (delete PID (pageTables d)) (bytesAllocated d)
                            (Some (releasePageTableLevel 3 (mem d) table k))
                            (mem d))
        end
    | None => Ok tt d
    end.

Definition getPageTable (PID : Z) : M Z :=
  fun d => match pageTables d !! PID with
           | Some table => Ok table d
           | None => Ok 0 d
           end.

Definition setMapping (PID vAddr : Z) (pPage : PhysPage) : M PhysPage :=
  let vAddr := Z.land vAddr (Z.shiftl 1 addressSpaceBits - 1) in
  let l0_idx := L0_INDEX vAddr in
  let l1_idx := L1_INDEX vAddr in
  let l2_idx := L2_INDEX vAddr in
  let l3_idx := L3_INDEX vAddr in
  fun d =>
    match pageTables d !! PID with
    | None => Throw d
    | Some l0_table =>
        (let* l1_table := getOrCreateTable l0_table l0_idx in
         let* l2_table := getOrCreateTable l1_table l1_idx in
         let* l3_table := getOrCreateTable l2_table l2_idx in
         do writeEntry (slot l3_table l3_idx)
                       (initTableEntry (addr pPage) false) then
         ret (mkPhysPage (addr pPage) (slot l3_table l3_idx))) d
    end.

Definition setPageValid (pPage : PhysPage) (setting : bool) : M unit :=
  let entry := driverData pPage in
  if entry =? 0 then throw
  else
    let* e := readEntry entry in
    if negb (valid e) && setting then throw
    else writeEntry entry (setValid e setting).

Definition getBytesAllocated (d : Driver) : Z := bytesAllocated d.

(** Sequences of driver calls; a sequence ends at the first call that
    throws. *)
Inductive Op :=
| AllocatePageTable (PID : Z)
| ReleasePageTable (PID : Z)
| GetPageTable (PID : Z)
| SetMapping (PID vAddr : Z) (pPage : PhysPage)
| SetPageValid (pPage : PhysPage) (setting : bool).

Definition forget {A} (r : result A) : result unit :=
  match r with
  | Ok _ d => Ok tt d
  | Throw d => Throw d
  | Undef => Undef
  end.

Definition step (o : Op) : M unit :=
  fun d =>
    match o with
    | AllocatePageTable PID => allocatePageTable PID d
    | ReleasePageTable PID => releasePageTable PID d
    | GetPageTable PID => forget (getPageTable PID d)
    | SetMapping PID vAddr pPage => forget (setMapping PID vAddr pPage d)
    | SetPageValid pPage setting => setPageValid pPage setting d
    end.

Fixpoint run (ops : list Op) : M unit :=
  match ops with
  | [] => ret tt
  | o :: rest => do step o then run rest
  end.

End AArch64.

(** ** Vocabulary of the allocator properties *)

(** The hole-list allocator keeps its counters and hole sizes within the
    memory it manages, which the constructor limits to 2 GiB. *)
Definition holes_bounded (m : HoleList.PhysMemManager) : Prop :=
  0 <= HoleList.nAllocatedPages m <= HoleList.nPages m /\
  HoleList.nPages m <= 2 ^ 31 /\
  Forall (fun h => HoleList.count h <= HoleList.nPages m) (HoleList.holes m).

(** Some hole has at least [cnt] pages. *)
Definition hole_fits (m : HoleList.PhysMemManager) (cnt : Z) : Prop :=
  exists h, In h (HoleList.holes m) /\ cnt <= HoleList.count h.

Definition hole_pages (hs : list HoleList.Hole) : Z :=
  foldr (fun h acc => HoleList.count h + acc) 0 hs.

(** The unit test [out_of_memory]: a memory of 10 pages, all allocated. *)
Definition full10 : HoleList.PhysMemManager :=
  HoleList.mkPMM physMemBase 4096 (10 * 4096) 10 10 10 [].

(** The bitmap has one bit per page and the counters are within range. *)
Definition bitmap_bounded (m : Bitmap.PhysMemManager) : Prop :=
  0 <= Bitmap.nAllocatedPages m <= Bitmap.nPages m /\
  Bitmap.nPages m <= 2 ^ 31 /\
  length (Bitmap.allocated m) = Z.to_nat (Bitmap.nPages m).

(** A run of free pages starts at the free page [start] and has at least
    [cnt] pages. *)
Definition freeRun (bits : list bool) (nPages start cnt : Z) : Prop :=
  0 <= start < nPages /\
  Bitmap.isAllocated bits start = false /\
  forall i, 0 <= i < cnt ->
    start + i < nPages /\ Bitmap.isAllocated bits (start + i) = false.

Definition run_fits (m : Bitmap.PhysMemManager) (cnt : Z) : Prop :=
  exists start, freeRun (Bitmap.allocated m) (Bitmap.nPages m) start cnt.

(** ** Vocabulary of the TLB properties *)

(** The TLB as the specification words it: a sequence of entries, most
    recently used first, with one entry per virtual page at most. *)
Module TlbSpec.

Definition otherPage (va : Z) (e : Tlb.TLBEntry) : bool :=
  negb (Tlb.virtualAddress e =? va).

(** [add]: an entry for the page is removed first; if the sequence is full
    the last entry is evicted; the new entry goes to the front. *)
Definition add (N : Z) (es : list Tlb.TLBEntry) (va pa a : Z)
    : list Tlb.TLBEntry :=
  let es1 := List.filter (otherPage va) es in
  let es2 := if Z.of_nat (length es1) =? N then removelast es1 else es1 in
  Tlb.mkEntry va pa a :: es2.

(** [lookup]: a hit needs the page and the ASID to match; the entry hit
    moves to the front. *)
Definition lookup (es : list Tlb.TLBEntry) (va a : Z)
    : option Z * list Tlb.TLBEntry :=
  match List.find (fun e => Tlb.virtualAddress e =? va) es with
  | Some e =>
      if Tlb.asid e =? a
      then (Some (Tlb.physicalAddress e), e :: List.filter (otherPage va) es)
      else (None, es)
  | None => (None, es)
  end.

Definition flush_asid (es : list Tlb.TLBEntry) (a : Z) : list Tlb.TLBEntry :=
  List.filter (fun e => negb (Tlb.asid e =? a)) es.

Definition step (N : Z) (es : list Tlb.TLBEntry) (o : Tlb.Op)
    : list Tlb.TLBEntry :=
  match o with
  | Tlb.Add va pa a => add N es va pa a
  | Tlb.Lookup va a => snd (lookup es va a)
  | Tlb.Flush => []
  | Tlb.FlushASID a => flush_asid es a
  end.

End TlbSpec.

(** What ties the list of nodes and the index of a [Tlb.TLB] together. *)
Record tlb_inv (t : Tlb.TLB) : Prop := mk_tlb_inv {
  inv_ids : NoDup (map fst (StdList.nodes (Tlb.entries t)));
  inv_fresh : forall n, In n (StdList.nodes (Tlb.entries t)) ->
                (fst n < StdList.fresh (Tlb.entries t))%nat;
  inv_index : forall n, In n (StdList.nodes (Tlb.entries t)) ->
                Tlb.cache t !! Tlb.virtualAddress (snd n) = Some (fst n);
  inv_nodes : forall va it, Tlb.cache t !! va = Some it ->
                exists e, In (it, e) (StdList.nodes (Tlb.entries t)) /\
                          Tlb.virtualAddress e = va;
  inv_size : StdList.size (Tlb.entries t) <= Tlb.numEntries t
}.

(** The entry [(va, pa, a)] is cached. *)
Definition cached (t : Tlb.TLB) (va pa a : Z) : Prop :=
  In (Tlb.mkEntry va pa a) (Tlb.contents t).

(** The operation takes the entry of page [va] under ASID [a] out, whatever
    the state: a later [add] on the page, a flush, a flush of the ASID. *)
Definition supersedes (o : Tlb.Op) (va a : Z) : Prop :=
  match o with
  | Tlb.Add va' _ _ => va' = va
  | Tlb.Lookup _ _ => False
  | Tlb.Flush => True
  | Tlb.FlushASID a' => a' = a
  end.

(** The operation evicts the entry of page [va] by LRU replacement: it adds
    another page that is not cached while the TLB is full and the entry of
    [va] is the last one. *)
Definition evicts (t : Tlb.TLB) (o : Tlb.Op) (va : Z) : Prop :=
  match o with
  | Tlb.Add va' _ _ =>
      va' <> va /\
      ~ In va' (map Tlb.virtualAddress (Tlb.contents t)) /\
      Z.of_nat (length (Tlb.contents t)) = Tlb.numEntries t /\
      exists e, last (Tlb.contents t) = Some e /\ Tlb.virtualAddress e = va
  | _ => False
  end.

(** The entry of page [va] under ASID [a], cached in [t], is still there
    after the operations [ops]. *)
Fixpoint survives (t : Tlb.TLB) (va a : Z) (ops : list Tlb.Op) : Prop :=
  match ops with
  | [] => True
  | o :: rest =>
      ~ supersedes o va a /\ ~ evicts t o va /\
      match Tlb.step t o with
      | Some t' => survives t' va a rest
      | None => False
      end
  end.

(** ** Vocabulary of the page-table properties *)

(** The fixture of the unit tests with its four tables at consecutive
    pages, in a memory that is zero everywhere. *)
Definition S2_fixture : AArch64.Fixture :=
  AArch64.mkFixture 0x10000 0x14000 0x18000 0x1C000.

Definition zeroMemory : AArch64.Memory := fun _ => AArch64.zeroEntry.

Definition S2_memory : AArch64.Memory :=
  AArch64.setupValidMapping S2_fixture zeroMemory 0x12345 0xABCDE.

(** The state a call leaves behind, unless its behaviour is undefined. *)
Definition stateAfter {A} (r : AArch64.result A) : option AArch64.Driver :=
  match r with
  | AArch64.Ok _ d => Some d
  | AArch64.Throw d => Some d
  | AArch64.Undef => None
  end.

(** The size of a table of 2048 entries and of the two-entry root. *)
Definition tableBytes : Z := AArch64.L1_ENTRIES * AArch64.sizeofEntry.
Definition rootBytes : Z := AArch64.L0_ENTRIES * AArch64.sizeofEntry.

(** A driver with a kernel that has two addresses to hand out, and the
    same driver after [allocatePageTable 1]. *)
Definition S9_driver : AArch64.Driver :=
  AArch64.mkDriver ∅ 0 (Some (AArch64.mkKernel [0x10000; 0x14000] ∅))
                   zeroMemory.

(** ** Vocabulary of the properties of the TLB objects *)

(** Two TLB objects of four entries each at the start of a program. *)
Definition twoTlbs : MmuTlb.Program :=
  MmuTlb.mkProgram MmuTlb.statics0 (MmuTlb.create 4) (MmuTlb.create 4).

(** Two objects of the instance-scoped TLB; operations on the first. *)
Definition runFirst (p : Tlb.TLB * Tlb.TLB) (ops : list Tlb.Op)
    : option (Tlb.TLB * Tlb.TLB) :=
  match Tlb.run (fst p) ops with
  | Some t => Some (t, snd p)
  | None => None
  end.

(** A call adds at most [k] to [bytesAllocated] and takes nothing from it,
    in states where the counter cannot wrap around. *)
Definition grows {A} (k : Z) (c : AArch64.M A) : Prop :=
  forall d, 0 <= AArch64.bytesAllocated d ->
    AArch64.bytesAllocated d + k < 2 ^ 64 ->
    match stateAfter (c d) with
    | Some d' => AArch64.bytesAllocated d <= AArch64.bytesAllocated d'
                 <= AArch64.bytesAllocated d + k
    | None => True
    end.

(** A driver in which process 1 has its root at 0x10000, the only region
    the kernel has handed out; the kernel hands out 0x14000 next. *)
Definition S9_bound : AArch64.Driver :=
  AArch64.mkDriver {[1 := 0x10000]} 16
                   (Some (AArch64.mkKernel [0x14000] {[0x10000]})) zeroMemory.

(** The base of a table: a multiple of the page size within the 48-bit
    physical address space, and not null. *)
Definition tableAligned (T : Z) : Prop :=
  0 < T < 2 ^ 48 /\ T mod AArch64.pageSize = 0.

(** The number of entries of a table of a level. *)
Definition entriesAt (lv : nat) : Z :=
  match lv with
  | O => AArch64.L0_ENTRIES
  | S _ => AArch64.L1_ENTRIES
  end.

(** The contract of the kernel: what it is going to hand out are bases of
    tables, different from each other and from the regions that are
    live. *)
Definition kernel_sound (k : AArch64.Kernel) : Prop :=
  NoDup (AArch64.pending k) /\
  forall p, In p (AArch64.pending k) -> tableAligned p /\ p ∉ AArch64.live k.

(** The invariant of the driver.  [own] gives each table of the driver the
    process it belongs to and its level: the roots of the map are tables of
    level 0, and a valid entry of a table above level 3 is a table
    descriptor for a table of the same process one level down. *)
Record driver_wf (own : gmap Z (Z * nat)) (d : AArch64.Driver) : Prop :=
  mk_driver_wf {
  wf_kernel : exists k, AArch64.kernel d = Some k /\ kernel_sound k /\
                forall T, is_Some (own !! T) -> T ∈ AArch64.live k;
  wf_roots : forall PID root, AArch64.pageTables d !! PID = Some root ->
               own !! root = Some (PID, 0%nat);
  wf_tables : forall T PID lv, own !! T = Some (PID, lv) ->
                tableAligned T /\ (lv <= 3)%nat;
  wf_children : forall T PID lv idx,
                  own !! T = Some (PID, lv) -> (lv < 3)%nat ->
                  0 <= idx < entriesAt lv ->
                  AArch64.valid (AArch64.mem d (AArch64.slot T idx)) = true ->
                  AArch64.type_ (AArch64.mem d (AArch64.slot T idx)) = true /\
                  own !! AArch64.getAddress (AArch64.mem d (AArch64.slot T idx))
                  = Some (PID, S lv)
}.

(** The handle of [setPageValid] refers to an entry. *)
Definition callable (o : AArch64.Op) : Prop :=
  match o with
  | AArch64.SetPageValid pPage _ =>
      AArch64.driverData pPage mod AArch64.sizeofEntry = 0
  | _ => True
  end.

(** The states of the driver: it starts with no table, bound to a kernel,
    in any memory; calls that return take it further; and the kernel may
    at any time decide anew what it hands out next, within its contract. *)
Inductive reachable : AArch64.Driver -> Prop :=
| reach_boot m k :
    kernel_sound k -> reachable (AArch64.mkDriver ∅ 0 (Some k) m)
| reach_call d o d' :
    reachable d -> callable o -> AArch64.step o d = AArch64.Ok tt d' ->
    reachable d'
| reach_kernel d k pend :
    reachable d -> AArch64.kernel d = Some k ->
    kernel_sound (AArch64.mkKernel pend (AArch64.live k)) ->
    reachable (AArch64.mkDriver (AArch64.pageTables d)
                 (AArch64.bytesAllocated d)
                 (Some (AArch64.mkKernel pend (AArch64.live k)))
                 (AArch64.mem d)).

(** A driver for the round trip: bound to a kernel with five bases to
    hand out, after [allocatePageTable 1]. *)
Definition S7_boot : AArch64.Driver :=
  AArch64.mkDriver ∅ 0
    (Some (AArch64.mkKernel [0x10000; 0x14000; 0x18000; 0x1C000; 0x20000] ∅))
    zeroMemory.

(** The entry at [a] is a valid table descriptor for the table at [T]. *)
Definition leadsTo (m : AArch64.Memory) (a T : Z) : Prop :=
  AArch64.valid (m a) = true /\ AArch64.type_ (m a) = true /\
  AArch64.getAddress (m a) = T.

(** The address with the bits above the address space cleared. *)
Definition maskAddress (vAddr : Z) : Z :=
  Z.land vAddr (Z.shiftl 1 AArch64.addressSpaceBits - 1).

(** The driver [S7_boot] after [allocatePageTable 1]. *)
Definition S7_driver : AArch64.Driver :=
  match AArch64.allocatePageTable 1 S7_boot with
  | AArch64.Ok _ d => d
  | _ => S7_boot
  end.

(** ** Vocabulary of the clients of the allocators *)

(** The interface of [PhysMemManager] (physmemmanager.h), which the
    hole-list and the bitmap allocator both implement. *)
Class PhysMem (M : Type) := {
  pmm_create : Z -> Z -> option M;
  pmm_allocatePages : M -> Z -> Z -> bool * Z * M;
  pmm_releasePages : M -> Z -> Z -> M;
  pmm_allReleased : M -> bool;
  pmm_getMaxAllocatedPages : M -> Z
}.

#[export] Instance holelist_PhysMem : PhysMem HoleList.PhysMemManager := {
  pmm_create := HoleList.create;
  pmm_allocatePages := HoleList.allocatePages;
  pmm_releasePages := HoleList.releasePages;
  pmm_allReleased := HoleList.allReleased;
  pmm_getMaxAllocatedPages := HoleList.getMaxAllocatedPages
}.

#[export] Instance bitmap_PhysMem : PhysMem Bitmap.PhysMemManager := {
  pmm_create := Bitmap.create;
  pmm_allocatePages := Bitmap.allocatePages;
  pmm_releasePages := Bitmap.releasePages;
  pmm_allReleased := Bitmap.allReleased;
  pmm_getMaxAllocatedPages := Bitmap.getMaxAllocatedPages
}.

(** A client as the unit test [stress_test_fragmentation] is one: it keeps
    the vector [allocations] of what it was given, address and size; it
    asks for pages and pushes what it gets, or it releases the allocation
    at an index of the vector and erases it. *)
Record Block := mkBlock { blockAddr : Z; blockCount : Z }.

Inductive Request :=
| Allocate (size : Z)
| Release (index : nat).

(** One round of the client; [None] when [index] is not an index of the
    vector. *)
Definition serve {M} `{PhysMem M} (st : M * list Block) (r : Request)
    : option (M * list Block) :=
  match r with
  | Allocate size =>
      let '(ok, addr, m') := pmm_allocatePages (fst st) size 0 in
      Some (m', if ok then snd st ++ [mkBlock addr size] else snd st)
  | Release index =>
      match snd st !! index with
      | Some b =>
          Some (pmm_releasePages (fst st) (blockAddr b) (blockCount b),
                delete index (snd st))
      | None => None
      end
  end.

Fixpoint serveAll {M} `{PhysMem M} (st : M * list Block) (rs : list Request)
    : option (M * list Block) :=
  match rs with
  | [] => Some st
  | r :: rest =>
      match serve st r with
      | Some st' => serveAll st' rest
      | None => None
      end
  end.

(** The sizes the test asks for are positive. *)
Definition positive (r : Request) : Prop :=
  match r with
  | Allocate size => 1 <= size < 2 ^ 64
  | Release _ => True
  end.

(** The number of pages the client holds. *)
Definition heldPages (held : list Block) : Z :=
  foldr (fun b acc => blockCount b + acc) 0 held.

(** The pages of a hole, and of a block of a memory at [base] with pages
    of [pageSize] bytes. *)
Definition holeEnd (h : HoleList.Hole) : Z :=
  HoleList.startPage h + HoleList.count h.

Definition covers (h : HoleList.Hole) (p : Z) : bool :=
  (HoleList.startPage h <=? p) && (p <? holeEnd h).

(** How many of the holes hold page [p]. *)
Definition cover (hs : list HoleList.Hole) (p : Z) : nat :=
  length (List.filter (fun h => covers h p) hs).

Definition blockPages (base pageSize : Z) (b : Block) : HoleList.Hole :=
  HoleList.mkHole (wrap64 (blockAddr b - base) / pageSize) (blockCount b).

(** Two blocks share no byte. *)
Definition blocksApart (pageSize : Z) (b1 b2 : Block) : Prop :=
  blockAddr b1 + blockCount b1 * pageSize <= blockAddr b2 \/
  blockAddr b2 + blockCount b2 * pageSize <= blockAddr b1.

(** A hole list in the form [mergeHoles] leaves it in: no hole is empty,
    and every hole ends at least one page before the next one starts. *)
Fixpoint gapped (hs : list HoleList.Hole) : Prop :=
  match hs with
  | [] => True
  | h :: rest =>
      0 < HoleList.count h /\
      match rest with
      | [] => True
      | h' :: _ => holeEnd h < HoleList.startPage h'
      end /\
      gapped rest
  end.

(** The holes lie within the [n] pages of the memory and are not empty. *)
Definition holes_within (n : Z) (hs : list HoleList.Hole) : Prop :=
  Forall (fun h => 0 <= HoleList.startPage h /\ 0 < HoleList.count h /\
                   holeEnd h <= n) hs.

(** What the hole-list allocator and its client keep between calls: the
    holes and the blocks held divide the pages of the memory among them,
    the counter is the number of pages held, and with nothing held there is
    one hole, the whole memory. *)
Record holelist_inv (m : HoleList.PhysMemManager) (held : list Block)
    : Prop := mk_holelist_inv {
  hi_pageSize : 0 < HoleList.pageSize m;
  hi_base : HoleList.baseAddress m = physMemBase;
  hi_nPages : 1 <= HoleList.nPages m /\
              HoleList.nPages m * HoleList.pageSize m <= 2 ^ 31;
  hi_holes : holes_within (HoleList.nPages m) (HoleList.holes m);
  hi_blocks : Forall (fun b => exists s,
                 blockAddr b = physMemBase + s * HoleList.pageSize m /\
                 0 <= s /\ 1 <= blockCount b /\
                 s + blockCount b <= HoleList.nPages m) held;
  hi_partition : forall p, 0 <= p < HoleList.nPages m ->
      cover (HoleList.holes m ++
             map (blockPages (HoleList.baseAddress m) (HoleList.pageSize m))
                 held) p = 1%nat;
  hi_count : HoleList.nAllocatedPages m = heldPages held;
  hi_free : hole_pages (HoleList.holes m) + HoleList.nAllocatedPages m
            = HoleList.nPages m;
  hi_max : HoleList.nAllocatedPages m <= HoleList.maxAllocatedPages m;
  hi_idle : held = [] ->
            HoleList.holes m = [HoleList.mkHole 0 (HoleList.nPages m)]
}.

(** The order [mergeHoles] sorts the holes in, and the order of holes that
    do not overlap. *)
Definition byStartPage (a b : HoleList.Hole) : Prop :=
  HoleList.startPage a <= HoleList.startPage b.

Definition holeBefore (a b : HoleList.Hole) : Prop :=
  holeEnd a <= HoleList.startPage b.

(** The largest number of pages the client has held at once, over the
    states it goes through from [st] on; [peak] is that number so far. *)
Fixpoint peakHeld {M} `{PhysMem M} (st : M * list Block) (rs : list Request)
    (peak : Z) : option Z :=
  match rs with
  | [] => Some peak
  | r :: rest =>
      match serve st r with
      | Some st' => peakHeld st' rest (Z.max peak (heldPages (snd st')))
      | None => None
      end
  end.

(** The unit test [multi_page_allocation]: a memory of 64 pages of 4096
    bytes, from which blocks of 5, 10 and 3 pages are allocated; the
    manager at the start, and the manager and the client afterwards. *)
Definition T64_boot : HoleList.PhysMemManager :=
  HoleList.mkPMM physMemBase 4096 (64 * 4096) 64 0 0 [HoleList.mkHole 0 64].

Definition T64_requests : list Request := [Allocate 5; Allocate 10; Allocate 3].

Definition T64_manager : HoleList.PhysMemManager :=
  HoleList.mkPMM physMemBase 4096 (64 * 4096) 64 18 18 [HoleList.mkHole 18 46].

Definition T64_held : list Block :=
  [mkBlock physMemBase 5; mkBlock (physMemBase + 5 * 4096) 10;
   mkBlock (physMemBase + 15 * 4096) 3].

(** The unit test [max_allocated_tracking]: a memory of 100 pages of 4096
    bytes; 10 and 20 pages are allocated, the first block is released and
    25 pages are allocated. *)
Definition T100_boot : HoleList.PhysMemManager :=
  HoleList.mkPMM physMemBase 4096 (100 * 4096) 100 0 0 [HoleList.mkHole 0 100].

Definition T100_requests : list Request :=
  [Allocate 10; Allocate 20; Release 0; Allocate 25].

(** The memory of 64 pages after blocks of 2, 5 and 3 pages were allocated
    and the first was released: a hole of 2 pages and the rest of the
    memory. *)
Definition T64_holes_requests : list Request :=
  [Allocate 2; Allocate 5; Allocate 3; Release 0].

Definition T64_holes_manager : HoleList.PhysMemManager :=
  HoleList.mkPMM physMemBase 4096 (64 * 4096) 64 8 10
                 [HoleList.mkHole 0 2; HoleList.mkHole 10 54].

Definition T64_holes_held : list Block :=
  [mkBlock (physMemBase + 2 * 4096) 5; mkBlock (physMemBase + 7 * 4096) 3].

(** What the bitmap allocator and its client keep between calls: the bit
    of a page is set exactly when a block the client holds has the page,
    no page is in two blocks, and the counter is the number of pages
    held. *)
Record bitmap_inv (m : Bitmap.PhysMemManager) (held : list Block)
    : Prop := mk_bitmap_inv {
  bi_pageSize : 0 < Bitmap.pageSize m;
  bi_base : Bitmap.baseAddress m = physMemBase;
  bi_nPages : 1 <= Bitmap.nPages m /\
              Bitmap.nPages m * Bitmap.pageSize m <= 2 ^ 31;
  bi_length : length (Bitmap.allocated m) = Z.to_nat (Bitmap.nPages m);
  bi_blocks : Forall (fun b => exists s,
                 blockAddr b = physMemBase + s * Bitmap.pageSize m /\
                 0 <= s /\ 1 <= blockCount b /\
                 s + blockCount b <= Bitmap.nPages m) held;
  bi_bits : forall p, 0 <= p < Bitmap.nPages m ->
      cover (map (blockPages (Bitmap.baseAddress m) (Bitmap.pageSize m)) held) p
      = if Bitmap.isAllocated (Bitmap.allocated m) p then 1%nat else 0%nat;
  bi_count : Bitmap.nAllocatedPages m = heldPages held;
  bi_bound : Bitmap.nAllocatedPages m <= Bitmap.nPages m;
  bi_max : Bitmap.nAllocatedPages m <= Bitmap.maxAllocatedPages m
}.

(** The bitmap allocator at the start of the unit test
    [multi_page_allocation], and after the three allocations. *)
Definition B64_boot : Bitmap.PhysMemManager :=
  Bitmap.mkPMM physMemBase 4096 (64 * 4096) 64 0 0 (replicate 64 false).

Definition B64_manager : Bitmap.PhysMemManager :=
  Bitmap.mkPMM physMemBase 4096 (64 * 4096) 64 18 18
               (replicate 18 true ++ replicate 46 false).

(** ** Vocabulary of the TLB of mmu.cc in the hands of one object *)

(** The entry answers a lookup of page [vp] under ASID [a]. *)
Definition tlbMatch (vp a : Z) (e : MmuTlb.TLBEntry) : bool :=
  MmuTlb.valid e && (MmuTlb.vPage e =? vp) && (MmuTlb.asid e =? a).

(** The LRU list and its index: the nodes have different identities and
    hold different slots, and the index maps a slot to its node. *)
Record lru_inv (o : StdList.t nat) (m : gmap nat nat) : Prop := mk_lru_inv {
  li_ids : NoDup (map fst (StdList.nodes o));
  li_fresh : forall x, In x (StdList.nodes o) -> (fst x < StdList.fresh o)%nat;
  li_slots : NoDup (StdList.values o);
  li_index : forall it i, In (it, i) (StdList.nodes o) <-> m !! i = Some it
}.

(** What the file-level state satisfies as long as one object of [n]
    slots works on it: the vector has [n] slots once it is initialised, and
    the LRU list holds the slots with a valid entry. *)
Record mmutlb_inv (n : nat) (s : MmuTlb.Statics) : Prop := mk_mmutlb_inv {
  mi_length : length (MmuTlb.tlbEntries s)
              = if MmuTlb.tlbInitialized s then n else 0%nat;
  mi_lru : lru_inv (MmuTlb.lruOrder s) (MmuTlb.lruMap s);
  mi_valid : forall i, In i (StdList.values (MmuTlb.lruOrder s)) <->
               exists e, MmuTlb.tlbEntries s !! i = Some e /\
                         MmuTlb.valid e = true
}.

(** The valid entries, most recently used first. *)
Definition recent (s : MmuTlb.Statics) : list MmuTlb.TLBEntry :=
  omap (fun i => MmuTlb.tlbEntries s !! i) (StdList.values (MmuTlb.lruOrder s)).

(** A program in which one object of [n] slots is used. *)
Definition oneTlb (n : nat) : MmuTlb.Program :=
  MmuTlb.mkProgram MmuTlb.statics0 (MmuTlb.create n) (MmuTlb.create n).

(** The start of [lookup] and of [add]: the first call gives the vector
    its slots. *)
Definition initialise (n : nat) (s : MmuTlb.Statics) : MmuTlb.Statics :=
  if negb (MmuTlb.tlbInitialized s) then
    MmuTlb.mkStatics (MmuTlb.resize (MmuTlb.tlbEntries s) n) (MmuTlb.lruOrder s)
                     (MmuTlb.lruMap s) true (MmuTlb.static_currentASID s)
  else s.

(** The object with one more eviction counted. *)
Definition countEviction (t : MmuTlb.TLB) : MmuTlb.TLB :=
  MmuTlb.mkTLB (MmuTlb.nEntries t) (MmuTlb.nLookups t) (MmuTlb.nHits t)
               (MmuTlb.nEvictions t + 1) (MmuTlb.nFlush t)
               (MmuTlb.nFlushEvictions t) (MmuTlb.currentASID t).

(** The number of valid entries of the vector. *)
Definition validEntries (s : MmuTlb.Statics) : Z :=
  Z.of_nat (length (List.filter MmuTlb.valid (MmuTlb.tlbEntries s))).

(** How many of the operations are adds, lookups and flushes. *)
Definition adds (ops : list MmuTlb.Op) : Z :=
  Z.of_nat (length (List.filter
    (fun o => match o with MmuTlb.Add _ _ => true | _ => false end) ops)).

Definition lookups (ops : list MmuTlb.Op) : Z :=
  Z.of_nat (length (List.filter
    (fun o => match o with MmuTlb.Lookup _ => true | _ => false end) ops)).

Definition flushes (ops : list MmuTlb.Op) : Z :=
  Z.of_nat (length (List.filter
    (fun o => match o with MmuTlb.Flush => true | _ => false end) ops)).

(** A TLB of two entries after two pages were added: both slots are in
    use, the second page is the more recent one. *)
Definition T2_ops : list MmuTlb.Op := [MmuTlb.Add 1 10; MmuTlb.Add 2 20].

Definition T2_program : MmuTlb.Program :=
  MmuTlb.mkProgram
    (MmuTlb.mkStatics [MmuTlb.mkEntry 1 10 0 true; MmuTlb.mkEntry 2 20 0 true]
                      (StdList.mk [(1, 1); (0, 0)]%nat 2%nat)
                      (<[1%nat := 1%nat]> (<[0%nat := 0%nat]> ∅)) true 0)
    (MmuTlb.create 2) (MmuTlb.create 2).

(** ** The MMU of mmu.cc over the walker of the AArch64 MMU *)

Module Mmu.

(** Modelled from the spec: the kinds of a memory access; the declaration
    of [MemAccess] (process.h) is not among the sources, the code names
    the kinds [Store] and [Modify] and the field [addr]. *)
Inductive MemAccessType := Load | Store | Modify | Execute.

Record MemAccess := mkAccess { addr : Z; type : MemAccessType }.

(** What a translation works on: the memory that holds the page tables,
    the file-level variables of the TLB, and the member [tlb]: [None] is
    the null pointer. *)
Record State := mkState {
  memory : AArch64.Memory;
  statics : MmuTlb.Statics;
  tlb : option MmuTlb.TLB
}.

Definition makePhysicalAddr (access : MemAccess) (pPage : Z) : Z :=
  let pAddr := wrap64 (Z.shiftl pPage AArch64.pageBits) in
  Z.lor pAddr (Z.land (addr access) (AArch64.pageSize - 1)).

(** The page of an access: the address without its sign extension,
    shifted by the page bits. *)
Definition pageOf (access : MemAccess) : Z :=
  let vAddr := Z.land (addr access)
                      (Z.shiftl 1 AArch64.addressSpaceBits - 1) in
  Z.shiftr vAddr AArch64.pageBits.

(** [isWrite] of [getTranslation]. *)
Definition isWrite (access : MemAccess) : bool :=
  match type access with
  | Store | Modify => true
  | _ => false
  end.

(** [getTranslation(access, pAddr)] with the walker of [AArch64MMU] on
    the table at [root]: the value returned, the reference parameter
    [pAddr] afterwards and the state; [None] where the walker throws or the
    TLB leaves its vector. *)
Definition getTranslation (root : Z) (st : State) (access : MemAccess)
    (pAddr : Z) : option (bool * Z * State) :=
  let vPage := pageOf access in
  let pPage := 0 in
  let isWrite := isWrite access in
  let looked : option (bool * Z * MmuTlb.Statics * option MmuTlb.TLB) :=
    match tlb st with
    | Some t =>
        match MmuTlb.lookup (statics st) t vPage pPage with
        | Some (hit, pPage, s1, t1) => Some (hit, pPage, s1, Some t1)
        | None => None
        end
    | None => Some (false, pPage, statics st, None)
    end in
  match looked with
  | None => None
  | Some (true, pPage, s1, t1) =>
      Some (true, makePhysicalAddr access pPage, mkState (memory st) s1 t1)
  | Some (false, pPage, s1, t1) =>
      match AArch64.performTranslation (memory st) root vPage pPage isWrite with
      | None => None
      | Some (true, pPage, m) =>
          let added : option (MmuTlb.Statics * option MmuTlb.TLB) :=
            match t1 with
            | Some t =>
                match MmuTlb.add s1 t vPage pPage with
                | Some (s2, t2) => Some (s2, Some t2)
                | None => None
                end
            | None => Some (s1, None)
            end in
          match added with
          | Some (s2, t2) =>
              Some (true, makePhysicalAddr access pPage, mkState m s2 t2)
          | None => None
          end
      | Some (false, _, m) => Some (false, pAddr, mkState m s1 t1)
      end
  end.

Definition flushTLB (st : State) : option State :=
  match tlb st with
  | Some t =>
      match MmuTlb.flush (statics st) t with
      | Some (s, t') => Some (mkState (memory st) s (Some t'))
      | None => None
      end
  | None => Some st
  end.

End Mmu.

(** The MMU with the TLB object of a program and the page tables in [m]. *)
Definition mmuOf (m : AArch64.Memory) (p : MmuTlb.Program) : Mmu.State :=
  Mmu.mkState m (MmuTlb.statics p) (Some (MmuTlb.tlbA p)).

(** The accesses of the examples: a load from and a store to page 0x12345,
    the page the fixture of the unit tests maps. *)
Definition S2_load : Mmu.MemAccess :=
  Mmu.mkAccess (Z.shiftl 0x12345 AArch64.pageBits + 0x10) Mmu.Load.

Definition S2_store : Mmu.MemAccess :=
  Mmu.mkAccess (Z.shiftl 0x12345 AArch64.pageBits + 0x2A8) Mmu.Store.

(** The counters of a [TLB] object are [int]s, and an [int] that passes
    [INT_MAX] is undefined behaviour; the model counts in [Z].  A run
    with no more than [INT_MAX] lookups, adds and flushes keeps every
    counter within an [int], so that the model counts as the program
    does. *)
Definition INT_MAX : Z := 2147483647.

Definition withinInt (ops : list MmuTlb.Op) : Prop :=
  lookups ops <= INT_MAX /\ adds ops <= INT_MAX /\ flushes ops <= INT_MAX.

Definition countersFit (t : MmuTlb.TLB) : Prop :=
  0 <= MmuTlb.nLookups t <= INT_MAX /\
  0 <= MmuTlb.nHits t <= INT_MAX /\
  0 <= MmuTlb.nEvictions t <= INT_MAX /\
  0 <= MmuTlb.nFlush t <= INT_MAX /\
  0 <= MmuTlb.nFlushEvictions t <= INT_MAX.

(** * Properties *)

(** ** Machine arithmetic *)

Lemma wrap64_small z : 0 <= z < 2 ^ 64 -> wrap64 z = z.
Proof. intros H. unfold wrap64. apply Z.mod_small. exact H. Qed.

Lemma wrap64_range z : 0 <= wrap64 z < 2 ^ 64.
Proof. unfold wrap64. apply Z.mod_pos_bound. lia. Qed.

Lemma wrap64_over z : 2 ^ 64 <= z < 2 * 2 ^ 64 -> wrap64 z = z - 2 ^ 64.
Proof.
  intros H. unfold wrap64.
  replace z with ((z - 2 ^ 64) + 1 * 2 ^ 64) at 1 by ring.
  rewrite Z.mod_add by lia. apply Z.mod_small. lia.
Qed.

(** ** The hole-list allocator *)

Section HoleListFacts.
Import HoleList.

Lemma findFit_None hs cnt :
  findFit hs cnt = None <-> Forall (fun h => count h < cnt) hs.
Proof.
  induction hs as [|h hs IH]; simpl.
  - split; [constructor | reflexivity].
  - destruct (Z.leb_spec cnt (count h)) as [Hle|Hlt].
    + split; [discriminate|]. intros HF. inversion HF; subst. lia.
    + destruct (findFit hs cnt) as [[i h']|] eqn:E.
      * split; [discriminate|]. intros HF. inversion HF; subst.
        apply IH in H2. discriminate.
      * split; [|reflexivity]. intros _. constructor; [lia|]. apply IH.
        reflexivity.
Qed.

Lemma findFit_Some hs cnt it h :
  findFit hs cnt = Some (it, h) ->
  hs !! it = Some h /\ cnt <= count h /\
  Forall (fun h' => count h' < cnt) (take it hs).
Proof.
  revert it. induction hs as [|x hs IH]; simpl; intros it; [discriminate|].
  destruct (Z.leb_spec cnt (count x)) as [Hle|Hlt].
  - intros [= <- <-]. simpl. repeat split; [lia | constructor].
  - destruct (findFit hs cnt) as [[i h']|] eqn:E; [|discriminate].
    intros [= <- <-]. destruct (IH i eq_refl) as (H1 & H2 & H3).
    simpl. repeat split; [assumption .. |]. constructor; [lia | assumption].
Qed.

Lemma allocatePages_false m cnt addr :
  fst (fst (allocatePages m cnt addr)) = false ->
  allocatePages m cnt addr = (false, addr, m).
Proof.
  unfold allocatePages.
  destruct (nPages m <? wrap64 (nAllocatedPages m + cnt)); [reflexivity|].
  destruct (findFit (holes m) cnt) as [[it h]|]; [|reflexivity].
  simpl. discriminate.
Qed.

Lemma allocatePages_code_iff m cnt addr :
  fst (fst (allocatePages m cnt addr)) = false <->
  nPages m < wrap64 (nAllocatedPages m + cnt) \/
  Forall (fun h => count h < cnt) (holes m).
Proof.
  unfold allocatePages.
  destruct (Z.ltb_spec (nPages m) (wrap64 (nAllocatedPages m + cnt))) as [H|H].
  - simpl. split; [intros _; left; exact H | reflexivity].
  - destruct (findFit (holes m) cnt) as [[it h]|] eqn:E; simpl.
    + split; [discriminate|]. intros [H'|H']; [lia|].
      apply findFit_None in H'. congruence.
    + split; [|reflexivity]. intros _. right. apply findFit_None. exact E.
Qed.

Lemma no_fit_iff m cnt :
  Forall (fun h => count h < cnt) (holes m) <-> ~ hole_fits m cnt.
Proof.
  unfold hole_fits. rewrite Forall_forall. split.
  - intros H (h & Hin & Hle). apply list_elem_of_In in Hin.
    specialize (H h Hin). simpl in H. lia.
  - intros H h Hin. destruct (Z.lt_ge_cases (count h) cnt) as [|Hge]; [assumption|].
    exfalso. apply H. exists h. split; [apply list_elem_of_In; exact Hin | lia].
Qed.

Lemma allocatePages_fails_iff m cnt addr :
  holes_bounded m -> 0 <= cnt < 2 ^ 64 ->
  fst (fst (allocatePages m cnt addr)) = false <->
  (nAllocatedPages m + cnt > nPages m \/ ~ hole_fits m cnt).
Proof.
  intros (Ha & Hn & Hh) Hc. rewrite allocatePages_code_iff, no_fit_iff.
  destruct (Z.lt_ge_cases (nAllocatedPages m + cnt) (2 ^ 64)) as [Hs|Hb].
  - rewrite wrap64_small by lia. split; (intros [H|H]; [left; lia | right; exact H]).
  - assert (Hno : ~ hole_fits m cnt).
    { intros (h & Hin & Hle). rewrite Forall_forall in Hh.
      apply list_elem_of_In in Hin. specialize (Hh h Hin). simpl in Hh. lia. }
    split; intros _; [left; lia | right; exact Hno].
Qed.

(** Sorting and merging keep every hole or enlarge it, as long as the
    sizes of the holes add up to less than [2^64]. *)

Lemma insertHole_In h x hs : In h (insertHole x hs) <-> h = x \/ In h hs.
Proof.
  induction hs as [|y ys IH]; simpl; [intuition congruence|].
  destruct (startPage y <? startPage x); simpl; [rewrite IH|];
    intuition congruence.
Qed.

Lemma sortHoles_In h hs : In h (sortHoles hs) <-> In h hs.
Proof.
  induction hs as [|x hs IH]; simpl; [tauto|].
  rewrite insertHole_In, IH. split; (intros [H|H]; [left; congruence | right; exact H]).
Qed.

Lemma insertHole_pages x hs :
  hole_pages (insertHole x hs) = count x + hole_pages hs.
Proof.
  induction hs as [|y ys IH]; simpl; [reflexivity|].
  destruct (startPage y <? startPage x); simpl; [rewrite IH; lia | reflexivity].
Qed.

Lemma sortHoles_pages hs : hole_pages (sortHoles hs) = hole_pages hs.
Proof.
  induction hs as [|x hs IH]; simpl; [reflexivity|].
  rewrite insertHole_pages, IH. reflexivity.
Qed.

Lemma hole_pages_nonneg hs :
  Forall (fun h => 0 <= count h) hs -> 0 <= hole_pages hs.
Proof. induction 1; simpl; lia. Qed.

Lemma mergeFrom_grows cur rest :
  0 <= count cur -> Forall (fun h => 0 <= count h) rest ->
  count cur + hole_pages rest < 2 ^ 64 ->
  forall h, In h (cur :: rest) ->
  exists h', In h' (mergeFrom cur rest) /\ count h <= count h'.
Proof.
  revert cur. induction rest as [|next rest IH]; intros cur Hc HF Hsum h Hin.
  - simpl in *. destruct Hin as [<-|[]]. exists cur. split; [left; reflexivity | lia].
  - inversion HF as [|? ? Hn HF']; subst. simpl in Hsum.
    pose proof (hole_pages_nonneg _ HF') as Hp.
    simpl. destruct (wrap64 (startPage cur + count cur) =? startPage next).
    + assert (Hw : wrap64 (count cur + count next) = count cur + count next)
        by (apply wrap64_small; lia).
      specialize (IH (mkHole (startPage cur) (wrap64 (count cur + count next)))).
      simpl in IH. rewrite Hw in IH. rewrite Hw.
      destruct Hin as [<-|[<-|Hin]].
      * destruct (IH ltac:(lia) HF' ltac:(lia) _ (or_introl eq_refl))
          as (h' & Hin' & Hle).
        exists h'. split; [exact Hin' | simpl in Hle; lia].
      * destruct (IH ltac:(lia) HF' ltac:(lia) _ (or_introl eq_refl))
          as (h' & Hin' & Hle).
        exists h'. split; [exact Hin' | simpl in Hle; lia].
      * apply (IH ltac:(lia) HF' ltac:(lia) h). right. exact Hin.
    + destruct Hin as [<-|Hin].
      * exists cur. split; [left; reflexivity | lia].
      * destruct (IH next Hn HF' ltac:(lia) h Hin) as (h' & Hin' & Hle).
        exists h'. split; [right; exact Hin' | exact Hle].
Qed.

Lemma mergeHoles_grows hs :
  Forall (fun h => 0 <= count h) hs -> hole_pages hs < 2 ^ 64 ->
  forall h, In h hs -> exists h', In h' (mergeHoles hs) /\ count h <= count h'.
Proof.
  intros HF Hsum h Hin. unfold mergeHoles.
  assert (HF' : Forall (fun h => 0 <= count h) (sortHoles hs)).
  { rewrite Forall_forall in *. intros x Hx. apply HF.
    apply list_elem_of_In. apply sortHoles_In. apply list_elem_of_In. exact Hx. }
  rewrite <- sortHoles_pages in Hsum. apply sortHoles_In in Hin.
  destruct (sortHoles hs) as [|c rest]; [destruct Hin|].
  inversion HF'; subst. simpl in Hsum.
  apply mergeFrom_grows; assumption.
Qed.

Lemma hole_pages_app hs1 hs2 :
  hole_pages (hs1 ++ hs2) = hole_pages hs1 + hole_pages hs2.
Proof. induction hs1 as [|h hs1 IH]; simpl; [reflexivity | rewrite IH; lia]. Qed.

Lemma releasePages_leaves_hole m addr k :
  Forall (fun h => 0 <= count h) (holes m) -> 0 <= k ->
  hole_pages (holes m) + k < 2 ^ 64 ->
  exists h, In h (holes (releasePages m addr k)) /\ k <= count h.
Proof.
  intros HF Hk Hsum. unfold releasePages, addHole. simpl.
  set (start := wrap64 (addr - baseAddress m) / pageSize m).
  apply (mergeHoles_grows (holes m ++ [mkHole start k])) with (h := mkHole start k).
  - apply Forall_app. split; [exact HF | constructor; [exact Hk | constructor]].
  - rewrite hole_pages_app. simpl. lia.
  - apply in_or_app. right. left. reflexivity.
Qed.

Lemma allocatePages_after_release m addr k cnt a :
  holes_bounded m ->
  Forall (fun h => 0 <= count h) (holes m) ->
  hole_pages (holes m) + k < 2 ^ 64 ->
  0 <= cnt <= k -> k <= nAllocatedPages m ->
  fst (fst (allocatePages (releasePages m addr k) cnt a)) = true.
Proof.
  intros (Ha & Hn & _) HF Hsum Hc Hk.
  destruct (releasePages_leaves_hole m addr k HF ltac:(lia) Hsum) as (h & Hin & Hle).
  destruct (fst (fst (allocatePages (releasePages m addr k) cnt a))) eqn:E;
    [reflexivity|].
  exfalso. apply allocatePages_code_iff in E. destruct E as [E|E].
  - simpl in E. rewrite (wrap64_small (nAllocatedPages m - k)) in E by lia.
    rewrite wrap64_small in E by lia. lia.
  - rewrite Forall_forall in E. apply list_elem_of_In in Hin.
    specialize (E h Hin). simpl in E. lia.
Qed.

End HoleListFacts.

(** ** The bitmap allocator *)

Section BitmapFacts.
Import Bitmap.

Variable bits : list bool.
Variable n : Z.
Hypothesis Hn : 0 <= n <= 2 ^ 31.
Hypothesis Hlen : length bits = Z.to_nat n.

Lemma probe_spec limit fuel index :
  0 <= index <= n -> (Z.to_nat (n - index) <= fuel)%nat ->
  let j := probe fuel bits n limit index in
  index <= j <= n /\
  (forall i, index <= i < j -> isAllocated bits i = false /\ i < limit) /\
  (limit <= j \/ n <= j \/ isAllocated bits j = true) /\
  (index <= limit -> j <= limit) /\
  (limit < index -> j = index).
Proof.
  revert index. induction fuel as [|fuel IH]; intros index Hi Hf; simpl.
  - assert (index = n) by lia. subst index.
    repeat split; intros; lia.
  - destruct (Z.ltb_spec index limit) as [Hl|Hl];
      destruct (Z.ltb_spec index n) as [Hlt|Hge]; simpl;
      try (repeat split; intros; lia).
    destruct (isAllocated bits index) eqn:Ea.
    + repeat split; intros; try lia. right. right. exact Ea.
    + rewrite wrap64_small by lia.
      destruct (IH (index + 1) ltac:(lia) ltac:(lia)) as (H1 & H2 & H3 & H4 & H5).
      repeat split; intros; try lia; try exact H3.
      destruct (Z.eq_dec i index) as [->|Hne]; [exact Ea|].
      apply H2. lia.
Qed.

Lemma probe_hit start cnt :
  0 <= cnt < 2 ^ 64 -> 0 <= start < n -> isAllocated bits start = false ->
  probe (length bits) bits n (wrap64 (start + cnt)) start = wrap64 (start + cnt)
  <-> freeRun bits n start cnt.
Proof.
  intros Hc Hs Hfree.
  destruct (probe_spec (wrap64 (start + cnt)) (length bits) start
              ltac:(lia) ltac:(lia)) as (H1 & H2 & H3 & H4 & H5).
  set (j := probe (length bits) bits n (wrap64 (start + cnt)) start) in *.
  split.
  - intros Hj. destruct (Z.lt_ge_cases (start + cnt) (2 ^ 64)) as [Hs'|Hw].
    + rewrite wrap64_small in Hj by lia.
      repeat split; try lia; try assumption.
      apply H2. lia.
    + rewrite wrap64_over in Hj by lia. lia.
  - intros (_ & _ & Hrun).
    assert (Hend : start + cnt <= n).
    { destruct (Z.eq_dec cnt 0) as [->|Hne]; [lia|].
      destruct (Hrun (cnt - 1) ltac:(lia)). lia. }
    rewrite wrap64_small in * by lia.
    destruct (Z.eq_dec j (start + cnt)) as [|Hne]; [assumption|].
    exfalso. specialize (H4 ltac:(lia)).
    destruct H3 as [H3|[H3|H3]]; try lia.
    destruct (Hrun (j - start) ltac:(lia)) as [_ Hf].
    replace (start + (j - start)) with j in Hf by ring. congruence.
Qed.

Lemma scan_spec cnt fuel index :
  0 <= cnt < 2 ^ 64 -> 0 <= index <= n + 1 ->
  (Z.to_nat (n - index) < fuel)%nat ->
  match scan fuel bits n cnt index with
  | Some s => index <= s /\ freeRun bits n s cnt /\
              forall s', index <= s' < s -> ~ freeRun bits n s' cnt
  | None => forall s', index <= s' -> ~ freeRun bits n s' cnt
  end.
Proof.
  intros Hc. revert index.
  induction fuel as [|fuel IH]; intros index Hi Hf; [lia|]. simpl.
  destruct (Z.ltb_spec index n) as [Hlt|Hge].
  2:{ intros s' Hs' (Hr & _). lia. }
  destruct (isAllocated bits index) eqn:Ea; simpl.
  - rewrite wrap64_small by lia.
    specialize (IH (index + 1) ltac:(lia) ltac:(lia)).
    assert (Hno : ~ freeRun bits n index cnt)
      by (intros (_ & Hfree & _); congruence).
    destruct (scan fuel bits n cnt (index + 1)) as [s|].
    + destruct IH as (H1 & H2 & H3). split; [lia | split; [exact H2 |]].
      intros s' Hs'. destruct (Z.eq_dec s' index) as [->|]; [exact Hno|].
      apply H3; lia.
    + intros s' Hs'. destruct (Z.eq_dec s' index) as [->|]; [exact Hno|].
      apply IH; lia.
  - pose proof (probe_hit index cnt Hc ltac:(lia) Ea) as Hhit.
    destruct (probe_spec (wrap64 (index + cnt)) (length bits) index
                ltac:(lia) ltac:(lia)) as (P1 & P2 & P3 & P4 & P5).
    set (j := probe (length bits) bits n (wrap64 (index + cnt)) index) in *.
    destruct (Z.eqb_spec j (wrap64 (index + cnt))) as [Hj|Hj].
    + split; [lia | split; [apply Hhit; exact Hj |]]. intros s' Hs'. lia.
    + rewrite wrap64_small by lia.
      assert (Hno : forall s', index <= s' <= j -> ~ freeRun bits n s' cnt).
      { intros s' Hs' Hrun.
        destruct (Z.eq_dec s' index) as [->|Hne];
          [apply Hj, Hhit, Hrun|].
        destruct Hrun as (Hr1 & Hr2 & Hr3).
        destruct (Z.lt_ge_cases (index + cnt) (2 ^ 64)) as [Hs|Hw].
        - rewrite wrap64_small in * by lia.
          destruct (Z.eq_dec s' j) as [->|Hne'].
          + destruct P3 as [P3|[P3|P3]]; [|lia|congruence].
            specialize (P4 ltac:(lia)). lia.
          + destruct (P2 s' ltac:(lia)) as [_ Hlim].
            specialize (P4 ltac:(lia)).
            destruct P3 as [P3|[P3|P3]]; [lia| |].
            * destruct (Hr3 (j - s') ltac:(lia)) as [Hb _]. lia.
            * destruct (Hr3 (j - s') ltac:(lia)) as [_ Hf'].
              replace (s' + (j - s')) with j in Hf' by ring. congruence.
        - rewrite wrap64_over in * by lia. specialize (P5 ltac:(lia)). lia. }
      specialize (IH (j + 1) ltac:(lia) ltac:(lia)).
      destruct (scan fuel bits n cnt (j + 1)) as [s|].
      * destruct IH as (H1 & H2 & H3). split; [lia | split; [exact H2 |]].
        intros s' Hs'. destruct (Z_le_gt_dec s' j); [apply Hno; lia|].
        apply H3; lia.
      * intros s' Hs'. destruct (Z_le_gt_dec s' j); [apply Hno; lia|].
        apply IH; lia.
Qed.

End BitmapFacts.

Section BitmapAllocator.
Import Bitmap.

Lemma bitmap_allocatePages_false m cnt addr :
  fst (fst (allocatePages m cnt addr)) = false ->
  allocatePages m cnt addr = (false, addr, m).
Proof.
  unfold allocatePages.
  destruct (nPages m <? wrap64 (nAllocatedPages m + cnt)); [reflexivity|].
  destruct (scan _ _ _ _ _); [|reflexivity].
  simpl. discriminate.
Qed.

Lemma freeRun_bound bits n start cnt :
  freeRun bits n start cnt -> 0 <= cnt -> start + cnt <= n.
Proof.
  intros (Hs & _ & Hrun) Hc.
  destruct (Z.eq_dec cnt 0) as [->|Hne]; [lia|].
  destruct (Hrun (cnt - 1) ltac:(lia)). lia.
Qed.

Lemma bitmap_allocatePages_code_iff m cnt addr :
  bitmap_bounded m -> 0 <= cnt < 2 ^ 64 ->
  fst (fst (allocatePages m cnt addr)) = false <->
  nPages m < wrap64 (nAllocatedPages m + cnt) \/ ~ run_fits m cnt.
Proof.
  intros (Ha & Hn & Hlen) Hc. unfold allocatePages.
  destruct (Z.ltb_spec (nPages m) (wrap64 (nAllocatedPages m + cnt))) as [H|H].
  - simpl. split; [intros _; left; exact H | reflexivity].
  - pose proof (scan_spec (allocated m) (nPages m) ltac:(lia) Hlen cnt
                  (S (length (allocated m))) 0 Hc ltac:(lia) ltac:(lia)) as Hscan.
    destruct (scan _ _ _ _ _) as [s|]; simpl.
    + split; [discriminate|]. intros [H'|H']; [lia|].
      exfalso. apply H'. exists s. apply Hscan.
    + split; [|reflexivity]. intros _. right. intros (s & Hrun).
      apply (Hscan s); [destruct Hrun; lia | exact Hrun].
Qed.

Lemma bitmap_allocatePages_fails_iff m cnt addr :
  bitmap_bounded m -> 0 <= cnt < 2 ^ 64 ->
  fst (fst (allocatePages m cnt addr)) = false <->
  (nAllocatedPages m + cnt > nPages m \/ ~ run_fits m cnt).
Proof.
  intros Hb Hc. rewrite (bitmap_allocatePages_code_iff m cnt addr Hb Hc).
  destruct Hb as (Ha & Hn & Hlen).
  destruct (Z.lt_ge_cases (nAllocatedPages m + cnt) (2 ^ 64)) as [Hs|Hw].
  - rewrite wrap64_small by lia. split; (intros [H|H]; [left; lia | right; exact H]).
  - assert (Hno : ~ run_fits m cnt).
    { intros (s & Hrun). pose proof (freeRun_bound _ _ _ _ Hrun ltac:(lia)).
      destruct Hrun. lia. }
    split; intros _; [left; lia | right; exact Hno].
Qed.

Lemma isAllocated_setRange bits lo hi v i :
  0 <= i ->
  isAllocated (setRange bits lo hi v) i =
  if (lo <=? i) && (i <? hi) && (i <? Z.of_nat (length bits)) then v
  else isAllocated bits i.
Proof.
  intros Hi. unfold isAllocated, setRange. rewrite list_lookup_imap.
  destruct (bits !! Z.to_nat i) as [b|] eqn:E; simpl.
  - apply lookup_lt_Some in E. rewrite Z2Nat.id by lia.
    destruct (Z.ltb_spec i (Z.of_nat (length bits))); [|lia].
    rewrite andb_true_r. reflexivity.
  - apply lookup_ge_None in E.
    destruct (Z.ltb_spec i (Z.of_nat (length bits))); [lia|].
    rewrite andb_false_r. reflexivity.
Qed.

Lemma bitmap_allocatePages_after_release m addr k cnt a :
  bitmap_bounded m ->
  let start := wrap64 (addr - baseAddress m) / pageSize m in
  0 <= start -> start + k <= nPages m ->
  0 <= cnt <= k -> 0 < k <= nAllocatedPages m ->
  fst (fst (allocatePages (releasePages m addr k) cnt a)) = true.
Proof.
  intros (Ha & Hn & Hlen) start Hs He Hc Hk.
  assert (Hb' : bitmap_bounded (releasePages m addr k)).
  { unfold bitmap_bounded, releasePages, setRange; simpl.
    rewrite wrap64_small by lia. rewrite length_imap. repeat split; try lia. }
  destruct (fst (fst (allocatePages (releasePages m addr k) cnt a))) eqn:E;
    [reflexivity|].
  assert (Hc' : 0 <= cnt < 2 ^ 64) by lia.
  exfalso. apply (bitmap_allocatePages_fails_iff _ cnt a Hb' Hc') in E.
  destruct E as [E|E].
  - simpl in E. rewrite wrap64_small in E by lia. lia.
  - apply E. exists start. unfold releasePages; simpl. fold start.
    rewrite wrap64_small by lia.
    assert (Hfree : forall i, start <= i < start + k ->
              isAllocated (setRange (allocated m) start (start + k) false) i = false).
    { intros i Hi. rewrite isAllocated_setRange by lia.
      destruct (Z.leb_spec start i); [|lia].
      destruct (Z.ltb_spec i (start + k)); [|lia].
      destruct (Z.ltb_spec i (Z.of_nat (length (allocated m)))); [reflexivity|lia]. }
    repeat split; try lia.
    + apply Hfree. lia.
    + apply Hfree. lia.
Qed.

End BitmapAllocator.

(** ** Lists with iterators *)

Section StdListFacts.
Context {A : Type}.
Implicit Types (l : StdList.t A) (ns : list (nat * A)).

Lemma deref_In l it x : StdList.deref l it = Some x -> In (it, x) (StdList.nodes l).
Proof.
  unfold StdList.deref.
  destruct (find _ _) as [[i y]|] eqn:E; [|discriminate].
  intros [= <-]. apply find_some in E. destruct E as [Hin Heq].
  simpl in Heq. apply Nat.eqb_eq in Heq. subst i. exact Hin.
Qed.

Lemma nodes_functional ns i x y :
  NoDup (map fst ns) -> In (i, x) ns -> In (i, y) ns -> x = y.
Proof.
  induction ns as [|[j z] ns IH]; simpl; intros Hnd Hx Hy; [contradiction|].
  apply NoDup_cons in Hnd. destruct Hnd as [Hnotin Hnd].
  assert (Hfst : forall w, In (j, w) ns -> False).
  { intros w Hw. apply Hnotin. apply list_elem_of_In.
    apply (in_map fst) in Hw. exact Hw. }
  destruct Hx as [Hx|Hx], Hy as [Hy|Hy].
  - congruence.
  - injection Hx as -> _. exfalso. eauto.
  - injection Hy as -> _. exfalso. eauto.
  - eauto.
Qed.

Lemma In_deref l it x :
  NoDup (map fst (StdList.nodes l)) -> In (it, x) (StdList.nodes l) ->
  StdList.deref l it = Some x.
Proof.
  intros Hnd Hin. unfold StdList.deref.
  destruct (find _ _) as [[i y]|] eqn:E.
  - apply find_some in E. destruct E as [Hin' Heq]. simpl in Heq.
    apply Nat.eqb_eq in Heq. subst i. simpl.
    f_equal. eapply nodes_functional; eassumption.
  - exfalso. eapply find_none in E; [|exact Hin]. simpl in E.
    rewrite Nat.eqb_refl in E. discriminate.
Qed.

Lemma unlink_In it ns n :
  In n (StdList.unlink it ns) <-> In n ns /\ fst n <> it.
Proof.
  unfold StdList.unlink. rewrite filter_In.
  rewrite negb_true_iff, Nat.eqb_neq. reflexivity.
Qed.

Lemma NoDup_map_filter {B} (f : nat * A -> B) (p : nat * A -> bool) ns :
  NoDup (map f ns) -> NoDup (map f (List.filter p ns)).
Proof.
  induction ns as [|n ns IH]; simpl; intros Hnd; [constructor|].
  apply NoDup_cons in Hnd. destruct Hnd as [Hnotin Hnd].
  destruct (p n); simpl; [|auto].
  apply NoDup_cons. split; [|auto].
  intros Hin. apply Hnotin. apply list_elem_of_In in Hin.
  apply list_elem_of_In. apply in_map_iff in Hin.
  destruct Hin as (m & Hm & Hin). apply filter_In in Hin.
  apply in_map_iff. exists m. tauto.
Qed.

Lemma unlink_length it x ns :
  In (it, x) ns -> (length (StdList.unlink it ns) < length ns)%nat.
Proof.
  induction ns as [|n ns IH]; simpl; [contradiction|].
  pose proof (filter_length_le (fun n => negb (Nat.eqb (fst n) it)) ns) as Hle.
  unfold StdList.unlink in *.
  intros [->|Hin]; simpl.
  - rewrite Nat.eqb_refl. simpl. lia.
  - specialize (IH Hin). destruct (negb _); simpl; lia.
Qed.

Lemma map_snd_filter (p : nat * A -> bool) (q : A -> bool) ns :
  (forall n, In n ns -> p n = q (snd n)) ->
  map snd (List.filter p ns) = List.filter q (map snd ns).
Proof.
  induction ns as [|n ns IH]; simpl; intros H; [reflexivity|].
  rewrite <- (H n) by (left; reflexivity).
  destruct (p n); simpl; rewrite IH by (intros; apply H; right; assumption);
    reflexivity.
Qed.

Lemma map_removelast {B C} (f : B -> C) (xs : list B) :
  map f (removelast xs) = removelast (map f xs).
Proof.
  induction xs as [|x xs IH]; [reflexivity|].
  destruct xs as [|y xs]; [reflexivity|].
  change (f x :: map f (removelast (y :: xs)) =
          f x :: removelast (map f (y :: xs))).
  rewrite IH. reflexivity.
Qed.

Lemma In_removelast {B} (x : B) xs : In x (removelast xs) -> In x xs.
Proof.
  induction xs as [|y xs IH]; [auto|].
  destruct xs as [|z xs]; [simpl; auto|].
  change (In x (y :: removelast (z :: xs)) -> In x (y :: z :: xs)).
  intros [->|H]; [left; reflexivity | right; auto].
Qed.

Lemma NoDup_removelast {B} (xs : list B) : NoDup xs -> NoDup (removelast xs).
Proof.
  induction xs as [|y xs IH]; [auto|].
  destruct xs as [|z xs]; [intros _; constructor|].
  change (NoDup (y :: z :: xs) -> NoDup (y :: removelast (z :: xs))).
  intros Hnd. apply NoDup_cons in Hnd. destruct Hnd as [Hnotin Hnd].
  apply NoDup_cons. split; [|auto].
  intros Hin. apply Hnotin. apply list_elem_of_In.
  apply In_removelast. apply list_elem_of_In. exact Hin.
Qed.

Lemma length_removelast {B} (xs : list B) :
  xs <> [] -> S (length (removelast xs)) = length xs.
Proof.
  induction xs as [|y xs IH]; [congruence|]. intros _.
  destruct xs as [|z xs]; [reflexivity|].
  change (S (S (length (removelast (z :: xs)))) = S (length (z :: xs))).
  rewrite IH by discriminate. reflexivity.
Qed.

Lemma last_removelast {B} (xs : list B) x :
  NoDup xs -> last xs = Some x -> ~ In x (removelast xs).
Proof.
  induction xs as [|y xs IH]; [discriminate|].
  destruct xs as [|z xs]; [simpl; auto|].
  change (NoDup (y :: z :: xs) -> last (z :: xs) = Some x ->
          ~ In x (y :: removelast (z :: xs))).
  intros Hnd Hl. apply NoDup_cons in Hnd. destruct Hnd as [Hnotin Hnd].
  intros [->|Hin]; [|exact (IH Hnd Hl Hin)].
  apply Hnotin. apply last_Some in Hl. destruct Hl as [l' ->].
  apply list_elem_of_In. apply in_or_app. right. left. reflexivity.
Qed.

Lemma In_removelast_or_last {B} (xs : list B) x :
  In x xs -> In x (removelast xs) \/ last xs = Some x.
Proof.
  induction xs as [|y xs IH]; [contradiction|].
  destruct xs as [|z xs].
  - intros [->|[]]. right. reflexivity.
  - change (In x (y :: z :: xs) ->
            In x (y :: removelast (z :: xs)) \/ last (z :: xs) = Some x).
    intros [->|Hin]; [left; left; reflexivity|].
    destruct (IH Hin) as [H|H]; [left; right; exact H | right; exact H].
Qed.

End StdListFacts.

(** ** The instance-scoped TLB *)

Section TlbFacts.
Import Tlb.

Lemma create_inv N : 0 <= N -> tlb_inv (create N).
Proof.
  intros HN. constructor; simpl.
  - constructor.
  - intros n [].
  - intros n [].
  - intros va it H. rewrite lookup_empty in H. discriminate.
  - unfold StdList.size. simpl. lia.
Qed.

Lemma contents_In t e :
  In e (contents t) <-> exists i, In (i, e) (StdList.nodes (entries t)).
Proof.
  unfold contents, StdList.values. rewrite in_map_iff. split.
  - intros ([i e'] & <- & Hin). exists i. exact Hin.
  - intros (i & Hin). exists (i, e). split; [reflexivity | exact Hin].
Qed.

Lemma cache_Some t va it :
  tlb_inv t -> cache t !! va = Some it ->
  exists e, In (it, e) (StdList.nodes (entries t)) /\ virtualAddress e = va /\
            StdList.deref (entries t) it = Some e.
Proof.
  intros I H. destruct (inv_nodes t I va it H) as (e & Hin & Hva).
  exists e. repeat split; try assumption.
  apply In_deref; [apply (inv_ids t I) | exact Hin].
Qed.

(** Under the invariant the node an index entry points at is the one node
    of its page. *)
Lemma node_of_page t va it n :
  tlb_inv t -> cache t !! va = Some it -> In n (StdList.nodes (entries t)) ->
  Nat.eqb (fst n) it = (virtualAddress (snd n) =? va).
Proof.
  intros I H Hin. destruct (cache_Some t va it I H) as (e & He & Hva & _).
  destruct (Nat.eqb_spec (fst n) it) as [Heq|Hne];
    destruct (Z.eqb_spec (virtualAddress (snd n)) va) as [Hv|Hv];
    try reflexivity; exfalso.
  - destruct n as [i x]. simpl in *. subst i.
    assert (x = e) by (eapply nodes_functional; [apply (inv_ids t I) | eassumption ..]).
    congruence.
  - apply Hne. pose proof (inv_index t I n Hin) as Hidx.
    rewrite Hv, H in Hidx. congruence.
Qed.

Lemma cache_None t va :
  tlb_inv t ->
  cache t !! va = None <-> ~ In va (map virtualAddress (contents t)).
Proof.
  intros I. split.
  - intros Hnone Hin. apply in_map_iff in Hin. destruct Hin as (e & Hva & Hin).
    apply contents_In in Hin. destruct Hin as (i & Hin).
    pose proof (inv_index t I _ Hin) as Hidx. simpl in Hidx. congruence.
  - intros Hnot. destruct (cache t !! va) as [it|] eqn:E; [|reflexivity].
    exfalso. apply Hnot. destruct (cache_Some t va it I E) as (e & Hin & Hva & _).
    apply in_map_iff. exists e. split; [exact Hva|].
    apply contents_In. exists it. exact Hin.
Qed.

Lemma contents_NoDup t : tlb_inv t -> NoDup (map virtualAddress (contents t)).
Proof.
  intros I. unfold contents, StdList.values.
  pose proof (inv_ids t I) as Hnd. pose proof (inv_index t I) as Hidx.
  induction (StdList.nodes (entries t)) as [|n ns IH]; simpl; [constructor|].
  simpl in Hnd. apply NoDup_cons in Hnd. destruct Hnd as [Hnotin Hnd].
  apply NoDup_cons. split.
  - intros Hin. apply Hnotin. apply list_elem_of_In in Hin.
    apply in_map_iff in Hin. destruct Hin as (e & Hva & Hin).
    apply in_map_iff in Hin. destruct Hin as (m & <- & Hin).
    pose proof (Hidx n (or_introl eq_refl)) as H1.
    pose proof (Hidx m (or_intror Hin)) as H2.
    rewrite Hva, H1 in H2. injection H2 as H2. rewrite H2.
    apply list_elem_of_In. apply in_map. exact Hin.
  - apply IH; [exact Hnd | intros m Hm; apply Hidx; right; exact Hm].
Qed.

Lemma filter_otherPage_id es va :
  ~ In va (map virtualAddress es) -> List.filter (TlbSpec.otherPage va) es = es.
Proof.
  induction es as [|e es IH]; simpl; intros H; [reflexivity|].
  unfold TlbSpec.otherPage at 1.
  destruct (Z.eqb_spec (virtualAddress e) va) as [Heq|Hne]; simpl.
  - exfalso. apply H. left. exact Heq.
  - rewrite IH by tauto. reflexivity.
Qed.

(** The first step of [addEntry] and the move of [lookup]: taking the node
    of page [va] out of the list. *)
Lemma unlink_contents t va it :
  tlb_inv t -> cache t !! va = Some it ->
  map snd (StdList.unlink it (StdList.nodes (entries t))) =
  List.filter (TlbSpec.otherPage va) (contents t).
Proof.
  intros I H. unfold StdList.unlink, contents, StdList.values.
  apply map_snd_filter. intros n Hin. unfold TlbSpec.otherPage.
  rewrite (node_of_page t va it n I H Hin). reflexivity.
Qed.

Lemma erase_page_inv t va it :
  tlb_inv t -> cache t !! va = Some it ->
  exists es, StdList.erase (entries t) it = Some es /\
    let t1 := mkTLB (numEntries t) es (delete va (cache t)) in
    tlb_inv t1 /\
    contents t1 = List.filter (TlbSpec.otherPage va) (contents t) /\
    StdList.size (entries t1) < numEntries t.
Proof.
  intros I H. destruct (cache_Some t va it I H) as (e & Hin & Hva & Hd).
  unfold StdList.erase. rewrite Hd. eexists. split; [reflexivity|].
  cbv zeta. split; [|split].
  - constructor; simpl.
    + apply NoDup_map_filter. apply (inv_ids t I).
    + intros n Hn. apply unlink_In in Hn. apply (inv_fresh t I). tauto.
    + intros n Hn. apply unlink_In in Hn. destruct Hn as [Hn Hne].
      rewrite lookup_delete_ne; [apply (inv_index t I); exact Hn|].
      intros Heq. apply Hne. apply Nat.eqb_eq.
      rewrite (node_of_page t va it n I H Hn). apply Z.eqb_eq. congruence.
    + intros va' it' H'. destruct (decide (va = va')) as [<-|Hne].
      * rewrite lookup_delete_eq in H'. discriminate.
      * rewrite lookup_delete_ne in H' by exact Hne.
        destruct (inv_nodes t I va' it' H') as (e' & Hin' & Hva').
        exists e'. split; [|exact Hva']. apply unlink_In. split; [exact Hin'|].
        simpl. intros ->. rewrite <- Hva' in Hne. apply Hne.
        assert (e' = e) by (eapply nodes_functional;
                            [apply (inv_ids t I) | eassumption ..]).
        congruence.
    + pose proof (unlink_length it e _ Hin). pose proof (inv_size t I).
      unfold StdList.size in *. simpl. lia.
  - unfold contents, StdList.values. simpl. apply unlink_contents; assumption.
  - pose proof (unlink_length it e _ Hin). pose proof (inv_size t I).
    unfold StdList.size in *. simpl. lia.
Qed.

Lemma evict_last_inv t :
  tlb_inv t -> StdList.size (entries t) = numEntries t -> 1 <= numEntries t ->
  exists lst es,
    StdList.back (entries t) = Some lst /\
    StdList.pop_back (entries t) = Some es /\
    last (contents t) = Some lst /\
    let t2 := mkTLB (numEntries t) es (delete (virtualAddress lst) (cache t)) in
    tlb_inv t2 /\ contents t2 = removelast (contents t) /\
    StdList.size (entries t2) < numEntries t /\
    (forall va, cache t !! va = None -> cache t2 !! va = None).
Proof.
  intros I Hsz HN. unfold StdList.size in Hsz.
  destruct (StdList.nodes (entries t)) as [|n0 ns0] eqn:En; [simpl in Hsz; lia|].
  assert (Hne : StdList.nodes (entries t) <> []) by (rewrite En; discriminate).
  destruct (last (StdList.nodes (entries t))) as [[il lst]|] eqn:El.
  2:{ apply last_None in El. contradiction. }
  exists lst, (StdList.mk (removelast (StdList.nodes (entries t)))
                          (StdList.fresh (entries t))).
  unfold StdList.back, StdList.pop_back. rewrite El. rewrite En at 1.
  split; [reflexivity|]. split; [rewrite En; reflexivity|].
  assert (Hlin : In (il, lst) (StdList.nodes (entries t))).
  { apply last_Some in El. destruct El as [l' ->].
    apply in_or_app. right. left. reflexivity. }
  assert (Hnotlast : ~ In (il, lst) (removelast (StdList.nodes (entries t)))).
  { intros Hin. pose proof (inv_ids t I) as Hnd.
    assert (Hl : last (map fst (StdList.nodes (entries t))) = Some il).
    { apply last_Some in El. destruct El as [l' ->]. rewrite map_app. simpl.
      apply last_snoc. }
    apply (last_removelast _ _ Hnd Hl). rewrite <- map_removelast.
    apply (in_map fst) in Hin. exact Hin. }
  split; [|cbv zeta; split; [|split; [|split]]].
  - unfold contents, StdList.values. rewrite fmap_last. 
    change (snd <$> last (StdList.nodes (entries t)) = Some lst).
    rewrite El. reflexivity.
  - constructor; simpl.
    + rewrite map_removelast. apply NoDup_removelast. apply (inv_ids t I).
    + intros n Hn. apply In_removelast in Hn. apply (inv_fresh t I). exact Hn.
    + intros n Hn. pose proof (In_removelast _ _ Hn) as Hn'.
      rewrite lookup_delete_ne; [apply (inv_index t I); exact Hn'|].
      intros Heq. pose proof (inv_index t I _ Hn') as H1.
      pose proof (inv_index t I _ Hlin) as H2. simpl in H2.
      rewrite Heq, H1 in H2. injection H2 as H2.
      destruct n as [i x]. simpl in *. subst i.
      assert (x = lst) by (eapply nodes_functional;
                           [apply (inv_ids t I) | eassumption ..]).
      subst x. contradiction.
    + intros va it H'. destruct (decide (virtualAddress lst = va)) as [<-|Hneq].
      * rewrite lookup_delete_eq in H'. discriminate.
      * rewrite lookup_delete_ne in H' by exact Hneq.
        destruct (inv_nodes t I va it H') as (e' & Hin' & Hva').
        exists e'. split; [|exact Hva'].
        destruct (In_removelast_or_last _ _ Hin') as [Hr|Hl]; [exact Hr|].
        rewrite El in Hl. injection Hl as -> ->. contradiction.
    + pose proof (length_removelast _ Hne). pose proof (inv_size t I).
      unfold StdList.size in *. simpl. lia.
  - unfold contents, StdList.values. simpl. apply map_removelast.
  - pose proof (length_removelast _ Hne). rewrite En in *.
    unfold StdList.size. simpl in *. lia.
  - intros va Hnone. simpl.
    destruct (decide (virtualAddress lst = va)) as [<-|Hneq];
      [apply lookup_delete_eq | rewrite lookup_delete_ne by exact Hneq; exact Hnone].
Qed.

Lemma push_inv t va pa a :
  tlb_inv t -> cache t !! va = None ->
  StdList.size (entries t) < numEntries t ->
  let es := StdList.push_front (mkEntry va pa a) (entries t) in
  let t3 := mkTLB (numEntries t) es (<[va := StdList.begin es]> (cache t)) in
  tlb_inv t3 /\ contents t3 = mkEntry va pa a :: contents t.
Proof.
  intros I Hnone Hsz. cbv zeta. split; [|reflexivity].
  unfold StdList.begin, StdList.push_front. simpl.
  constructor; simpl.
  - apply NoDup_cons. split; [|apply (inv_ids t I)].
    intros Hin. apply list_elem_of_In in Hin. apply in_map_iff in Hin.
    destruct Hin as (n & Hfst & Hin). pose proof (inv_fresh t I n Hin). lia.
  - intros n [<-|Hin]; simpl; [lia|]. pose proof (inv_fresh t I n Hin). lia.
  - intros n [<-|Hin]; simpl; [apply lookup_insert_eq|].
    pose proof (inv_index t I n Hin) as Hidx.
    rewrite lookup_insert_ne; [exact Hidx|]. intros Heq.
    rewrite <- Heq in Hidx. congruence.
  - intros va' it H'. destruct (decide (va = va')) as [<-|Hne].
    + rewrite lookup_insert_eq in H'. injection H' as <-.
      exists (mkEntry va pa a). split; [left; reflexivity | reflexivity].
    + rewrite lookup_insert_ne in H' by exact Hne.
      destruct (inv_nodes t I va' it H') as (e' & Hin' & Hva').
      exists e'. split; [right; exact Hin' | exact Hva'].
  - unfold StdList.size in *. simpl length. lia.
Qed.

Lemma addEntry_refines t va pa a :
  tlb_inv t -> 1 <= numEntries t ->
  exists t', addEntry t va pa a = Some t' /\ tlb_inv t' /\
    numEntries t' = numEntries t /\
    contents t' = TlbSpec.add (numEntries t) (contents t) va pa a.
Proof.
  intros I HN. unfold addEntry, TlbSpec.add.
  (* the entry of the page, if any, goes first *)
  assert (H1 : exists t1,
    match cache t !! va with
    | Some it => es ← StdList.erase (entries t) it;
                 Some (mkTLB (numEntries t) es (delete va (cache t)))
    | None => Some t
    end = Some t1 /\ tlb_inv t1 /\ numEntries t1 = numEntries t /\
    contents t1 = List.filter (TlbSpec.otherPage va) (contents t) /\
    cache t1 !! va = None).
  { destruct (cache t !! va) as [it|] eqn:E.
    - destruct (erase_page_inv t va it I E) as (es & -> & I1 & Hc & _).
      eexists. split; [reflexivity|]. split; [exact I1|].
      split; [reflexivity|]. split; [exact Hc|].
      simpl. apply lookup_delete_eq.
    - exists t. split; [reflexivity|]. split; [exact I|].
      split; [reflexivity|]. split; [|exact E].
      symmetry. apply filter_otherPage_id. apply cache_None; assumption. }
  destruct H1 as (t1 & -> & I1 & HN1 & Hc1 & Hn1). simpl.
  rewrite <- Hc1. clear Hc1.
  (* then the least recently used one, if the list is full *)
  assert (H2 : exists t2,
    (if StdList.size (entries t1) =? numEntries t1
     then lst ← StdList.back (entries t1);
          es ← StdList.pop_back (entries t1);
          Some (mkTLB (numEntries t1) es (delete (virtualAddress lst) (cache t1)))
     else Some t1) = Some t2 /\ tlb_inv t2 /\ numEntries t2 = numEntries t /\
    contents t2 = (if Z.of_nat (length (contents t1)) =? numEntries t
                   then removelast (contents t1) else contents t1) /\
    cache t2 !! va = None /\ StdList.size (entries t2) < numEntries t2).
  { assert (Hlen : Z.of_nat (length (contents t1)) = StdList.size (entries t1)).
    { unfold contents, StdList.values, StdList.size. rewrite length_map. reflexivity. }
    rewrite Hlen, <- HN1.
    destruct (Z.eqb_spec (StdList.size (entries t1)) (numEntries t1)) as [Heq|Hne].
    - destruct (evict_last_inv t1 I1 Heq ltac:(lia))
        as (lst & es & -> & -> & _ & I2 & Hc2 & Hs2 & Hk).
      eexists. split; [reflexivity|]. split; [exact I2|].
      split; [reflexivity|]. split; [exact Hc2|].
      split; [apply Hk; exact Hn1 | exact Hs2].
    - exists t1. split; [reflexivity|]. split; [exact I1|].
      split; [reflexivity|]. split; [reflexivity|]. split; [exact Hn1|].
      pose proof (inv_size t1 I1). lia. }
  destruct H2 as (t2 & -> & I2 & HN2 & Hc2 & Hn2 & Hs2). simpl.
  rewrite <- Hc2.
  destruct (push_inv t2 va pa a I2 Hn2 Hs2) as [I3 Hc3].
  eexists. split; [reflexivity|]. split; [exact I3|].
  split; [exact HN2 | exact Hc3].
Qed.

End TlbFacts.

Section TlbSteps.
Import Tlb.

Lemma find_page t va :
  tlb_inv t ->
  List.find (fun e => virtualAddress e =? va) (contents t) =
  match cache t !! va with
  | Some it => StdList.deref (entries t) it
  | None => None
  end.
Proof.
  intros I. destruct (cache t !! va) as [it|] eqn:E.
  - destruct (cache_Some t va it I E) as (e & Hin & Hva & ->).
    destruct (List.find _ _) as [e'|] eqn:F.
    + apply find_some in F. destruct F as [Hin' Hva'].
      apply contents_In in Hin'. destruct Hin' as (i' & Hin').
      pose proof (node_of_page t va it _ I E Hin') as Hn. simpl in Hn.
      rewrite Hva' in Hn. apply Nat.eqb_eq in Hn. subst i'.
      f_equal. eapply nodes_functional; [apply (inv_ids t I) | eassumption ..].
    + exfalso. eapply find_none in F.
      2:{ apply contents_In. exists it. exact Hin. }
      simpl in F. rewrite Hva, Z.eqb_refl in F. discriminate.
  - destruct (List.find _ _) as [e'|] eqn:F; [|reflexivity].
    exfalso. apply find_some in F. destruct F as [Hin' Hva'].
    apply Z.eqb_eq in Hva'. apply (cache_None t va I) in E. apply E.
    apply in_map_iff. exists e'. split; assumption.
Qed.

Lemma lookup_refines t va pa0 a :
  tlb_inv t ->
  exists hit pa' t',
    lookup t va pa0 a = Some (hit, pa', t') /\ tlb_inv t' /\
    numEntries t' = numEntries t /\
    (if hit then Some pa' else None, contents t') =
      TlbSpec.lookup (contents t) va a /\
    (hit = false -> pa' = pa0 /\ t' = t).
Proof.
  intros I. unfold lookup, TlbSpec.lookup. rewrite (find_page t va I).
  destruct (cache t !! va) as [it|] eqn:E.
  2:{ exists false, pa0, t. split; [reflexivity|]. split; [exact I|].
      split; [reflexivity|]. split; [reflexivity|]. intros _. split; reflexivity. }
  destruct (cache_Some t va it I E) as (e & Hin & Hva & Hd).
  rewrite Hd. simpl. destruct (asid e =? a).
  2:{ exists false, pa0, t. split; [reflexivity|]. split; [exact I|].
      split; [reflexivity|]. split; [reflexivity|]. intros _. split; reflexivity. }
  unfold StdList.splice_front. rewrite Hd. simpl.
  eexists true, _, _. split; [reflexivity|].
  split; [|split; [reflexivity|split; [|discriminate]]].
  - constructor; simpl.
    + apply NoDup_cons. split; [|apply NoDup_map_filter, (inv_ids t I)].
      intros Hi. apply list_elem_of_In in Hi. apply in_map_iff in Hi.
      destruct Hi as (n & Hfst & Hn). apply unlink_In in Hn. tauto.
    + intros n [<-|Hn]; [apply (inv_fresh t I _ Hin)|].
      apply unlink_In in Hn. apply (inv_fresh t I). tauto.
    + intros n [<-|Hn]; [simpl; rewrite Hva; exact E|].
      apply unlink_In in Hn. apply (inv_index t I). tauto.
    + intros va' it' H'. destruct (inv_nodes t I va' it' H') as (e' & Hin' & Hva').
      exists e'. split; [|exact Hva'].
      destruct (Nat.eq_dec it' it) as [->|Hne].
      * left. f_equal. eapply nodes_functional; [apply (inv_ids t I) | eassumption ..].
      * right. apply unlink_In. split; [exact Hin' | exact Hne].
    + pose proof (unlink_length it e _ Hin). pose proof (inv_size t I).
      unfold StdList.size in *. simpl length. lia.
  - unfold contents at 1, StdList.values. simpl.
    rewrite (unlink_contents t va it I E). reflexivity.
Qed.

Lemma flush_inv t : 0 <= numEntries t -> tlb_inv (flush t) /\ contents (flush t) = [].
Proof.
  intros HN. split; [|reflexivity]. constructor; simpl.
  - constructor.
  - intros n [].
  - intros n [].
  - intros va it H. rewrite lookup_empty in H. discriminate.
  - unfold StdList.size. simpl. lia.
Qed.

Lemma flushASID_loop_spec a ns c :
  let '(ns', c') := flushASID_loop ns c a in
  ns' = List.filter (fun n => negb (asid (snd n) =? a)) ns /\
  forall va,
    c' !! va =
    if existsb (fun n => (asid (snd n) =? a) && (virtualAddress (snd n) =? va)) ns
    then None else c !! va.
Proof.
  revert c. induction ns as [|n ns IH]; intros c; simpl; [split; reflexivity|].
  destruct (asid (snd n) =? a); simpl.
  - specialize (IH (delete (virtualAddress (snd n)) c)).
    destruct (flushASID_loop ns _ a) as [ns' c']. destruct IH as [-> Hc].
    split; [reflexivity|]. intros va. rewrite Hc.
    destruct (Z.eqb_spec (virtualAddress (snd n)) va) as [->|Hne]; simpl.
    + rewrite lookup_delete_eq. destruct (existsb _ ns); reflexivity.
    + rewrite lookup_delete_ne by exact Hne. reflexivity.
  - specialize (IH c). destruct (flushASID_loop ns c a) as [ns' c'].
    destruct IH as [-> Hc]. split; [reflexivity | exact Hc].
Qed.

Lemma flushASID_inv t a :
  tlb_inv t ->
  tlb_inv (flushASID t a) /\ numEntries (flushASID t a) = numEntries t /\
  contents (flushASID t a) = TlbSpec.flush_asid (contents t) a.
Proof.
  intros I. unfold flushASID.
  pose proof (flushASID_loop_spec a (StdList.nodes (entries t)) (cache t)) as H.
  destruct (flushASID_loop _ _ a) as [ns' c']. destruct H as [-> Hc].
  assert (Hgone : forall va n, In n (StdList.nodes (entries t)) ->
            virtualAddress (snd n) = va ->
            existsb (fun n => (asid (snd n) =? a) && (virtualAddress (snd n) =? va))
                    (StdList.nodes (entries t)) = (asid (snd n) =? a)).
  { intros va n Hn Hva. destruct (asid (snd n) =? a) eqn:Ea.
    - apply existsb_exists. exists n. split; [exact Hn|].
      rewrite Ea, Hva, Z.eqb_refl. reflexivity.
    - destruct (existsb _ _) eqn:Ex; [|reflexivity].
      apply existsb_exists in Ex. destruct Ex as (m & Hm & Hp).
      apply andb_true_iff in Hp. destruct Hp as [Hma Hmv].
      apply Z.eqb_eq in Hmv.
      pose proof (inv_index t I n Hn) as H1. pose proof (inv_index t I m Hm) as H2.
      rewrite Hva in H1. rewrite Hmv, H1 in H2. injection H2 as H2.
      destruct n as [i x], m as [j y]. simpl in *. subst j.
      assert (x = y) by (eapply nodes_functional;
                         [apply (inv_ids t I) | eassumption ..]).
      subst y. congruence. }
  split; [|split; [reflexivity|]].
  - constructor; simpl.
    + apply NoDup_map_filter, (inv_ids t I).
    + intros n Hn. apply filter_In in Hn. apply (inv_fresh t I). tauto.
    + intros n Hn. apply filter_In in Hn. destruct Hn as [Hn Ha].
      rewrite Hc, (Hgone _ n Hn eq_refl).
      apply negb_true_iff in Ha. rewrite Ha. apply (inv_index t I n Hn).
    + intros va it H'. rewrite Hc in H'.
      destruct (existsb _ _) eqn:Ex; [discriminate|].
      destruct (inv_nodes t I va it H') as (e & Hin & Hva).
      exists e. split; [|exact Hva]. apply filter_In. split; [exact Hin|].
      rewrite (Hgone va _ Hin Hva) in Ex. simpl in *. rewrite Ex. reflexivity.
    + pose proof (filter_length_le (fun n => negb (asid (snd n) =? a))
                    (StdList.nodes (entries t))).
      pose proof (inv_size t I). unfold StdList.size in *. simpl. lia.
  - unfold contents, StdList.values, TlbSpec.flush_asid. simpl.
    apply map_snd_filter. reflexivity.
Qed.

Lemma step_refines t o :
  tlb_inv t -> 1 <= numEntries t ->
  exists t', step t o = Some t' /\ tlb_inv t' /\
    numEntries t' = numEntries t /\
    contents t' = TlbSpec.step (numEntries t) (contents t) o.
Proof.
  intros I HN. destruct o as [va pa a|va a| |a]; simpl.
  - apply addEntry_refines; assumption.
  - destruct (lookup_refines t va 0 a I) as (hit & pa' & t' & -> & I' & HN' & Hc & _).
    exists t'. split; [reflexivity|]. split; [exact I'|]. split; [exact HN'|].
    rewrite <- Hc. reflexivity.
  - destruct (flush_inv t ltac:(lia)) as [I' Hc].
    exists (flush t). split; [reflexivity|]. split; [exact I'|].
    split; [reflexivity | exact Hc].
  - destruct (flushASID_inv t a I) as (I' & HN' & Hc).
    exists (flushASID t a). split; [reflexivity|]. split; [exact I'|].
    split; [exact HN' | exact Hc].
Qed.

Lemma unique_entry es e1 e2 :
  NoDup (map virtualAddress es) -> In e1 es -> In e2 es ->
  virtualAddress e1 = virtualAddress e2 -> e1 = e2.
Proof.
  induction es as [|e es IH]; simpl; intros Hnd H1 H2 Hva; [contradiction|].
  apply NoDup_cons in Hnd. destruct Hnd as [Hnotin Hnd].
  assert (Hx : forall x, In x es -> virtualAddress x <> virtualAddress e).
  { intros x Hx Heq. apply Hnotin. rewrite <- Heq. apply list_elem_of_In.
    apply in_map. exact Hx. }
  destruct H1 as [<-|H1], H2 as [<-|H2].
  - reflexivity.
  - exfalso. apply (Hx _ H2). congruence.
  - exfalso. apply (Hx _ H1). congruence.
  - apply IH; assumption.
Qed.

Lemma In_otherPage va e es :
  In e (List.filter (TlbSpec.otherPage va) es) <->
  In e es /\ virtualAddress e <> va.
Proof.
  rewrite filter_In. unfold TlbSpec.otherPage.
  rewrite negb_true_iff, Z.eqb_neq. reflexivity.
Qed.

Lemma otherPage_shorter va es :
  In va (map virtualAddress es) ->
  (length (List.filter (TlbSpec.otherPage va) es) < length es)%nat.
Proof.
  induction es as [|e es IH]; simpl; [contradiction|].
  pose proof (filter_length_le (TlbSpec.otherPage va) es) as Hle.
  unfold TlbSpec.otherPage in *.
  intros [Heq|Hin].
  - rewrite Heq, Z.eqb_refl. simpl. lia.
  - specialize (IH Hin). destruct (negb _); simpl; lia.
Qed.

Lemma answer_cached t va a pa :
  tlb_inv t -> answer t va a = Some pa <-> cached t va pa a.
Proof.
  intros I. unfold answer, cached.
  destruct (lookup_refines t va 0 a I) as (hit & pa' & t' & -> & _ & _ & Hc & _).
  unfold TlbSpec.lookup in Hc.
  pose proof (contents_NoDup t I) as Hnd.
  destruct (List.find _ _) as [e|] eqn:F.
  - apply find_some in F. destruct F as [Hin Hva]. apply Z.eqb_eq in Hva.
    destruct (Z.eqb_spec (asid e) a) as [Ha|Ha].
    + injection Hc as Hh _. destruct hit; [|discriminate]. injection Hh as ->.
      split.
      * intros [= <-]. destruct e as [v p s]. simpl in *. subst. exact Hin.
      * intros Hin'. f_equal.
        assert (e = mkEntry va pa a) by (apply (unique_entry _ _ _ Hnd Hin Hin'); exact Hva).
        subst e. reflexivity.
    + injection Hc as Hh _. destruct hit; [discriminate|].
      split; [discriminate|]. intros Hin'. exfalso. apply Ha.
      assert (e = mkEntry va pa a) by (apply (unique_entry _ _ _ Hnd Hin Hin'); exact Hva).
      subst e. reflexivity.
  - injection Hc as Hh _. destruct hit; [discriminate|].
    split; [discriminate|]. intros Hin'. exfalso.
    eapply find_none in F; [|exact Hin']. simpl in F.
    rewrite Z.eqb_refl in F. discriminate.
Qed.

Lemma cached_step t o t' va pa a :
  tlb_inv t -> 1 <= numEntries t -> step t o = Some t' ->
  cached t' va pa a <->
  o = Add va pa a \/
  (cached t va pa a /\ ~ supersedes o va a /\ ~ evicts t o va).
Proof.
  intros I HN Hstep.
  destruct (step_refines t o I HN) as (t'' & Hs & _ & _ & Hc).
  rewrite Hstep in Hs. injection Hs as <-.
  unfold cached. rewrite Hc. clear Hc Hstep.
  pose proof (contents_NoDup t I) as Hnd.
  assert (Hlen : Z.of_nat (length (contents t)) <= numEntries t).
  { pose proof (inv_size t I) as Hsz. unfold contents, StdList.values, StdList.size in *.
    rewrite length_map. exact Hsz. }
  set (es := contents t) in *. set (e0 := mkEntry va pa a).
  destruct o as [va' pa' a'|va' a'| |a']; simpl.
  - (* add *)
    unfold TlbSpec.add.
    set (es1 := List.filter (TlbSpec.otherPage va') es).
    assert (Hes1 : ~ In va' (map virtualAddress es) -> es1 = es)
      by apply filter_otherPage_id.
    assert (Hshort : In va' (map virtualAddress es) ->
                     (length es1 < length es)%nat)
      by apply otherPage_shorter.
    split.
    + intros [Hnew|Hin].
      * left. unfold e0 in Hnew. congruence.
      * right.
        assert (Hin1 : In e0 es1).
        { destruct (_ =? _); [apply In_removelast|]; exact Hin. }
        apply In_otherPage in Hin1. destruct Hin1 as [Hin0 Hne]. simpl in Hne.
        split; [exact Hin0|]. split; [congruence|].
        intros (_ & Hnot & Hfull & e & Hlast & Hva).
        rewrite (Hes1 Hnot) in Hin. fold es in Hfull, Hlast.
        rewrite Hfull, Z.eqb_refl in Hin.
        assert (e = e0).
        { apply (unique_entry es); try assumption.
          apply last_Some in Hlast. destruct Hlast as [l' ->].
          apply in_or_app. right. left. reflexivity. }
        subst e. apply (last_removelast es e0); try assumption.
        apply (NoDup_fmap_1 virtualAddress). exact Hnd.
    + intros [Ho|(Hin & Hsup & Hev)].
      * injection Ho as -> -> ->. left. reflexivity.
      * right. assert (Hne : va' <> va) by exact Hsup.
        assert (Hin1 : In e0 es1) by (apply In_otherPage; split; [exact Hin | simpl; congruence]).
        destruct (Z.eqb_spec (Z.of_nat (length es1)) (numEntries t)) as [Hfull|_];
          [|exact Hin1].
        destruct (in_dec Z.eq_dec va' (map virtualAddress es)) as [Hp|Hnp].
        { specialize (Hshort Hp). lia. }
        rewrite (Hes1 Hnp) in *.
        destruct (In_removelast_or_last _ _ Hin) as [Hr|Hl]; [exact Hr|].
        exfalso. apply Hev. split; [exact Hne|]. split; [exact Hnp|].
        split; [exact Hfull|]. exists e0. split; [exact Hl | reflexivity].
  - (* lookup *)
    unfold TlbSpec.lookup.
    assert (Hsame : In e0 (snd (match List.find (fun e => virtualAddress e =? va') es with
                      | Some e => if asid e =? a'
                                  then (Some (physicalAddress e),
                                        e :: List.filter (TlbSpec.otherPage va') es)
                                  else (None, es)
                      | None => (None, es) end)) <-> In e0 es).
    { destruct (List.find _ es) as [e|] eqn:F; [|reflexivity].
      destruct (asid e =? a'); [|reflexivity]. simpl.
      apply find_some in F. destruct F as [Hin Hva]. apply Z.eqb_eq in Hva.
      rewrite In_otherPage. split.
      - intros [<-|[H _]]; assumption.
      - intros Hin0. destruct (Z.eq_dec (virtualAddress e0) va') as [Heq|Hne].
        + left. apply (unique_entry es); try assumption. congruence.
        + right. split; assumption. }
    rewrite Hsame. split.
    + intros Hin. right. split; [exact Hin|]. split; intros [].
    + intros [Ho|(Hin & _)]; [discriminate | exact Hin].
  - (* flush *)
    split; [intros [] | intros [Ho|(_ & Hsup & _)]; [discriminate | apply Hsup; constructor]].
  - (* flush of one ASID *)
    unfold TlbSpec.flush_asid. rewrite filter_In. simpl.
    rewrite negb_true_iff, Z.eqb_neq. split.
    + intros [Hin Hne]. right. split; [exact Hin|]. split; [congruence | intros []].
    + intros [Ho|(Hin & Hsup & _)]; [discriminate|]. split; [exact Hin | congruence].
Qed.

End TlbSteps.

Section TlbTraces.
Import Tlb.

Lemma run_snoc t ops o :
  run t (ops ++ [o]) = match run t ops with
                       | Some t' => step t' o
                       | None => None
                       end.
Proof.
  revert t. induction ops as [|x ops IH]; intros t; simpl.
  - destruct (step t o); reflexivity.
  - destruct (step t x); [apply IH | reflexivity].
Qed.

Lemma run_cons t o ops :
  run t (o :: ops) = match step t o with
                     | Some t' => run t' ops
                     | None => None
                     end.
Proof. reflexivity. Qed.

Lemma run_single t o : run t [o] = step t o.
Proof. rewrite run_cons. destruct (step t o); reflexivity. Qed.

Lemma run_cached ops : forall t,
  tlb_inv t -> 1 <= numEntries t ->
  exists t', run t ops = Some t' /\ tlb_inv t' /\
    numEntries t' = numEntries t /\
    forall va pa a,
      cached t' va pa a <->
      (cached t va pa a /\ survives t va a ops) \/
      (exists before after tb,
         ops = before ++ Add va pa a :: after /\
         run t (before ++ [Add va pa a]) = Some tb /\
         survives tb va a after).
Proof.
  induction ops as [|o rest IH]; intros t I HN.
  - exists t. split; [reflexivity|]. split; [exact I|]. split; [reflexivity|].
    intros va pa a. split.
    + intros H. left. split; [exact H | constructor].
    + intros [[H _]|(before & after & tb & Heq & _)]; [exact H|].
      destruct before; discriminate.
  - destruct (step_refines t o I HN) as (t1 & Hstep & I1 & HN1 & _).
    destruct (IH t1 I1 ltac:(lia)) as (t' & Hrun & I' & HN' & Hc).
    exists t'. rewrite run_cons, Hstep. split; [exact Hrun|]. split; [exact I'|].
    split; [lia|]. intros va pa a. rewrite Hc.
    rewrite (cached_step t o t1 va pa a I HN Hstep).
    change (survives t va a (o :: rest)) with
      (~ supersedes o va a /\ ~ evicts t o va /\
       match step t o with Some t2 => survives t2 va a rest | None => False end).
    rewrite Hstep. split.
    + intros [[[Ho|(Hin & Hsup & Hev)] Hsurv]|(before & after & tb & Heq & Hr & Hs)].
      * right. exists [], rest, t1. subst o. split; [reflexivity|].
        split; [|exact Hsurv].
        change ([] ++ [Add va pa a]) with [Add va pa a].
        rewrite run_single. exact Hstep.
      * left. split; [exact Hin|]. split; [exact Hsup|]. split; [exact Hev|]. exact Hsurv.
      * right. exists (o :: before), after, tb. subst rest. split; [reflexivity|].
        split; [|exact Hs].
        change ((o :: before) ++ [Add va pa a]) with (o :: (before ++ [Add va pa a])).
        rewrite run_cons, Hstep. exact Hr.
    + intros [(Hin & Hsup & Hev & Hsurv)|(before & after & tb & Heq & Hr & Hs)].
      * left. split; [right; auto | exact Hsurv].
      * destruct before as [|o' before].
        -- change ([] ++ [Add va pa a]) with [Add va pa a] in Hr.
           rewrite run_single in Hr.
           injection Heq as -> ->. rewrite Hstep in Hr. injection Hr as <-.
           left. split; [left; reflexivity | exact Hs].
        -- change ((o' :: before) ++ [Add va pa a])
             with (o' :: (before ++ [Add va pa a])) in Hr.
           rewrite run_cons in Hr.
           injection Heq as <- ->. rewrite Hstep in Hr.
           right. exists before, after, tb. auto.
Qed.

Lemma not_cached_create N va pa a : ~ cached (create N) va pa a.
Proof. intros []. Qed.

End TlbTraces.

(** On the TLB of tlb.h: from an empty TLB of capacity [N >= 1], after
    any sequence of operations, a lookup of page [va] under ASID [a] hits
    with [pa] exactly when the sequence has an [add(a, va, pa)] whose entry
    survives what follows it: no later [add] on the page, no flush, no
    flush of the ASID, no LRU eviction by an [add] of another page.  A hit
    means that lookups of the page under any other ASID miss, and the
    lookup that hits leaves the entry at the front. *)
Theorem lookup_returns_most_recent_add (N : Z) (ops : list Tlb.Op) :
  1 <= N ->
  exists t, Tlb.run (Tlb.create N) ops = Some t /\
    (forall va pa a,
       Tlb.answer t va a = Some pa <->
       exists before after tb,
         ops = before ++ Tlb.Add va pa a :: after /\
         Tlb.run (Tlb.create N) (before ++ [Tlb.Add va pa a]) = Some tb /\
         survives tb va a after) /\
    (forall va pa a,
       Tlb.answer t va a = Some pa ->
       (forall a', a' <> a -> Tlb.answer t va a' = None) /\
       exists t', Tlb.lookup t va 0 a = Some (true, pa, t') /\
         Tlb.contents t' =
         Tlb.mkEntry va pa a ::
           List.filter (TlbSpec.otherPage va) (Tlb.contents t)).
Proof.
  intros HN.
  destruct (run_cached ops (Tlb.create N) (create_inv N ltac:(lia)) HN)
    as (t & Hrun & I & _ & Hc).
  exists t. split; [exact Hrun|]. split.
  - intros va pa a. rewrite (answer_cached t va a pa I), Hc. split.
    + intros [[H _]|H]; [destruct (not_cached_create _ _ _ _ H) | exact H].
    + intros H. right. exact H.
  - intros va pa a Hans. pose proof Hans as Hcd.
    apply (answer_cached t va a pa I) in Hcd. split.
    + intros a' Hne. destruct (Tlb.answer t va a') as [pa'|] eqn:E; [|reflexivity].
      apply (answer_cached t va a' pa' I) in E. exfalso. apply Hne.
      pose proof (unique_entry _ _ _ (contents_NoDup t I) E Hcd eq_refl) as Heq.
      congruence.
    + unfold Tlb.answer in Hans.
      destruct (lookup_refines t va 0 a I) as (hit & pa' & t' & Hl & _ & _ & Hs & _).
      rewrite Hl in Hans. destruct hit; [|discriminate]. injection Hans as ->.
      exists t'. split; [exact Hl|].
      unfold TlbSpec.lookup in Hs.
      destruct (List.find _ _) as [e|] eqn:F; [|discriminate].
      apply find_some in F. destruct F as [Hin Hva]. apply Z.eqb_eq in Hva.
      destruct (Z.eqb_spec (Tlb.asid e) a) as [Ha|Ha]; [|discriminate].
      injection Hs as Hp ->. destruct e as [v p s]. simpl in *. congruence.
Qed.

(** At capacity 2 on the LRU scenario of the unit tests. *)
Lemma lookup_returns_most_recent_add_witness :
  1 <= 2 /\
  exists t,
    Tlb.run (Tlb.create 2)
      [Tlb.Add 0x1000 0x2000 0; Tlb.Add 0x3000 0x4000 0;
       Tlb.Lookup 0x1000 0; Tlb.Add 0x5000 0x6000 0] = Some t.
Proof.
  split; [lia|].
  destruct (lookup_returns_most_recent_add 2
              [Tlb.Add 0x1000 0x2000 0; Tlb.Add 0x3000 0x4000 0;
               Tlb.Lookup 0x1000 0; Tlb.Add 0x5000 0x6000 0] ltac:(lia))
    as (t & Hrun & _).
  exists t. exact Hrun.
Defined.

(** On the TLB of tlb.h: from an empty TLB of capacity [N >= 1], after
    any sequence of operations, no virtual page has two entries, whatever
    their ASIDs; and an [add] for a page that is cached puts the new entry
    at the front, drops the old entry of the page and keeps every other
    entry: nothing is evicted. *)
Theorem tlb_one_entry_per_page (N : Z) (ops : list Tlb.Op) :
  1 <= N ->
  exists t, Tlb.run (Tlb.create N) ops = Some t /\
    NoDup (map Tlb.virtualAddress (Tlb.contents t)) /\
    forall va pa a,
      In va (map Tlb.virtualAddress (Tlb.contents t)) ->
      exists t', Tlb.addEntry t va pa a = Some t' /\
        Tlb.contents t' =
        Tlb.mkEntry va pa a ::
          List.filter (TlbSpec.otherPage va) (Tlb.contents t) /\
        NoDup (map Tlb.virtualAddress (Tlb.contents t')).
Proof.
  intros HN.
  destruct (run_cached ops (Tlb.create N) (create_inv N ltac:(lia)) HN)
    as (t & Hrun & I & HNt & _).
  exists t. split; [exact Hrun|]. split; [apply contents_NoDup; exact I|].
  intros va pa a Hin.
  destruct (addEntry_refines t va pa a I ltac:(simpl in HNt; lia))
    as (t' & Hadd & I' & _ & Hc).
  exists t'. split; [exact Hadd|]. split; [|apply contents_NoDup; exact I'].
  rewrite Hc. unfold TlbSpec.add.
  pose proof (otherPage_shorter va _ Hin) as Hshort.
  assert (Hlen : Z.of_nat (length (Tlb.contents t)) <= Tlb.numEntries t).
  { pose proof (inv_size t I) as Hsz.
    unfold Tlb.contents, StdList.values, StdList.size in *.
    rewrite length_map. exact Hsz. }
  destruct (Z.eqb_spec (Z.of_nat (length (List.filter (TlbSpec.otherPage va)
                                            (Tlb.contents t))))
                       (Tlb.numEntries t)) as [Heq|_]; [lia | reflexivity].
Qed.

(** At capacity 4 on the ASID scenario: page [0xA] is added under ASID 1
    and again under ASID 2. *)
Lemma tlb_one_entry_per_page_witness :
  1 <= 4 /\
  exists t,
    Tlb.run (Tlb.create 4) [Tlb.Add 0xA 0xAA 1; Tlb.Add 0xA 0xBB 2] = Some t /\
    NoDup (map Tlb.virtualAddress (Tlb.contents t)).
Proof.
  split; [lia|].
  destruct (tlb_one_entry_per_page 4 [Tlb.Add 0xA 0xAA 1; Tlb.Add 0xA 0xBB 2]
              ltac:(lia)) as (t & Hrun & Hnd & _).
  exists t. split; [exact Hrun | exact Hnd].
Defined.

(** ** Scenario S5 and running out of memory *)

(** How [splitHole] leaves the list when the allocation is taken from the
    low end of the hole and is smaller than it: the hole is gone from its
    place and the remainder is the last element. *)
Lemma splitHole_appends_tail (hs : list HoleList.Hole) (it : nat)
    (h : HoleList.Hole) (cnt : Z) :
  0 <= HoleList.startPage h -> 0 <= cnt < HoleList.count h ->
  HoleList.startPage h + HoleList.count h < 2 ^ 64 ->
  HoleList.splitHole hs it h (HoleList.startPage h) cnt =
  HoleList.erase hs it ++
    [HoleList.mkHole (HoleList.startPage h + cnt) (HoleList.count h - cnt)].
Proof.
  intros Hs Hc Hb. unfold HoleList.splitHole.
  rewrite Z.ltb_irrefl.
  rewrite !wrap64_small by lia.
  destruct (Z.ltb_spec (HoleList.startPage h + cnt)
                       (HoleList.startPage h + HoleList.count h)); [|lia].
  f_equal. f_equal. f_equal. lia.
Qed.

(** C1 as stated fails on the hole-list allocator: in scenario S5 the
    six blocks are at pages 0, 5, ..., 25, the allocation of 3 pages
    returns [a0], and the allocation of 2 pages that follows returns [a2],
    the block at page 10, not [a0 + 3 * pageSize]. *)
Lemma S5_holelist_second_allocation :
  exists b1 hs,
    S5_holelist =
      Some ([S5_page 0; S5_page 5; S5_page 10; S5_page 15; S5_page 20;
             S5_page 25; S5_page 0; b1], hs) /\
    b1 = S5_page 10 /\ b1 <> S5_page 0 + 3 * S5_pageSize.
Proof.
  exists (S5_page 10). eexists. split; [vm_compute; reflexivity|].
  split; [reflexivity|]. vm_compute. discriminate.
Qed.

(** C1, amended: in scenario S5 both allocators return [a0] for the
    allocation of 3 pages.  The hole-list allocator then holds the holes
    at pages 10 and 20 followed by the 2-page remainder at page 3, and
    returns [a2] for the allocation of 2 pages; the bitmap allocator
    returns [a0 + 3 * pageSize]. *)
Theorem S5_first_fit_positions :
  S5_holelist =
    Some ([S5_page 0; S5_page 5; S5_page 10; S5_page 15; S5_page 20;
           S5_page 25; S5_page 0; S5_page 10],
          [HoleList.mkHole 10 5; HoleList.mkHole 20 5; HoleList.mkHole 3 2]) /\
  S5_bitmap =
    Some [S5_page 0; S5_page 5; S5_page 10; S5_page 15; S5_page 20;
          S5_page 25; S5_page 0; S5_page 0 + 3 * S5_pageSize].
Proof. split; vm_compute; reflexivity. Qed.

(** C8: on both allocators, in a state within bounds, [allocatePages]
    fails exactly when the allocated pages and the request exceed the
    total or no hole (no run of free pages) has the size; a failing call
    changes nothing; and after the release of [k] allocated pages, a
    request for up to [k] pages succeeds. *)
Theorem allocatePages_out_of_memory :
  (forall (m : HoleList.PhysMemManager) (cnt addr : Z),
     holes_bounded m -> 0 <= cnt < 2 ^ 64 ->
     let r := HoleList.allocatePages m cnt addr in
     (fst (fst r) = false <->
      HoleList.nAllocatedPages m + cnt > HoleList.nPages m \/
      ~ hole_fits m cnt) /\
     (fst (fst r) = false -> r = (false, addr, m)) /\
     (forall a k c addr',
        Forall (fun h => 0 <= HoleList.count h) (HoleList.holes m) ->
        hole_pages (HoleList.holes m) + k < 2 ^ 64 ->
        0 <= c <= k -> k <= HoleList.nAllocatedPages m ->
        fst (fst (HoleList.allocatePages (HoleList.releasePages m a k) c addr'))
        = true)) /\
  (forall (m : Bitmap.PhysMemManager) (cnt addr : Z),
     bitmap_bounded m -> 0 <= cnt < 2 ^ 64 ->
     let r := Bitmap.allocatePages m cnt addr in
     (fst (fst r) = false <->
      Bitmap.nAllocatedPages m + cnt > Bitmap.nPages m \/ ~ run_fits m cnt) /\
     (fst (fst r) = false -> r = (false, addr, m)) /\
     (forall a k c addr',
        let start := wrap64 (a - Bitmap.baseAddress m) / Bitmap.pageSize m in
        0 <= start -> start + k <= Bitmap.nPages m ->
        0 <= c <= k -> 0 < k <= Bitmap.nAllocatedPages m ->
        fst (fst (Bitmap.allocatePages (Bitmap.releasePages m a k) c addr'))
        = true)).
Proof.
  split.
  - intros m cnt addr Hb Hc r. split; [|split].
    + apply allocatePages_fails_iff; assumption.
    + apply allocatePages_false.
    + intros a k c addr' HF Hsum Hck Hk.
      apply allocatePages_after_release; assumption.
  - intros m cnt addr Hb Hc r. split; [|split].
    + apply bitmap_allocatePages_fails_iff; assumption.
    + apply bitmap_allocatePages_false.
    + intros a k c addr' start Hs He Hck Hk.
      apply bitmap_allocatePages_after_release; assumption.
Qed.

(** C8 on the memory of 10 pages: with all of them allocated a request for
    one page fails and changes nothing, and it succeeds once the 10 pages
    are released. *)
Lemma allocatePages_out_of_memory_witness :
  holes_bounded full10 /\ 0 <= 1 < 2 ^ 64 /\
  HoleList.allocatePages full10 1 0 = (false, 0, full10) /\
  fst (fst (HoleList.allocatePages
              (HoleList.releasePages full10 physMemBase 10) 1 0)) = true.
Proof.
  assert (Hb : holes_bounded full10).
  { unfold holes_bounded, full10; simpl. split; [lia|]. split; [lia|constructor]. }
  assert (Hc : 0 <= 1 < 2 ^ 64) by lia.
  destruct (proj1 allocatePages_out_of_memory full10 1 0 Hb Hc) as (Hiff & Hsame & Hrel).
  split; [exact Hb|]. split; [exact Hc|]. split.
  - apply Hsame. apply Hiff. left. unfold full10; simpl. lia.
  - apply Hrel; unfold full10; simpl; try lia. constructor.
Defined.

(** ** The walker *)

Section WalkerFacts.
Import AArch64.

Lemma performTranslation_walk m root vPage pPage isWrite :
  Z.land root (pageTableAlign - 1) = 0 ->
  performTranslation m root vPage pPage isWrite =
  match leafSlot m root vPage with
  | Some a =>
      if valid (m a) then
        Some (true, physicalPageNum (m a),
              let m1 := store m a (setReferenced (m a)) in
              if isWrite then store m1 a (setDirty (m1 a)) else m1)
      else Some (false, pPage, m)
  | None => Some (false, pPage, m)
  end.
Proof.
  intros Hal. unfold performTranslation, leafSlot, getAddress.
  rewrite Hal. simpl negb.
  cbv zeta.
  destruct (valid (m (slot root _))), (type_ (m (slot root _))); simpl; try reflexivity.
  destruct (valid (m (slot (Z.shiftl _ pageBits) (L1_INDEX _)))),
           (type_ (m (slot (Z.shiftl _ pageBits) (L1_INDEX _)))); simpl; try reflexivity.
  destruct (valid (m (slot (Z.shiftl _ pageBits) (L2_INDEX _)))),
           (type_ (m (slot (Z.shiftl _ pageBits) (L2_INDEX _)))); simpl; try reflexivity.
  destruct (valid (m (slot (Z.shiftl _ pageBits) (L3_INDEX _)))); reflexivity.
Qed.

Lemma store_same m a e : store m a e a = e.
Proof. unfold store. rewrite Z.eqb_refl. reflexivity. Qed.

Lemma store_other m a e a' : a' <> a -> store m a e a' = m a'.
Proof. intros H. unfold store. destruct (Z.eqb_spec a' a); [contradiction | reflexivity]. Qed.

End WalkerFacts.

(** C7: with an aligned root, whenever the walk of a virtual page misses
    (an interior slot that is invalid or not a table, or an invalid leaf),
    and only then, [performTranslation] returns false; it then leaves
    [pPage] and the memory as they were.  On a root table whose two
    entries are zero, the pages 0, 1 and 0xFFFF miss. *)
Theorem performTranslation_miss_frame :
  (forall (m : AArch64.Memory) (root vPage pPage : Z) (isWrite : bool),
     Z.land root (AArch64.pageTableAlign - 1) = 0 ->
     (AArch64.walkMisses m root vPage <->
      AArch64.performTranslation m root vPage pPage isWrite
      = Some (false, pPage, m)) /\
     (forall r, AArch64.performTranslation m root vPage pPage isWrite = Some r ->
        fst (fst r) = false -> r = (false, pPage, m))) /\
  (forall (m : AArch64.Memory) (root pPage : Z) (isWrite : bool),
     Z.land root (AArch64.pageTableAlign - 1) = 0 ->
     m (AArch64.slot root 0) = AArch64.zeroEntry ->
     m (AArch64.slot root 1) = AArch64.zeroEntry ->
     AArch64.performTranslation m root 0 pPage isWrite = Some (false, pPage, m) /\
     AArch64.performTranslation m root 1 pPage isWrite = Some (false, pPage, m) /\
     AArch64.performTranslation m root 0xFFFF pPage isWrite
     = Some (false, pPage, m)).
Proof.
  split.
  - intros m root vPage pPage isWrite Hal.
    rewrite (performTranslation_walk m root vPage pPage isWrite Hal).
    unfold AArch64.walkMisses.
    destruct (AArch64.leafSlot m root vPage) as [a|].
    + destruct (AArch64.valid (m a)) eqn:Ev.
      * split; [split; [discriminate | discriminate]|].
        intros r [= <-]. simpl. discriminate.
      * split; [split; reflexivity|]. intros r [= <-] _. reflexivity.
    + split; [split; [reflexivity | constructor]|].
      intros r [= <-] _. reflexivity.
  - intros m root pPage isWrite Hal H0 H1.
    rewrite !(performTranslation_walk m root _ pPage isWrite Hal).
    unfold AArch64.leafSlot.
    change (AArch64.L0_INDEX (wrap64 (Z.shiftl 0 AArch64.pageBits))) with 0.
    change (AArch64.L0_INDEX (wrap64 (Z.shiftl 1 AArch64.pageBits))) with 0.
    change (AArch64.L0_INDEX (wrap64 (Z.shiftl 0xFFFF AArch64.pageBits))) with 0.
    rewrite H0. simpl. auto.
Qed.

(** C7 on the memory that is zero everywhere, with the root at 0x10000. *)
Lemma performTranslation_miss_frame_witness :
  Z.land 0x10000 (AArch64.pageTableAlign - 1) = 0 /\
  AArch64.walkMisses zeroMemory 0x10000 0xFFFF /\
  AArch64.performTranslation zeroMemory 0x10000 0xFFFF 7 false
  = Some (false, 7, zeroMemory).
Proof.
  assert (Hal : Z.land 0x10000 (AArch64.pageTableAlign - 1) = 0) by reflexivity.
  assert (Hm : AArch64.walkMisses zeroMemory 0x10000 0xFFFF) by exact Logic.I.
  split; [exact Hal|]. split; [exact Hm|].
  apply (proj1 (proj1 performTranslation_miss_frame zeroMemory 0x10000 0xFFFF 7
                  false Hal)).
  exact Hm.
Defined.

(** C6: a successful [performTranslation] returns the physical page of the
    L3 entry the walk reaches; afterwards the entry has [referenced] set,
    [dirty] set for a write and as before otherwise, its other fields and
    every other entry as before.  For the mapping of page 0x12345 to
    0xABCDE of the unit tests: a read translation returns 0xABCDE and
    leaves [referenced = 1] and [dirty = 0], and the write translation
    after it leaves [dirty = 1]. *)
Theorem performTranslation_stamps_leaf :
  (forall (m m' : AArch64.Memory) (root vPage pPage p : Z) (isWrite : bool),
     AArch64.performTranslation m root vPage pPage isWrite = Some (true, p, m') ->
     exists leaf,
       AArch64.leafSlot m root vPage = Some leaf /\
       AArch64.valid (m leaf) = true /\
       p = AArch64.physicalPageNum (m leaf) /\
       AArch64.referenced (m' leaf) = true /\
       AArch64.dirty (m' leaf) = (isWrite || AArch64.dirty (m leaf)) /\
       AArch64.valid (m' leaf) = true /\
       AArch64.type_ (m' leaf) = AArch64.type_ (m leaf) /\
       AArch64.physicalPageNum (m' leaf) = AArch64.physicalPageNum (m leaf) /\
       forall a, a <> leaf -> m' a = m a) /\
  (exists leaf,
     AArch64.leafSlot S2_memory (AArch64.l0_table S2_fixture) 0x12345 = Some leaf /\
     AArch64.referenced (S2_memory leaf) = false /\
     match AArch64.performTranslation S2_memory (AArch64.l0_table S2_fixture)
             0x12345 0 false with
     | Some (true, p, m1) =>
         p = 0xABCDE /\
         AArch64.referenced (m1 leaf) = true /\ AArch64.dirty (m1 leaf) = false /\
         match AArch64.performTranslation m1 (AArch64.l0_table S2_fixture)
                 0x12345 0 true with
         | Some (true, p', m2) =>
             p' = 0xABCDE /\
             AArch64.referenced (m2 leaf) = true /\ AArch64.dirty (m2 leaf) = true
         | _ => False
         end
     | _ => False
     end).
Proof.
  split.
  - intros m m' root vPage pPage p isWrite H.
    assert (Hal : Z.land root (AArch64.pageTableAlign - 1) = 0).
    { unfold AArch64.performTranslation in H.
      destruct (Z.eqb_spec (Z.land root (AArch64.pageTableAlign - 1)) 0);
        [assumption | discriminate]. }
    rewrite (performTranslation_walk m root vPage pPage isWrite Hal) in H.
    destruct (AArch64.leafSlot m root vPage) as [a|]; [|discriminate].
    destruct (AArch64.valid (m a)) eqn:Ev; [|discriminate].
    injection H as <- <-. exists a.
    split; [reflexivity|]. split; [exact Ev|]. split; [reflexivity|].
    destruct isWrite; simpl; rewrite ?store_same; simpl; rewrite ?store_same;
      simpl; repeat split; try assumption; try reflexivity;
      intros a' Ha'; rewrite ?store_other by exact Ha'; reflexivity.
  - eexists. split; [vm_compute; reflexivity|]. vm_compute.
    repeat split; reflexivity.
Qed.

(** C6 on the mapping of the unit tests. *)
Lemma performTranslation_stamps_leaf_witness :
  exists m' leaf,
    AArch64.performTranslation S2_memory 0x10000 0x12345 0 true
    = Some (true, 0xABCDE, m') /\
    AArch64.leafSlot S2_memory 0x10000 0x12345 = Some leaf /\
    AArch64.referenced (m' leaf) = true /\ AArch64.dirty (m' leaf) = true.
Proof.
  destruct (AArch64.performTranslation S2_memory 0x10000 0x12345 0 true)
    as [[[[] p] m']|] eqn:E; try (vm_compute in E; discriminate).
  assert (Hp : p = 0xABCDE) by (vm_compute in E; congruence).
  subst p. exists m'.
  destruct (proj1 performTranslation_stamps_leaf _ _ _ _ _ _ _ E)
    as (leaf & Hl & _ & _ & Hr & Hd & _).
  exists leaf. split; [reflexivity|]. split; [exact Hl|]. split; [exact Hr|].
  rewrite Hd. reflexivity.
Defined.

(** ** Two TLB objects *)

(** The objects of tlb.h keep their entries and their index to
    themselves: operations on one leave the other as it is. *)
Lemma tlb_objects_independent (p p' : Tlb.TLB * Tlb.TLB) (ops : list Tlb.Op) :
  runFirst p ops = Some p' -> snd p' = snd p.
Proof.
  unfold runFirst. destruct (Tlb.run (fst p) ops); [|discriminate].
  intros [= <-]. reflexivity.
Qed.

(** C2 fails on the TLB of mmu.cc.  Object [A] first looks page 0x1000 up,
    which misses.  If nothing else happens, a lookup of the page on object
    [B] misses and [B] reports one lookup and no hit.  If [A] also adds the
    page, the same lookup on [B] hits with the page [A] added and [B]
    reports one hit. *)
Theorem mmu_tlb_objects_interfere :
  (p ← MmuTlb.runA twoTlbs [MmuTlb.Lookup 0x1000]; MmuTlb.observeB p 0x1000)
  = Some (false, 0, (1, 0, 0, 0, 0)) /\
  (p ← MmuTlb.runA twoTlbs [MmuTlb.Lookup 0x1000; MmuTlb.Add 0x1000 0x2000];
   MmuTlb.observeB p 0x1000)
  = Some (true, 0x2000, (1, 1, 0, 0, 0)).
Proof. split; vm_compute; reflexivity. Qed.

(** ** The driver: the counter of bytes, and allocating a table twice *)

Section DriverCounter.
Import AArch64.

Lemma grows_ret {A} (a : A) : grows 0 (ret a).
Proof. intros d H0 H1. simpl. lia. Qed.

Lemma grows_throw {A} : grows 0 (@throw A).
Proof. intros d H0 H1. simpl. lia. Qed.

Lemma grows_weaken {A} k k' (c : M A) : grows k c -> k <= k' -> grows k' c.
Proof.
  intros H Hle d H0 H1. specialize (H d H0 ltac:(lia)).
  destruct (stateAfter (c d)); [lia | exact Logic.I].
Qed.

Lemma grows_bind {A B} k1 k2 (c : M A) (f : A -> M B) :
  0 <= k1 -> 0 <= k2 ->
  grows k1 c -> (forall a, grows k2 (f a)) -> grows (k1 + k2) (bind c f).
Proof.
  intros Hk1 Hk2 Hc Hf d H0 H1. unfold bind.
  specialize (Hc d H0 ltac:(lia)).
  destruct (c d) as [a d'| d' |]; simpl in *; [|lia|exact Logic.I].
  specialize (Hf a d' ltac:(lia) ltac:(lia)).
  destruct (stateAfter (f a d')); [lia | exact Logic.I].
Qed.

Lemma grows_readEntry a : grows 0 (readEntry a).
Proof. intros d H0 H1. simpl. lia. Qed.

Lemma grows_writeEntry a e : grows 0 (writeEntry a e).
Proof. intros d H0 H1. simpl. lia. Qed.

Lemma grows_allocateTable size : 0 <= size -> grows size (allocateTable size).
Proof.
  intros Hs d H0 H1. unfold allocateTable.
  destruct (kernel d) as [k|]; [|exact Logic.I].
  destruct (allocateMemory k size pageTableAlign) as [[table k']|]; simpl.
  - rewrite wrap64_small by lia. lia.
  - lia.
Qed.

Lemma grows_getOrCreateTable parent idx :
  grows tableBytes (getOrCreateTable parent idx).
Proof.
  unfold getOrCreateTable.
  apply (grows_bind 0 tableBytes); [lia | vm_compute; discriminate | apply grows_readEntry|].
  intros e. destruct (valid e); simpl.
  - destruct (type_ e); (eapply grows_weaken; [apply grows_ret || apply grows_throw|]);
      vm_compute; discriminate.
  - replace tableBytes with (tableBytes + (0 + 0)) by lia.
    apply grows_bind; [vm_compute; discriminate | lia | |].
    + apply grows_allocateTable. vm_compute; discriminate.
    + intros t. apply grows_bind; [lia | lia | apply grows_writeEntry|].
      intros _. apply grows_ret.
Qed.

Lemma grows_setMapping PID vAddr pPage :
  grows (3 * tableBytes) (setMapping PID vAddr pPage).
Proof.
  assert (Ht : 0 <= tableBytes) by (vm_compute; discriminate).
  assert (Hchain : forall l0 i0 i1 i2 (a : Z -> Z) e (r : Z -> PhysPage),
    grows (3 * tableBytes)
      (bind (getOrCreateTable l0 i0)
         (fun l1 => bind (getOrCreateTable l1 i1)
            (fun l2 => bind (getOrCreateTable l2 i2)
               (fun l3 => bind (writeEntry (a l3) e)
                  (fun _ => ret (r l3))))))).
  { intros l0 i0 i1 i2 a e r.
    replace (3 * tableBytes)
      with (tableBytes + (tableBytes + (tableBytes + (0 + 0)))) by lia.
    apply grows_bind; [lia | lia | apply grows_getOrCreateTable|]. intros l1.
    apply grows_bind; [lia | lia | apply grows_getOrCreateTable|]. intros l2.
    apply grows_bind; [lia | lia | apply grows_getOrCreateTable|]. intros l3.
    apply grows_bind; [lia | lia | apply grows_writeEntry|]. intros _.
    apply grows_ret. }
  intros d H0 H1. unfold setMapping.
  destruct (pageTables d !! PID) as [l0|].
  - exact (Hchain l0 _ _ _ (fun l3 => slot l3 _) _
             (fun l3 => mkPhysPage (addr pPage) (slot l3 _)) d H0 H1).
  - simpl. lia.
Qed.

Lemma grows_allocatePageTable PID : grows rootBytes (allocatePageTable PID).
Proof.
  unfold allocatePageTable.
  replace rootBytes with (rootBytes + 0) by lia.
  apply grows_bind; [vm_compute; discriminate | lia | |].
  - apply grows_allocateTable. vm_compute; discriminate.
  - intros t d H0 H1. simpl. lia.
Qed.

Lemma grows_releasePageTable PID : grows 0 (releasePageTable PID).
Proof.
  intros d H0 H1. unfold releasePageTable.
  destruct (pageTables d !! PID) as [table|]; [|simpl; lia].
  destruct (kernel d) as [k|]; [simpl; lia|].
  destruct (table =? 0); simpl; [lia | exact Logic.I].
Qed.

Lemma grows_setPageValid pPage setting : grows 0 (setPageValid pPage setting).
Proof.
  unfold setPageValid. destruct (driverData pPage =? 0); [apply grows_throw|].
  replace 0 with (0 + 0) by lia.
  apply grows_bind; [lia | lia | apply grows_readEntry|].
  intros e. destruct (negb (valid e) && setting);
    [apply grows_throw | apply grows_writeEntry].
Qed.

Lemma grows_forget {A} k (c : M A) : grows k c -> grows k (fun d => forget (c d)).
Proof.
  intros H d H0 H1. specialize (H d H0 H1).
  destruct (c d); exact H.
Qed.

Lemma grows_step o : grows (3 * tableBytes) (step o).
Proof.
  assert (Ht : 0 <= tableBytes) by (vm_compute; discriminate).
  assert (Hr : rootBytes <= 3 * tableBytes) by (vm_compute; discriminate).
  destruct o as [PID|PID|PID|PID vAddr pPage|pPage setting].
  - exact (grows_weaken _ _ _ (grows_allocatePageTable PID) Hr).
  - apply (grows_weaken 0); [apply grows_releasePageTable | lia].
  - apply (grows_weaken 0); [|lia]. intros d H0 H1. simpl. unfold getPageTable.
    destruct (pageTables d !! PID); simpl; lia.
  - exact (grows_forget _ _ (grows_setMapping PID vAddr pPage)).
  - apply (grows_weaken 0); [apply grows_setPageValid | lia].
Qed.

Lemma grows_run ops : grows (3 * tableBytes * Z.of_nat (length ops)) (run ops).
Proof.
  assert (Ht : 0 <= tableBytes) by (vm_compute; discriminate).
  induction ops as [|o ops IH].
  - simpl. replace (3 * tableBytes * 0) with 0 by lia. apply grows_ret.
  - change (run (o :: ops)) with (bind (step o) (fun _ => run ops)).
    replace (3 * tableBytes * Z.of_nat (length (o :: ops)))
      with (3 * tableBytes + 3 * tableBytes * Z.of_nat (length ops))
      by (simpl length; lia).
    apply grows_bind; [lia | lia | apply grows_step | intros _; exact IH].
Qed.

Lemma stateAfter_Ok {A} (a : A) d d' : stateAfter (Ok a d) = Some d' -> d' = d.
Proof. intros [= ->]. reflexivity. Qed.

(** All that [releasePageTable] changes is the map and the kernel. *)
Lemma releasePageTable_state PID d d' :
  stateAfter (releasePageTable PID d) = Some d' ->
  mem d' = mem d /\ bytesAllocated d' = bytesAllocated d /\
  (pageTables d' = delete PID (pageTables d) \/ pageTables d' = pageTables d).
Proof.
  unfold releasePageTable.
  destruct (pageTables d !! PID) as [table|].
  - destruct (kernel d) as [k|].
    + intros H. apply stateAfter_Ok in H. subst d'. auto.
    + destruct (table =? 0); [|discriminate].
      intros H. apply stateAfter_Ok in H. subst d'. auto.
  - intros H. apply stateAfter_Ok in H. subst d'. auto.
Qed.

Lemma allocateTable_Ok size d table d' :
  allocateTable size d = Ok table d' ->
  exists k rest,
    kernel d = Some k /\ pending k = table :: rest /\
    d' = mkDriver (pageTables d) (wrap64 (bytesAllocated d + size))
                  (Some (mkKernel rest ({[table]} ∪ live k)))
                  (memset0 (mem d) table size).
Proof.
  unfold allocateTable, allocateMemory.
  destruct (kernel d) as [k|]; [|discriminate].
  destruct (pending k) as [|p rest] eqn:E; [discriminate|].
  intros [= <- <-]. exists k, rest. split; [reflexivity|]. split; [exact E | reflexivity].
Qed.

End DriverCounter.

(** C10: over any sequence of driver calls [bytesAllocated] does not
    decrease, as long as the 64-bit counter has room for what the sequence
    can add.  [allocatePageTable] adds the size of the root table, each
    table [getOrCreateTable] creates adds the size of a table, and
    [releasePageTable] leaves the counter as it is. *)
Theorem bytesAllocated_never_decreases :
  (forall (ops : list AArch64.Op) (d d' : AArch64.Driver),
     stateAfter (AArch64.run ops d) = Some d' ->
     0 <= AArch64.bytesAllocated d ->
     AArch64.bytesAllocated d + 3 * tableBytes * Z.of_nat (length ops) < 2 ^ 64 ->
     AArch64.bytesAllocated d <= AArch64.bytesAllocated d') /\
  (forall PID d d',
     AArch64.allocatePageTable PID d = AArch64.Ok tt d' ->
     AArch64.bytesAllocated d' = wrap64 (AArch64.bytesAllocated d + rootBytes)) /\
  (forall parent idx d table d',
     AArch64.getOrCreateTable parent idx d = AArch64.Ok table d' ->
     AArch64.bytesAllocated d' =
     if AArch64.valid (AArch64.mem d (AArch64.slot parent idx))
     then AArch64.bytesAllocated d
     else wrap64 (AArch64.bytesAllocated d + tableBytes)) /\
  (forall PID d d',
     stateAfter (AArch64.releasePageTable PID d) = Some d' ->
     AArch64.bytesAllocated d' = AArch64.bytesAllocated d).
Proof.
  split; [|split; [|split]].
  - intros ops d d' Hrun H0 H1. pose proof (grows_run ops d H0 H1) as H.
    rewrite Hrun in H. lia.
  - intros PID d d'. unfold AArch64.allocatePageTable, AArch64.bind.
    destruct (AArch64.allocateTable _ d) as [t d1| |] eqn:E; try discriminate.
    intros [= <-]. apply allocateTable_Ok in E.
    destruct E as (k & rest & _ & _ & ->). reflexivity.
  - intros parent idx d table d'.
    unfold AArch64.getOrCreateTable, AArch64.bind, AArch64.readEntry.
    destruct (AArch64.valid (AArch64.mem d (AArch64.slot parent idx))); simpl.
    + destruct (AArch64.type_ _); [|discriminate]. intros [= _ <-]. reflexivity.
    + unfold AArch64.allocatePageTableLevel.
      destruct (AArch64.allocateTable _ d) as [t d1| |] eqn:E; try discriminate.
      simpl. intros [= _ <-]. apply allocateTable_Ok in E.
      destruct E as (k & rest & _ & _ & ->). reflexivity.
  - intros PID d d' H. apply releasePageTable_state in H.
    destruct H as (_ & H & _). exact H.
Qed.

(** C10 on a sequence that allocates a root, maps a page, which creates
    three tables, and releases the tree: 16 + 3 * 16384 bytes. *)
Lemma bytesAllocated_never_decreases_witness :
  exists d',
    stateAfter
      (AArch64.run
         [AArch64.AllocatePageTable 1;
          AArch64.SetMapping 1 (0x12345 * 16384)
            (AArch64.mkPhysPage (0xABCDE * 16384) 0);
          AArch64.ReleasePageTable 1] S7_boot) = Some d' /\
    AArch64.bytesAllocated S7_boot <= AArch64.bytesAllocated d' /\
    AArch64.bytesAllocated d' = 49168.
Proof.
  destruct (stateAfter
      (AArch64.run
         [AArch64.AllocatePageTable 1;
          AArch64.SetMapping 1 (0x12345 * 16384)
            (AArch64.mkPhysPage (0xABCDE * 16384) 0);
          AArch64.ReleasePageTable 1] S7_boot)) as [d'|] eqn:E;
    [|vm_compute in E; discriminate].
  exists d'. split; [reflexivity|]. split.
  - apply (proj1 bytesAllocated_never_decreases _ _ _ E); vm_compute;
      [discriminate | reflexivity].
  - apply (f_equal (option_map AArch64.bytesAllocated)) in E.
    vm_compute in E. injection E as E. symmetry. exact E.
Defined.

(** C9 as stated fails: on a driver whose kernel has two bases to hand
    out, [allocatePageTable 1] binds process 1 to the first, and a second
    [allocatePageTable 1] returns as well and binds it to the second. *)
Lemma allocatePageTable_twice_succeeds :
  match AArch64.allocatePageTable 1 S9_driver with
  | AArch64.Ok _ d1 =>
      AArch64.pageTables d1 !! 1 = Some 0x10000 /\
      match AArch64.allocatePageTable 1 d1 with
      | AArch64.Ok _ d2 => AArch64.pageTables d2 !! 1 = Some 0x14000
      | _ => False
      end
  | _ => False
  end.
Proof. vm_compute. split; reflexivity. Qed.

(** C9, amended: [allocatePageTable] does not look at the map.  For a
    process that has a root already it takes a table from the kernel,
    zeroes it, adds its size to [bytesAllocated] and binds the process to
    it; the old root stays live in the kernel and is in the map no more.
    (With nothing to hand out the kernel's exception passes through.) *)
Theorem allocatePageTable_rebinds (d : AArch64.Driver) (PID old : Z)
    (k : AArch64.Kernel) (p : Z) (rest : list Z) :
  AArch64.pageTables d !! PID = Some old ->
  AArch64.kernel d = Some k ->
  AArch64.pending k = p :: rest ->
  AArch64.allocatePageTable PID d =
  AArch64.Ok tt
    (AArch64.mkDriver (<[PID := p]> (AArch64.pageTables d))
       (wrap64 (AArch64.bytesAllocated d + rootBytes))
       (Some (AArch64.mkKernel rest ({[p]} ∪ AArch64.live k)))
       (AArch64.memset0 (AArch64.mem d) p rootBytes)).
Proof.
  intros _ Hk Hp.
  unfold AArch64.allocatePageTable, AArch64.bind, AArch64.allocateTable,
    AArch64.allocateMemory.
  rewrite Hk, Hp. reflexivity.
Qed.

(** C9 on the driver with process 1 bound to 0x10000. *)
Lemma allocatePageTable_rebinds_witness :
  AArch64.pageTables S9_bound !! 1 = Some 0x10000 /\
  exists d', AArch64.allocatePageTable 1 S9_bound = AArch64.Ok tt d' /\
             AArch64.pageTables d' !! 1 = Some 0x14000.
Proof.
  split; [reflexivity|]. eexists. split.
  - apply (allocatePageTable_rebinds S9_bound 1 0x10000
             (AArch64.mkKernel [0x14000] {[0x10000]}) 0x14000 []);
      reflexivity.
  - simpl. apply lookup_insert_eq.
Defined.

(** ** Addresses, slots and indices *)

Section AddressFacts.
Import AArch64.

Lemma tableAligned_multiple T :
  tableAligned T -> exists q, T = 16384 * q /\ 0 < q < 2 ^ 34.
Proof.
  intros [Hr Hm]. change pageSize with 16384 in Hm.
  exists (T / 16384). pose proof (Z.div_mod T 16384 ltac:(lia)) as Hd.
  rewrite Hm in Hd. split; [lia|].
  change (2 ^ 48) with (16384 * 2 ^ 34) in Hr. lia.
Qed.

Lemma slot_inj T T' i i' :
  tableAligned T -> tableAligned T' ->
  0 <= i < 2048 -> 0 <= i' < 2048 ->
  slot T i = slot T' i' -> T = T' /\ i = i'.
Proof.
  intros HT HT' Hi Hi'. unfold slot, sizeofEntry.
  destruct (tableAligned_multiple T HT) as (q & -> & _).
  destruct (tableAligned_multiple T' HT') as (q' & -> & _).
  intros H. assert (q = q') by lia. subst q'. split; [reflexivity | lia].
Qed.

Lemma slot_outside p T i size :
  tableAligned p -> tableAligned T -> T <> p ->
  0 <= i < 2048 -> size <= 16384 ->
  (p <=? slot T i) && (slot T i <? p + size) = false.
Proof.
  intros Hp HT Hne Hi Hs. unfold slot, sizeofEntry.
  destruct (tableAligned_multiple p Hp) as (q & -> & _).
  destruct (tableAligned_multiple T HT) as (q' & -> & _).
  assert (q <> q') by congruence.
  destruct (Z.leb_spec (16384 * q) (16384 * q' + 8 * i));
    destruct (Z.ltb_spec (16384 * q' + 8 * i) (16384 * q + size));
    try reflexivity; lia.
Qed.

Lemma slot_inside p i size :
  0 <= i -> 8 * i + 8 <= size ->
  (p <=? slot p i) && (slot p i <? p + size) = true.
Proof.
  intros Hi Hs. unfold slot, sizeofEntry.
  destruct (Z.leb_spec p (p + 8 * i)); [|lia].
  destruct (Z.ltb_spec (p + 8 * i) (p + size)); [reflexivity | lia].
Qed.

Lemma getAddress_initTableEntry p b :
  tableAligned p -> getAddress (initTableEntry p b) = p.
Proof.
  intros Hp. destruct (tableAligned_multiple p Hp) as (q & -> & Hq).
  unfold getAddress, initTableEntry, pageBits. simpl physicalPageNum.
  rewrite Z.shiftr_div_pow2, Z.shiftl_mul_pow2 by lia.
  change (2 ^ 14) with 16384.
  rewrite (Z.mul_comm 16384 q), Z.div_mul by lia.
  rewrite Z.mod_small by lia. reflexivity.
Qed.

Lemma aligned_land T : tableAligned T -> Z.land T (pageTableAlign - 1) = 0.
Proof.
  intros [_ Hm]. change (pageTableAlign - 1) with (Z.ones 14).
  rewrite Z.land_ones by lia. exact Hm.
Qed.

Lemma entriesAt_bound lv : 0 < entriesAt lv <= 2048.
Proof. destruct lv; vm_compute; split; congruence. Qed.

Lemma land_ones_range x n : 0 <= n -> 0 <= Z.land x (Z.ones n) < 2 ^ n.
Proof. intros Hn. rewrite Z.land_ones by exact Hn. apply Z.mod_pos_bound. lia. Qed.

Lemma L0_INDEX_range v : 0 <= L0_INDEX v < entriesAt 0.
Proof. apply (land_ones_range _ 1). lia. Qed.

Lemma L1_INDEX_range v : 0 <= L1_INDEX v < 2048.
Proof. apply (land_ones_range _ 11). lia. Qed.

Lemma L2_INDEX_range v : 0 <= L2_INDEX v < 2048.
Proof. apply (land_ones_range _ 11). lia. Qed.

Lemma L3_INDEX_range v : 0 <= L3_INDEX v < 2048.
Proof. apply (land_ones_range _ 11). lia. Qed.

(** The four indices are functions of the page number alone. *)
Lemma indices_of_page x y :
  Z.shiftr x pageBits = Z.shiftr y pageBits ->
  L0_INDEX x = L0_INDEX y /\ L1_INDEX x = L1_INDEX y /\
  L2_INDEX x = L2_INDEX y /\ L3_INDEX x = L3_INDEX y.
Proof.
  intros H. unfold L0_INDEX, L1_INDEX, L2_INDEX, L3_INDEX.
  rewrite !(Z.add_comm _ pageBits).
  rewrite <- !Z.shiftr_shiftr by (vm_compute; discriminate).
  rewrite H. auto.
Qed.

(** The address the walker makes of the page number of an address has the
    page number of the address. *)
Lemma walker_address v :
  0 <= v < 2 ^ 48 ->
  Z.shiftr (wrap64 (Z.shiftl (Z.shiftr v pageBits) pageBits)) pageBits
  = Z.shiftr v pageBits.
Proof.
  intros Hv. unfold pageBits.
  rewrite (Z.shiftr_div_pow2 v), Z.shiftl_mul_pow2 by lia.
  change (2 ^ 14) with 16384.
  assert (0 <= v / 16384 < 2 ^ 34).
  { split; [apply Z.div_pos; lia|].
    apply Z.div_lt_upper_bound; [lia|]. change (16384 * 2 ^ 34) with (2 ^ 48). lia. }
  rewrite wrap64_small by lia.
  rewrite Z.shiftr_div_pow2 by lia. change (2 ^ 14) with 16384.
  apply Z.div_mul. lia.
Qed.

Lemma masked_range vAddr :
  0 <= Z.land vAddr (Z.shiftl 1 addressSpaceBits - 1) < 2 ^ 48.
Proof.
  change (Z.shiftl 1 addressSpaceBits - 1) with (Z.ones 48).
  apply land_ones_range. lia.
Qed.

Lemma physicalPage_fits a :
  0 <= a < 2 ^ 48 -> Z.shiftr a pageBits mod 2 ^ 34 = Z.shiftr a pageBits.
Proof.
  intros Ha. unfold pageBits. rewrite Z.shiftr_div_pow2 by lia.
  apply Z.mod_small. split; [apply Z.div_pos; lia|].
  apply Z.div_lt_upper_bound; [lia|]. change (2 ^ 14 * 2 ^ 34) with (2 ^ 48). lia.
Qed.

End AddressFacts.

(** ** The invariant of the driver *)

Section DriverInvariant.
Import AArch64.

(** Writing an entry keeps the invariant when the entry, if it is valid
    and in a table above level 3, is a descriptor of a table one level
    down. *)
Lemma wf_store own d a e :
  driver_wf own d ->
  (forall T PID lv idx,
     own !! T = Some (PID, lv) -> (lv < 3)%nat -> 0 <= idx < entriesAt lv ->
     slot T idx = a -> valid e = true ->
     type_ e = true /\ own !! getAddress e = Some (PID, S lv)) ->
  driver_wf own (mkDriver (pageTables d) (bytesAllocated d) (kernel d)
                          (store (mem d) a e)).
Proof.
  intros W He. constructor; simpl.
  - apply (wf_kernel own d W).
  - apply (wf_roots own d W).
  - apply (wf_tables own d W).
  - intros T PID lv idx HT Hlv Hidx. unfold store.
    destruct (Z.eqb_spec (slot T idx) a) as [Heq|Hne].
    + apply (He T PID lv idx HT Hlv Hidx Heq).
    + apply (wf_children own d W T PID lv idx HT Hlv Hidx).
Qed.

(** A table taken from the kernel and zeroed joins the tables of the
    driver at any level. *)
Lemma wf_alloc own d k p rest size PID lv b :
  driver_wf own d -> kernel d = Some k -> pending k = p :: rest ->
  8 * entriesAt lv <= size <= 16384 -> (lv <= 3)%nat ->
  tableAligned p /\ own !! p = None /\
  driver_wf (<[p := (PID, lv)]> own)
    (mkDriver (pageTables d) b (Some (mkKernel rest ({[p]} ∪ live k)))
              (memset0 (mem d) p size)).
Proof.
  intros W Hk Hp Hsize Hlv.
  destruct (wf_kernel own d W) as (k0 & Hk0 & [Hnd Hsound] & Hown).
  rewrite Hk in Hk0. injection Hk0 as <-.
  rewrite Hp in Hnd, Hsound.
  destruct (Hsound p (or_introl eq_refl)) as [Hal Hfresh].
  assert (Hnone : own !! p = None).
  { destruct (own !! p) eqn:E; [|reflexivity].
    exfalso. apply Hfresh. apply Hown. rewrite E. eauto. }
  split; [exact Hal|]. split; [exact Hnone|].
  apply NoDup_cons in Hnd. destruct Hnd as [Hnotin Hnd].
  constructor; simpl.
  - eexists. split; [reflexivity|]. split; [split; simpl|].
    + exact Hnd.
    + intros q Hq. destruct (Hsound q (or_intror Hq)) as [Hq1 Hq2].
      split; [exact Hq1|]. intros Hin. apply elem_of_union in Hin.
      destruct Hin as [Hin|Hin]; [|contradiction].
      apply elem_of_singleton in Hin. subst q.
      apply Hnotin. apply list_elem_of_In. exact Hq.
    + intros T HT. simpl. apply elem_of_union.
      destruct (decide (T = p)) as [->|Hne]; [left; apply elem_of_singleton; reflexivity|].
      right. apply Hown. rewrite lookup_insert_ne in HT by congruence. exact HT.
  - intros PID' root Hroot. pose proof (wf_roots own d W PID' root Hroot) as Hr.
    rewrite lookup_insert_ne; [exact Hr|]. intros <-. congruence.
  - intros T PID' lv' HT. destruct (decide (p = T)) as [<-|Hne].
    + rewrite lookup_insert_eq in HT. injection HT as <- <-. split; assumption.
    + rewrite lookup_insert_ne in HT by exact Hne.
      apply (wf_tables own d W T PID' lv' HT).
  - intros T PID' lv' idx HT Hlv' Hidx. unfold memset0.
    destruct (decide (p = T)) as [<-|Hne].
    + rewrite lookup_insert_eq in HT. injection HT as <- <-.
      rewrite slot_inside by lia. simpl. discriminate.
    + rewrite lookup_insert_ne in HT by exact Hne.
      destruct (wf_tables own d W T PID' lv' HT) as [HalT _].
      pose proof (entriesAt_bound lv').
      rewrite (slot_outside p T idx size Hal HalT ltac:(congruence) ltac:(lia) ltac:(lia)).
      intros Hv.
      destruct (wf_children own d W T PID' lv' idx HT Hlv' Hidx Hv) as [Ht Hc].
      split; [exact Ht|]. rewrite lookup_insert_ne; [exact Hc|].
      intros Heq. rewrite <- Heq in Hc. congruence.
Qed.

(** [getOrCreateTable] on a slot of a table of the driver above level 3:
    it returns a table of the same process one level down, to which the
    slot then leads; no other slot of a table of the driver changes.  It
    throws only when the kernel has nothing to hand out. *)
Lemma getOrCreateTable_spec own d k PID lv parent idx :
  driver_wf own d -> kernel d = Some k ->
  own !! parent = Some (PID, lv) -> (lv < 3)%nat -> 0 <= idx < entriesAt lv ->
  match getOrCreateTable parent idx d with
  | Ok child d' =>
      exists own' k',
        driver_wf own' d' /\ kernel d' = Some k' /\
        (length (pending k) <= S (length (pending k')))%nat /\
        (forall T x, own !! T = Some x -> own' !! T = Some x) /\
        own' !! child = Some (PID, S lv) /\
        valid (mem d' (slot parent idx)) = true /\
        type_ (mem d' (slot parent idx)) = true /\
        getAddress (mem d' (slot parent idx)) = child /\
        (forall T i, is_Some (own !! T) -> 0 <= i < 2048 ->
           slot T i <> slot parent idx ->
           mem d' (slot T i) = mem d (slot T i)) /\
        pageTables d' = pageTables d
  | Throw d' => pending k = []
  | Undef => False
  end.
Proof.
  intros W Hk Hparent Hlv Hidx.
  unfold getOrCreateTable, bind, readEntry.
  destruct (valid (mem d (slot parent idx))) eqn:Ev; simpl.
  - destruct (wf_children own d W parent PID lv idx Hparent Hlv Hidx Ev) as [Ht Hc].
    rewrite Ht. simpl. exists own, k.
    split; [exact W|]. split; [exact Hk|]. split; [lia|].
    split; [auto|]. split; [exact Hc|]. split; [exact Ev|]. split; [exact Ht|].
    split; [reflexivity|]. split; [reflexivity | reflexivity].
  - unfold allocatePageTableLevel, allocateTable, allocateMemory. rewrite Hk.
    destruct (pending k) as [|p rest] eqn:Hp; [reflexivity|]. simpl.
    destruct (wf_alloc own d k p rest (L1_ENTRIES * sizeofEntry) PID (S lv)
                (wrap64 (bytesAllocated d + L1_ENTRIES * sizeofEntry))
                W Hk Hp ltac:(vm_compute; split; discriminate) ltac:(lia))
      as (Hal & Hnone & W1).
    destruct (wf_tables own d W parent PID lv Hparent) as [Halp _].
    assert (Hpp : parent <> p) by congruence.
    exists (<[p := (PID, S lv)]> own), (mkKernel rest ({[p]} ∪ live k)).
    split; [|split; [reflexivity|split; [simpl; lia|split; [|split; [|split; [|split; [|split; [|split]]]]]]]].
    + apply (wf_store _ _ _ _ W1).
      intros T PID' lv' idx' HT Hlv' Hidx' Hslot _.
      split; [reflexivity|].
      rewrite (getAddress_initTableEntry p true Hal).
      assert (HalT : tableAligned T).
      { destruct (decide (p = T)) as [<-|Hne]; [exact Hal|].
        rewrite lookup_insert_ne in HT by exact Hne.
        apply (wf_tables own d W T PID' lv' HT). }
      pose proof (entriesAt_bound lv). pose proof (entriesAt_bound lv').
      destruct (slot_inj T parent idx' idx HalT Halp ltac:(lia) ltac:(lia) Hslot)
        as [-> ->].
      rewrite lookup_insert_ne in HT by congruence.
      rewrite Hparent in HT. injection HT as <- <-.
      apply lookup_insert_eq.
    + intros T x HT. rewrite lookup_insert_ne; [exact HT|]. congruence.
    + apply lookup_insert_eq.
    + simpl. rewrite store_same. reflexivity.
    + simpl. rewrite store_same. reflexivity.
    + simpl. rewrite store_same. apply getAddress_initTableEntry. exact Hal.
    + intros T i [[PIDx lvx] HT] Hi Hslot. simpl.
      rewrite store_other by exact Hslot.
      unfold memset0.
      destruct (wf_tables own d W T PIDx lvx HT) as [HalT _].
      assert (Hsz : L1_ENTRIES * sizeofEntry <= 16384) by (vm_compute; discriminate).
      assert (HTp : T <> p) by congruence.
      rewrite (slot_outside p T i _ Hal HalT HTp Hi Hsz).
      reflexivity.
    + reflexivity.
Qed.


Lemma slot_neq T T' i i' :
  tableAligned T -> tableAligned T' -> 0 <= i < 2048 -> 0 <= i' < 2048 ->
  T <> T' -> slot T i <> slot T' i'.
Proof.
  intros HT HT' Hi Hi' Hne Heq.
  destruct (slot_inj T T' i i' HT HT' Hi Hi' Heq). contradiction.
Qed.

(** [setMapping]: when it returns, the three interior slots of the address
    lead from the root of the process to an L3 table whose slot holds the
    leaf entry of the page; the invariant holds afterwards.  It throws for
    a process without a root or when the kernel runs out of tables. *)
Lemma setMapping_spec own d k PID vAddr pPage :
  driver_wf own d -> kernel d = Some k ->
  match setMapping PID vAddr pPage d with
  | Ok pPage' d' =>
      exists own' root T1 T2 T3,
        pageTables d !! PID = Some root /\
        driver_wf own' d' /\ pageTables d' = pageTables d /\
        tableAligned root /\
        leadsTo (mem d') (slot root (L0_INDEX (maskAddress vAddr))) T1 /\
        leadsTo (mem d') (slot T1 (L1_INDEX (maskAddress vAddr))) T2 /\
        leadsTo (mem d') (slot T2 (L2_INDEX (maskAddress vAddr))) T3 /\
        mem d' (slot T3 (L3_INDEX (maskAddress vAddr)))
        = initTableEntry (addr pPage) false /\
        pPage' = mkPhysPage (addr pPage)
                            (slot T3 (L3_INDEX (maskAddress vAddr)))
  | Throw d' => pageTables d !! PID = None \/ (length (pending k) < 3)%nat
  | Undef => False
  end.
Proof.
  intros W Hk. unfold setMapping. fold (maskAddress vAddr).
  set (v := maskAddress vAddr).
  destruct (pageTables d !! PID) as [root|] eqn:Hroot; [|left; reflexivity].
  pose proof (wf_roots own d W PID root Hroot) as Hr0.
  pose proof (L0_INDEX_range v) as Hi0.
  pose proof (L1_INDEX_range v) as Hi1.
  pose proof (L2_INDEX_range v) as Hi2.
  pose proof (L3_INDEX_range v) as Hi3.
  assert (He0 : entriesAt 0 <= 2048) by (vm_compute; discriminate).
  unfold bind at 1.
  pose proof (getOrCreateTable_spec own d k PID 0 root (L0_INDEX v) W Hk Hr0
                ltac:(lia) Hi0) as G1.
  destruct (getOrCreateTable root (L0_INDEX v) d) as [T1 d1|d1|];
    [|right; rewrite G1; simpl; lia|contradiction].
  destruct G1 as (own1 & k1 & W1 & Hk1 & Hlen1 & Hsub1 & HT1 & Hv1 & Ht1 & Ha1 & Hfr1 & Hpt1).
  unfold bind at 1.
  pose proof (getOrCreateTable_spec own1 d1 k1 PID 1 T1 (L1_INDEX v) W1 Hk1 HT1
                ltac:(lia) Hi1) as G2.
  destruct (getOrCreateTable T1 (L1_INDEX v) d1) as [T2 d2|d2|];
    [|right; rewrite G2 in Hlen1; simpl in Hlen1; lia|contradiction].
  destruct G2 as (own2 & k2 & W2 & Hk2 & Hlen2 & Hsub2 & HT2 & Hv2 & Ht2 & Ha2 & Hfr2 & Hpt2).
  unfold bind at 1.
  pose proof (getOrCreateTable_spec own2 d2 k2 PID 2 T2 (L2_INDEX v) W2 Hk2 HT2
                ltac:(lia) Hi2) as G3.
  destruct (getOrCreateTable T2 (L2_INDEX v) d2) as [T3 d3|d3|];
    [|right; rewrite G3 in Hlen2; simpl in Hlen2; lia|contradiction].
  destruct G3 as (own3 & k3 & W3 & Hk3 & Hlen3 & Hsub3 & HT3 & Hv3 & Ht3 & Ha3 & Hfr3 & Hpt3).
  unfold bind, writeEntry, ret.
  (* the four tables, at four levels *)
  pose proof (Hsub3 _ _ (Hsub2 _ _ (Hsub1 _ _ Hr0))) as Hr3.
  pose proof (Hsub3 _ _ (Hsub2 _ _ HT1)) as HT13.
  pose proof (Hsub3 _ _ HT2) as HT23.
  destruct (wf_tables own3 d3 W3 _ _ _ Hr3) as [Al0 _].
  destruct (wf_tables own3 d3 W3 _ _ _ HT13) as [Al1 _].
  destruct (wf_tables own3 d3 W3 _ _ _ HT23) as [Al2 _].
  destruct (wf_tables own3 d3 W3 _ _ _ HT3) as [Al3 _].
  assert (N01 : root <> T1) by congruence.
  assert (N02 : root <> T2) by congruence.
  assert (N03 : root <> T3) by congruence.
  assert (N12 : T1 <> T2) by congruence.
  assert (N13 : T1 <> T3) by congruence.
  assert (N23 : T2 <> T3) by congruence.
  exists own3, root, T1, T2, T3.
  split; [reflexivity|]. split; [|split; [|split; [exact Al0|]]].
  - apply (wf_store own3 d3 _ _ W3).
    intros T PID' lv' idx' HT Hlv' Hidx' Hslot _. exfalso.
    destruct (wf_tables own3 d3 W3 T PID' lv' HT) as [AlT _].
    pose proof (entriesAt_bound lv').
    destruct (slot_inj T T3 idx' (L3_INDEX v) AlT Al3 ltac:(lia) Hi3 Hslot) as [-> _].
    rewrite HT3 in HT. injection HT as _ <-. lia.
  - simpl. congruence.
  - simpl. unfold leadsTo.
    rewrite !(store_other _ _ _ (slot root (L0_INDEX v)))
      by (apply slot_neq; try assumption; lia).
    rewrite !(store_other _ _ _ (slot T1 (L1_INDEX v)))
      by (apply slot_neq; try assumption; lia).
    rewrite !(store_other _ _ _ (slot T2 (L2_INDEX v)))
      by (apply slot_neq; try assumption; lia).
    rewrite store_same.
    assert (E0 : mem d3 (slot root (L0_INDEX v)) = mem d1 (slot root (L0_INDEX v))).
    { rewrite Hfr3, Hfr2; try reflexivity; try lia.
      - rewrite (Hsub1 _ _ Hr0). eauto.
      - apply slot_neq; try assumption; lia.
      - rewrite (Hsub2 _ _ (Hsub1 _ _ Hr0)). eauto.
      - apply slot_neq; try assumption; lia. }
    assert (E1 : mem d3 (slot T1 (L1_INDEX v)) = mem d2 (slot T1 (L1_INDEX v))).
    { rewrite Hfr3; try reflexivity; try lia.
      - rewrite (Hsub2 _ _ HT1). eauto.
      - apply slot_neq; try assumption; lia. }
    rewrite E0, E1. repeat split; assumption.
Qed.


Lemma allocatePageTable_wf own d PID d' :
  driver_wf own d -> allocatePageTable PID d = Ok tt d' ->
  exists own', driver_wf own' d'.
Proof.
  intros W. unfold allocatePageTable, bind.
  destruct (allocateTable (L0_ENTRIES * sizeofEntry) d) as [p d1| |] eqn:E;
    try discriminate.
  intros [= <-]. apply allocateTable_Ok in E.
  destruct E as (k & rest & Hk & Hp & ->).
  destruct (wf_alloc own d k p rest (L0_ENTRIES * sizeofEntry) PID 0
              (wrap64 (bytesAllocated d + L0_ENTRIES * sizeofEntry))
              W Hk Hp ltac:(vm_compute; split; discriminate) ltac:(lia))
    as (Hal & Hnone & W1).
  exists (<[p := (PID, 0%nat)]> own). constructor; simpl.
  - apply (wf_kernel _ _ W1).
  - intros PID' root. destruct (decide (PID = PID')) as [<-|Hne].
    + rewrite lookup_insert_eq. intros [= <-]. apply lookup_insert_eq.
    + rewrite lookup_insert_ne by exact Hne. apply (wf_roots _ _ W1).
  - apply (wf_tables _ _ W1).
  - apply (wf_children _ _ W1).
Qed.

Lemma releasePageTableLevel_eq below m table k :
  releasePageTableLevel below m table k =
  if table =? 0 then k
  else
    releaseMemory
      match below with
      | O => k
      | S below' =>
          fold_left
            (fun k i =>
               let e := m (slot table (Z.of_nat i)) in
               if valid e && type_ e
               then releasePageTableLevel below' m (getAddress e) k
               else k)
            (seq 0 (Z.to_nat (if 3 - Z.of_nat below =? 0
                              then L0_ENTRIES else L1_ENTRIES))) k
      end table
      ((if 3 - Z.of_nat below =? 0 then L0_ENTRIES else L1_ENTRIES) * sizeofEntry).
Proof. destruct below; reflexivity. Qed.

(** Releasing the tree under a table of a process gives back tables of
    that process only, and does not touch what the kernel hands out
    next. *)
Lemma releasePageTableLevel_live own d PID :
  driver_wf own d ->
  forall below T lv k,
    own !! T = Some (PID, lv) -> (lv + below = 3)%nat ->
    pending (releasePageTableLevel below (mem d) T k) = pending k /\
    (forall x, x ∈ live (releasePageTableLevel below (mem d) T k) -> x ∈ live k) /\
    (forall x, x ∈ live k -> (forall lv', own !! x <> Some (PID, lv')) ->
               x ∈ live (releasePageTableLevel below (mem d) T k)).
Proof.
  intros W. induction below as [|below IH]; intros T lv k HT Hlv;
    rewrite releasePageTableLevel_eq;
    destruct (wf_tables own d W T PID lv HT) as [[[Hpos _] _] _];
    (destruct (Z.eqb_spec T 0) as [|_]; [lia|]).
  - simpl. split; [reflexivity|]. split.
    + intros x Hx. apply elem_of_difference in Hx. tauto.
    + intros x Hx Hno. apply elem_of_difference. split; [exact Hx|].
      intros Heq. apply elem_of_singleton in Heq. subst x. apply (Hno lv HT).
  - set (n := if 3 - Z.of_nat (S below) =? 0 then L0_ENTRIES else L1_ENTRIES).
    assert (Hn : n = entriesAt lv).
    { unfold n. destruct lv as [|lv'].
      - replace (3 - Z.of_nat (S below)) with 0 by lia. reflexivity.
      - destruct (Z.eqb_spec (3 - Z.of_nat (S below)) 0); [lia | reflexivity]. }
    set (f := fun (k : Kernel) (i : nat) =>
                let e := mem d (slot T (Z.of_nat i)) in
                if valid e && type_ e
                then releasePageTableLevel below (mem d) (getAddress e) k
                else k).
    assert (Hfold : forall l k0,
      (forall i, In i l -> 0 <= Z.of_nat i < entriesAt lv) ->
      pending (fold_left f l k0) = pending k0 /\
      (forall x, x ∈ live (fold_left f l k0) -> x ∈ live k0) /\
      (forall x, x ∈ live k0 -> (forall lv', own !! x <> Some (PID, lv')) ->
                 x ∈ live (fold_left f l k0))).
    { induction l as [|i l IHl]; intros k0 Hl; simpl.
      - split; [reflexivity|]. split; auto.
      - destruct (IHl (f k0 i) ltac:(intros; apply Hl; right; assumption))
          as (P1 & P2 & P3).
        assert (Hstep : pending (f k0 i) = pending k0 /\
                  (forall x, x ∈ live (f k0 i) -> x ∈ live k0) /\
                  (forall x, x ∈ live k0 ->
                     (forall lv', own !! x <> Some (PID, lv')) ->
                     x ∈ live (f k0 i))).
        { unfold f. cbv zeta.
          destruct (valid (mem d (slot T (Z.of_nat i)))) eqn:Ev; simpl;
            [|split; [reflexivity | split; auto]].
          destruct (wf_children own d W T PID lv (Z.of_nat i) HT ltac:(lia)
                      (Hl i (or_introl eq_refl)) Ev) as [Ht Hc].
          rewrite Ht. apply (IH _ (S lv) k0 Hc). lia. }
        destruct Hstep as (Q1 & Q2 & Q3).
        split; [congruence|]. split; [auto|]. intros x Hx Hno. auto. }
    destruct (Hfold (seq 0 (Z.to_nat n)) k) as (P1 & P2 & P3).
    { intros i Hi. apply in_seq in Hi. rewrite <- Hn.
      pose proof (entriesAt_bound lv). lia. }
    simpl. split; [exact P1|]. split.
    + intros x Hx. apply elem_of_difference in Hx. apply P2. tauto.
    + intros x Hx Hno. apply elem_of_difference. split; [apply P3; assumption|].
      intros Heq. apply elem_of_singleton in Heq. subst x. apply (Hno lv HT).
Qed.

Lemma releasePageTable_wf own d PID d' :
  driver_wf own d -> releasePageTable PID d = Ok tt d' ->
  exists own', driver_wf own' d'.
Proof.
  intros W. unfold releasePageTable.
  destruct (pageTables d !! PID) as [root|] eqn:Hroot;
    [|intros [= <-]; exists own; exact W].
  destruct (wf_kernel own d W) as (k & Hk & [Hnd Hsound] & Hown).
  rewrite Hk. intros H. injection H as <-.
  pose proof (wf_roots own d W PID root Hroot) as Hr0.
  destruct (releasePageTableLevel_live own d PID W 3 root 0 k Hr0 ltac:(lia))
    as (P1 & P2 & P3).
  exists (filter (fun x => fst (snd x) <> PID) own). constructor; simpl.
  - eexists. split; [reflexivity|]. split; [split|].
    + rewrite P1. exact Hnd.
    + rewrite P1. intros p Hp. destruct (Hsound p Hp) as [H1 H2].
      split; [exact H1|]. intros Hin. apply H2. apply P2. exact Hin.
    + intros T [[P lv] HT]. apply map_lookup_filter_Some in HT.
      destruct HT as [HT HP]. simpl in HP. apply P3.
      * apply Hown. rewrite HT. eauto.
      * intros lv' Heq. rewrite HT in Heq. congruence.
  - intros PID' root'. destruct (decide (PID = PID')) as [<-|Hne].
    + rewrite lookup_delete_eq. discriminate.
    + rewrite lookup_delete_ne by exact Hne. intros H.
      apply map_lookup_filter_Some. split; [apply (wf_roots own d W); exact H|].
      simpl. congruence.
  - intros T P lv HT. apply map_lookup_filter_Some in HT.
    apply (wf_tables own d W T P lv). tauto.
  - intros T P lv idx HT Hlv Hidx Hv. apply map_lookup_filter_Some in HT.
    destruct HT as [HT HP].
    destruct (wf_children own d W T P lv idx HT Hlv Hidx Hv) as [Ht Hc].
    split; [exact Ht|]. apply map_lookup_filter_Some. split; [exact Hc | exact HP].
Qed.

Lemma setPageValid_wf own d pPage setting d' :
  driver_wf own d -> setPageValid pPage setting d = Ok tt d' ->
  driver_wf own d'.
Proof.
  intros W. unfold setPageValid.
  destruct (driverData pPage =? 0); [discriminate|].
  unfold bind, readEntry.
  destruct (negb (valid (mem d (driverData pPage))) && setting) eqn:E;
    [discriminate|].
  unfold writeEntry. intros [= <-].
  apply (wf_store own d _ _ W).
  intros T P lv idx HT Hlv Hidx Hslot Hv. simpl in Hv. subst setting.
  rewrite andb_true_r in E. apply negb_false_iff in E.
  rewrite <- Hslot in *.
  apply (wf_children own d W T P lv idx HT Hlv Hidx E).
Qed.

Lemma reachable_wf d : reachable d -> exists own, driver_wf own d.
Proof.
  induction 1 as [m k Hk | d o d' Hr [own W] Hc Hstep | d k pend Hr [own W] Hk Hs].
  - exists ∅. constructor; simpl.
    + exists k. split; [reflexivity|]. split; [exact Hk|].
      intros T [x HT]. rewrite lookup_empty in HT. discriminate.
    + intros PID root H. rewrite lookup_empty in H. discriminate.
    + intros T PID lv H. rewrite lookup_empty in H. discriminate.
    + intros T PID lv idx H. rewrite lookup_empty in H. discriminate.
  - destruct o as [PID|PID|PID|PID vAddr pPage|pPage setting]; simpl in Hstep.
    + apply (allocatePageTable_wf own d PID d' W Hstep).
    + apply (releasePageTable_wf own d PID d' W Hstep).
    + unfold getPageTable in Hstep.
      destruct (pageTables d !! PID); injection Hstep as <-; exists own; exact W.
    + destruct (wf_kernel own d W) as (k & Hk & _).
      pose proof (setMapping_spec own d k PID vAddr pPage W Hk) as S.
      destruct (setMapping PID vAddr pPage d) as [p d1|d1|]; try discriminate.
      injection Hstep as <-. destruct S as (own' & _ & _ & _ & _ & _ & W' & _).
      exists own'. exact W'.
    + exists own. apply (setPageValid_wf own d pPage setting d' W Hstep).
  - exists own. constructor; simpl.
    + destruct (wf_kernel own d W) as (k0 & Hk0 & _ & Hown).
      rewrite Hk in Hk0. injection Hk0 as <-.
      eexists. split; [reflexivity|]. split; [exact Hs | exact Hown].
    + apply (wf_roots own d W).
    + apply (wf_tables own d W).
    + apply (wf_children own d W).
Qed.

End DriverInvariant.

(** C5: in a state the driver can reach, for a process that has a root and
    a kernel that can hand out three tables, [setMapping] of any virtual
    address to a handle whose address is a physical address (below
    [2^48]) returns, and the walk of the page of the address from the root
    of the process then succeeds, for a read and for a write, with the
    physical page [address >> pageBits]; the cookie of the handle is the
    address of the L3 entry the walk reaches. *)
Theorem setMapping_then_walk (d : AArch64.Driver) (PID root vAddr : Z)
    (pPage : AArch64.PhysPage) (k : AArch64.Kernel) :
  reachable d ->
  AArch64.pageTables d !! PID = Some root ->
  AArch64.kernel d = Some k -> (3 <= length (AArch64.pending k))%nat ->
  0 <= AArch64.addr pPage < 2 ^ 48 ->
  exists pPage' d',
    AArch64.setMapping PID vAddr pPage d = AArch64.Ok pPage' d' /\
    AArch64.pageTables d' !! PID = Some root /\
    AArch64.leafSlot (AArch64.mem d') root
      (Z.shiftr (maskAddress vAddr) AArch64.pageBits)
    = Some (AArch64.driverData pPage') /\
    forall isWrite p0, exists m',
      AArch64.performTranslation (AArch64.mem d') root
        (Z.shiftr (maskAddress vAddr) AArch64.pageBits) p0 isWrite
      = Some (true, Z.shiftr (AArch64.addr pPage) AArch64.pageBits, m').
Proof.
  intros Hreach Hroot Hk Hlen Haddr.
  destruct (reachable_wf d Hreach) as [own W].
  pose proof (setMapping_spec own d k PID vAddr pPage W Hk) as S.
  destruct (AArch64.setMapping PID vAddr pPage d) as [pPage' d'|d'|];
    [|destruct S as [S|S]; [congruence | lia]|contradiction].
  destruct S as (own' & root' & T1 & T2 & T3 & Hroot' & W' & Hpt & Hal
                 & (V0 & Y0 & A0) & (V1 & Y1 & A1) & (V2 & Y2 & A2) & Hleaf & ->).
  rewrite Hroot in Hroot'. injection Hroot' as <-.
  exists (AArch64.mkPhysPage (AArch64.addr pPage)
            (AArch64.slot T3 (AArch64.L3_INDEX (maskAddress vAddr)))), d'.
  split; [reflexivity|]. split; [rewrite Hpt; exact Hroot|].
  destruct (indices_of_page
              (wrap64 (Z.shiftl (Z.shiftr (maskAddress vAddr) AArch64.pageBits)
                                AArch64.pageBits))
              (maskAddress vAddr)
              (walker_address _ (masked_range vAddr)))
    as (I0 & I1 & I2 & I3).
  assert (Hslot : AArch64.leafSlot (AArch64.mem d') root
                    (Z.shiftr (maskAddress vAddr) AArch64.pageBits)
                  = Some (AArch64.slot T3 (AArch64.L3_INDEX (maskAddress vAddr)))).
  { unfold AArch64.leafSlot. rewrite I0, I1, I2, I3.
    rewrite V0, Y0, A0. simpl. rewrite V1, Y1, A1. simpl.
    rewrite V2, Y2, A2. reflexivity. }
  split; [exact Hslot|].
  intros isWrite p0.
  rewrite (performTranslation_walk _ _ _ _ _ (aligned_land root Hal)).
  rewrite Hslot, Hleaf. simpl.
  rewrite (physicalPage_fits _ Haddr). eexists. reflexivity.
Qed.

(** C5 on the driver with the root of process 1 at 0x10000: mapping the
    address of page 0x12345, offset 5, to the physical page 0xABCDE. *)
Lemma setMapping_then_walk_witness :
  reachable S7_driver /\
  exists pPage' d' m',
    AArch64.setMapping 1 (0x12345 * 16384 + 5)
      (AArch64.mkPhysPage (0xABCDE * 16384) 0) S7_driver
    = AArch64.Ok pPage' d' /\
    AArch64.performTranslation (AArch64.mem d') 0x10000 0x12345 0 false
    = Some (true, 0xABCDE, m').
Proof.
  assert (Hal : forall p, In p [0x10000; 0x14000; 0x18000; 0x1C000; 0x20000] ->
                          tableAligned p).
  { intros p Hp. simpl in Hp.
    repeat (destruct Hp as [<-|Hp]; [split; [lia | reflexivity]|]).
    contradiction. }
  assert (Hr : reachable S7_driver).
  { apply (reach_call S7_boot (AArch64.AllocatePageTable 1)).
    - apply reach_boot. split; simpl.
      + repeat (apply NoDup_cons; split; [intros Hin; apply list_elem_of_In in Hin;
                                           simpl in Hin; lia|]).
        constructor.
      + intros p Hp. split; [apply Hal; exact Hp | apply not_elem_of_empty].
    - exact Logic.I.
    - reflexivity. }
  split; [exact Hr|].
  destruct (setMapping_then_walk S7_driver 1 0x10000 (0x12345 * 16384 + 5)
              (AArch64.mkPhysPage (0xABCDE * 16384) 0)
              (AArch64.mkKernel [0x14000; 0x18000; 0x1C000; 0x20000]
                                ({[0x10000]} ∪ ∅))
              Hr ltac:(reflexivity) ltac:(reflexivity) ltac:(simpl; lia)
              ltac:(simpl; lia))
    as (pPage' & d' & Hset & _ & _ & Hwalk).
  destruct (Hwalk false 0) as [m' Hm'].
  exists pPage', d', m'. split; [exact Hset | exact Hm'].
Defined.

(** ** The TLB of mmu.cc keeps the older entry of a page

    [TLB::add] of mmu.cc takes the first slot that is not valid, or else
    the slot used least recently, and does not look for an entry of the
    page it adds; [TLB::addEntry] of tlb.h erases that entry first. *)

(** C3 on the TLB of mmu.cc: on a new TLB of four entries, after
    [add(0xA, 0xAA)] and [add(0xA, 0xBB)] the lookup of page 0xA hits and
    returns 0xAA, the page of the add that was superseded.  The TLB of
    tlb.h returns 0xBB after the same adds. *)
Theorem mmu_tlb_add_keeps_older_entry :
  (p ← MmuTlb.runA twoTlbs [MmuTlb.Add 0xA 0xAA; MmuTlb.Add 0xA 0xBB];
   '(hit, pp, _, _) ← MmuTlb.lookup (MmuTlb.statics p) (MmuTlb.tlbA p) 0xA 0;
   Some (hit, pp))
  = Some (true, 0xAA) /\
  (t ← Tlb.run (Tlb.create 4) [Tlb.Add 0xA 0xAA 0; Tlb.Add 0xA 0xBB 0];
   Tlb.answer t 0xA 0)
  = Some 0xBB.
Proof. split; vm_compute; reflexivity. Qed.

(** C4 on the TLB of mmu.cc: after the same two adds the vector holds two
    valid entries of page 0xA, where the TLB of tlb.h holds one; and in a
    TLB of two entries that holds the pages 0xA and 0xB, the add of page
    0xA again counts an eviction. *)
Theorem mmu_tlb_holds_page_twice :
  (p ← MmuTlb.runA twoTlbs [MmuTlb.Add 0xA 0xAA; MmuTlb.Add 0xA 0xBB];
   Some (List.filter MmuTlb.valid (MmuTlb.tlbEntries (MmuTlb.statics p))))
  = Some [MmuTlb.mkEntry 0xA 0xAA 0 true; MmuTlb.mkEntry 0xA 0xBB 0 true] /\
  (t ← Tlb.run (Tlb.create 4) [Tlb.Add 0xA 0xAA 0; Tlb.Add 0xA 0xBB 0];
   Some (Tlb.contents t))
  = Some [Tlb.mkEntry 0xA 0xBB 0] /\
  (p ← MmuTlb.runA
         (MmuTlb.mkProgram MmuTlb.statics0 (MmuTlb.create 2) (MmuTlb.create 2))
         [MmuTlb.Add 0xA 0xAA; MmuTlb.Add 0xB 0xBB; MmuTlb.Add 0xA 0xCC];
   Some (MmuTlb.tlbEntries (MmuTlb.statics p),
         MmuTlb.nEvictions (MmuTlb.tlbA p)))
  = Some ([MmuTlb.mkEntry 0xA 0xCC 0 true; MmuTlb.mkEntry 0xB 0xBB 0 true], 1).
Proof. split; [|split]; vm_compute; reflexivity. Qed.

(** ** The hole list as a division of the pages *)

Section HoleCover.
Import HoleList.

Lemma cover_app hs1 hs2 p : cover (hs1 ++ hs2) p = (cover hs1 p + cover hs2 p)%nat.
Proof. unfold cover. rewrite List.filter_app, length_app. reflexivity. Qed.

Lemma cover_cons h hs p :
  cover (h :: hs) p = ((if covers h p then 1 else 0) + cover hs p)%nat.
Proof. unfold cover. simpl. destruct (covers h p); reflexivity. Qed.

Lemma cover_nil p : cover [] p = 0%nat.
Proof. reflexivity. Qed.

Lemma covers_iff h p : covers h p = true <-> startPage h <= p < holeEnd h.
Proof. unfold covers. rewrite andb_true_iff, Z.leb_le, Z.ltb_lt. tauto. Qed.

Lemma cover_insertHole x hs p : cover (insertHole x hs) p = cover (x :: hs) p.
Proof.
  induction hs as [|y ys IH]; [reflexivity|].
  simpl. destruct (startPage y <? startPage x); [|reflexivity].
  rewrite !cover_cons in *. rewrite IH. lia.
Qed.

Lemma cover_sortHoles hs p : cover (sortHoles hs) p = cover hs p.
Proof.
  induction hs as [|h rest IH]; [reflexivity|].
  simpl. rewrite cover_insertHole, !cover_cons, IH. reflexivity.
Qed.

Lemma within_sortHoles n hs : holes_within n hs -> holes_within n (sortHoles hs).
Proof.
  unfold holes_within. rewrite !List.Forall_forall. intros H h Hin.
  apply H. apply sortHoles_In. exact Hin.
Qed.

(** Covering by one hole that is cut in two, or put together from two. *)
Lemma covers_join a b p :
  0 <= count a -> 0 <= count b -> holeEnd a = startPage b ->
  ((if covers (mkHole (startPage a) (count a + count b)) p then 1 else 0)
   = (if covers a p then 1 else 0) + (if covers b p then 1 else 0))%nat.
Proof.
  intros Ha Hb He. unfold covers, holeEnd in *. simpl.
  destruct (Z.leb_spec (startPage a) p), (Z.ltb_spec p (startPage a + count a)),
           (Z.leb_spec (startPage b) p), (Z.ltb_spec p (startPage b + count b)),
           (Z.ltb_spec p (startPage a + (count a + count b)));
    simpl; lia.
Qed.

Lemma mergeFrom_head cur rest :
  exists h tl, mergeFrom cur rest = h :: tl /\ startPage h = startPage cur.
Proof.
  revert cur. induction rest as [|next rest IH]; intros cur; simpl.
  - eauto.
  - destruct (wrap64 (startPage cur + count cur) =? startPage next).
    + destruct (IH (mkHole (startPage cur) (wrap64 (count cur + count next))))
        as (h & tl & E & Hs). eauto.
    + eauto.
Qed.

Lemma mergeFrom_keeps n cur rest :
  n < 2 ^ 64 -> holes_within n (cur :: rest) ->
  holes_within n (mergeFrom cur rest) /\
  (forall p, cover (mergeFrom cur rest) p = cover (cur :: rest) p) /\
  hole_pages (mergeFrom cur rest) = hole_pages (cur :: rest).
Proof.
  intros Hn. revert cur. induction rest as [|next rest IH]; intros cur Hw.
  - simpl. auto.
  - pose proof Hw as Hw0.
    apply Forall_cons in Hw as [Hc Hw]. apply Forall_cons in Hw as [Hx Hw].
    unfold holeEnd in *. simpl.
    rewrite (wrap64_small (startPage cur + count cur)) by lia.
    destruct (Z.eqb_spec (startPage cur + count cur) (startPage next)) as [E|E].
    + rewrite (wrap64_small (count cur + count next)) by lia.
      destruct (IH (mkHole (startPage cur) (count cur + count next)))
        as (IH1 & IH2 & IH3).
      { apply Forall_cons. split; [|exact Hw]. unfold holeEnd. simpl. lia. }
      split; [exact IH1|]. split.
      * intros p. rewrite IH2, !cover_cons.
        rewrite (covers_join cur next p) by (unfold holeEnd; lia). lia.
      * rewrite IH3. simpl. lia.
    + destruct (IH next) as (IH1 & IH2 & IH3).
      { apply Forall_cons. split; assumption. }
      split; [apply Forall_cons; split; assumption|]. split.
      * intros p. rewrite !cover_cons, IH2, cover_cons. reflexivity.
      * simpl. rewrite IH3. reflexivity.
Qed.

Lemma mergeHoles_keeps n hs :
  n < 2 ^ 64 -> holes_within n hs ->
  holes_within n (mergeHoles hs) /\
  (forall p, cover (mergeHoles hs) p = cover hs p) /\
  hole_pages (mergeHoles hs) = hole_pages hs.
Proof.
  intros Hn Hw. unfold mergeHoles.
  pose proof (within_sortHoles n hs Hw) as Hs.
  pose proof (cover_sortHoles hs) as Hc.
  pose proof (sortHoles_pages hs) as Hp.
  destruct (sortHoles hs) as [|h rest].
  - split; [constructor|]. split; [intros p; rewrite <- Hc; reflexivity|].
    rewrite <- Hp. reflexivity.
  - destruct (mergeFrom_keeps n h rest Hn Hs) as (H1 & H2 & H3).
    split; [exact H1|]. split; [intros p; rewrite H2; apply Hc|].
    rewrite H3. exact Hp.
Qed.

End HoleCover.

Section HoleOrder.
Import HoleList.

Lemma insertHole_sorted x hs :
  StronglySorted byStartPage hs -> StronglySorted byStartPage (insertHole x hs).
Proof.
  induction 1 as [|y ys Hs IH Hy]; simpl.
  - repeat constructor.
  - destruct (Z.ltb_spec (startPage y) (startPage x)) as [Hlt|Hge].
    + constructor; [exact IH|].
      apply List.Forall_forall. intros h Hin. apply insertHole_In in Hin.
      destruct Hin as [->|Hin]; [unfold byStartPage; lia|].
      rewrite List.Forall_forall in Hy. apply Hy, Hin.
    + constructor; [constructor; assumption|].
      constructor; [exact Hge|].
      eapply List.Forall_impl; [|exact Hy].
      unfold byStartPage. intros h Hh. lia.
Qed.

Lemma sortHoles_sorted hs : StronglySorted byStartPage (sortHoles hs).
Proof.
  induction hs as [|h rest IH]; simpl; [constructor|].
  apply insertHole_sorted, IH.
Qed.

Lemma cover_In e hs p : In e hs -> covers e p = true -> (1 <= cover hs p)%nat.
Proof.
  induction hs as [|h rest IH]; [intros []|].
  intros [->|Hin] Hc; rewrite cover_cons.
  - rewrite Hc. lia.
  - specialize (IH Hin Hc). lia.
Qed.

Lemma cover_pos hs p :
  (1 <= cover hs p)%nat -> exists e, In e hs /\ covers e p = true.
Proof.
  induction hs as [|h rest IH]; [rewrite cover_nil; lia|].
  rewrite cover_cons. destruct (covers h p) eqn:E.
  - intros _. exists h. split; [left; reflexivity|exact E].
  - intros H. destruct IH as (e & Hin & Hc); [lia|].
    exists e. split; [right; exact Hin|exact Hc].
Qed.

Lemma cover_later hs p :
  Forall (fun e => p < startPage e) hs -> cover hs p = 0%nat.
Proof.
  induction 1 as [|h rest Hh _ IH]; [reflexivity|].
  rewrite cover_cons, IH. unfold covers.
  destruct (Z.leb_spec (startPage h) p); [lia|reflexivity].
Qed.

(** Sorted holes that do not overlap come one after the other. *)
Lemma sorted_apart n hs :
  StronglySorted byStartPage hs -> holes_within n hs ->
  (forall p, (cover hs p <= 1)%nat) -> StronglySorted holeBefore hs.
Proof.
  induction 1 as [|h rest Hs IH Hh]; intros Hw Hc; [constructor|].
  apply Forall_cons in Hw as [Hwh Hw].
  constructor.
  - apply IH; [exact Hw|].
    intros p. specialize (Hc p). rewrite cover_cons in Hc. lia.
  - rewrite List.Forall_forall in *. intros e Hin.
    specialize (Hh e Hin). specialize (Hw e Hin).
    unfold byStartPage, holeBefore, holeEnd in *.
    destruct (Z.le_gt_cases (startPage h + count h) (startPage e)) as [|Hgt];
      [assumption|].
    specialize (Hc (startPage e)). rewrite cover_cons in Hc.
    assert (Hce : covers e (startPage e) = true)
      by (apply covers_iff; unfold holeEnd; lia).
    pose proof (cover_In e rest (startPage e) Hin Hce).
    assert (Hch : covers h (startPage e) = true)
      by (apply covers_iff; unfold holeEnd; lia).
    rewrite Hch in Hc. lia.
Qed.

Lemma mergeFrom_gapped n cur rest :
  n < 2 ^ 64 -> holes_within n (cur :: rest) ->
  StronglySorted holeBefore (cur :: rest) -> gapped (mergeFrom cur rest).
Proof.
  intros Hn. revert cur. induction rest as [|next rest IH]; intros cur Hw Hs.
  - apply Forall_cons in Hw as [(_ & Hc & _) _]. simpl. auto.
  - pose proof Hw as Hw0.
    apply Forall_cons in Hw as [Hc Hw]. apply Forall_cons in Hw as [Hx Hw].
    apply StronglySorted_inv in Hs as [Hs Hcur].
    pose proof Hs as Hs0.
    apply StronglySorted_inv in Hs as [Hs Hnext].
    apply Forall_cons in Hcur as [Hcn Hcur].
    unfold holeBefore, holeEnd in *. simpl.
    rewrite (wrap64_small (startPage cur + count cur)) by lia.
    destruct (Z.eqb_spec (startPage cur + count cur) (startPage next)) as [E|E].
    + rewrite (wrap64_small (count cur + count next)) by lia.
      apply IH.
      * apply Forall_cons. split; [|exact Hw]. unfold holeEnd. simpl. lia.
      * constructor; [exact Hs|].
        eapply List.Forall_impl; [|exact Hnext].
        unfold holeBefore, holeEnd. simpl. intros e He. lia.
    + destruct (mergeFrom_head next rest) as (h & tl & Em & Hh).
      pose proof (IH next ltac:(apply Forall_cons; split; assumption) Hs0) as IHn.
      rewrite Em in *. simpl. split; [lia|]. split; [|exact IHn].
      unfold holeEnd. lia.
Qed.

Lemma cover_le_within n hs p :
  holes_within n hs -> ~ (0 <= p < n) -> cover hs p = 0%nat.
Proof.
  induction 1 as [|h rest Hh _ IH]; intros Hp; [reflexivity|].
  rewrite cover_cons, IH by exact Hp.
  destruct (covers h p) eqn:E; [|reflexivity].
  apply covers_iff in E. lia.
Qed.

Lemma mergeHoles_gapped n hs :
  n < 2 ^ 64 -> holes_within n hs -> (forall p, (cover hs p <= 1)%nat) ->
  gapped (mergeHoles hs).
Proof.
  intros Hn Hw Hc. unfold mergeHoles.
  pose proof (within_sortHoles n hs Hw) as Hws.
  pose proof (sortHoles_sorted hs) as Hs.
  assert (Hcs : forall p, (cover (sortHoles hs) p <= 1)%nat)
    by (intros p; rewrite cover_sortHoles; apply Hc).
  pose proof (sorted_apart n _ Hs Hws Hcs) as Hb.
  destruct (sortHoles hs) as [|h rest]; [exact I|].
  eapply mergeFrom_gapped; eassumption.
Qed.

(** When the sorted holes hold every page from the first one's start to
    the end of the memory, merging leaves one hole. *)
Lemma mergeFrom_whole n cur rest :
  n < 2 ^ 64 -> holes_within n (cur :: rest) ->
  StronglySorted byStartPage (cur :: rest) ->
  (forall p, startPage cur <= p < n -> cover (cur :: rest) p = 1%nat) ->
  mergeFrom cur rest = [mkHole (startPage cur) (n - startPage cur)].
Proof.
  intros Hn. revert cur. induction rest as [|next rest IH]; intros cur Hw Hs Hc.
  - apply Forall_cons in Hw as [(H0 & Hcnt & He) _]. unfold holeEnd in He.
    simpl. destruct cur as [s c]. simpl in *. f_equal. f_equal.
    destruct (Z.eq_dec (s + c) n) as [|Hne]; [lia|].
    specialize (Hc (s + c) ltac:(lia)). rewrite cover_cons, cover_nil in Hc.
    unfold covers, holeEnd in Hc. simpl in Hc.
    destruct (Z.ltb_spec (s + c) (s + c)); [lia|].
    rewrite andb_false_r in Hc. discriminate.
  - pose proof Hw as Hw0.
    apply Forall_cons in Hw as [Hcw Hw]. apply Forall_cons in Hw as [Hx Hw].
    apply StronglySorted_inv in Hs as [Hs Hcur].
    pose proof Hs as Hs0.
    apply StronglySorted_inv in Hs as [Hs Hnext].
    pose proof Hcur as Hcur0.
    apply Forall_cons in Hcur as [Hcn Hcur].
    unfold byStartPage, holeEnd in *.
    assert (E : startPage cur + count cur = startPage next).
    { destruct (Z.lt_trichotomy (startPage cur + count cur) (startPage next))
        as [Hlt|[Heq|Hgt]]; [|exact Heq|].
      - specialize (Hc (startPage cur + count cur) ltac:(lia)).
        rewrite cover_cons in Hc.
        rewrite (cover_later (next :: rest)) in Hc.
        + unfold covers, holeEnd in Hc.
          destruct (Z.ltb_spec (startPage cur + count cur)
                               (startPage cur + count cur)); [lia|].
          rewrite andb_false_r in Hc. discriminate.
        + constructor; [lia|].
          eapply List.Forall_impl; [|exact Hnext]. simpl. intros e He. lia.
      - specialize (Hc (startPage next) ltac:(lia)).
        rewrite !cover_cons in Hc.
        assert (H1 : covers cur (startPage next) = true)
          by (apply covers_iff; unfold holeEnd; lia).
        assert (H2 : covers next (startPage next) = true)
          by (apply covers_iff; unfold holeEnd; lia).
        rewrite H1, H2 in Hc. lia. }
    simpl. rewrite (wrap64_small (startPage cur + count cur)) by lia.
    rewrite E, Z.eqb_refl.
    rewrite (wrap64_small (count cur + count next)) by lia.
    rewrite (IH (mkHole (startPage cur) (count cur + count next))).
    + reflexivity.
    + apply Forall_cons. split; [|exact Hw]. unfold holeEnd. simpl. lia.
    + constructor; [exact Hs|]. exact Hcur.
    + simpl. intros p Hp. rewrite cover_cons.
      rewrite (covers_join cur next p) by (unfold holeEnd; lia).
      specialize (Hc p Hp). rewrite !cover_cons in Hc. lia.
Qed.

Lemma mergeHoles_whole n hs :
  1 <= n < 2 ^ 64 -> holes_within n hs ->
  (forall p, 0 <= p < n -> cover hs p = 1%nat) ->
  mergeHoles hs = [mkHole 0 n].
Proof.
  intros Hn Hw Hc. unfold mergeHoles.
  pose proof (within_sortHoles n hs Hw) as Hws.
  pose proof (sortHoles_sorted hs) as Hs.
  assert (Hcs : forall p, 0 <= p < n -> cover (sortHoles hs) p = 1%nat)
    by (intros p Hp; rewrite cover_sortHoles; apply Hc, Hp).
  destruct (sortHoles hs) as [|h rest].
  - specialize (Hcs 0 ltac:(lia)). discriminate.
  - assert (H0 : startPage h = 0).
    { destruct (cover_pos (h :: rest) 0) as (e & Hin & He).
      { rewrite Hcs; lia. }
      apply covers_iff in He.
      pose proof Hws as Hws'. apply Forall_cons in Hws' as [(Hh0 & _) _].
      destruct Hin as [->|Hin]; [lia|].
      apply StronglySorted_inv in Hs as [_ Hh].
      rewrite List.Forall_forall in Hh. specialize (Hh e Hin).
      unfold byStartPage in Hh. lia. }
    rewrite (mergeFrom_whole n h rest); try assumption; try lia.
    + rewrite H0, Z.sub_0_r. reflexivity.
    + intros p Hp. apply Hcs. lia.
Qed.

End HoleOrder.

Section HoleListClient.
Import HoleList.
Implicit Types (hs : list Hole) (held : list Block) (h : Hole) (b : Block).

Lemma gapped_later h rest :
  gapped (h :: rest) -> Forall (fun e => holeEnd h < startPage e) rest.
Proof.
  revert h. induction rest as [|h' rest IH]; intros h Hg; [constructor|].
  destruct Hg as (Hc & Hlt & Hg').
  constructor; [exact Hlt|].
  specialize (IH h' Hg'). destruct Hg' as (Hc' & _).
  eapply List.Forall_impl; [|exact IH].
  unfold holeEnd in *. simpl. intros e He. lia.
Qed.

Lemma gapped_tail h rest : gapped (h :: rest) -> gapped rest.
Proof. intros (_ & _ & Hg). exact Hg. Qed.

(** A gapped hole list is determined by the pages it holds. *)
Lemma gapped_unique hs1 : forall hs2,
  gapped hs1 -> gapped hs2 -> (forall p, cover hs1 p = cover hs2 p) ->
  hs1 = hs2.
Proof.
  assert (Hself : forall h, 0 < count h -> covers h (startPage h) = true).
  { intros h Hh. apply covers_iff. unfold holeEnd. lia. }
  assert (Hrest : forall h rest p, gapped (h :: rest) -> p <= holeEnd h ->
                                   cover rest p = 0%nat).
  { intros h rest p Hg Hp. apply cover_later.
    eapply List.Forall_impl; [|apply (gapped_later h rest Hg)].
    simpl. intros e He. lia. }
  induction hs1 as [|h1 r1 IH]; intros [|h2 r2] Hg1 Hg2 Hc.
  - reflexivity.
  - specialize (Hc (startPage h2)). rewrite cover_cons, cover_nil in Hc.
    rewrite Hself in Hc by apply Hg2. lia.
  - specialize (Hc (startPage h1)). rewrite cover_cons, cover_nil in Hc.
    rewrite Hself in Hc by apply Hg1. lia.
  - pose proof Hg1 as (Hc1 & _ & Hg1'). pose proof Hg2 as (Hc2 & _ & Hg2').
    assert (Hs : startPage h1 = startPage h2).
    { destruct (Z.lt_trichotomy (startPage h1) (startPage h2))
        as [Hlt|[Heq|Hgt]]; [|exact Heq|].
      - specialize (Hc (startPage h1)). rewrite !cover_cons in Hc.
        rewrite Hself in Hc by exact Hc1.
        rewrite (Hrest h2 r2) in Hc by (assumption || unfold holeEnd; lia).
        unfold covers in Hc at 1.
        destruct (Z.leb_spec (startPage h2) (startPage h1)); [lia|].
        simpl in Hc. lia.
      - specialize (Hc (startPage h2)). rewrite !cover_cons in Hc.
        rewrite (Hself h2) in Hc by exact Hc2.
        rewrite (Hrest h1 r1) in Hc by (assumption || unfold holeEnd; lia).
        unfold covers in Hc at 1.
        destruct (Z.leb_spec (startPage h1) (startPage h2)); [lia|].
        simpl in Hc. lia. }
    assert (He : holeEnd h1 = holeEnd h2).
    { destruct (Z.lt_trichotomy (holeEnd h1) (holeEnd h2))
        as [Hlt|[Heq|Hgt]]; [|exact Heq|].
      - specialize (Hc (holeEnd h1)). rewrite !cover_cons in Hc.
        rewrite (Hrest h1 r1) in Hc by (assumption || lia).
        assert (H2 : covers h2 (holeEnd h1) = true)
          by (apply covers_iff; unfold holeEnd in *; lia).
        rewrite H2 in Hc.
        unfold covers in Hc. destruct (Z.ltb_spec (holeEnd h1) (holeEnd h1)); [lia|].
        rewrite andb_false_r in Hc. lia.
      - specialize (Hc (holeEnd h2)). rewrite !cover_cons in Hc.
        rewrite (Hrest h2 r2) in Hc by (assumption || lia).
        assert (H1 : covers h1 (holeEnd h2) = true)
          by (apply covers_iff; unfold holeEnd in *; lia).
        rewrite H1 in Hc.
        unfold covers in Hc. destruct (Z.ltb_spec (holeEnd h2) (holeEnd h2)); [lia|].
        rewrite andb_false_r in Hc. lia. }
    assert (h1 = h2) as ->.
    { destruct h1, h2. unfold holeEnd in *. simpl in *. f_equal; lia. }
    f_equal. apply IH; [assumption..|].
    intros p. specialize (Hc p). rewrite !cover_cons in Hc. lia.
Qed.

Lemma gapped_apart hs p : gapped hs -> (cover hs p <= 1)%nat.
Proof.
  induction hs as [|h rest IH]; intros Hg; [rewrite cover_nil; lia|].
  rewrite cover_cons. specialize (IH (gapped_tail _ _ Hg)).
  destruct (covers h p) eqn:E; [|lia].
  apply covers_iff in E.
  rewrite (cover_later rest p); [lia|].
  eapply List.Forall_impl; [|apply (gapped_later h rest Hg)].
  simpl. intros e He. lia.
Qed.

(** [splitHole] for an allocation at the start of the hole, as
    [allocatePages] calls it. *)
Lemma splitHole_at_start hs it h cnt :
  0 <= startPage h -> 0 <= cnt <= count h -> holeEnd h < 2 ^ 64 ->
  splitHole hs it h (startPage h) cnt =
  erase hs it ++
    (if cnt <? count h then [mkHole (startPage h + cnt) (count h - cnt)] else []).
Proof.
  intros H0 Hc He. unfold holeEnd in He. unfold splitHole.
  rewrite Z.ltb_irrefl.
  rewrite (wrap64_small (startPage h + cnt)) by lia.
  rewrite (wrap64_small (startPage h + count h)) by lia.
  destruct (Z.ltb_spec (startPage h + cnt) (startPage h + count h));
    destruct (Z.ltb_spec cnt (count h)); try lia.
  - rewrite wrap64_small by lia. do 3 f_equal. lia.
  - rewrite app_nil_r. reflexivity.
Qed.

Lemma erase_middle hs it h :
  hs !! it = Some h -> hs = take it hs ++ h :: drop (S it) hs.
Proof. intros H. symmetry. apply take_drop_middle, H. Qed.

Lemma cover_erase hs it h p :
  hs !! it = Some h ->
  cover hs p = ((if covers h p then 1 else 0) + cover (erase hs it) p)%nat.
Proof.
  intros H. rewrite (erase_middle hs it h H) at 1. unfold erase.
  rewrite !cover_app, cover_cons. lia.
Qed.

Lemma hole_pages_erase hs it h :
  hs !! it = Some h -> hole_pages hs = count h + hole_pages (erase hs it).
Proof.
  intros H. rewrite (erase_middle hs it h H) at 1. unfold erase.
  rewrite !hole_pages_app. simpl. lia.
Qed.

Lemma within_erase n hs it : holes_within n hs -> holes_within n (erase hs it).
Proof.
  unfold holes_within, erase. intros H. apply Forall_app. split.
  - apply Forall_take, H.
  - apply Forall_drop, H.
Qed.

Lemma heldPages_app held1 held2 :
  heldPages (held1 ++ held2) = heldPages held1 + heldPages held2.
Proof. induction held1 as [|b rest IH]; simpl; [reflexivity|]. rewrite IH. lia. Qed.

Lemma heldPages_delete held index b :
  held !! index = Some b ->
  heldPages held = blockCount b + heldPages (delete index held).
Proof.
  intros H. rewrite <- (take_drop_middle held index b H) at 1.
  rewrite delete_take_drop, !heldPages_app. simpl. lia.
Qed.

Lemma cover_delete (f : Block -> Hole) held index b p :
  held !! index = Some b ->
  cover (map f held) p =
  ((if covers (f b) p then 1 else 0) + cover (map f (delete index held)) p)%nat.
Proof.
  intros H. rewrite <- (take_drop_middle held index b H) at 1.
  rewrite delete_take_drop, !map_app, !cover_app. simpl map.
  rewrite cover_cons. lia.
Qed.

Lemma heldPages_nonneg held :
  Forall (fun b => 1 <= blockCount b) held -> 0 <= heldPages held.
Proof. induction 1; simpl; lia. Qed.

Lemma hole_pages_within n hs : holes_within n hs -> 0 <= hole_pages hs.
Proof. induction 1 as [|h rest (_ & Hc & _) _ IH]; simpl; lia. Qed.

Lemma holelist_create_inv pageSize memorySize m :
  0 < pageSize <= memorySize -> create pageSize memorySize = Some m ->
  holelist_inv m [].
Proof.
  intros Hp. unfold create.
  destruct (pageSize =? 0); [discriminate|].
  destruct (Z.ltb_spec (2 * 1024 * 1024 * 1024) memorySize) as [|Hm];
    [discriminate|].
  destruct (memorySize =? 0); [discriminate|].
  intros [= <-].
  assert (H1 : 1 <= memorySize / pageSize)
    by (apply Z.div_le_lower_bound; lia).
  assert (H2 : memorySize / pageSize * pageSize <= memorySize)
    by (rewrite Z.mul_comm; apply Z.mul_div_le; lia).
  constructor; simpl; try lia; try reflexivity.
  - repeat constructor; unfold holeEnd; simpl; lia.
  - constructor.
  - intros p Hp'. rewrite cover_cons, cover_nil.
    unfold covers, holeEnd. simpl.
    destruct (Z.leb_spec 0 p), (Z.ltb_spec p (0 + memorySize / pageSize));
      simpl; lia.
Qed.

End HoleListClient.

Section HoleListSteps.
Import HoleList.
Implicit Types (hs : list Hole) (held : list Block) (h : Hole) (b : Block).

Lemma blockPages_at base pageSize s cnt :
  0 < pageSize -> 0 <= s -> 0 <= base -> base + s * pageSize < 2 ^ 64 ->
  blockPages base pageSize (mkBlock (base + s * pageSize) cnt) = mkHole s cnt.
Proof.
  intros Hp Hs Hb Hlt. unfold blockPages. simpl. f_equal.
  replace (base + s * pageSize - base) with (s * pageSize) by lia.
  rewrite wrap64_small by nia. apply Z.div_mul. lia.
Qed.

(** What a successful [allocatePages] does to a state of the invariant. *)
Lemma holelist_allocate_ok m held size :
  holelist_inv m held -> 0 <= size < 2 ^ 64 ->
  forall addr addr' m', allocatePages m size addr = (true, addr', m') ->
  exists it h,
    findFit (holes m) size = Some (it, h) /\
    addr' = physMemBase + startPage h * pageSize m /\
    blockPages (baseAddress m) (pageSize m) (mkBlock addr' size)
    = mkHole (startPage h) size /\
    m' = mkPMM (baseAddress m) (pageSize m) (memorySize m) (nPages m)
           (nAllocatedPages m + size)
           (Z.max (maxAllocatedPages m) (nAllocatedPages m + size))
           (erase (holes m) it ++
            (if size <? count h
             then [mkHole (startPage h + size) (count h - size)] else [])).
Proof.
  intros Hi Hsz addr addr' m'. unfold allocatePages.
  destruct (nPages m <? wrap64 (nAllocatedPages m + size)); [discriminate|].
  destruct (findFit (holes m) size) as [[it h]|] eqn:Ef; [|discriminate].
  intros [= <- <-]. exists it, h.
  destruct (findFit_Some _ _ _ _ Ef) as (Hl & Hc & _).
  pose proof (hi_holes _ _ Hi) as Hw. unfold holes_within in Hw.
  rewrite List.Forall_forall in Hw.
  destruct (Hw h) as (Hh0 & Hh1 & Hh2).
  { eapply list_elem_of_In, list_elem_of_lookup_2, Hl. }
  unfold holeEnd in Hh2.
  destruct (hi_nPages _ _ Hi) as [Hn1 Hn2].
  pose proof (hi_pageSize _ _ Hi) as Hps.
  pose proof (hi_base _ _ Hi) as Hb.
  pose proof (hole_pages_within _ _ (hi_holes _ _ Hi)) as Hhp.
  pose proof (hi_free _ _ Hi) as Hfree.
  assert (Hsp : 0 <= startPage h * pageSize m <= 2 ^ 31) by nia.
  assert (Hn3 : nPages m <= 2 ^ 31) by nia.
  assert (Hbase : physMemBase = 2 ^ 34) by reflexivity.
  assert (Hheld : 0 <= nAllocatedPages m).
  { rewrite (hi_count _ _ Hi). apply heldPages_nonneg.
    eapply List.Forall_impl; [|apply (hi_blocks _ _ Hi)].
    simpl. intros x (? & ? & ? & ? & ?). lia. }
  split; [reflexivity|]. split; [|split].
  - rewrite Hb, wrap64_small; lia.
  - rewrite Hb, (wrap64_small (physMemBase + _)) by lia.
    apply blockPages_at; lia.
  - rewrite splitHole_at_start by (unfold holeEnd; lia).
    rewrite wrap64_small by lia. reflexivity.
Qed.

Lemma holelist_allocate_inv m held size addr :
  holelist_inv m held -> 1 <= size < 2 ^ 64 ->
  holelist_inv (snd (allocatePages m size addr))
    (if fst (fst (allocatePages m size addr))
     then held ++ [mkBlock (snd (fst (allocatePages m size addr))) size]
     else held).
Proof.
  intros Hi Hsz.
  destruct (allocatePages m size addr) as [[ok addr'] m'] eqn:Ea.
  destruct ok; simpl.
  2:{ assert (H := allocatePages_false m size addr). rewrite Ea in H.
      specialize (H eq_refl). injection H as _ <-. exact Hi. }
  destruct (holelist_allocate_ok m held size Hi ltac:(lia) _ _ _ Ea)
    as (it & h & Ef & Haddr & Hblk & ->).
  destruct (findFit_Some _ _ _ _ Ef) as (Hl & Hc & _).
  pose proof (hi_holes _ _ Hi) as Hw.
  assert (Hh : 0 <= startPage h /\ 0 < count h /\ holeEnd h <= nPages m).
  { unfold holes_within in Hw. rewrite List.Forall_forall in Hw. apply Hw.
    eapply list_elem_of_In, list_elem_of_lookup_2, Hl. }
  destruct Hh as (Hh0 & Hh1 & Hh2). unfold holeEnd in Hh2.
  pose proof (hi_free _ _ Hi) as Hfree.
  pose proof (hi_count _ _ Hi) as Hcount.
  pose proof (hi_max _ _ Hi) as Hmax.
  constructor; simpl.
  - apply (hi_pageSize _ _ Hi).
  - apply (hi_base _ _ Hi).
  - apply (hi_nPages _ _ Hi).
  - apply Forall_app. split; [apply within_erase, Hw|].
    destruct (Z.ltb_spec size (count h)); repeat constructor;
      unfold holeEnd; simpl; lia.
  - apply Forall_app. split; [apply (hi_blocks _ _ Hi)|].
    repeat constructor. exists (startPage h). simpl. repeat split; lia.
  - intros p Hp. pose proof (hi_partition _ _ Hi p Hp) as Hpart.
    rewrite map_app, !cover_app in *. simpl map. rewrite Hblk.
    rewrite (cover_erase _ _ _ p Hl) in Hpart.
    set (rem := if size <? count h
                then [mkHole (startPage h + size) (count h - size)] else []).
    assert (Hsplit :
      ((if covers h p then 1 else 0) =
       cover rem p + cover [mkHole (startPage h) size] p)%nat).
    { subst rem. destruct (Z.ltb_spec size (count h));
        rewrite ?cover_cons, ?cover_nil; unfold covers, holeEnd; simpl;
        destruct (Z.leb_spec (startPage h) p),
                 (Z.ltb_spec p (startPage h + count h)),
                 (Z.ltb_spec p (startPage h + size));
        try destruct (Z.leb_spec (startPage h + size) p);
        try destruct (Z.ltb_spec p (startPage h + size + (count h - size)));
        simpl; lia. }
    lia.
  - rewrite heldPages_app. simpl. lia.
  - rewrite hole_pages_app. rewrite (hole_pages_erase _ _ _ Hl) in Hfree.
    destruct (Z.ltb_spec size (count h)); simpl; lia.
  - lia.
  - intros E. destruct held; discriminate.
Qed.

Lemma holelist_release_inv m held index b :
  holelist_inv m held -> held !! index = Some b ->
  holelist_inv (releasePages m (blockAddr b) (blockCount b))
               (delete index held).
Proof.
  intros Hi Hb.
  pose proof (hi_blocks _ _ Hi) as Hbs.
  assert (Hbb : exists s, blockAddr b = physMemBase + s * pageSize m /\
                  0 <= s /\ 1 <= blockCount b /\ s + blockCount b <= nPages m).
  { rewrite List.Forall_forall in Hbs. apply Hbs.
    eapply list_elem_of_In, list_elem_of_lookup_2, Hb. }
  destruct Hbb as (s & Haddr & Hs0 & Hc1 & Hs1).
  destruct (hi_nPages _ _ Hi) as [Hn1 Hn2].
  pose proof (hi_pageSize _ _ Hi) as Hps.
  pose proof (hi_base _ _ Hi) as Hbase.
  pose proof (hi_holes _ _ Hi) as Hw.
  pose proof (hi_free _ _ Hi) as Hfree.
  pose proof (hi_count _ _ Hi) as Hcount.
  pose proof (hi_max _ _ Hi) as Hmax.
  assert (Hphys : physMemBase = 2 ^ 34) by reflexivity.
  assert (Hblk : blockPages (baseAddress m) (pageSize m) b = mkHole s (blockCount b)).
  { destruct b as [a c]. simpl in *. subst a. rewrite Hbase.
    apply blockPages_at; nia. }
  assert (Hstart : wrap64 (blockAddr b - baseAddress m) / pageSize m = s).
  { unfold blockPages in Hblk. injection Hblk as Hblk. exact Hblk. }
  assert (Hw' : holes_within (nPages m) (addHole (holes m) s (blockCount b))).
  { unfold addHole. apply Forall_app. split; [exact Hw|].
    repeat constructor; unfold holeEnd; simpl; lia. }
  destruct (mergeHoles_keeps (nPages m) _ ltac:(nia) Hw') as (Hk1 & Hk2 & Hk3).
  assert (Hheld : heldPages held = blockCount b + heldPages (delete index held))
    by (apply heldPages_delete, Hb).
  assert (Hnn : 0 <= heldPages (delete index held)).
  { apply heldPages_nonneg. rewrite delete_take_drop. apply Forall_app. split.
    - apply Forall_take. eapply List.Forall_impl; [|exact Hbs].
      simpl. intros x (? & ? & ? & ? & ?). lia.
    - apply Forall_drop. eapply List.Forall_impl; [|exact Hbs].
      simpl. intros x (? & ? & ? & ? & ?). lia. }
  assert (Hpart : forall p, 0 <= p < nPages m ->
            cover (mergeHoles (addHole (holes m) s (blockCount b)) ++
                   map (blockPages (baseAddress m) (pageSize m))
                       (delete index held)) p = 1%nat).
  { intros p Hp. pose proof (hi_partition _ _ Hi p Hp) as Hpart.
    rewrite cover_app in *. rewrite Hk2. unfold addHole.
    rewrite cover_app, cover_cons, cover_nil.
    rewrite (cover_delete _ held index b p Hb), Hblk in Hpart. lia. }
  pose proof (hole_pages_within _ _ Hw) as Hhp.
  assert (Hn3 : nPages m <= 2 ^ 31) by nia.
  unfold releasePages. rewrite Hstart.
  constructor; simpl.
  - exact Hps.
  - exact Hbase.
  - split; assumption.
  - exact Hk1.
  - rewrite delete_take_drop. apply Forall_app. split.
    + apply Forall_take, Hbs.
    + apply Forall_drop, Hbs.
  - exact Hpart.
  - rewrite wrap64_small; lia.
  - rewrite Hk3. unfold addHole. rewrite hole_pages_app. simpl.
    rewrite wrap64_small; lia.
  - rewrite wrap64_small; lia.
  - intros E. apply (mergeHoles_whole (nPages m)); [lia|exact Hw'|].
    intros p Hp. specialize (Hpart p Hp). rewrite E in Hpart. simpl in Hpart.
    rewrite app_nil_r, Hk2 in Hpart. exact Hpart.
Qed.

Lemma holelist_serve_inv m held r st' :
  holelist_inv m held -> positive r -> serve (m, held) r = Some st' ->
  holelist_inv (fst st') (snd st').
Proof.
  intros Hi Hr. destruct r as [size|index]; simpl.
  - pose proof (holelist_allocate_inv m held size 0 Hi Hr) as H.
    destruct (allocatePages m size 0) as [[ok addr'] m'].
    intros [= <-]. exact H.
  - destruct (held !! index) as [b|] eqn:Hb; [|discriminate].
    intros [= <-]. simpl. apply holelist_release_inv; assumption.
Qed.

Lemma holelist_serveAll_inv rs : forall m held st',
  holelist_inv m held -> Forall positive rs ->
  serveAll (m, held) rs = Some st' -> holelist_inv (fst st') (snd st').
Proof.
  induction rs as [|r rest IH]; intros m held st' Hi Hrs.
  - intros [= <-]. exact Hi.
  - apply Forall_cons in Hrs as [Hr Hrs]. cbn [serveAll].
    destruct (serve (m, held) r) as [[m1 held1]|] eqn:Es; [|discriminate].
    intros Hrun. eapply (IH m1 held1); [|exact Hrs|exact Hrun].
    apply (holelist_serve_inv m held r (m1, held1) Hi Hr Es).
Qed.

End HoleListSteps.

Section HoleListRuns.
Import HoleList.
Implicit Types (hs : list Hole) (held : list Block) (h : Hole) (b : Block).

Lemma holelist_run_inv ps ms m0 rs m held :
  0 < ps <= ms -> create ps ms = Some m0 ->
  Forall positive rs -> serveAll (m0, []) rs = Some (m, held) ->
  holelist_inv m held /\ pageSize m = ps /\
  nPages m = ms / ps /\ ms <= 2 ^ 31.
Proof.
  intros Hp Hc Hrs Hrun.
  pose proof (holelist_create_inv _ _ _ Hp Hc) as Hi0.
  split; [apply (holelist_serveAll_inv rs m0 [] (m, held) Hi0 Hrs Hrun)|].
  assert (Hfix : forall rs m1 held1 m2 held2,
            serveAll (m1, held1) rs = Some (m2, held2) ->
            pageSize m2 = pageSize m1 /\ nPages m2 = nPages m1).
  { clear. induction rs as [|r rest IH]; intros m1 held1 m2 held2.
    - intros [= <- <-]. auto.
    - cbn [serveAll]. destruct r as [size|index]; simpl.
      + destruct (allocatePages m1 size 0) as [[ok a] m'] eqn:Ea.
        intros Hrun. apply IH in Hrun as [-> ->].
        unfold allocatePages in Ea.
        destruct (nPages m1 <? _); [injection Ea as _ _ <-; auto|].
        destruct (findFit _ _) as [[it h]|]; injection Ea as _ _ <-; auto.
      + destruct (held1 !! index) as [b|]; [|discriminate].
        intros Hrun. apply IH in Hrun as [-> ->]. auto. }
  destruct (Hfix _ _ _ _ _ Hrun) as [-> ->].
  unfold create in Hc.
  destruct (ps =? 0); [discriminate|].
  destruct (Z.ltb_spec (2 * 1024 * 1024 * 1024) ms); [discriminate|].
  destruct (ms =? 0); [discriminate|].
  injection Hc as <-. simpl. repeat split; lia.
Qed.

Lemma held_lookup_delete held i j b :
  i <> j -> held !! j = Some b -> exists j', delete i held !! j' = Some b.
Proof.
  intros Hij Hj. destruct (Nat.lt_ge_cases j i) as [Hlt|Hge].
  - exists j. rewrite list_lookup_delete_lt by exact Hlt. exact Hj.
  - destruct j as [|j]; [lia|]. exists j.
    rewrite list_lookup_delete_ge by lia. exact Hj.
Qed.

Lemma held_apart m held i j b1 b2 :
  holelist_inv m held -> i <> j ->
  held !! i = Some b1 -> held !! j = Some b2 ->
  blocksApart (pageSize m) b1 b2.
Proof.
  intros Hi Hij H1 H2.
  pose proof (hi_blocks _ _ Hi) as Hbs. rewrite List.Forall_forall in Hbs.
  destruct (Hbs b1) as (s1 & Ha1 & Hs1 & Hc1 & He1);
    [eapply list_elem_of_In, list_elem_of_lookup_2, H1|].
  destruct (Hbs b2) as (s2 & Ha2 & Hs2 & Hc2 & He2);
    [eapply list_elem_of_In, list_elem_of_lookup_2, H2|].
  pose proof (hi_pageSize _ _ Hi) as Hps.
  pose proof (hi_base _ _ Hi) as Hbase.
  destruct (hi_nPages _ _ Hi) as [Hn1 Hn2].
  assert (Hphys : physMemBase = 2 ^ 34) by reflexivity.
  assert (Hb1 : blockPages (baseAddress m) (pageSize m) b1 = mkHole s1 (blockCount b1)).
  { destruct b1 as [a c]. simpl in *. subst a. rewrite Hbase.
    apply blockPages_at; nia. }
  assert (Hb2 : blockPages (baseAddress m) (pageSize m) b2 = mkHole s2 (blockCount b2)).
  { destruct b2 as [a c]. simpl in *. subst a. rewrite Hbase.
    apply blockPages_at; nia. }
  unfold blocksApart. rewrite Ha1, Ha2.
  destruct (Z.le_gt_cases (s1 + blockCount b1) s2) as [|Hgt1]; [left; nia|].
  destruct (Z.le_gt_cases (s2 + blockCount b2) s1) as [|Hgt2]; [right; nia|].
  exfalso.
  set (p := Z.max s1 s2).
  pose proof (hi_partition _ _ Hi p ltac:(lia)) as Hpart.
  rewrite cover_app in Hpart.
  rewrite (cover_delete _ held i b1 p H1), Hb1 in Hpart.
  destruct (held_lookup_delete held i j b2 Hij H2) as (j' & Hj').
  rewrite (cover_delete _ (delete i held) j' b2 p Hj'), Hb2 in Hpart.
  assert (E1 : covers (mkHole s1 (blockCount b1)) p = true)
    by (apply covers_iff; unfold holeEnd; simpl; lia).
  assert (E2 : covers (mkHole s2 (blockCount b2)) p = true)
    by (apply covers_iff; unfold holeEnd; simpl; lia).
  rewrite E1, E2 in Hpart. lia.
Qed.

Lemma heldPages_nil held :
  Forall (fun b => 1 <= blockCount b) held -> heldPages held = 0 -> held = [].
Proof.
  destruct 1 as [|b rest Hb Hrest]; [reflexivity|].
  simpl. pose proof (heldPages_nonneg rest Hrest). lia.
Qed.

Lemma held_counts m held :
  holelist_inv m held -> Forall (fun b => 1 <= blockCount b) held.
Proof.
  intros Hi. eapply List.Forall_impl; [|apply (hi_blocks _ _ Hi)].
  simpl. intros x (? & ? & ? & ? & ?). lia.
Qed.


Lemma holelist_holes_apart m held p :
  holelist_inv m held -> (cover (holes m) p <= 1)%nat.
Proof.
  intros Hi. destruct (decide (0 <= p < nPages m)) as [Hp|Hp].
  - pose proof (hi_partition _ _ Hi p Hp) as H. rewrite cover_app in H. lia.
  - rewrite (cover_le_within (nPages m)); [lia|apply (hi_holes _ _ Hi)|exact Hp].
Qed.

Lemma holelist_release_gapped m held index b :
  holelist_inv m held -> held !! index = Some b ->
  gapped (holes (releasePages m (blockAddr b) (blockCount b))).
Proof.
  intros Hi Hb.
  pose proof (hi_blocks _ _ Hi) as Hbs. rewrite List.Forall_forall in Hbs.
  destruct (Hbs b) as (s & Haddr & Hs0 & Hc1 & Hs1);
    [eapply list_elem_of_In, list_elem_of_lookup_2, Hb|].
  destruct (hi_nPages _ _ Hi) as [Hn1 Hn2].
  pose proof (hi_pageSize _ _ Hi) as Hps.
  pose proof (hi_base _ _ Hi) as Hbase.
  assert (Hphys : physMemBase = 2 ^ 34) by reflexivity.
  assert (Hblk : blockPages (baseAddress m) (pageSize m) b = mkHole s (blockCount b)).
  { destruct b as [a c]. simpl in *. subst a. rewrite Hbase.
    apply blockPages_at; nia. }
  assert (Hstart : wrap64 (blockAddr b - baseAddress m) / pageSize m = s).
  { unfold blockPages in Hblk. injection Hblk as Hblk. exact Hblk. }
  unfold releasePages. rewrite Hstart. simpl.
  apply (mergeHoles_gapped (nPages m)); [nia| |].
  - unfold addHole. apply Forall_app. split; [apply (hi_holes _ _ Hi)|].
    repeat constructor; unfold holeEnd; simpl; lia.
  - intros p. unfold addHole. rewrite cover_app, cover_cons, cover_nil.
    destruct (decide (0 <= p < nPages m)) as [Hp|Hp].
    + pose proof (hi_partition _ _ Hi p Hp) as H. rewrite cover_app in H.
      rewrite (cover_delete _ held index b p Hb), Hblk in H. lia.
    + rewrite (cover_le_within (nPages m) (holes m));
        [|apply (hi_holes _ _ Hi)|exact Hp].
      destruct (covers (mkHole s (blockCount b)) p) eqn:E; [|lia].
      apply covers_iff in E. unfold holeEnd in E. simpl in E. lia.
Qed.

Lemma delete_snoc held b : delete (length held) (held ++ [b]) = held.
Proof.
  induction held as [|x rest IH]; [reflexivity|]. simpl. rewrite IH. reflexivity.
Qed.

Lemma holelist_allocate_release m held size addr addr' m1 :
  holelist_inv m held -> gapped (holes m) -> 1 <= size < 2 ^ 64 ->
  allocatePages m size addr = (true, addr', m1) ->
  holes (releasePages m1 addr' size) = holes m /\
  nAllocatedPages (releasePages m1 addr' size) = nAllocatedPages m.
Proof.
  intros Hi Hg Hsz Ea.
  pose proof (holelist_allocate_inv m held size addr Hi Hsz) as Hi1.
  rewrite Ea in Hi1. simpl in Hi1.
  assert (Hl : (held ++ [mkBlock addr' size]) !! length held
               = Some (mkBlock addr' size)).
  { rewrite lookup_app_r by lia. rewrite Nat.sub_diag. reflexivity. }
  pose proof (holelist_release_inv _ _ _ _ Hi1 Hl) as Hi2.
  pose proof (holelist_release_gapped _ _ _ _ Hi1 Hl) as Hg2.
  rewrite delete_snoc in Hi2. simpl blockAddr in *. simpl blockCount in *.
  assert (Hsame : pageSize m1 = pageSize m /\ baseAddress m1 = baseAddress m /\
                  nPages m1 = nPages m).
  { destruct (holelist_allocate_ok m held size Hi ltac:(lia) _ _ _ Ea)
      as (it & h & _ & _ & _ & ->). simpl. auto. }
  destruct Hsame as (Hps & Hba & Hnp).
  set (m2 := releasePages m1 addr' size) in *.
  assert (Hps2 : pageSize m2 = pageSize m) by (subst m2; exact Hps).
  assert (Hba2 : baseAddress m2 = baseAddress m) by (subst m2; exact Hba).
  assert (Hnp2 : nPages m2 = nPages m) by (subst m2; exact Hnp).
  split.
  - apply gapped_unique; [exact Hg2|exact Hg|].
    intros p. destruct (decide (0 <= p < nPages m)) as [Hp|Hp].
    + pose proof (hi_partition _ _ Hi p Hp) as H.
      pose proof (hi_partition _ _ Hi2 p) as H2.
      rewrite Hnp2, Hps2, Hba2 in H2. specialize (H2 Hp).
      rewrite cover_app in H, H2. lia.
    + rewrite (cover_le_within (nPages m) (holes m));
        [|apply (hi_holes _ _ Hi)|exact Hp].
      apply (cover_le_within (nPages m)); [|exact Hp].
      pose proof (hi_holes _ _ Hi2) as Hw. rewrite Hnp2 in Hw.
      exact Hw.
  - rewrite (hi_count _ _ Hi2), (hi_count _ _ Hi). reflexivity.
Qed.

Lemma holelist_peak rs : forall m held peak,
  holelist_inv m held -> Forall positive rs ->
  maxAllocatedPages m = peak ->
  match serveAll (m, held) rs with
  | Some st' => peakHeld (m, held) rs peak = Some (maxAllocatedPages (fst st'))
  | None => peakHeld (m, held) rs peak = None
  end.
Proof.
  induction rs as [|r rest IH]; intros m held peak Hi Hrs Hpk.
  - simpl. rewrite Hpk. reflexivity.
  - apply Forall_cons in Hrs as [Hr Hrs]. cbn [serveAll peakHeld].
    destruct (serve (m, held) r) as [[m1 held1]|] eqn:Es; [|reflexivity].
    pose proof (holelist_serve_inv m held r (m1, held1) Hi Hr Es) as Hi1.
    simpl in Hi1. apply IH; [exact Hi1|exact Hrs|]. simpl.
    pose proof (hi_count _ _ Hi1) as Hc1. pose proof (hi_max _ _ Hi1) as Hm1.
    pose proof (hi_count _ _ Hi) as Hc. pose proof (hi_max _ _ Hi) as Hm.
    destruct r as [size|index]; simpl in Es.
    + destruct (allocatePages m size 0) as [[ok a] m'] eqn:Ea.
      injection Es as <- <-. destruct ok.
      * destruct (holelist_allocate_ok m held size Hi ltac:(simpl in Hr; lia)
                    _ _ _ Ea) as (it & h & _ & _ & _ & ->).
        simpl in *. lia.
      * assert (H := allocatePages_false m size 0). rewrite Ea in H.
        specialize (H eq_refl). injection H as _ <-. lia.
    + destruct (held !! index) as [b|] eqn:Hb; [|discriminate].
      injection Es as <- <-. simpl in *. lia.
Qed.

End HoleListRuns.

(** Whatever a client of the hole-list allocator asks for and gives back,
    the blocks it holds are whole pages of the memory and no two of them
    share a byte. *)
Theorem holelist_blocks_never_overlap (pageSize memorySize : Z)
    (m0 m : HoleList.PhysMemManager) (rs : list Request) (held : list Block) :
  0 < pageSize <= memorySize ->
  HoleList.create pageSize memorySize = Some m0 ->
  Forall positive rs ->
  serveAll (m0, []) rs = Some (m, held) ->
  (forall i b, held !! i = Some b ->
     physMemBase <= blockAddr b /\
     (blockAddr b - physMemBase) mod pageSize = 0 /\
     blockAddr b + blockCount b * pageSize <= physMemBase + memorySize) /\
  (forall i j b1 b2, i <> j -> held !! i = Some b1 -> held !! j = Some b2 ->
     blocksApart pageSize b1 b2).
Proof.
  intros Hp Hc Hrs Hrun.
  destruct (holelist_run_inv _ _ _ _ _ _ Hp Hc Hrs Hrun) as (Hi & Hps & Hn & Hm).
  split.
  - intros i b Hb.
    pose proof (hi_blocks _ _ Hi) as Hbs. rewrite List.Forall_forall in Hbs.
    destruct (Hbs b) as (s & Ha & Hs & Hc1 & He);
      [eapply list_elem_of_In, list_elem_of_lookup_2, Hb|].
    rewrite Hps, Hn in *.
    assert (memorySize / pageSize * pageSize <= memorySize)
      by (rewrite Z.mul_comm; apply Z.mul_div_le; lia).
    rewrite Ha. replace (physMemBase + s * pageSize - physMemBase)
      with (s * pageSize) by lia.
    rewrite Z.mod_mul by lia. repeat split; nia.
  - intros i j b1 b2 Hij H1 H2. rewrite <- Hps.
    eapply held_apart; eassumption.
Qed.

Lemma holelist_blocks_never_overlap_witness :
  blocksApart 4096 (mkBlock (physMemBase + 5 * 4096) 10)
                   (mkBlock (physMemBase + 15 * 4096) 3).
Proof.
  apply (proj2 (holelist_blocks_never_overlap 4096 (64 * 4096) T64_boot
                  T64_manager T64_requests T64_held
                  ltac:(lia) eq_refl
                  ltac:(repeat constructor; simpl; lia)
                  ltac:(vm_compute; reflexivity)) 1%nat 2%nat);
    [lia|reflexivity|reflexivity].
Defined.

(** The counter of the hole-list allocator is the number of pages the
    client holds, the holes hold all the other pages of the memory, and
    [allReleased] says whether the client holds nothing. *)
Theorem holelist_page_accounting (pageSize memorySize : Z)
    (m0 m : HoleList.PhysMemManager) (rs : list Request) (held : list Block) :
  0 < pageSize <= memorySize ->
  HoleList.create pageSize memorySize = Some m0 ->
  Forall positive rs ->
  serveAll (m0, []) rs = Some (m, held) ->
  HoleList.nAllocatedPages m = heldPages held /\
  hole_pages (HoleList.holes m) + heldPages held = memorySize / pageSize /\
  (HoleList.allReleased m = true <-> held = []).
Proof.
  intros Hp Hc Hrs Hrun.
  destruct (holelist_run_inv _ _ _ _ _ _ Hp Hc Hrs Hrun) as (Hi & Hps & Hn & Hm).
  pose proof (hi_count _ _ Hi) as Hcount.
  pose proof (hi_free _ _ Hi) as Hfree.
  split; [exact Hcount|]. split; [lia|].
  unfold HoleList.allReleased. rewrite Z.eqb_eq, Hcount. split.
  - apply heldPages_nil, (held_counts m), Hi.
  - intros ->. reflexivity.
Qed.

Lemma holelist_page_accounting_witness :
  HoleList.nAllocatedPages T64_manager = heldPages T64_held /\
  hole_pages (HoleList.holes T64_manager) + heldPages T64_held
  = 64 * 4096 / 4096 /\
  (HoleList.allReleased T64_manager = true <-> T64_held = []).
Proof.
  apply (holelist_page_accounting 4096 (64 * 4096) T64_boot T64_manager
                                  T64_requests T64_held).
  - lia.
  - reflexivity.
  - repeat constructor; simpl; lia.
  - vm_compute. reflexivity.
Defined.

(** When the client of the hole-list allocator has given back everything,
    the hole list is one hole again, the whole memory, and a request for
    any number of pages up to the size of the memory is served at
    [physMemBase]. *)
Theorem holelist_idle_is_one_hole (pageSize memorySize : Z)
    (m0 m : HoleList.PhysMemManager) (rs : list Request) :
  0 < pageSize <= memorySize ->
  HoleList.create pageSize memorySize = Some m0 ->
  Forall positive rs ->
  serveAll (m0, []) rs = Some (m, []) ->
  HoleList.holes m = [HoleList.mkHole 0 (memorySize / pageSize)] /\
  forall size addr, 0 <= size <= memorySize / pageSize ->
    fst (HoleList.allocatePages m size addr) = (true, physMemBase).
Proof.
  intros Hp Hc Hrs Hrun.
  destruct (holelist_run_inv _ _ _ _ _ _ Hp Hc Hrs Hrun) as (Hi & Hps & Hn & Hm).
  pose proof (hi_idle _ _ Hi eq_refl) as Hh. rewrite Hn in Hh.
  split; [exact Hh|].
  intros size addr Hsz.
  pose proof (hi_count _ _ Hi) as Hcount. simpl in Hcount.
  destruct (hi_nPages _ _ Hi) as [Hn1 Hn2].
  pose proof (hi_pageSize _ _ Hi) as Hps'.
  assert (Hn3 : HoleList.nPages m <= 2 ^ 31) by nia.
  unfold HoleList.allocatePages. rewrite Hcount, Hh, Hn. simpl.
  rewrite (wrap64_small (0 + size)) by lia.
  destruct (Z.ltb_spec (memorySize / pageSize) (0 + size)); [lia|].
  destruct (Z.leb_spec size (memorySize / pageSize)); [|lia].
  simpl. rewrite (hi_base _ _ Hi), Z.add_0_r. reflexivity.
Qed.

Lemma holelist_idle_is_one_hole_witness :
  HoleList.holes (HoleList.mkPMM physMemBase 4096 (64 * 4096) 64 0 15
                                 [HoleList.mkHole 0 64])
  = [HoleList.mkHole 0 (64 * 4096 / 4096)] /\
  forall size addr, 0 <= size <= 64 * 4096 / 4096 ->
    fst (HoleList.allocatePages
           (HoleList.mkPMM physMemBase 4096 (64 * 4096) 64 0 15
                           [HoleList.mkHole 0 64]) size addr)
    = (true, physMemBase).
Proof.
  apply (holelist_idle_is_one_hole 4096 (64 * 4096) T64_boot _
           [Allocate 5; Allocate 10; Release 0; Release 0]).
  - lia.
  - reflexivity.
  - repeat constructor; simpl; lia.
  - vm_compute. reflexivity.
Defined.

(** [releasePages] leaves the hole list sorted by start page, with at
    least one page that is not free between a hole and the next: holes
    that touch have been merged. *)
Theorem releasePages_merges_neighbours (pageSize memorySize : Z)
    (m0 m : HoleList.PhysMemManager) (rs : list Request) (held : list Block)
    (index : nat) (b : Block) :
  0 < pageSize <= memorySize ->
  HoleList.create pageSize memorySize = Some m0 ->
  Forall positive rs ->
  serveAll (m0, []) rs = Some (m, held) ->
  held !! index = Some b ->
  gapped (HoleList.holes (HoleList.releasePages m (blockAddr b) (blockCount b))).
Proof.
  intros Hp Hc Hrs Hrun Hb.
  destruct (holelist_run_inv _ _ _ _ _ _ Hp Hc Hrs Hrun) as (Hi & _).
  eapply holelist_release_gapped; eassumption.
Qed.

Lemma releasePages_merges_neighbours_witness :
  gapped (HoleList.holes
            (HoleList.releasePages T64_manager (physMemBase + 5 * 4096) 10)) /\
  HoleList.holes (HoleList.releasePages T64_manager (physMemBase + 5 * 4096) 10)
  = [HoleList.mkHole 5 10; HoleList.mkHole 18 46].
Proof.
  split; [|vm_compute; reflexivity].
  apply (releasePages_merges_neighbours 4096 (64 * 4096) T64_boot T64_manager
           T64_requests T64_held 1%nat
           (mkBlock (physMemBase + 5 * 4096) 10)).
  - lia.
  - reflexivity.
  - repeat constructor; simpl; lia.
  - vm_compute. reflexivity.
  - reflexivity.
Defined.

(** In a state whose hole list is in the form [releasePages] leaves,
    allocating pages and releasing them at once gives the hole list and the
    counter of allocated pages back as they were. *)
Theorem allocate_release_restores (pageSize memorySize : Z)
    (m0 m m1 : HoleList.PhysMemManager) (rs : list Request)
    (held : list Block) (size addr addr' : Z) :
  0 < pageSize <= memorySize ->
  HoleList.create pageSize memorySize = Some m0 ->
  Forall positive rs ->
  serveAll (m0, []) rs = Some (m, held) ->
  gapped (HoleList.holes m) ->
  1 <= size < 2 ^ 64 ->
  HoleList.allocatePages m size addr = (true, addr', m1) ->
  HoleList.holes (HoleList.releasePages m1 addr' size) = HoleList.holes m /\
  HoleList.nAllocatedPages (HoleList.releasePages m1 addr' size)
  = HoleList.nAllocatedPages m.
Proof.
  intros Hp Hc Hrs Hrun Hg Hsz Ea.
  destruct (holelist_run_inv _ _ _ _ _ _ Hp Hc Hrs Hrun) as (Hi & _).
  eapply holelist_allocate_release; eassumption.
Qed.

Lemma allocate_release_restores_witness :
  exists m1,
    HoleList.allocatePages T64_holes_manager 4 0
    = (true, physMemBase + 10 * 4096, m1) /\
    HoleList.holes m1 = [HoleList.mkHole 0 2; HoleList.mkHole 14 50] /\
    HoleList.holes (HoleList.releasePages m1 (physMemBase + 10 * 4096) 4)
    = HoleList.holes T64_holes_manager.
Proof.
  eexists. split; [vm_compute; reflexivity|]. split; [reflexivity|].
  apply (allocate_release_restores 4096 (64 * 4096) T64_boot T64_holes_manager
           _ T64_holes_requests T64_holes_held 4 0 (physMemBase + 10 * 4096)).
  - lia.
  - reflexivity.
  - repeat constructor; simpl; lia.
  - vm_compute. reflexivity.
  - simpl. unfold holeEnd. simpl. lia.
  - lia.
  - vm_compute. reflexivity.
Defined.

(** [allocatePages] is first fit in the order of the hole list: it
    allocates at the start of the first hole that is large enough, every
    hole before it in the list is too small, and what is left of the hole
    goes to the back of the list. *)
Theorem holelist_first_fit (pageSize memorySize : Z)
    (m0 m m1 : HoleList.PhysMemManager) (rs : list Request)
    (held : list Block) (size addr addr' : Z) :
  0 < pageSize <= memorySize ->
  HoleList.create pageSize memorySize = Some m0 ->
  Forall positive rs ->
  serveAll (m0, []) rs = Some (m, held) ->
  0 <= size < 2 ^ 64 ->
  HoleList.allocatePages m size addr = (true, addr', m1) ->
  exists it h,
    HoleList.holes m !! it = Some h /\ size <= HoleList.count h /\
    (forall j h', (j < it)%nat -> HoleList.holes m !! j = Some h' ->
                  HoleList.count h' < size) /\
    addr' = physMemBase + HoleList.startPage h * pageSize /\
    HoleList.holes m1 =
      HoleList.erase (HoleList.holes m) it ++
      (if size <? HoleList.count h
       then [HoleList.mkHole (HoleList.startPage h + size)
                             (HoleList.count h - size)]
       else []) /\
    HoleList.nAllocatedPages m1 = HoleList.nAllocatedPages m + size.
Proof.
  intros Hp Hc Hrs Hrun Hsz Ea.
  destruct (holelist_run_inv _ _ _ _ _ _ Hp Hc Hrs Hrun) as (Hi & Hps & _).
  destruct (holelist_allocate_ok m held size Hi Hsz _ _ _ Ea)
    as (it & h & Ef & Haddr & _ & ->).
  destruct (findFit_Some _ _ _ _ Ef) as (Hl & Hcnt & Hbefore).
  exists it, h. rewrite <- Hps. repeat split; try assumption; try reflexivity.
  intros j h' Hj Hl'. rewrite List.Forall_forall in Hbefore. apply Hbefore.
  eapply list_elem_of_In, list_elem_of_lookup_2.
  rewrite lookup_take_lt by exact Hj. exact Hl'.
Qed.

Lemma holelist_first_fit_witness :
  exists m1 it h,
    HoleList.allocatePages T64_holes_manager 4 0
    = (true, physMemBase + 10 * 4096, m1) /\
    HoleList.holes T64_holes_manager !! it = Some h /\
    physMemBase + 10 * 4096 = physMemBase + HoleList.startPage h * 4096 /\
    (forall j h', (j < it)%nat ->
       HoleList.holes T64_holes_manager !! j = Some h' ->
       HoleList.count h' < 4).
Proof.
  eexists.
  destruct (holelist_first_fit 4096 (64 * 4096) T64_boot T64_holes_manager
              _ T64_holes_requests T64_holes_held 4 0
              (physMemBase + 10 * 4096)
              ltac:(lia) eq_refl
              ltac:(repeat constructor; simpl; lia)
              ltac:(vm_compute; reflexivity) ltac:(lia)
              ltac:(vm_compute; reflexivity))
    as (it & h & Hl & _ & Hbefore & Haddr & _).
  exists it, h. split; [reflexivity|]. split; [exact Hl|].
  split; [exact Haddr|exact Hbefore].
Defined.

(** [getMaxAllocatedPages] is the largest number of pages the client has
    held at once since the allocator was created. *)
Theorem maxAllocatedPages_is_peak (pageSize memorySize : Z)
    (m0 m : HoleList.PhysMemManager) (rs : list Request) (held : list Block) :
  0 < pageSize <= memorySize ->
  HoleList.create pageSize memorySize = Some m0 ->
  Forall positive rs ->
  serveAll (m0, []) rs = Some (m, held) ->
  peakHeld (m0, []) rs 0 = Some (HoleList.getMaxAllocatedPages m) /\
  heldPages held <= HoleList.getMaxAllocatedPages m.
Proof.
  intros Hp Hc Hrs Hrun.
  destruct (holelist_run_inv _ _ _ _ _ _ Hp Hc Hrs Hrun) as (Hi & _).
  pose proof (holelist_create_inv _ _ _ Hp Hc) as Hi0.
  assert (H0 : HoleList.maxAllocatedPages m0 = 0).
  { unfold HoleList.create in Hc.
    destruct (pageSize =? 0); [discriminate|].
    destruct (2 * 1024 * 1024 * 1024 <? memorySize); [discriminate|].
    destruct (memorySize =? 0); [discriminate|].
    injection Hc as <-. reflexivity. }
  pose proof (holelist_peak rs m0 [] 0 Hi0 Hrs H0) as Hpk.
  rewrite Hrun in Hpk. split; [exact Hpk|].
  unfold HoleList.getMaxAllocatedPages.
  rewrite <- (hi_count _ _ Hi). apply (hi_max _ _ Hi).
Qed.

Lemma maxAllocatedPages_is_peak_witness :
  exists m held,
    serveAll (T100_boot, []) T100_requests = Some (m, held) /\
    HoleList.getMaxAllocatedPages m = 45 /\ heldPages held = 45 /\
    peakHeld (T100_boot, []) T100_requests 0 = Some 45.
Proof.
  eexists. eexists. split; [vm_compute; reflexivity|].
  split; [reflexivity|]. split; [reflexivity|].
  refine (proj1 (maxAllocatedPages_is_peak 4096 (100 * 4096) T100_boot _
                   T100_requests _ ltac:(lia) eq_refl
                   ltac:(repeat constructor; simpl; lia)
                   ltac:(vm_compute; reflexivity))).
Defined.

(** A request for zero pages: it fails when there is no hole at all, and
    else it succeeds with the address of the first hole, leaves the
    counters as they are and moves that hole to the back of the list. *)
Theorem allocatePages_zero_pages (pageSize memorySize : Z)
    (m0 m : HoleList.PhysMemManager) (rs : list Request) (held : list Block)
    (addr : Z) :
  0 < pageSize <= memorySize ->
  HoleList.create pageSize memorySize = Some m0 ->
  Forall positive rs ->
  serveAll (m0, []) rs = Some (m, held) ->
  HoleList.allocatePages m 0 addr =
  match HoleList.holes m with
  | [] => (false, addr, m)
  | h :: rest =>
      (true, physMemBase + HoleList.startPage h * pageSize,
       HoleList.mkPMM (HoleList.baseAddress m) (HoleList.pageSize m)
         (HoleList.memorySize m) (HoleList.nPages m)
         (HoleList.nAllocatedPages m) (HoleList.maxAllocatedPages m)
         (rest ++ [h]))
  end.
Proof.
  intros Hp Hc Hrs Hrun.
  destruct (holelist_run_inv _ _ _ _ _ _ Hp Hc Hrs Hrun) as (Hi & Hps & _).
  destruct (HoleList.holes m) as [|h rest] eqn:Eh.
  - unfold HoleList.allocatePages. rewrite Eh. simpl.
    destruct (HoleList.nPages m <? _); reflexivity.
  - destruct (HoleList.allocatePages m 0 addr) as [[ok addr'] m'] eqn:Ea.
    assert (Hfit : HoleList.findFit (HoleList.holes m) 0 = Some (0%nat, h)).
    { rewrite Eh. simpl.
      pose proof (hi_holes _ _ Hi) as Hw. rewrite Eh in Hw.
      apply Forall_cons in Hw as [(_ & Hcnt & _) _].
      destruct (Z.leb_spec 0 (HoleList.count h)); [reflexivity|lia]. }
    destruct ok.
    + destruct (holelist_allocate_ok m held 0 Hi ltac:(lia) _ _ _ Ea)
        as (it & h' & Ef & Haddr & _ & ->).
      rewrite Hfit in Ef. injection Ef as <- <-.
      pose proof (hi_holes _ _ Hi) as Hw. rewrite Eh in Hw.
      apply Forall_cons in Hw as [(_ & Hcnt & _) _].
      pose proof (hi_max _ _ Hi) as Hmax.
      rewrite Haddr, Hps, Eh, !Z.add_0_r, Z.sub_0_r.
      rewrite Z.max_l by lia.
      destruct (Z.ltb_spec 0 (HoleList.count h)); [|lia].
      destruct h. reflexivity.
    + exfalso. apply (f_equal (fun r => fst (fst r))) in Ea. simpl in Ea.
      apply allocatePages_code_iff in Ea.
      pose proof (hi_count _ _ Hi) as Hcount.
      pose proof (hi_free _ _ Hi) as Hfree.
      pose proof (hole_pages_within _ _ (hi_holes _ _ Hi)) as Hhp.
      pose proof (heldPages_nonneg held (held_counts _ _ Hi)) as Hnn.
      destruct (hi_nPages _ _ Hi) as [Hn1 Hn2].
      pose proof (hi_pageSize _ _ Hi) as Hps'.
      destruct Ea as [Ea|Ea].
      * rewrite Z.add_0_r, wrap64_small in Ea by nia. lia.
      * apply findFit_None in Ea. rewrite Hfit in Ea. discriminate.
Qed.

Lemma allocatePages_zero_pages_witness :
  HoleList.allocatePages T64_holes_manager 0 0 =
  (true, physMemBase + 0 * 4096,
   HoleList.mkPMM physMemBase 4096 (64 * 4096) 64 8 10
                  [HoleList.mkHole 10 54; HoleList.mkHole 0 2]).
Proof.
  apply (allocatePages_zero_pages 4096 (64 * 4096) T64_boot T64_holes_manager
           T64_holes_requests T64_holes_held 0).
  - lia.
  - reflexivity.
  - repeat constructor; simpl; lia.
  - vm_compute. reflexivity.
Defined.

(** ** The bitmap allocator and its client *)

Section BitmapClient.
Import Bitmap.
Implicit Types (held : list Block) (b : Block).

Lemma bitmap_create_inv ps ms m :
  0 < ps <= ms -> create ps ms = Some m -> bitmap_inv m [].
Proof.
  intros Hp. unfold create.
  destruct (ps =? 0); [discriminate|].
  destruct (Z.ltb_spec (2 * 1024 * 1024 * 1024) ms) as [|Hm]; [discriminate|].
  destruct (ms =? 0); [discriminate|].
  intros [= <-].
  assert (H1 : 1 <= ms / ps) by (apply Z.div_le_lower_bound; lia).
  assert (H2 : ms / ps * ps <= ms) by (rewrite Z.mul_comm; apply Z.mul_div_le; lia).
  constructor; simpl; try lia; try reflexivity.
  - apply length_replicate.
  - constructor.
  - intros p Hp'. unfold isAllocated.
    destruct (replicate (Z.to_nat (ms / ps)) false !! Z.to_nat p) as [x|] eqn:E;
      [|reflexivity].
    apply lookup_replicate in E as [-> _]. reflexivity.
Qed.

(** What a successful [allocatePages] of the bitmap allocator does. *)
Lemma bitmap_allocate_ok m held size :
  bitmap_inv m held -> 0 <= size < 2 ^ 64 ->
  forall addr addr' m', allocatePages m size addr = (true, addr', m') ->
  exists s,
    freeRun (allocated m) (nPages m) s size /\
    (forall s', 0 <= s' < s -> ~ freeRun (allocated m) (nPages m) s' size) /\
    addr' = physMemBase + s * pageSize m /\
    blockPages (baseAddress m) (pageSize m) (mkBlock addr' size)
    = HoleList.mkHole s size /\
    m' = mkPMM (baseAddress m) (pageSize m) (memorySize m) (nPages m)
           (nAllocatedPages m + size)
           (Z.max (maxAllocatedPages m) (nAllocatedPages m + size))
           (setRange (allocated m) s (s + size) true) /\
    nAllocatedPages m + size <= nPages m.
Proof.
  intros Hi Hsz addr addr' m'. unfold allocatePages.
  destruct (bi_nPages _ _ Hi) as [Hn1 Hn2].
  pose proof (bi_pageSize _ _ Hi) as Hps.
  pose proof (bi_base _ _ Hi) as Hb.
  pose proof (bi_length _ _ Hi) as Hlen.
  pose proof (bi_bound _ _ Hi) as Hbound.
  assert (Hn3 : nPages m <= 2 ^ 31) by nia.
  assert (Hheld : 0 <= nAllocatedPages m).
  { rewrite (bi_count _ _ Hi). apply heldPages_nonneg.
    eapply List.Forall_impl; [|apply (bi_blocks _ _ Hi)].
    simpl. intros x (? & ? & ? & ? & ?). lia. }
  destruct (Z.ltb_spec (nPages m) (wrap64 (nAllocatedPages m + size)))
    as [|Hchk]; [discriminate|].
  pose proof (scan_spec (allocated m) (nPages m) ltac:(lia) Hlen size
                (S (length (allocated m))) 0 Hsz ltac:(lia) ltac:(lia)) as Hscan.
  destruct (scan _ _ _ _ _) as [s|]; [|discriminate].
  destruct Hscan as (Hs0 & Hrun & Hmin).
  intros [= <- <-]. exists s.
  pose proof (freeRun_bound _ _ _ _ Hrun ltac:(lia)) as Hfit.
  assert (Hsp : 0 <= s * pageSize m <= 2 ^ 31) by nia.
  assert (Hphys : physMemBase = 2 ^ 34) by reflexivity.
  rewrite (wrap64_small (nAllocatedPages m + size)) in * by lia.
  rewrite (wrap64_small (s + size)) by lia.
  rewrite Hb, (wrap64_small (physMemBase + _)) by lia.
  split; [exact Hrun|]. split; [intros s' Hs'; apply Hmin; lia|].
  split; [reflexivity|]. split; [apply blockPages_at; lia|].
  split; [reflexivity|lia].
Qed.

Lemma bitmap_allocate_inv m held size addr :
  bitmap_inv m held -> 1 <= size < 2 ^ 64 ->
  bitmap_inv (snd (allocatePages m size addr))
    (if fst (fst (allocatePages m size addr))
     then held ++ [mkBlock (snd (fst (allocatePages m size addr))) size]
     else held).
Proof.
  intros Hi Hsz.
  destruct (allocatePages m size addr) as [[ok addr'] m'] eqn:Ea.
  destruct ok; simpl.
  2:{ assert (H := bitmap_allocatePages_false m size addr). rewrite Ea in H.
      specialize (H eq_refl). injection H as _ <-. exact Hi. }
  destruct (bitmap_allocate_ok m held size Hi ltac:(lia) _ _ _ Ea)
    as (s & Hrun & _ & Haddr & Hblk & -> & Hle).
  pose proof Hrun as (Hs & _ & Hfree).
  pose proof (freeRun_bound _ _ _ _ Hrun ltac:(lia)) as Hfit.
  pose proof (bi_length _ _ Hi) as Hlen.
  constructor; simpl.
  - apply (bi_pageSize _ _ Hi).
  - apply (bi_base _ _ Hi).
  - apply (bi_nPages _ _ Hi).
  - unfold setRange. rewrite length_imap. exact Hlen.
  - apply Forall_app. split; [apply (bi_blocks _ _ Hi)|].
    repeat constructor. exists s. simpl. repeat split; lia.
  - intros p Hp. pose proof (bi_bits _ _ Hi p Hp) as Hbit.
    rewrite map_app, cover_app. simpl map. rewrite Hblk, cover_cons, cover_nil.
    rewrite isAllocated_setRange by lia. rewrite Hlen, Z2Nat.id by lia.
    unfold covers, holeEnd. simpl.
    destruct (Z.leb_spec s p), (Z.ltb_spec p (s + size)),
             (Z.ltb_spec p (nPages m)); simpl; try lia.
    destruct (Hfree (p - s) ltac:(lia)) as [_ Hf].
    replace (s + (p - s)) with p in Hf by lia. rewrite Hf in Hbit. lia.
  - rewrite heldPages_app. simpl. pose proof (bi_count _ _ Hi). lia.
  - exact Hle.
  - lia.
Qed.

Lemma bitmap_release_inv m held index b :
  bitmap_inv m held -> held !! index = Some b ->
  bitmap_inv (releasePages m (blockAddr b) (blockCount b)) (delete index held).
Proof.
  intros Hi Hb.
  pose proof (bi_blocks _ _ Hi) as Hbs.
  assert (Hbb : exists s, blockAddr b = physMemBase + s * pageSize m /\
                  0 <= s /\ 1 <= blockCount b /\ s + blockCount b <= nPages m).
  { rewrite List.Forall_forall in Hbs. apply Hbs.
    eapply list_elem_of_In, list_elem_of_lookup_2, Hb. }
  destruct Hbb as (s & Haddr & Hs0 & Hc1 & Hs1).
  destruct (bi_nPages _ _ Hi) as [Hn1 Hn2].
  pose proof (bi_pageSize _ _ Hi) as Hps.
  pose proof (bi_base _ _ Hi) as Hbase.
  pose proof (bi_length _ _ Hi) as Hlen.
  pose proof (bi_count _ _ Hi) as Hcount.
  pose proof (bi_bound _ _ Hi) as Hbound.
  pose proof (bi_max _ _ Hi) as Hmax.
  assert (Hn3 : nPages m <= 2 ^ 31) by nia.
  assert (Hphys : physMemBase = 2 ^ 34) by reflexivity.
  assert (Hblk : blockPages (baseAddress m) (pageSize m) b
                 = HoleList.mkHole s (blockCount b)).
  { destruct b as [a c]. simpl in *. subst a. rewrite Hbase.
    apply blockPages_at; nia. }
  assert (Hstart : wrap64 (blockAddr b - baseAddress m) / pageSize m = s).
  { unfold blockPages in Hblk. injection Hblk as Hblk. exact Hblk. }
  assert (Hheld : heldPages held = blockCount b + heldPages (delete index held))
    by (apply heldPages_delete, Hb).
  assert (Hnn : 0 <= heldPages (delete index held)).
  { apply heldPages_nonneg. rewrite delete_take_drop. apply Forall_app. split.
    - apply Forall_take. eapply List.Forall_impl; [|exact Hbs].
      simpl. intros x (? & ? & ? & ? & ?). lia.
    - apply Forall_drop. eapply List.Forall_impl; [|exact Hbs].
      simpl. intros x (? & ? & ? & ? & ?). lia. }
  unfold releasePages. rewrite Hstart.
  rewrite (wrap64_small (s + blockCount b)) by lia.
  rewrite (wrap64_small (nAllocatedPages m - blockCount b)) by lia.
  constructor; simpl.
  - exact Hps.
  - exact Hbase.
  - split; assumption.
  - unfold setRange. rewrite length_imap. exact Hlen.
  - rewrite delete_take_drop. apply Forall_app. split.
    + apply Forall_take, Hbs.
    + apply Forall_drop, Hbs.
  - intros p Hp. pose proof (bi_bits _ _ Hi p Hp) as Hbit.
    rewrite (cover_delete _ held index b p Hb), Hblk in Hbit.
    rewrite isAllocated_setRange by lia. rewrite Hlen, Z2Nat.id by lia.
    unfold covers, holeEnd in Hbit. simpl in Hbit.
    destruct (Z.leb_spec s p), (Z.ltb_spec p (s + blockCount b)),
             (Z.ltb_spec p (nPages m)); simpl in *; try lia;
      destruct (isAllocated (allocated m) p); lia.
  - lia.
  - lia.
  - lia.
Qed.

Lemma bitmap_serve_inv m held r st' :
  bitmap_inv m held -> positive r -> serve (m, held) r = Some st' ->
  bitmap_inv (fst st') (snd st').
Proof.
  intros Hi Hr. destruct r as [size|index]; simpl.
  - pose proof (bitmap_allocate_inv m held size 0 Hi Hr) as H.
    destruct (allocatePages m size 0) as [[ok addr'] m'].
    intros [= <-]. exact H.
  - destruct (held !! index) as [b|] eqn:Hb; [|discriminate].
    intros [= <-]. simpl. apply bitmap_release_inv; assumption.
Qed.

Lemma bitmap_run_inv ps ms m0 rs m held :
  0 < ps <= ms -> create ps ms = Some m0 ->
  Forall positive rs -> serveAll (m0, []) rs = Some (m, held) ->
  bitmap_inv m held /\ pageSize m = ps /\
  nPages m = ms / ps /\ ms <= 2 ^ 31.
Proof.
  intros Hp Hc Hrs Hrun.
  pose proof (bitmap_create_inv _ _ _ Hp Hc) as Hi0.
  assert (Hall : forall rs m1 held1 m2 held2,
            bitmap_inv m1 held1 -> Forall positive rs ->
            serveAll (m1, held1) rs = Some (m2, held2) ->
            bitmap_inv m2 held2 /\
            pageSize m2 = pageSize m1 /\ nPages m2 = nPages m1).
  { clear. induction rs as [|r rest IH]; intros m1 held1 m2 held2 Hi Hrs.
    - intros [= <- <-]. auto.
    - apply Forall_cons in Hrs as [Hr Hrs]. cbn [serveAll].
      destruct (serve (m1, held1) r) as [[m' held']|] eqn:Es; [|discriminate].
      pose proof (bitmap_serve_inv _ _ _ _ Hi Hr Es) as Hi'. simpl in Hi'.
      intros Hrun. destruct (IH _ _ _ _ Hi' Hrs Hrun) as (H1 & -> & ->).
      split; [exact H1|].
      destruct r as [size|index]; simpl in Es.
      + destruct (allocatePages m1 size 0) as [[ok a] m''] eqn:Ea.
        injection Es as <- _.
        unfold allocatePages in Ea.
        destruct (nPages m1 <? _); [injection Ea as _ _ <-; auto|].
        destruct (scan _ _ _ _ _); injection Ea as _ _ <-; auto.
      + destruct (held1 !! index) as [b|]; [|discriminate].
        injection Es as <- _. auto. }
  destruct (Hall _ _ _ _ _ Hi0 Hrs Hrun) as (Hi & -> & ->).
  split; [exact Hi|].
  unfold create in Hc.
  destruct (ps =? 0); [discriminate|].
  destruct (Z.ltb_spec (2 * 1024 * 1024 * 1024) ms); [discriminate|].
  destruct (ms =? 0); [discriminate|].
  injection Hc as <-. simpl. repeat split; lia.
Qed.

End BitmapClient.

Section BitmapRuns.
Import Bitmap.
Implicit Types (held : list Block) (b : Block).

Lemma bitmap_held_apart m held i j b1 b2 :
  bitmap_inv m held -> i <> j ->
  held !! i = Some b1 -> held !! j = Some b2 ->
  blocksApart (pageSize m) b1 b2.
Proof.
  intros Hi Hij H1 H2.
  pose proof (bi_blocks _ _ Hi) as Hbs. rewrite List.Forall_forall in Hbs.
  destruct (Hbs b1) as (s1 & Ha1 & Hs1 & Hc1 & He1);
    [eapply list_elem_of_In, list_elem_of_lookup_2, H1|].
  destruct (Hbs b2) as (s2 & Ha2 & Hs2 & Hc2 & He2);
    [eapply list_elem_of_In, list_elem_of_lookup_2, H2|].
  pose proof (bi_pageSize _ _ Hi) as Hps.
  pose proof (bi_base _ _ Hi) as Hbase.
  destruct (bi_nPages _ _ Hi) as [Hn1 Hn2].
  assert (Hphys : physMemBase = 2 ^ 34) by reflexivity.
  assert (Hb1 : blockPages (baseAddress m) (pageSize m) b1
                = HoleList.mkHole s1 (blockCount b1)).
  { destruct b1 as [a c]. simpl in *. subst a. rewrite Hbase.
    apply blockPages_at; nia. }
  assert (Hb2 : blockPages (baseAddress m) (pageSize m) b2
                = HoleList.mkHole s2 (blockCount b2)).
  { destruct b2 as [a c]. simpl in *. subst a. rewrite Hbase.
    apply blockPages_at; nia. }
  unfold blocksApart. rewrite Ha1, Ha2.
  destruct (Z.le_gt_cases (s1 + blockCount b1) s2) as [|Hgt1]; [left; nia|].
  destruct (Z.le_gt_cases (s2 + blockCount b2) s1) as [|Hgt2]; [right; nia|].
  exfalso.
  set (p := Z.max s1 s2).
  pose proof (bi_bits _ _ Hi p ltac:(lia)) as Hbit.
  rewrite (cover_delete _ held i b1 p H1), Hb1 in Hbit.
  destruct (held_lookup_delete held i j b2 Hij H2) as (j' & Hj').
  rewrite (cover_delete _ (delete i held) j' b2 p Hj'), Hb2 in Hbit.
  assert (E1 : covers (HoleList.mkHole s1 (blockCount b1)) p = true)
    by (apply covers_iff; unfold holeEnd; simpl; lia).
  assert (E2 : covers (HoleList.mkHole s2 (blockCount b2)) p = true)
    by (apply covers_iff; unfold holeEnd; simpl; lia).
  rewrite E1, E2 in Hbit. destruct (isAllocated (allocated m) p); lia.
Qed.

Lemma isAllocated_lookup bits p :
  0 <= p < Z.of_nat (length bits) ->
  bits !! Z.to_nat p = Some (isAllocated bits p).
Proof.
  intros Hp. unfold isAllocated.
  destruct (bits !! Z.to_nat p) as [x|] eqn:E; [reflexivity|].
  apply lookup_ge_None in E. lia.
Qed.

Lemma setRange_lookup bits lo hi v i :
  setRange bits lo hi v !! i =
  (fun x => if (lo <=? Z.of_nat i) && (Z.of_nat i <? hi) then v else x)
    <$> bits !! i.
Proof. unfold setRange. apply list_lookup_imap. Qed.

Lemma bitmap_allocate_release m held size addr addr' m1 :
  bitmap_inv m held -> 1 <= size < 2 ^ 64 ->
  allocatePages m size addr = (true, addr', m1) ->
  allocated (releasePages m1 addr' size) = allocated m /\
  nAllocatedPages (releasePages m1 addr' size) = nAllocatedPages m.
Proof.
  intros Hi Hsz Ea.
  destruct (bitmap_allocate_ok m held size Hi ltac:(lia) _ _ _ Ea)
    as (s & Hrun & _ & Haddr & Hblk & -> & Hle).
  pose proof Hrun as (Hs & _ & Hfree).
  pose proof (freeRun_bound _ _ _ _ Hrun ltac:(lia)) as Hfit.
  pose proof (bi_length _ _ Hi) as Hlen.
  destruct (bi_nPages _ _ Hi) as [Hn1 Hn2].
  pose proof (bi_pageSize _ _ Hi) as Hps.
  assert (Hn3 : nPages m <= 2 ^ 31) by nia.
  assert (Hheld : 0 <= nAllocatedPages m).
  { rewrite (bi_count _ _ Hi). apply heldPages_nonneg.
    eapply List.Forall_impl; [|apply (bi_blocks _ _ Hi)].
    simpl. intros x (? & ? & ? & ? & ?). lia. }
  assert (Hstart : wrap64 (addr' - baseAddress m) / pageSize m = s).
  { unfold blockPages in Hblk. simpl in Hblk. injection Hblk as Hblk.
    exact Hblk. }
  unfold releasePages. simpl. rewrite Hstart.
  rewrite (wrap64_small (s + size)) by lia.
  split; [|rewrite wrap64_small; lia].
  apply list_eq. intros i.
  rewrite !setRange_lookup.
  destruct (allocated m !! i) as [x|] eqn:Ei; [|reflexivity].
  simpl. f_equal.
  destruct ((s <=? Z.of_nat i) && (Z.of_nat i <? s + size)) eqn:Er;
    [|reflexivity].
  apply andb_true_iff in Er as [E1 E2].
  apply Z.leb_le in E1. apply Z.ltb_lt in E2.
  destruct (Hfree (Z.of_nat i - s) ltac:(lia)) as [_ Hf].
  replace (s + (Z.of_nat i - s)) with (Z.of_nat i) in Hf by lia.
  unfold isAllocated in Hf. rewrite Nat2Z.id, Ei in Hf. congruence.
Qed.

End BitmapRuns.

(** The same for the bitmap allocator: the blocks its client holds are
    whole pages of the memory, and no two of them share a byte. *)
Theorem bitmap_blocks_never_overlap (pageSize memorySize : Z)
    (m0 m : Bitmap.PhysMemManager) (rs : list Request) (held : list Block) :
  0 < pageSize <= memorySize ->
  Bitmap.create pageSize memorySize = Some m0 ->
  Forall positive rs ->
  serveAll (m0, []) rs = Some (m, held) ->
  (forall i b, held !! i = Some b ->
     physMemBase <= blockAddr b /\
     (blockAddr b - physMemBase) mod pageSize = 0 /\
     blockAddr b + blockCount b * pageSize <= physMemBase + memorySize) /\
  (forall i j b1 b2, i <> j -> held !! i = Some b1 -> held !! j = Some b2 ->
     blocksApart pageSize b1 b2).
Proof.
  intros Hp Hc Hrs Hrun.
  destruct (bitmap_run_inv _ _ _ _ _ _ Hp Hc Hrs Hrun) as (Hi & Hps & Hn & Hm).
  split.
  - intros i b Hb.
    pose proof (bi_blocks _ _ Hi) as Hbs. rewrite List.Forall_forall in Hbs.
    destruct (Hbs b) as (s & Ha & Hs & Hc1 & He);
      [eapply list_elem_of_In, list_elem_of_lookup_2, Hb|].
    rewrite Hps, Hn in *.
    assert (memorySize / pageSize * pageSize <= memorySize)
      by (rewrite Z.mul_comm; apply Z.mul_div_le; lia).
    rewrite Ha. replace (physMemBase + s * pageSize - physMemBase)
      with (s * pageSize) by lia.
    rewrite Z.mod_mul by lia. repeat split; nia.
  - intros i j b1 b2 Hij H1 H2. rewrite <- Hps.
    eapply bitmap_held_apart; eassumption.
Qed.

Lemma bitmap_blocks_never_overlap_witness :
  blocksApart 4096 (mkBlock physMemBase 5)
                   (mkBlock (physMemBase + 15 * 4096) 3).
Proof.
  apply (proj2 (bitmap_blocks_never_overlap 4096 (64 * 4096) B64_boot
                  B64_manager T64_requests T64_held
                  ltac:(lia) eq_refl
                  ltac:(repeat constructor; simpl; lia)
                  ltac:(vm_compute; reflexivity)) 0%nat 2%nat);
    [lia|reflexivity|reflexivity].
Defined.

(** The bitmap is the record of what the client holds: the bit of a page
    is set exactly when the page is in a block the client holds, the
    counter is the number of pages held, and [allReleased] says whether
    the client holds nothing. *)
Theorem bitmap_mirrors_holdings (pageSize memorySize : Z)
    (m0 m : Bitmap.PhysMemManager) (rs : list Request) (held : list Block) :
  0 < pageSize <= memorySize ->
  Bitmap.create pageSize memorySize = Some m0 ->
  Forall positive rs ->
  serveAll (m0, []) rs = Some (m, held) ->
  (forall p, 0 <= p < memorySize / pageSize ->
     Bitmap.isAllocated (Bitmap.allocated m) p = true <->
     exists b, In b held /\
       blockAddr b <= physMemBase + p * pageSize
       < blockAddr b + blockCount b * pageSize) /\
  Bitmap.nAllocatedPages m = heldPages held /\
  (Bitmap.allReleased m = true <-> held = []).
Proof.
  intros Hp Hc Hrs Hrun.
  destruct (bitmap_run_inv _ _ _ _ _ _ Hp Hc Hrs Hrun) as (Hi & Hps & Hn & Hm).
  pose proof (bi_count _ _ Hi) as Hcount.
  pose proof (bi_blocks _ _ Hi) as Hbs. rewrite List.Forall_forall in Hbs.
  pose proof (bi_base _ _ Hi) as Hbase.
  destruct (bi_nPages _ _ Hi) as [Hn1 Hn2].
  assert (Hphys : physMemBase = 2 ^ 34) by reflexivity.
  assert (Hblk : forall b, In b held -> exists s,
            blockPages (Bitmap.baseAddress m) (Bitmap.pageSize m) b
            = HoleList.mkHole s (blockCount b) /\
            blockAddr b = physMemBase + s * pageSize).
  { intros b Hb. destruct (Hbs b Hb) as (s & Ha & Hs & Hc1 & He).
    exists s. split; [|rewrite <- Hps; exact Ha].
    destruct b as [a c]. simpl in *. subst a. rewrite Hbase.
    apply blockPages_at; nia. }
  split; [|split; [exact Hcount|]].
  - intros p Hp'. rewrite <- Hn in Hp'.
    pose proof (bi_bits _ _ Hi p Hp') as Hbit. split.
    + intros E. rewrite E in Hbit.
      destruct (cover_pos _ p ltac:(rewrite Hbit; lia)) as (e & Hin & He).
      apply in_map_iff in Hin as (b & <- & Hb).
      destruct (Hblk b Hb) as (s & Hs & Ha). rewrite Hs in He.
      apply covers_iff in He. unfold holeEnd in He. simpl in He.
      exists b. split; [exact Hb|]. rewrite Ha. nia.
    + intros (b & Hb & Hr).
      destruct (Hblk b Hb) as (s & Hs & Ha). rewrite Ha in Hr.
      assert (He : covers (HoleList.mkHole s (blockCount b)) p = true).
      { apply covers_iff. unfold holeEnd. simpl. nia. }
      pose proof (cover_In _ _ p
                    (in_map (blockPages (Bitmap.baseAddress m)
                                        (Bitmap.pageSize m)) _ _ Hb)) as H1.
      rewrite Hs in H1. specialize (H1 He). rewrite Hbit in H1.
      destruct (Bitmap.isAllocated (Bitmap.allocated m) p); [reflexivity|lia].
  - unfold Bitmap.allReleased. rewrite Z.eqb_eq, Hcount. split.
    + apply heldPages_nil.
      apply List.Forall_forall. intros b Hb.
      destruct (Hbs b Hb) as (? & ? & ? & ? & ?). lia.
    + intros ->. reflexivity.
Qed.

Lemma bitmap_mirrors_holdings_witness :
  Bitmap.isAllocated (Bitmap.allocated B64_manager) 17 = true /\
  Bitmap.isAllocated (Bitmap.allocated B64_manager) 18 = false /\
  Bitmap.nAllocatedPages B64_manager = heldPages T64_held.
Proof.
  pose proof (bitmap_mirrors_holdings 4096 (64 * 4096) B64_boot B64_manager
                T64_requests T64_held ltac:(lia) eq_refl
                ltac:(repeat constructor; simpl; lia)
                ltac:(vm_compute; reflexivity)) as (Hbits & Hcount & _).
  split; [|split; [reflexivity|exact Hcount]].
  apply (Hbits 17 ltac:(vm_compute; split; congruence)).
  exists (mkBlock (physMemBase + 15 * 4096) 3).
  split; [right; right; left; reflexivity|]. vm_compute. split; congruence.
Defined.

(** The bitmap allocator is first fit by address: a successful
    [allocatePages] returns the lowest page from which [size] pages are
    free, sets the bits of exactly these pages and adds [size] to the
    counter. *)
Theorem bitmap_lowest_address_first (pageSize memorySize : Z)
    (m0 m m1 : Bitmap.PhysMemManager) (rs : list Request) (held : list Block)
    (size addr addr' : Z) :
  0 < pageSize <= memorySize ->
  Bitmap.create pageSize memorySize = Some m0 ->
  Forall positive rs ->
  serveAll (m0, []) rs = Some (m, held) ->
  0 <= size < 2 ^ 64 ->
  Bitmap.allocatePages m size addr = (true, addr', m1) ->
  exists s,
    addr' = physMemBase + s * pageSize /\
    freeRun (Bitmap.allocated m) (Bitmap.nPages m) s size /\
    (forall s', 0 <= s' < s ->
       ~ freeRun (Bitmap.allocated m) (Bitmap.nPages m) s' size) /\
    (forall p, 0 <= p ->
       Bitmap.isAllocated (Bitmap.allocated m1) p =
       if (s <=? p) && (p <? s + size) then true
       else Bitmap.isAllocated (Bitmap.allocated m) p) /\
    Bitmap.nAllocatedPages m1 = Bitmap.nAllocatedPages m + size.
Proof.
  intros Hp Hc Hrs Hrun Hsz Ea.
  destruct (bitmap_run_inv _ _ _ _ _ _ Hp Hc Hrs Hrun) as (Hi & Hps & Hn & Hm).
  destruct (bitmap_allocate_ok m held size Hi Hsz _ _ _ Ea)
    as (s & Hfree & Hmin & Haddr & _ & -> & _).
  exists s. rewrite <- Hps.
  split; [exact Haddr|]. split; [exact Hfree|]. split; [exact Hmin|].
  split; [|reflexivity].
  intros p Hp0. simpl. rewrite isAllocated_setRange by exact Hp0.
  pose proof (freeRun_bound _ _ _ _ Hfree ltac:(lia)) as Hfit.
  rewrite (bi_length _ _ Hi).
  destruct (Z.leb_spec s p), (Z.ltb_spec p (s + size)); simpl; try reflexivity.
  destruct (Z.ltb_spec p (Z.of_nat (Z.to_nat (Bitmap.nPages m)))); [reflexivity|lia].
Qed.

Lemma bitmap_lowest_address_first_witness :
  exists m1 s,
    Bitmap.allocatePages B64_manager 4 0 = (true, physMemBase + 18 * 4096, m1) /\
    physMemBase + 18 * 4096 = physMemBase + s * 4096 /\
    forall s', 0 <= s' < s ->
      ~ freeRun (Bitmap.allocated B64_manager) (Bitmap.nPages B64_manager) s' 4.
Proof.
  eexists.
  destruct (bitmap_lowest_address_first 4096 (64 * 4096) B64_boot B64_manager
              _ T64_requests T64_held 4 0 (physMemBase + 18 * 4096)
              ltac:(lia) eq_refl
              ltac:(repeat constructor; simpl; lia)
              ltac:(vm_compute; reflexivity) ltac:(lia)
              ltac:(vm_compute; reflexivity))
    as (s & Haddr & _ & Hmin & _).
  exists s. split; [reflexivity|]. split; [exact Haddr|exact Hmin].
Defined.

(** With the bitmap allocator, allocating pages and releasing them at once
    gives the bitmap and the counter back as they were. *)
Theorem bitmap_allocate_release_restores (pageSize memorySize : Z)
    (m0 m m1 : Bitmap.PhysMemManager) (rs : list Request) (held : list Block)
    (size addr addr' : Z) :
  0 < pageSize <= memorySize ->
  Bitmap.create pageSize memorySize = Some m0 ->
  Forall positive rs ->
  serveAll (m0, []) rs = Some (m, held) ->
  1 <= size < 2 ^ 64 ->
  Bitmap.allocatePages m size addr = (true, addr', m1) ->
  Bitmap.allocated (Bitmap.releasePages m1 addr' size) = Bitmap.allocated m /\
  Bitmap.nAllocatedPages (Bitmap.releasePages m1 addr' size)
  = Bitmap.nAllocatedPages m.
Proof.
  intros Hp Hc Hrs Hrun Hsz Ea.
  destruct (bitmap_run_inv _ _ _ _ _ _ Hp Hc Hrs Hrun) as (Hi & _).
  eapply bitmap_allocate_release; eassumption.
Qed.

Lemma bitmap_allocate_release_restores_witness :
  exists m1,
    Bitmap.allocatePages B64_manager 4 0 = (true, physMemBase + 18 * 4096, m1) /\
    Bitmap.allocated (Bitmap.releasePages m1 (physMemBase + 18 * 4096) 4)
    = Bitmap.allocated B64_manager.
Proof.
  eexists. split; [vm_compute; reflexivity|].
  apply (bitmap_allocate_release_restores 4096 (64 * 4096) B64_boot B64_manager
           _ T64_requests T64_held 4 0 (physMemBase + 18 * 4096)).
  - lia.
  - reflexivity.
  - repeat constructor; simpl; lia.
  - vm_compute. reflexivity.
  - lia.
  - vm_compute. reflexivity.
Defined.

(** ** More on the instance-scoped TLB *)

Section TlbMore.
Import Tlb.

Lemma contents_length t :
  Z.of_nat (length (contents t)) = StdList.size (entries t).
Proof.
  unfold contents, StdList.values, StdList.size. rewrite length_map. reflexivity.
Qed.

Lemma answers_agree t1 t2 va a :
  tlb_inv t1 -> tlb_inv t2 ->
  (forall pa, cached t1 va pa a <-> cached t2 va pa a) ->
  answer t1 va a = answer t2 va a.
Proof.
  intros I1 I2 H.
  destruct (answer t1 va a) as [p1|] eqn:E1, (answer t2 va a) as [p2|] eqn:E2.
  - apply (answer_cached t1 va a p1 I1), H, (answer_cached t2 va a p1 I2) in E1.
    congruence.
  - apply (answer_cached t1 va a p1 I1), H, (answer_cached t2 va a p1 I2) in E1.
    congruence.
  - apply (answer_cached t2 va a p2 I2), H, (answer_cached t1 va a p2 I1) in E2.
    congruence.
  - reflexivity.
Qed.

Lemma flushASID_answers t a va a' :
  tlb_inv t ->
  answer (flushASID t a) va a' = if a' =? a then None else answer t va a'.
Proof.
  intros I. destruct (flushASID_inv t a I) as (I' & _ & Hc).
  destruct (Z.eqb_spec a' a) as [->|Hne].
  - destruct (answer (flushASID t a) va a) as [pa|] eqn:E; [|reflexivity].
    apply (answer_cached _ va a pa I') in E. unfold cached in E.
    rewrite Hc in E. unfold TlbSpec.flush_asid in E.
    apply filter_In in E as [_ E]. simpl in E. rewrite Z.eqb_refl in E.
    discriminate.
  - apply answers_agree; [exact I'|exact I|].
    intros pa. unfold cached. rewrite Hc. unfold TlbSpec.flush_asid.
    rewrite filter_In. simpl.
    destruct (Z.eqb_spec a' a); [contradiction|]. simpl. tauto.
Qed.

Lemma lookup_keeps t va pa0 a hit pa t' :
  tlb_inv t -> lookup t va pa0 a = Some (hit, pa, t') ->
  tlb_inv t' /\
  contents t' ≡ₚ contents t /\
  forall va' a', answer t' va' a' = answer t va' a'.
Proof.
  intros I Hl.
  destruct (lookup_refines t va pa0 a I)
    as (hit' & pa' & t'' & Hl' & I' & _ & Hs & _).
  rewrite Hl in Hl'. injection Hl' as <- <- <-.
  assert (Hperm : contents t' ≡ₚ contents t).
  { unfold TlbSpec.lookup in Hs.
    destruct (List.find _ _) as [e|] eqn:F.
    - apply find_some in F as [Hin Hva]. apply Z.eqb_eq in Hva.
      destruct (asid e =? a); injection Hs as _ ->; [|reflexivity].
      pose proof (contents_NoDup t I) as Hnd.
      clear - Hin Hva Hnd. induction (contents t) as [|x xs IH]; [destruct Hin|].
      simpl in Hnd. apply NoDup_cons in Hnd as [Hx Hnd].
      simpl. unfold TlbSpec.otherPage at 1.
      destruct Hin as [->|Hin].
      + rewrite Hva, Z.eqb_refl. simpl.
        rewrite filter_otherPage_id; [reflexivity|].
        rewrite <- Hva. intros H. apply Hx. apply list_elem_of_In. exact H.
      + destruct (Z.eqb_spec (virtualAddress x) va) as [Hxv|Hxv]; simpl.
        * exfalso. apply Hx. apply list_elem_of_In. rewrite Hxv, <- Hva.
          apply in_map. exact Hin.
        * etransitivity; [apply Permutation_swap|].
          apply Permutation_skip, IH; assumption.
    - injection Hs as _ ->. reflexivity. }
  split; [exact I'|]. split; [exact Hperm|].
  intros va' a'. apply answers_agree; [exact I'|exact I|].
  intros p. unfold cached. split; intros H.
  - apply list_elem_of_In. rewrite <- Hperm. apply list_elem_of_In. exact H.
  - apply list_elem_of_In. rewrite Hperm. apply list_elem_of_In. exact H.
Qed.

Lemma addEntry_new_page t va pa a :
  tlb_inv t -> 1 <= numEntries t ->
  ~ In va (map virtualAddress (contents t)) ->
  exists t', addEntry t va pa a = Some t' /\
    contents t' =
    mkEntry va pa a ::
      (if Z.of_nat (length (contents t)) =? numEntries t
       then removelast (contents t) else contents t).
Proof.
  intros I HN Hnew.
  destruct (addEntry_refines t va pa a I HN) as (t' & Hadd & _ & _ & Hc).
  exists t'. split; [exact Hadd|].
  rewrite Hc. unfold TlbSpec.add.
  rewrite (filter_otherPage_id _ _ Hnew). reflexivity.
Qed.

(** With no room at all nothing can be added: the list is empty and as
    long as the capacity, and [addEntry] takes [back()] of it. *)
Lemma capacity_zero_run ops : forall t,
  numEntries t = 0 -> StdList.nodes (entries t) = [] -> cache t = ∅ ->
  (exists va pa a, In (Add va pa a) ops) -> run t ops = None.
Proof.
  induction ops as [|o rest IH]; intros t HN Hn Hc (va & pa & a & Hin).
  - destruct Hin.
  - rewrite run_cons. destruct o as [va' pa' a'|va' a'| |a'].
    + unfold step, addEntry. rewrite Hc, lookup_empty. simpl.
      unfold StdList.size. rewrite Hn, HN. simpl.
      unfold StdList.back. rewrite Hn. reflexivity.
    + unfold step, lookup. rewrite Hc, lookup_empty.
      apply IH; try assumption.
      destruct Hin as [Hin|Hin]; [discriminate|eauto].
    + unfold step. apply IH; try reflexivity; try assumption.
      destruct Hin as [Hin|Hin]; [discriminate|eauto].
    + unfold step, flushASID. rewrite Hn. simpl.
      apply IH; try reflexivity; try assumption.
      destruct Hin as [Hin|Hin]; [discriminate|eauto].
Qed.

End TlbMore.

(** The TLB of tlb.h never holds more entries than its capacity, whatever
    is done with it. *)
Theorem tlb_never_exceeds_capacity (N : Z) (ops : list Tlb.Op) :
  1 <= N ->
  exists t, Tlb.run (Tlb.create N) ops = Some t /\
    Tlb.numEntries t = N /\
    Z.of_nat (length (Tlb.contents t)) <= N.
Proof.
  intros HN.
  destruct (run_cached ops (Tlb.create N) (create_inv N ltac:(lia)) HN)
    as (t & Hrun & I & HNt & _).
  exists t. split; [exact Hrun|]. split; [exact HNt|].
  rewrite contents_length. pose proof (inv_size t I) as Hsz.
  simpl in HNt. lia.
Qed.

Lemma tlb_never_exceeds_capacity_witness :
  exists t,
    Tlb.run (Tlb.create 2)
      [Tlb.Add 0x1000 0x2000 0; Tlb.Add 0x3000 0x4000 0;
       Tlb.Add 0x5000 0x6000 0] = Some t /\
    Z.of_nat (length (Tlb.contents t)) <= 2.
Proof.
  destruct (tlb_never_exceeds_capacity 2
              [Tlb.Add 0x1000 0x2000 0; Tlb.Add 0x3000 0x4000 0;
               Tlb.Add 0x5000 0x6000 0] ltac:(lia)) as (t & Hrun & _ & Hlen).
  exists t. split; [exact Hrun|exact Hlen].
Defined.

(** [flushASID(a)] takes out the translations of ASID [a] and no other:
    afterwards every lookup under [a] misses, and a lookup under another
    ASID answers what it answered before. *)
Theorem flushASID_removes_only_that_asid (N : Z) (ops : list Tlb.Op) (a : Z) :
  1 <= N ->
  exists t, Tlb.run (Tlb.create N) ops = Some t /\
    forall va a',
      Tlb.answer (Tlb.flushASID t a) va a' =
      if a' =? a then None else Tlb.answer t va a'.
Proof.
  intros HN.
  destruct (run_cached ops (Tlb.create N) (create_inv N ltac:(lia)) HN)
    as (t & Hrun & I & _ & _).
  exists t. split; [exact Hrun|].
  intros va a'. apply flushASID_answers, I.
Qed.

Lemma flushASID_removes_only_that_asid_witness :
  exists t,
    Tlb.run (Tlb.create 4) [Tlb.Add 0xA 0xAA 1; Tlb.Add 0xB 0xBB 2] = Some t /\
    Tlb.answer (Tlb.flushASID t 1) 0xA 1 = None /\
    Tlb.answer (Tlb.flushASID t 1) 0xB 2 = Some 0xBB.
Proof.
  destruct (flushASID_removes_only_that_asid 4
              [Tlb.Add 0xA 0xAA 1; Tlb.Add 0xB 0xBB 2] 1 ltac:(lia))
    as (t & Hrun & H).
  exists t. split; [exact Hrun|].
  pose proof (H 0xA 1) as H1. pose proof (H 0xB 2) as H2.
  simpl in H1, H2. split; [exact H1|].
  rewrite H2. clear H H1 H2. vm_compute in Hrun. injection Hrun as <-.
  vm_compute. reflexivity.
Defined.

(** A lookup, hit or miss, changes the order of the entries at most:
    the same translations are cached afterwards, and every lookup answers
    as it would have before. *)
Theorem lookup_only_reorders (N : Z) (ops : list Tlb.Op) (va a : Z) :
  1 <= N ->
  exists t hit pa t',
    Tlb.run (Tlb.create N) ops = Some t /\
    Tlb.lookup t va 0 a = Some (hit, pa, t') /\
    Tlb.contents t' ≡ₚ Tlb.contents t /\
    forall va' a', Tlb.answer t' va' a' = Tlb.answer t va' a'.
Proof.
  intros HN.
  destruct (run_cached ops (Tlb.create N) (create_inv N ltac:(lia)) HN)
    as (t & Hrun & I & _ & _).
  destruct (lookup_refines t va 0 a I) as (hit & pa & t' & Hl & _).
  exists t, hit, pa, t'. split; [exact Hrun|]. split; [exact Hl|].
  destruct (lookup_keeps t va 0 a hit pa t' I Hl) as (_ & Hp & Ha).
  split; assumption.
Qed.

Lemma lookup_only_reorders_witness :
  exists t t',
    Tlb.run (Tlb.create 2)
      [Tlb.Add 0x1000 0x2000 0; Tlb.Add 0x3000 0x4000 0] = Some t /\
    Tlb.lookup t 0x1000 0 0 = Some (true, 0x2000, t') /\
    Tlb.answer t' 0x3000 0 = Tlb.answer t 0x3000 0.
Proof.
  destruct (lookup_only_reorders 2
              [Tlb.Add 0x1000 0x2000 0; Tlb.Add 0x3000 0x4000 0] 0x1000 0
              ltac:(lia)) as (t & hit & pa & t' & Hrun & Hl & _ & Ha).
  exists t, t'. split; [exact Hrun|]. split; [|apply Ha].
  rewrite Hl. clear Ha. vm_compute in Hrun. injection Hrun as <-.
  vm_compute in Hl. injection Hl as <- <- _. reflexivity.
Defined.

(** LRU replacement: adding a page that is not cached puts it in front;
    when the TLB is full the entry at the back, the one added or hit least
    recently, is the one that goes, and when it is not full nothing
    goes. *)
Theorem tlb_evicts_least_recently_used (N : Z) (ops : list Tlb.Op)
    (va pa a : Z) :
  1 <= N ->
  exists t, Tlb.run (Tlb.create N) ops = Some t /\
    (~ In va (map Tlb.virtualAddress (Tlb.contents t)) ->
     exists t', Tlb.addEntry t va pa a = Some t' /\
       Tlb.contents t' =
       Tlb.mkEntry va pa a ::
         (if Z.of_nat (length (Tlb.contents t)) =? N
          then removelast (Tlb.contents t) else Tlb.contents t)).
Proof.
  intros HN.
  destruct (run_cached ops (Tlb.create N) (create_inv N ltac:(lia)) HN)
    as (t & Hrun & I & HNt & _).
  exists t. split; [exact Hrun|]. intros Hnew. simpl in HNt.
  destruct (addEntry_new_page t va pa a I ltac:(lia) Hnew) as (t' & Hadd & Hc).
  exists t'. split; [exact Hadd|]. rewrite Hc, HNt. reflexivity.
Qed.

Lemma tlb_evicts_least_recently_used_witness :
  exists t t',
    Tlb.run (Tlb.create 2)
      [Tlb.Add 0x1000 0x2000 0; Tlb.Add 0x3000 0x4000 0;
       Tlb.Lookup 0x1000 0] = Some t /\
    Tlb.addEntry t 0x5000 0x6000 0 = Some t' /\
    Tlb.contents t' = [Tlb.mkEntry 0x5000 0x6000 0; Tlb.mkEntry 0x1000 0x2000 0].
Proof.
  destruct (tlb_evicts_least_recently_used 2
              [Tlb.Add 0x1000 0x2000 0; Tlb.Add 0x3000 0x4000 0;
               Tlb.Lookup 0x1000 0] 0x5000 0x6000 0 ltac:(lia))
    as (t & Hrun & H).
  exists t. vm_compute in Hrun. injection Hrun as <-.
  destruct H as (t' & Hadd & Hc).
  { vm_compute. intros [H|[H|[]]]; discriminate. }
  exists t'. split; [reflexivity|]. split; [exact Hadd|]. exact Hc.
Defined.

(** A TLB of capacity zero cannot take an entry: the first [addEntry] of
    any sequence of operations is undefined behaviour ([back()] of the
    empty list), whatever lookups and flushes come before it. *)
Theorem tlb_capacity_zero_add_undefined (ops : list Tlb.Op) (va pa a : Z) :
  In (Tlb.Add va pa a) ops -> Tlb.run (Tlb.create 0) ops = None.
Proof.
  intros Hin. apply capacity_zero_run; try reflexivity. eauto.
Qed.

Lemma tlb_capacity_zero_add_undefined_witness :
  Tlb.run (Tlb.create 0) [Tlb.Lookup 0x1000 0; Tlb.Add 0x1000 0x2000 0] = None.
Proof.
  apply (tlb_capacity_zero_add_undefined _ 0x1000 0x2000 0).
  right. left. reflexivity.
Defined.

(** ** More on the driver *)

Section DriverMore.
Import AArch64.

Lemma allocatePageTable_Ok PID d d' :
  allocatePageTable PID d = Ok tt d' ->
  exists k p rest,
    kernel d = Some k /\ pending k = p :: rest /\
    d' = mkDriver (<[PID := p]> (pageTables d))
                  (wrap64 (bytesAllocated d + rootBytes))
                  (Some (mkKernel rest ({[p]} ∪ live k)))
                  (memset0 (mem d) p rootBytes).
Proof.
  unfold allocatePageTable, bind.
  destruct (allocateTable (L0_ENTRIES * sizeofEntry) d) as [table d1|d1|] eqn:E;
    try discriminate.
  intros [= <-].
  destruct (allocateTable_Ok _ _ _ _ E) as (k & rest & Hk & Hp & ->).
  exists k, table, rest. auto.
Qed.

Lemma zero_root_misses m root vPage pPage isWrite :
  tableAligned root ->
  m (slot root 0) = zeroEntry -> m (slot root 1) = zeroEntry ->
  performTranslation m root vPage pPage isWrite = Some (false, pPage, m).
Proof.
  intros Hal H0 H1.
  rewrite (performTranslation_walk _ _ _ _ _ (aligned_land root Hal)).
  unfold leafSlot.
  pose proof (L0_INDEX_range (wrap64 (Z.shiftl vPage pageBits))) as Hr.
  change (entriesAt 0) with 2 in Hr.
  assert (Hi : L0_INDEX (wrap64 (Z.shiftl vPage pageBits)) = 0 \/
               L0_INDEX (wrap64 (Z.shiftl vPage pageBits)) = 1) by lia.
  destruct Hi as [-> | ->]; [rewrite H0|rewrite H1]; reflexivity.
Qed.

Lemma setPageValid_true_same pPage d d' :
  setPageValid pPage true d = Ok tt d' ->
  (forall a, mem d' a = mem d a) /\ pageTables d' = pageTables d /\
  bytesAllocated d' = bytesAllocated d /\ kernel d' = kernel d.
Proof.
  unfold setPageValid.
  destruct (driverData pPage =? 0); [discriminate|].
  unfold bind, readEntry.
  destruct (valid (mem d (driverData pPage))) eqn:E; [|discriminate].
  simpl. unfold writeEntry. intros [= <-]. simpl.
  split; [|auto].
  intros a. unfold store. destruct (Z.eqb_spec a (driverData pPage)) as [->|];
    [|reflexivity].
  unfold setValid. rewrite <- E. destruct (mem d (driverData pPage)). reflexivity.
Qed.

Lemma setPageValid_false_then pPage d d1 :
  setPageValid pPage false d = Ok tt d1 ->
  d1 = mkDriver (pageTables d) (bytesAllocated d) (kernel d)
         (store (mem d) (driverData pPage)
                (setValid (mem d (driverData pPage)) false)) /\
  driverData pPage <> 0 /\
  setPageValid pPage true d1 = Throw d1.
Proof.
  unfold setPageValid.
  destruct (Z.eqb_spec (driverData pPage) 0) as [|Hne]; [discriminate|].
  unfold bind, readEntry. rewrite andb_false_r.
  unfold writeEntry. intros [= <-]. simpl.
  split; [reflexivity|]. split; [exact Hne|].
  rewrite store_same. reflexivity.
Qed.

Lemma S7_driver_reachable : reachable S7_driver.
Proof.
  assert (Hal : forall p, In p [0x10000; 0x14000; 0x18000; 0x1C000; 0x20000] ->
                          tableAligned p).
  { intros p Hp. simpl in Hp.
    repeat (destruct Hp as [<-|Hp]; [split; [lia | reflexivity]|]).
    contradiction. }
  apply (reach_call S7_boot (AllocatePageTable 1)).
  - apply reach_boot. split; simpl.
    + repeat (apply NoDup_cons; split; [intros Hin; apply list_elem_of_In in Hin;
                                         simpl in Hin; lia|]).
      constructor.
    + intros p Hp. split; [apply Hal; exact Hp | apply not_elem_of_empty].
  - exact Logic.I.
  - reflexivity.
Qed.

End DriverMore.

(** A page table that was just allocated maps nothing: [getPageTable]
    gives its root, which is not null, and the walk of every virtual page
    from that root fails and leaves the memory as it is. *)
Theorem fresh_page_table_maps_nothing (d d' : AArch64.Driver) (PID : Z) :
  reachable d ->
  AArch64.allocatePageTable PID d = AArch64.Ok tt d' ->
  exists root,
    AArch64.getPageTable PID d' = AArch64.Ok root d' /\ root <> 0 /\
    forall vPage pPage isWrite,
      AArch64.performTranslation (AArch64.mem d') root vPage pPage isWrite
      = Some (false, pPage, AArch64.mem d').
Proof.
  intros Hr Ha.
  destruct (reachable_wf d Hr) as [own W].
  destruct (allocatePageTable_Ok PID d d' Ha) as (k & p & rest & Hk & Hp & ->).
  destruct (wf_alloc own d k p rest rootBytes PID 0
              (wrap64 (AArch64.bytesAllocated d + rootBytes)) W Hk Hp
              ltac:(vm_compute; split; discriminate) ltac:(lia))
    as (Hal & _ & _).
  exists p. split; [|split].
  - unfold AArch64.getPageTable. simpl. rewrite lookup_insert_eq. reflexivity.
  - destruct Hal as [Hal _]. lia.
  - intros vPage pPage isWrite. simpl.
    apply zero_root_misses; [exact Hal| |].
    + unfold AArch64.memset0.
      rewrite (slot_inside p 0 rootBytes) by (vm_compute; discriminate).
      reflexivity.
    + unfold AArch64.memset0.
      rewrite (slot_inside p 1 rootBytes) by (vm_compute; discriminate).
      reflexivity.
Qed.

Lemma fresh_page_table_maps_nothing_witness :
  exists d',
    AArch64.allocatePageTable 2 S7_driver = AArch64.Ok tt d' /\
    AArch64.getPageTable 2 d' = AArch64.Ok 0x14000 d' /\
    AArch64.performTranslation (AArch64.mem d') 0x14000 0x12345 7 true
    = Some (false, 7, AArch64.mem d').
Proof.
  eexists. split; [reflexivity|].
  destruct (fresh_page_table_maps_nothing S7_driver _ 2 S7_driver_reachable
              eq_refl) as (root & Hg & _ & Hw).
  assert (Hroot : root = 0x14000).
  { unfold AArch64.getPageTable in Hg. simpl in Hg.
    rewrite lookup_insert_eq in Hg. injection Hg as <-. reflexivity. }
  subst root. split; [exact Hg|apply Hw].
Defined.

(** [setPageValid] can take a mapping away and cannot give it back: a call
    with [setting = true] that returns has changed nothing, a call with
    [setting = false] that returns has cleared the valid bit of the entry
    and makes the call with [true] on the same handle throw, and a handle
    without a cookie makes every call throw. *)
Theorem setPageValid_only_clears :
  (forall pPage d d',
     AArch64.setPageValid pPage true d = AArch64.Ok tt d' ->
     (forall a, AArch64.mem d' a = AArch64.mem d a) /\
     AArch64.pageTables d' = AArch64.pageTables d /\
     AArch64.bytesAllocated d' = AArch64.bytesAllocated d) /\
  (forall pPage d d1,
     AArch64.setPageValid pPage false d = AArch64.Ok tt d1 ->
     AArch64.valid (AArch64.mem d1 (AArch64.driverData pPage)) = false /\
     (forall a, a <> AArch64.driverData pPage ->
                AArch64.mem d1 a = AArch64.mem d a) /\
     AArch64.setPageValid pPage true d1 = AArch64.Throw d1) /\
  (forall pPage setting d,
     AArch64.driverData pPage = 0 ->
     AArch64.setPageValid pPage setting d = AArch64.Throw d).
Proof.
  split; [|split].
  - intros pPage d d' H.
    destruct (setPageValid_true_same pPage d d' H) as (H1 & H2 & H3 & _). auto.
  - intros pPage d d1 H.
    destruct (setPageValid_false_then pPage d d1 H) as (-> & Hne & Ht).
    simpl. split; [rewrite store_same; reflexivity|].
    split; [|exact Ht].
    intros a Ha. apply store_other, Ha.
  - intros pPage setting d H. unfold AArch64.setPageValid. rewrite H. reflexivity.
Qed.

Lemma setPageValid_only_clears_witness :
  exists d1,
    AArch64.setPageValid
      (AArch64.mkPhysPage 0 (AArch64.slot 0x1C000 0x345)) false
      (AArch64.mkDriver ∅ 0 None S2_memory) = AArch64.Ok tt d1 /\
    AArch64.setPageValid
      (AArch64.mkPhysPage 0 (AArch64.slot 0x1C000 0x345)) true d1
    = AArch64.Throw d1.
Proof.
  eexists. split; [reflexivity|].
  apply (proj1 (proj2 setPageValid_only_clears)
           (AArch64.mkPhysPage 0 (AArch64.slot 0x1C000 0x345))
           (AArch64.mkDriver ∅ 0 None S2_memory)).
  reflexivity.
Defined.

Section DriverPaths.
Import AArch64.

(** The tables on the path [setMapping] has walked are tables of four
    different levels, so that no entry on the path is the leaf. *)
Lemma path_slots_apart own d PID root i0 i1 i2 i3 T1 T2 T3 :
  driver_wf own d -> pageTables d !! PID = Some root ->
  0 <= i0 < entriesAt 0 -> 0 <= i1 < 2048 -> 0 <= i2 < 2048 -> 0 <= i3 < 2048 ->
  leadsTo (mem d) (slot root i0) T1 ->
  leadsTo (mem d) (slot T1 i1) T2 ->
  leadsTo (mem d) (slot T2 i2) T3 ->
  slot root i0 <> slot T3 i3 /\ slot T1 i1 <> slot T3 i3 /\
  slot T2 i2 <> slot T3 i3 /\ 0 < slot T3 i3.
Proof.
  intros W Hroot Hi0 Hi1 Hi2 Hi3 (V0 & Y0 & A0) (V1 & Y1 & A1) (V2 & Y2 & A2).
  pose proof (wf_roots own d W PID root Hroot) as Hr.
  destruct (wf_children own d W root PID 0 i0 Hr ltac:(lia) Hi0 V0) as [_ H1].
  rewrite A0 in H1.
  destruct (wf_children own d W T1 PID 1 i1 H1 ltac:(lia) Hi1 V1) as [_ H2].
  rewrite A1 in H2.
  destruct (wf_children own d W T2 PID 2 i2 H2 ltac:(lia) Hi2 V2) as [_ H3].
  rewrite A2 in H3.
  destruct (wf_tables own d W root PID 0 Hr) as [Ar _].
  destruct (wf_tables own d W T1 PID 1 H1) as [A1' _].
  destruct (wf_tables own d W T2 PID 2 H2) as [A2' _].
  destruct (wf_tables own d W T3 PID 3 H3) as [A3' _].
  assert (He0 : entriesAt 0 <= 2048) by (vm_compute; discriminate).
  split; [|split; [|split]].
  - apply slot_neq; try assumption; try lia. intros ->. congruence.
  - apply slot_neq; try assumption; try lia. intros ->. congruence.
  - apply slot_neq; try assumption; try lia. intros ->. congruence.
  - destruct A3' as [[Hp _] _]. unfold slot, sizeofEntry. lia.
Qed.

Lemma releasePageTable_Ok own d PID root k :
  driver_wf own d -> pageTables d !! PID = Some root -> kernel d = Some k ->
  exists k',
    releasePageTable PID d =
      Ok tt (mkDriver (delete PID (pageTables d)) (bytesAllocated d)
                      (Some k') (mem d)) /\
    (root ∉ live k') /\
    forall T P lv, own !! T = Some (P, lv) -> P <> PID -> T ∈ live k'.
Proof.
  intros W Hroot Hk.
  unfold releasePageTable. rewrite Hroot, Hk.
  eexists. split; [reflexivity|].
  pose proof (wf_roots own d W PID root Hroot) as Hr0.
  destruct (releasePageTableLevel_live own d PID W 3 root 0 k Hr0 ltac:(lia))
    as (_ & _ & P3).
  split.
  - rewrite releasePageTableLevel_eq.
    destruct (wf_tables own d W root PID 0 Hr0) as [[[Hp _] _] _].
    destruct (Z.eqb_spec root 0); [lia|].
    unfold releaseMemory. simpl. intros H.
    apply elem_of_difference in H as [_ H]. apply H, elem_of_singleton.
    reflexivity.
  - intros T P lv HT HP. apply P3.
    + destruct (wf_kernel own d W) as (k0 & Hk0 & _ & Hown).
      rewrite Hk in Hk0. injection Hk0 as <-. apply Hown. rewrite HT. eauto.
    + intros lv' Heq. rewrite HT in Heq. congruence.
Qed.

End DriverPaths.

(** What [setMapping] has mapped, [setPageValid] with the handle it gave
    and [setting = false] unmaps: the call returns, and the walk of the
    page from the root of the process then fails. *)
Theorem setMapping_then_invalidate_misses (d : AArch64.Driver)
    (PID root vAddr : Z) (pPage : AArch64.PhysPage) (k : AArch64.Kernel) :
  reachable d ->
  AArch64.pageTables d !! PID = Some root ->
  AArch64.kernel d = Some k -> (3 <= length (AArch64.pending k))%nat ->
  exists pPage' d1 d2,
    AArch64.setMapping PID vAddr pPage d = AArch64.Ok pPage' d1 /\
    AArch64.setPageValid pPage' false d1 = AArch64.Ok tt d2 /\
    forall isWrite p0,
      AArch64.performTranslation (AArch64.mem d2) root
        (Z.shiftr (maskAddress vAddr) AArch64.pageBits) p0 isWrite
      = Some (false, p0, AArch64.mem d2).
Proof.
  intros Hreach Hroot Hk Hlen.
  destruct (reachable_wf d Hreach) as [own W].
  pose proof (setMapping_spec own d k PID vAddr pPage W Hk) as S.
  destruct (AArch64.setMapping PID vAddr pPage d) as [pPage' d1|d1|];
    [|destruct S as [S|S]; [congruence | lia]|contradiction].
  destruct S as (own' & root' & T1 & T2 & T3 & Hroot' & W' & Hpt & Hal
                 & L0 & L1 & L2 & Hleaf & ->).
  rewrite Hroot in Hroot'. injection Hroot' as <-.
  set (v := maskAddress vAddr) in *.
  destruct (path_slots_apart own' d1 PID root
              (AArch64.L0_INDEX v) (AArch64.L1_INDEX v) (AArch64.L2_INDEX v)
              (AArch64.L3_INDEX v) T1 T2 T3 W'
              ltac:(rewrite Hpt; exact Hroot)
              (L0_INDEX_range v) (L1_INDEX_range v) (L2_INDEX_range v)
              (L3_INDEX_range v) L0 L1 L2) as (N0 & N1 & N2 & Hpos).
  set (leaf := AArch64.slot T3 (AArch64.L3_INDEX v)) in *.
  set (d2 := AArch64.mkDriver (AArch64.pageTables d1) (AArch64.bytesAllocated d1)
               (AArch64.kernel d1)
               (AArch64.store (AArch64.mem d1) leaf
                  (AArch64.setValid (AArch64.mem d1 leaf) false))).
  exists (AArch64.mkPhysPage (AArch64.addr pPage) leaf), d1, d2.
  split; [reflexivity|]. split.
  - unfold AArch64.setPageValid. simpl.
    destruct (Z.eqb_spec leaf 0); [lia|].
    unfold AArch64.bind, AArch64.readEntry. rewrite andb_false_r. reflexivity.
  - intros isWrite p0.
    destruct (indices_of_page
                (wrap64 (Z.shiftl (Z.shiftr v AArch64.pageBits) AArch64.pageBits))
                v (walker_address _ (masked_range vAddr)))
      as (I0 & I1 & I2 & I3).
    destruct L0 as (V0 & Y0 & A0), L1 as (V1 & Y1 & A1), L2 as (V2 & Y2 & A2).
    rewrite (performTranslation_walk _ _ _ _ _ (aligned_land root Hal)).
    assert (Hslot : AArch64.leafSlot (AArch64.mem d2) root
                      (Z.shiftr v AArch64.pageBits) = Some leaf).
    { unfold AArch64.leafSlot. rewrite I0, I1, I2, I3. subst d2. simpl.
      rewrite (store_other _ _ _ _ N0), V0, Y0, A0. simpl.
      rewrite (store_other _ _ _ _ N1), V1, Y1, A1. simpl.
      rewrite (store_other _ _ _ _ N2), V2, Y2, A2. reflexivity. }
    rewrite Hslot. subst d2. simpl. rewrite store_same. reflexivity.
Qed.

Lemma setMapping_then_invalidate_misses_witness :
  exists pPage' d1 d2,
    AArch64.setMapping 1 (0x12345 * 16384 + 5)
      (AArch64.mkPhysPage (0xABCDE * 16384) 0) S7_driver
    = AArch64.Ok pPage' d1 /\
    AArch64.setPageValid pPage' false d1 = AArch64.Ok tt d2 /\
    AArch64.performTranslation (AArch64.mem d2) 0x10000 0x12345 0 false
    = Some (false, 0, AArch64.mem d2).
Proof.
  destruct (setMapping_then_invalidate_misses S7_driver 1 0x10000
              (0x12345 * 16384 + 5)
              (AArch64.mkPhysPage (0xABCDE * 16384) 0)
              (AArch64.mkKernel [0x14000; 0x18000; 0x1C000; 0x20000]
                                ({[0x10000]} ∪ ∅))
              S7_driver_reachable ltac:(reflexivity) ltac:(reflexivity)
              ltac:(simpl; lia))
    as (pPage' & d1 & d2 & Hset & Hinv & Hwalk).
  exists pPage', d1, d2. split; [exact Hset|]. split; [exact Hinv|].
  apply (Hwalk false 0).
Defined.

(** [releasePageTable] gives the root of the process back to the kernel
    and takes the process out of the map, so that [getPageTable] answers
    null for it; it leaves the memory and the counter of bytes as they
    are, and every other process keeps its root, which stays with the
    driver. *)
Theorem releasePageTable_frees_only_its_process (d : AArch64.Driver)
    (PID root : Z) (k : AArch64.Kernel) :
  reachable d ->
  AArch64.pageTables d !! PID = Some root ->
  AArch64.kernel d = Some k ->
  exists d' k',
    AArch64.releasePageTable PID d = AArch64.Ok tt d' /\
    AArch64.kernel d' = Some k' /\
    AArch64.getPageTable PID d' = AArch64.Ok 0 d' /\
    (root ∈ AArch64.live k) /\ (root ∉ AArch64.live k') /\
    (forall PID' root', PID' <> PID ->
       AArch64.pageTables d !! PID' = Some root' ->
       AArch64.getPageTable PID' d' = AArch64.Ok root' d' /\
       root' <> 0 /\ (root' ∈ AArch64.live k')) /\
    AArch64.mem d' = AArch64.mem d /\
    AArch64.bytesAllocated d' = AArch64.bytesAllocated d.
Proof.
  intros Hreach Hroot Hk.
  destruct (reachable_wf d Hreach) as [own W].
  destruct (releasePageTable_Ok own d PID root k W Hroot Hk)
    as (k' & Hrel & Hgone & Hkeep).
  eexists. exists k'. split; [exact Hrel|]. simpl.
  split; [reflexivity|]. split.
  { unfold AArch64.getPageTable. simpl. rewrite lookup_delete_eq. reflexivity. }
  split.
  { destruct (wf_kernel own d W) as (k0 & Hk0 & _ & Hown).
    rewrite Hk in Hk0. injection Hk0 as <-. apply Hown.
    rewrite (wf_roots own d W PID root Hroot). eauto. }
  split; [exact Hgone|]. split; [|auto].
  intros PID' root' Hne H'.
  pose proof (wf_roots own d W PID' root' H') as Hr'.
  split; [|split].
  - unfold AArch64.getPageTable. simpl.
    rewrite lookup_delete_ne by congruence. rewrite H'. reflexivity.
  - destruct (wf_tables own d W root' PID' 0 Hr') as [[[Hp _] _] _]. lia.
  - apply (Hkeep root' PID' 0%nat Hr' Hne).
Qed.

Lemma releasePageTable_frees_only_its_process_witness :
  exists d' k',
    AArch64.releasePageTable 1 S7_driver = AArch64.Ok tt d' /\
    AArch64.kernel d' = Some k' /\
    AArch64.getPageTable 1 d' = AArch64.Ok 0 d' /\
    (0x10000 ∉ AArch64.live k').
Proof.
  destruct (releasePageTable_frees_only_its_process S7_driver 1 0x10000
              (AArch64.mkKernel [0x14000; 0x18000; 0x1C000; 0x20000]
                                ({[0x10000]} ∪ ∅))
              S7_driver_reachable ltac:(reflexivity) ltac:(reflexivity))
    as (d' & k' & Hrel & Hk & Hget & _ & Hgone & _).
  exists d', k'. auto.
Defined.

(** ** More on the walker *)

Section WalkerBits.
Import AArch64.

Lemma index_bits k w v v' :
  0 <= k -> 0 <= w ->
  (forall j, k <= j < k + w -> Z.testbit v j = Z.testbit v' j) ->
  Z.land (Z.shiftr v k) (Z.shiftl 1 w - 1) =
  Z.land (Z.shiftr v' k) (Z.shiftl 1 w - 1).
Proof.
  intros Hk Hw H.
  replace (Z.shiftl 1 w - 1) with (Z.ones w)
    by (rewrite Z.ones_equiv, Z.shiftl_1_l; lia).
  apply Z.bits_inj'. intros i Hi.
  rewrite !Z.land_spec, !Z.shiftr_spec by exact Hi.
  destruct (Z.lt_ge_cases i w) as [Hlt|Hge].
  - rewrite (H (i + k)) by lia. reflexivity.
  - rewrite Z.ones_spec_high by lia. rewrite !andb_false_r. reflexivity.
Qed.

Lemma walker_address_bits vPage j :
  pageBits <= j < 48 ->
  Z.testbit (wrap64 (Z.shiftl vPage pageBits)) j =
  Z.testbit (wrap64 (Z.shiftl (vPage mod 2 ^ 34) pageBits)) j.
Proof.
  unfold pageBits, wrap64. intros Hj.
  change (2 ^ 64) with (2 ^ 64).
  rewrite !Z.mod_pow2_bits_low by lia.
  rewrite !Z.shiftl_spec by lia.
  rewrite Z.mod_pow2_bits_low by lia. reflexivity.
Qed.

Lemma walker_indices vPage :
  let v := wrap64 (Z.shiftl vPage pageBits) in
  let v' := wrap64 (Z.shiftl (vPage mod 2 ^ 34) pageBits) in
  L0_INDEX v = L0_INDEX v' /\ L1_INDEX v = L1_INDEX v' /\
  L2_INDEX v = L2_INDEX v' /\ L3_INDEX v = L3_INDEX v'.
Proof.
  intros v v'. unfold L0_INDEX, L1_INDEX, L2_INDEX, L3_INDEX.
  unfold L0_BITS, L1_BITS, L2_BITS, L3_BITS.
  repeat split; apply index_bits; try (unfold pageBits; lia);
    intros j Hj; apply walker_address_bits; unfold pageBits in *; lia.
Qed.

End WalkerBits.

(** The walker looks at 34 bits of the virtual page number: the bits from
    bit 34 up are shifted out of the 48 bits the four indices are taken
    from, so page numbers that agree on the low 34 bits translate alike. *)
Theorem performTranslation_uses_34_bits (m : AArch64.Memory)
    (root vPage pPage : Z) (isWrite : bool) :
  AArch64.performTranslation m root vPage pPage isWrite =
  AArch64.performTranslation m root (vPage mod 2 ^ 34) pPage isWrite.
Proof.
  destruct (walker_indices vPage) as (I0 & I1 & I2 & I3).
  unfold AArch64.performTranslation.
  rewrite I0, I1, I2, I3. reflexivity.
Qed.

(** ** The TLB of mmu.cc in the hands of one object *)

Section MmuTlbLoops.
Import MmuTlb.

Lemma findEntry_spec vp a n : forall v i,
  (i + n <= length v)%nat ->
  match findEntry n v i vp a with
  | Some (Some (j, e)) =>
      (i <= j < i + n)%nat /\ v !! j = Some e /\ tlbMatch vp a e = true /\
      forall k e', (i <= k < j)%nat -> v !! k = Some e' ->
                   tlbMatch vp a e' = false
  | Some None =>
      forall k e', (i <= k < i + n)%nat -> v !! k = Some e' ->
                   tlbMatch vp a e' = false
  | None => False
  end.
Proof.
  induction n as [|n IH]; intros v i Hlen; simpl.
  - intros k e' Hk. lia.
  - destruct (v !! i) as [e|] eqn:Ei.
    2:{ apply lookup_ge_None in Ei. lia. }
    fold (tlbMatch vp a e). destruct (tlbMatch vp a e) eqn:Em.
    + split; [lia|]. split; [exact Ei|]. split; [exact Em|].
      intros k e' Hk. lia.
    + specialize (IH v (S i) ltac:(lia)).
      destruct (findEntry n v (S i) vp a) as [[[j e1]|]|]; [| |exact IH].
      * destruct IH as (Hj & Hl & Hm & Hbefore).
        split; [lia|]. split; [exact Hl|]. split; [exact Hm|].
        intros k e' Hk Hk'. destruct (decide (k = i)) as [->|Hne].
        -- rewrite Ei in Hk'. injection Hk' as <-. exact Em.
        -- apply (Hbefore k e'); [lia|exact Hk'].
      * intros k e' Hk Hk'. destruct (decide (k = i)) as [->|Hne].
        -- rewrite Ei in Hk'. injection Hk' as <-. exact Em.
        -- apply (IH k e'); [lia|exact Hk'].
Qed.

Lemma findEmpty_spec n : forall v i,
  (i + n <= length v)%nat ->
  match findEmpty n v i with
  | Some (Some j) =>
      (i <= j < i + n)%nat /\ exists e, v !! j = Some e /\ valid e = false
  | Some None =>
      forall k e', (i <= k < i + n)%nat -> v !! k = Some e' -> valid e' = true
  | None => False
  end.
Proof.
  induction n as [|n IH]; intros v i Hlen; simpl.
  - intros k e' Hk. lia.
  - destruct (v !! i) as [e|] eqn:Ei.
    2:{ apply lookup_ge_None in Ei. lia. }
    destruct (valid e) eqn:Ev; simpl.
    + specialize (IH v (S i) ltac:(lia)).
      destruct (findEmpty n v (S i)) as [[j|]|]; [| |exact IH].
      * destruct IH as (Hj & He). split; [lia|exact He].
      * intros k e' Hk Hk'. destruct (decide (k = i)) as [->|Hne].
        -- rewrite Ei in Hk'. injection Hk' as <-. exact Ev.
        -- apply (IH k e'); [lia|exact Hk'].
    + split; [lia|]. exists e. auto.
Qed.

Lemma invalidate_spec n : forall v i,
  (i + n <= length v)%nat ->
  exists v', invalidate n v i = Some v' /\ length v' = length v /\
    forall k, v' !! k =
      if decide (i <= k < i + n)%nat
      then (fun e => mkEntry (vPage e) (pPage e) (asid e) false) <$> v !! k
      else v !! k.
Proof.
  induction n as [|n IH]; intros v i Hlen; simpl.
  - exists v. split; [reflexivity|]. split; [reflexivity|].
    intros k. destruct (decide _); [lia|reflexivity].
  - destruct (v !! i) as [e|] eqn:Ei.
    2:{ apply lookup_ge_None in Ei. lia. }
    simpl.
    destruct (IH (<[i := mkEntry (vPage e) (pPage e) (asid e) false]> v) (S i))
      as (v' & Hv & Hl & Hk).
    { rewrite length_insert. lia. }
    exists v'. split; [exact Hv|]. split; [rewrite Hl; apply length_insert|].
    intros k. rewrite Hk.
    destruct (decide (k = i)) as [->|Hne].
    + rewrite list_lookup_insert_eq by (apply lookup_lt_Some in Ei; lia).
      destruct (decide (S i <= i < S i + n)%nat); [lia|].
      destruct (decide (i <= i < i + S n)%nat); [|lia].
      rewrite Ei. reflexivity.
    + rewrite list_lookup_insert_ne by congruence.
      destruct (decide (S i <= k < S i + n)%nat),
               (decide (i <= k < i + S n)%nat); try lia; reflexivity.
Qed.

Lemma countValid_defined n : forall v i,
  (i + n <= length v)%nat ->
  exists c, countValid n v i = Some c /\ 0 <= c <= Z.of_nat n.
Proof.
  induction n as [|n IH]; intros v i Hlen; simpl.
  - exists 0. split; [reflexivity|lia].
  - destruct (v !! i) as [e|] eqn:Ei.
    2:{ apply lookup_ge_None in Ei. lia. }
    simpl. destruct (IH v (S i) ltac:(lia)) as (c & -> & Hc). simpl.
    eexists. split; [reflexivity|]. destruct (valid e); lia.
Qed.

End MmuTlbLoops.

Section LruList.
Implicit Types (o : StdList.t nat) (m : gmap nat nat).

Lemma lru_empty fresh : lru_inv (StdList.mk [] fresh) ∅.
Proof.
  constructor; simpl.
  - constructor.
  - intros x [].
  - constructor.
  - intros it i. rewrite lookup_empty. split; [intros []|discriminate].
Qed.

Lemma lru_value_node o m i :
  lru_inv o m -> In i (StdList.values o) <-> exists it, m !! i = Some it.
Proof.
  intros L. unfold StdList.values. rewrite in_map_iff. split.
  - intros ([it j] & Hj & Hin). simpl in Hj. subst j.
    exists it. apply (li_index o m L). exact Hin.
  - intros (it & Hm). exists (it, i). split; [reflexivity|].
    apply (li_index o m L). exact Hm.
Qed.

(** [lruOrder.push_front(i); lruMap[i] = lruOrder.begin()] for a slot that
    is not in the list. *)
Lemma lru_push o m i :
  lru_inv o m -> ~ In i (StdList.values o) ->
  let o' := StdList.push_front i o in
  lru_inv o' (<[i := StdList.begin o']> m) /\
  StdList.values o' = i :: StdList.values o.
Proof.
  intros L Hi o'. split; [|reflexivity].
  assert (Hfr : ~ In (StdList.fresh o) (map fst (StdList.nodes o))).
  { intros Hin. apply in_map_iff in Hin as (x & Hx & Hin).
    pose proof (li_fresh o m L x Hin). lia. }
  constructor; simpl.
  - apply NoDup_cons. split; [|apply (li_ids o m L)].
    intros H. apply Hfr. apply list_elem_of_In. exact H.
  - intros x [<-|Hin]; simpl; [lia|].
    pose proof (li_fresh o m L x Hin). lia.
  - unfold StdList.values. simpl. apply NoDup_cons.
    split; [|apply (li_slots o m L)].
    intros H. apply Hi. apply list_elem_of_In. exact H.
  - intros it j. unfold StdList.begin. simpl.
    destruct (decide (j = i)) as [->|Hne].
    + rewrite lookup_insert_eq. split.
      * intros [[= <-]|Hin]; [reflexivity|].
        exfalso. apply Hi. unfold StdList.values.
        apply in_map_iff. exists (it, i). auto.
      * intros [= <-]. left. reflexivity.
    + rewrite lookup_insert_ne by congruence.
      rewrite <- (li_index o m L). split.
      * intros [[= _ E]|Hin]; [congruence|exact Hin].
      * intros Hin. right. exact Hin.
Qed.

(** A hit on slot [i]: its node is erased and a new one is pushed. *)
Lemma lru_hit o m i it :
  lru_inv o m -> m !! i = Some it ->
  exists o1, StdList.erase o it = Some o1 /\
    let o' := StdList.push_front i o1 in
    lru_inv o' (<[i := StdList.begin o']> m) /\
    StdList.values o' = i :: List.filter (fun j => negb (Nat.eqb j i))
                                         (StdList.values o).
Proof.
  intros L Hm.
  pose proof (proj2 (li_index o m L it i) Hm) as Hin.
  pose proof (In_deref o it i (li_ids o m L) Hin) as Hd.
  unfold StdList.erase. rewrite Hd. eexists. split; [reflexivity|].
  set (o1 := StdList.mk (StdList.unlink it (StdList.nodes o)) (StdList.fresh o)).
  assert (Hsame : forall x, In x (StdList.nodes o) ->
            negb (Nat.eqb (fst x) it) = negb (Nat.eqb (snd x) i)).
  { intros [it' j] Hx. simpl. f_equal.
    destruct (Nat.eqb_spec it' it) as [->|Hne], (Nat.eqb_spec j i) as [->|Hne'];
      try reflexivity; exfalso.
    - apply Hne'. eapply nodes_functional; [apply (li_ids o m L)|exact Hx|exact Hin].
    - apply Hne. apply (li_index o m L) in Hx. congruence. }
  assert (Hvals : StdList.values o1 =
                  List.filter (fun j => negb (Nat.eqb j i)) (StdList.values o)).
  { unfold StdList.values, o1, StdList.unlink. simpl.
    apply map_snd_filter. exact Hsame. }
  assert (Hfr : ~ In (StdList.fresh o) (map fst (StdList.nodes o1))).
  { intros H. apply in_map_iff in H as (x & Hx & Hxin).
    apply unlink_In in Hxin as [Hxin _].
    pose proof (li_fresh o m L x Hxin). lia. }
  assert (Hout : ~ In i (StdList.values o1)).
  { rewrite Hvals. rewrite filter_In. rewrite Nat.eqb_refl. simpl.
    intros [_ H]. discriminate. }
  split; [|unfold StdList.values in *; simpl; rewrite <- Hvals; reflexivity].
  constructor; simpl.
  - apply NoDup_cons. split.
    + intros H. apply Hfr. apply list_elem_of_In. exact H.
    + apply NoDup_map_filter, (li_ids o m L).
  - intros x [<-|Hx]; simpl; [lia|].
    apply unlink_In in Hx as [Hx _]. pose proof (li_fresh o m L x Hx). lia.
  - change (NoDup (i :: StdList.values o1)). apply NoDup_cons. split.
    + intros H. apply Hout. apply list_elem_of_In. exact H.
    + unfold StdList.values, o1, StdList.unlink. simpl.
      apply NoDup_map_filter, (li_slots o m L).
  - intros it' j. unfold StdList.begin. simpl.
    destruct (decide (j = i)) as [->|Hne].
    + rewrite lookup_insert_eq. split.
      * intros [[= <-]|Hx]; [reflexivity|].
        exfalso. apply Hout. unfold StdList.values.
        apply in_map_iff. exists (it', i). auto.
      * intros [= <-]. left. reflexivity.
    + rewrite lookup_insert_ne by congruence.
      rewrite <- (li_index o m L). split.
      * intros [[= _ E]|Hx]; [congruence|].
        apply unlink_In in Hx as [Hx _]. exact Hx.
      * intros Hx. right. apply unlink_In. split; [exact Hx|]. simpl.
        intros ->. apply Hne.
        eapply nodes_functional; [apply (li_ids o m L)|exact Hx|exact Hin].
Qed.

(** The eviction of [add]: the last node is popped and its slot is erased
    from the index. *)
Lemma lru_evict o m :
  lru_inv o m -> StdList.nodes o <> [] ->
  exists victim o1,
    StdList.back o = Some victim /\ StdList.pop_back o = Some o1 /\
    last (StdList.values o) = Some victim /\
    lru_inv o1 (delete victim m) /\
    StdList.values o1 = removelast (StdList.values o) /\
    ~ In victim (StdList.values o1).
Proof.
  intros L Hne.
  destruct (last (StdList.nodes o)) as [[it victim]|] eqn:El.
  2:{ destruct (StdList.nodes o); [congruence|].
      apply last_None in El. discriminate. }
  exists victim, (StdList.mk (removelast (StdList.nodes o)) (StdList.fresh o)).
  assert (Hvl : last (StdList.values o) = Some victim).
  { unfold StdList.values. apply last_Some in El as [l' ->].
    rewrite map_app. simpl. apply last_snoc. }
  assert (Hvals : StdList.values
                    (StdList.mk (removelast (StdList.nodes o)) (StdList.fresh o))
                  = removelast (StdList.values o)).
  { unfold StdList.values. simpl. apply map_removelast. }
  assert (Hout : ~ In victim (removelast (StdList.values o))).
  { apply last_removelast; [apply (li_slots o m L)|exact Hvl]. }
  split; [unfold StdList.back; rewrite El; reflexivity|].
  split; [unfold StdList.pop_back; destruct (StdList.nodes o); [congruence|reflexivity]|].
  split; [exact Hvl|]. split; [|split; [exact Hvals|rewrite Hvals; exact Hout]].
  constructor; simpl.
  - rewrite map_removelast. apply NoDup_removelast, (li_ids o m L).
  - intros x Hx. apply In_removelast in Hx. apply (li_fresh o m L x Hx).
  - rewrite Hvals. apply NoDup_removelast, (li_slots o m L).
  - intros it' j. destruct (decide (j = victim)) as [->|Hnv].
    + rewrite lookup_delete_eq. split; [|discriminate].
      intros Hx. exfalso. apply Hout. unfold StdList.values.
      rewrite <- map_removelast.
      apply in_map_iff. exists (it', victim). auto.
    + rewrite lookup_delete_ne by congruence.
      rewrite <- (li_index o m L). split.
      * apply In_removelast.
      * intros Hx. destruct (In_removelast_or_last _ _ Hx) as [H|H]; [exact H|].
        rewrite El in H. congruence.
Qed.

End LruList.

Section MmuTlbSteps.
Import MmuTlb.
Implicit Types (s : Statics) (t : TLB) (v : list TLBEntry).

Lemma initialise_inv n s :
  mmutlb_inv n s ->
  mmutlb_inv n (initialise n s) /\
  tlbInitialized (initialise n s) = true /\
  length (tlbEntries (initialise n s)) = n /\
  lruOrder (initialise n s) = lruOrder s /\
  lruMap (initialise n s) = lruMap s /\
  (tlbInitialized s = true -> initialise n s = s) /\
  (tlbInitialized s = false ->
   tlbEntries (initialise n s) = replicate n noEntry /\
   StdList.values (lruOrder s) = []).
Proof.
  intros I. pose proof (mi_length n s I) as Hl.
  unfold initialise. destruct (tlbInitialized s) eqn:Ei; simpl.
  - split; [exact I|]. split; [exact Ei|]. split; [exact Hl|].
    split; [reflexivity|]. split; [reflexivity|]. split; [reflexivity|].
    discriminate.
  - destruct (tlbEntries s) as [|e0 v0] eqn:Ev; [|discriminate].
    assert (Hnone : StdList.values (lruOrder s) = []).
    { destruct (StdList.values (lruOrder s)) as [|i rest] eqn:E; [reflexivity|].
      assert (Hin : In i (StdList.values (lruOrder s))) by (rewrite E; left; reflexivity).
      apply (mi_valid n s I) in Hin as (e & He & _).
      rewrite Ev in He. discriminate. }
    assert (Hres : resize [] n = replicate n noEntry).
    { unfold resize. simpl. rewrite take_nil, Nat.sub_0_r. reflexivity. }
    rewrite Hres. split.
    2:{ split; [reflexivity|]. split; [apply length_replicate|].
        split; [reflexivity|]. split; [reflexivity|]. split; [discriminate|].
        intros _. split; [reflexivity|exact Hnone]. }
    constructor; simpl.
    + apply length_replicate.
    + apply (mi_lru n s I).
    + intros i. rewrite Hnone. split; [intros []|].
      intros (e & He & Hv). apply lookup_replicate in He as [-> _].
      discriminate.
Qed.

Lemma lookup_one n s t vp pp :
  mmutlb_inv n s -> nEntries t = n ->
  exists hit pp' s',
    lookup s t vp pp = Some (hit, pp', s', countLookup t hit) /\
    mmutlb_inv n s' /\ tlbInitialized s' = true /\
    tlbEntries s' = tlbEntries (initialise n s) /\
    match findEntry n (tlbEntries (initialise n s)) 0 vp (currentASID t) with
    | Some (Some (i, e)) =>
        hit = true /\ pp' = pPage e /\
        StdList.values (lruOrder s') =
        i :: List.filter (fun j => negb (Nat.eqb j i))
                         (StdList.values (lruOrder s))
    | _ => hit = false /\ pp' = pp /\ lruOrder s' = lruOrder s /\
           lruMap s' = lruMap s
    end.
Proof.
  intros I Hn.
  destruct (initialise_inv n s I) as (I0 & Hi0 & Hl0 & Ho0 & Hm0 & Hyes & Hno).
  pose proof (findEntry_spec vp (currentASID t) n (tlbEntries (initialise n s)) 0
                ltac:(lia)) as Hf.
  unfold lookup. destruct (tlbInitialized s) eqn:Ei; simpl.
  - rewrite (Hyes eq_refl) in *. rewrite Hn.
    destruct (findEntry n (tlbEntries s) 0 vp (currentASID t))
      as [[[i e]|]|]; [| |contradiction]; simpl.
    + destruct Hf as (Hi & Hl & Hmatch & _).
      assert (Hv : valid e = true).
      { unfold tlbMatch in Hmatch. apply andb_true_iff in Hmatch as [Hm _].
        apply andb_true_iff in Hm as [Hm _]. exact Hm. }
      assert (Hin : In i (StdList.values (lruOrder s)))
        by (apply (mi_valid n s I); eauto).
      apply (lru_value_node _ _ _ (mi_lru n s I)) in Hin as (it & Hit).
      rewrite Hit.
      destruct (lru_hit _ _ i it (mi_lru n s I) Hit) as (o1 & -> & L' & Hvals).
      simpl. exists true, (pPage e). eexists. split; [reflexivity|].
      split; [|split; [exact Ei|split; [reflexivity|]]].
      * constructor; cbn [tlbEntries lruOrder lruMap tlbInitialized touch setOrder].
        -- rewrite (mi_length n s I), Ei. reflexivity.
        -- exact L'.
        -- intros j. rewrite Hvals. rewrite <- (mi_valid n s I j).
           cbn [In]. rewrite filter_In.
           destruct (Nat.eqb_spec j i) as [->|Hne]; simpl.
           ++ split; [intros _|intros _; left; reflexivity].
              apply (mi_valid n s I). eauto.
           ++ split; [intros [H|[H _]]; [congruence|exact H]|].
              intros H. right. auto.
      * split; [reflexivity|]. split; [reflexivity|].
        cbn [tlbEntries lruOrder lruMap tlbInitialized touch setOrder].
        exact Hvals.
    + exists false, pp, s. split; [reflexivity|].
      split; [exact I|]. split; [exact Ei|]. split; [reflexivity|]. auto.
  - destruct (Hno eq_refl) as (Hrep & Hnone).
    rewrite Hn. exists false, pp. eexists. split; [reflexivity|].
    assert (Es : initialise n s =
                 mkStatics (resize (tlbEntries s) n) (lruOrder s) (lruMap s)
                           true (static_currentASID s)).
    { unfold initialise. rewrite Ei. reflexivity. }
    rewrite <- Es. split; [exact I0|]. split; [exact Hi0|].
    split; [reflexivity|].
    destruct (findEntry n (tlbEntries (initialise n s)) 0 vp (currentASID t))
      as [[[i e]|]|]; [|auto|contradiction].
    destruct Hf as (_ & Hl & Hmatch & _). rewrite Hrep in Hl.
    apply lookup_replicate in Hl as [-> _]. discriminate.
Qed.

Lemma add_one n s t vp pp :
  mmutlb_inv n s -> nEntries t = n -> (1 <= n)%nat ->
  exists r s' t',
    add s t vp pp = Some (s', t') /\
    mmutlb_inv n s' /\ tlbInitialized s' = true /\ (r < n)%nat /\
    tlbEntries s' =
      <[r := mkEntry vp pp (currentASID t) true]> (tlbEntries (initialise n s)) /\
    match findEmpty n (tlbEntries (initialise n s)) 0 with
    | Some (Some i) =>
        r = i /\ t' = t /\
        StdList.values (lruOrder s') = r :: StdList.values (lruOrder s)
    | _ =>
        last (StdList.values (lruOrder s)) = Some r /\ t' = countEviction t /\
        StdList.values (lruOrder s') =
          r :: removelast (StdList.values (lruOrder s))
    end.
Proof.
  intros I Hn Hpos. subst n.
  destruct (initialise_inv _ s I) as (I0 & Hi0 & Hl0 & Ho0 & Hm0 & _ & _).
  pose proof (findEmpty_spec (nEntries t) (tlbEntries (initialise (nEntries t) s))
                0 ltac:(lia)) as Hf.
  unfold add. fold (initialise (nEntries t) s).
  set (s0 := initialise (nEntries t) s) in *.
  destruct (findEmpty (nEntries t) (tlbEntries s0) 0) as [[i|]|]; [| |contradiction];
    cbn [mbind option_bind].
  - destruct Hf as (Hi & e & He & Hv).
    assert (Hnot : ~ In i (StdList.values (lruOrder s0))).
    { intros Hin. apply (mi_valid _ s0 I0) in Hin as (e' & He' & Hv').
      congruence. }
    destruct (lru_push _ _ i (mi_lru _ s0 I0) Hnot) as (L' & Hvals).
    rewrite decide_True by lia.
    exists i. eexists. exists t. split; [reflexivity|].
    split; [|split; [exact Hi0|split; [lia|split; [reflexivity|]]]].
    + constructor; cbn [tlbEntries lruOrder lruMap tlbInitialized touch setEntries].
      * rewrite length_insert, Hl0, Hi0. reflexivity.
      * exact L'.
      * intros j. rewrite Hvals. cbn [In].
        destruct (Nat.eq_dec i j) as [<-|Hne].
        -- rewrite list_lookup_insert_eq by lia.
           split; [intros _; eexists; split; [reflexivity|reflexivity]|].
           intros _. left. reflexivity.
        -- rewrite list_lookup_insert_ne by exact Hne.
           rewrite <- (mi_valid _ s0 I0 j). split; [intros [H|H]|]; [congruence|exact H|].
           intros H. right. exact H.
    + split; [reflexivity|]. split; [reflexivity|].
      cbn [tlbEntries lruOrder lruMap tlbInitialized touch setEntries].
      rewrite Hvals, Ho0. reflexivity.
  - assert (H0 : In 0%nat (StdList.values (lruOrder s0))).
    { apply (mi_valid _ s0 I0).
      destruct (tlbEntries s0 !! 0%nat) as [e|] eqn:E0.
      - exists e. split; [reflexivity|]. apply (Hf 0%nat e); [lia|exact E0].
      - apply lookup_ge_None in E0. lia. }
    assert (Hne : StdList.nodes (lruOrder s0) <> []).
    { intros E. unfold StdList.values in H0. rewrite E in H0. destruct H0. }
    destruct (lru_evict _ _ (mi_lru _ s0 I0) Hne)
      as (victim & o1 & Hback & Hpop & Hlast & L1 & Hv1 & Hnot).
    rewrite Hback, Hpop. cbn [mbind option_bind].
    assert (Hvin : In victim (StdList.values (lruOrder s0))).
    { apply last_Some in Hlast as (l' & ->). apply in_or_app. right. left.
      reflexivity. }
    assert (Hvlt : (victim < nEntries t)%nat).
    { apply (mi_valid _ s0 I0) in Hvin as (e & He & _).
      apply lookup_lt_Some in He. lia. }
    cbn [tlbEntries setOrder].
    rewrite decide_True by lia.
    destruct (lru_push _ _ victim L1 Hnot) as (L' & Hvals).
    exists victim. eexists. exists (countEviction t). split; [reflexivity|].
    split; [|split; [exact Hi0|split; [exact Hvlt|split; [reflexivity|]]]].
    + constructor;
        cbn [tlbEntries lruOrder lruMap tlbInitialized touch setEntries setOrder].
      * rewrite length_insert, Hl0, Hi0. reflexivity.
      * exact L'.
      * intros j. rewrite Hvals, Hv1. cbn [In].
        destruct (Nat.eq_dec victim j) as [<-|Hnej].
        -- rewrite list_lookup_insert_eq by lia.
           split; [intros _; eexists; split; [reflexivity|reflexivity]|].
           intros _. left. reflexivity.
        -- rewrite list_lookup_insert_ne by exact Hnej.
           rewrite <- (mi_valid _ s0 I0 j).
           apply last_Some in Hlast as (l' & El). rewrite El.
           rewrite removelast_last.
           split.
           ++ intros [H|H]; [congruence|]. apply in_or_app. left. exact H.
           ++ intros H. apply in_app_or in H as [H|[H|[]]]; [right; exact H|].
              congruence.
    + rewrite <- Ho0. split; [exact Hlast|]. split; [reflexivity|].
      cbn [tlbEntries lruOrder lruMap tlbInitialized touch setEntries setOrder].
      rewrite Hvals, Hv1. reflexivity.
Qed.

Lemma countValid_spec n : forall v i,
  (i + n <= length v)%nat ->
  countValid n v i =
    Some (Z.of_nat (length (List.filter valid (take n (drop i v))))).
Proof.
  induction n as [|n IH]; intros v i Hlen; cbn [countValid].
  - reflexivity.
  - destruct (v !! i) as [e|] eqn:Ei.
    2:{ apply lookup_ge_None in Ei. lia. }
    cbn [mbind option_bind]. rewrite IH by lia. cbn [mbind option_bind].
    rewrite (drop_S v e i Ei). cbn [take List.filter].
    destruct (valid e); cbn [length]; f_equal; lia.
Qed.

Lemma flush_one n s t :
  mmutlb_inv n s -> nEntries t = n ->
  exists s',
    flush s t =
      Some (s', mkTLB (nEntries t) (nLookups t) (nHits t) (nEvictions t)
                      (nFlush t + 1)
                      (nFlushEvictions t +
                       Z.of_nat (length (List.filter valid (tlbEntries s))))
                      (currentASID t)) /\
    mmutlb_inv n s' /\ StdList.values (lruOrder s') = [] /\
    tlbInitialized s' = tlbInitialized s /\
    length (tlbEntries s') = length (tlbEntries s) /\
    forall i e, tlbEntries s' !! i = Some e -> valid e = false.
Proof.
  intros I Hn. subst n. pose proof (mi_length _ s I) as Hl.
  unfold flush. destruct (tlbInitialized s) eqn:Ei; cbn [negb].
  - rewrite (countValid_spec (nEntries t) (tlbEntries s) 0) by lia.
    cbn [mbind option_bind].
    destruct (invalidate_spec (nEntries t) (tlbEntries s) 0 ltac:(lia)) as (v' & -> & Hlv & Hk).
    cbn [mbind option_bind]. rewrite drop_0, <- Hl, firstn_all.
    eexists. split; [reflexivity|].
    assert (Hoff : forall i e, v' !! i = Some e -> valid e = false).
    { intros i e He. rewrite Hk in He.
      destruct (decide (0 <= i < 0 + nEntries t)%nat) as [_|Hout].
      - destruct (tlbEntries s !! i); [|discriminate].
        injection He as <-. reflexivity.
      - apply lookup_lt_Some in He. lia. }
    split; [|split; [reflexivity|split; [reflexivity|split; [exact Hlv|exact Hoff]]]].
    constructor; cbn [tlbEntries lruOrder lruMap tlbInitialized].
    + rewrite Hlv, Hl. reflexivity.
    + apply lru_empty.
    + intros i. split; [intros []|]. intros (e & He & Hv).
      rewrite (Hoff i e He) in Hv. discriminate.
  - destruct (tlbEntries s) as [|e0 v0] eqn:Ev; [|discriminate].
    assert (Hnone : StdList.values (lruOrder s) = []).
    { destruct (StdList.values (lruOrder s)) as [|i rest] eqn:E; [reflexivity|].
      assert (Hin : In i (StdList.values (lruOrder s))) by (rewrite E; left; reflexivity).
      apply (mi_valid _ s I) in Hin as (e & He & _).
      rewrite Ev in He. discriminate. }
    exists s. cbn [List.filter length]. rewrite Z.add_0_r.
    split; [reflexivity|]. split; [exact I|]. split; [exact Hnone|].
    split; [exact Ei|]. split; [rewrite Ev; reflexivity|].
    intros i e He. rewrite Ev in He. discriminate.
Qed.

End MmuTlbSteps.

Section MmuTlbRuns.
Import MmuTlb.
Implicit Types (s : Statics) (t : TLB) (v : list TLBEntry) (p : Program).

Lemma statics0_inv n : mmutlb_inv n statics0.
Proof.
  constructor; simpl.
  - reflexivity.
  - apply lru_empty.
  - intros i. split; [intros []|]. intros (e & He & _). discriminate.
Qed.

Lemma stepA_inv n p o :
  (1 <= n)%nat -> mmutlb_inv n (statics p) -> nEntries (tlbA p) = n ->
  exists p', stepA p o = Some p' /\
    mmutlb_inv n (statics p') /\ nEntries (tlbA p') = n /\
    currentASID (tlbA p') = currentASID (tlbA p).
Proof.
  intros Hpos I Hn. destruct o as [vp pp|vp|]; cbn [stepA].
  - destruct (add_one n _ _ vp pp I Hn Hpos)
      as (r & s' & t' & -> & I' & _ & _ & _ & Hcase).
    cbn [mbind option_bind]. eexists. split; [reflexivity|].
    cbn [statics tlbA]. split; [exact I'|].
    destruct (findEmpty n _ 0) as [[i|]|].
    + destruct Hcase as (_ & -> & _). auto.
    + destruct Hcase as (_ & -> & _). auto.
    + destruct Hcase as (_ & -> & _). auto.
  - destruct (lookup_one n _ _ vp 0 I Hn) as (hit & pp' & s' & -> & I' & _).
    cbn [mbind option_bind]. eexists. split; [reflexivity|].
    cbn [statics tlbA]. split; [exact I'|]. auto.
  - destruct (flush_one n _ _ I Hn) as (s' & -> & I' & _).
    cbn [mbind option_bind]. eexists. split; [reflexivity|].
    cbn [statics tlbA]. split; [exact I'|]. auto.
Qed.

Lemma runA_inv n ops : forall p,
  (1 <= n)%nat -> mmutlb_inv n (statics p) -> nEntries (tlbA p) = n ->
  exists p', runA p ops = Some p' /\
    mmutlb_inv n (statics p') /\ nEntries (tlbA p') = n /\
    currentASID (tlbA p') = currentASID (tlbA p).
Proof.
  induction ops as [|o ops IH]; intros p Hpos I Hn; cbn [runA].
  - exists p. auto.
  - destruct (stepA_inv n p o Hpos I Hn) as (p1 & -> & I1 & Hn1 & Ha1).
    cbn [mbind option_bind].
    destruct (IH p1 Hpos I1 Hn1) as (p' & -> & I' & Hn' & Ha').
    exists p'. split; [reflexivity|]. split; [exact I'|]. split; [exact Hn'|].
    congruence.
Qed.

Lemma oneTlb_run n ops p :
  (1 <= n)%nat -> runA (oneTlb n) ops = Some p ->
  mmutlb_inv n (statics p) /\ nEntries (tlbA p) = n /\ currentASID (tlbA p) = 0.
Proof.
  intros Hpos Hrun.
  destruct (runA_inv n ops (oneTlb n) Hpos (statics0_inv n) eq_refl)
    as (p' & Hr & I & Hn & Ha).
  rewrite Hrun in Hr. injection Hr as <-. auto.
Qed.

(** The slots in use, counted through the vector and through the list. *)
Lemma valid_slots_seq v : forall w,
  length (List.filter (fun i => match (w ++ v) !! i with
                                | Some e => valid e
                                | None => false
                                end) (seq (length w) (length v))) =
  length (List.filter valid v).
Proof.
  induction v as [|e v IH]; intros w; [reflexivity|].
  cbn [length seq List.filter].
  rewrite (list_lookup_middle w v e (length w) eq_refl).
  specialize (IH (w ++ [e])). rewrite <- app_assoc in IH. cbn [app] in IH.
  rewrite length_app in IH. cbn [length] in IH.
  replace (length w + 1)%nat with (S (length w)) in IH by lia.
  destruct (valid e); cbn [length]; rewrite IH; reflexivity.
Qed.

Lemma valid_count n s :
  mmutlb_inv n s ->
  length (StdList.values (lruOrder s)) = length (List.filter valid (tlbEntries s)).
Proof.
  intros I. rewrite <- (valid_slots_seq (tlbEntries s) []). cbn [app length].
  apply Permutation_length. apply NoDup_Permutation.
  - apply (li_slots _ _ (mi_lru n s I)).
  - apply NoDup_ListNoDup. apply List.NoDup_filter. apply List.seq_NoDup.
  - intros i. rewrite !list_elem_of_In, filter_In, in_seq.
    rewrite (mi_valid n s I i). split.
    + intros (e & He & Hv). rewrite He. split; [|exact Hv].
      apply lookup_lt_Some in He. lia.
    + intros [_ H]. destruct (tlbEntries s !! i) as [e|]; [|discriminate].
      exists e. auto.
Qed.

Lemma filter_valid_le v : (length (List.filter valid v) <= length v)%nat.
Proof.
  induction v as [|e v IH]; cbn [List.filter length]; [lia|].
  destruct (valid e); cbn [length]; lia.
Qed.

Lemma recent_length n s :
  mmutlb_inv n s -> length (recent s) = length (StdList.values (lruOrder s)).
Proof.
  intros I. unfold recent.
  assert (H : forall l, (forall i, In i l -> In i (StdList.values (lruOrder s))) ->
            length (omap (fun i => tlbEntries s !! i) l) = length l).
  { induction l as [|i l IH]; intros Hl; [reflexivity|].
    cbn [omap list_omap].
    destruct (proj1 (mi_valid n s I i) (Hl i (or_introl eq_refl))) as (e & -> & _).
    cbn [length]. rewrite IH; [reflexivity|].
    intros j Hj. apply Hl. right. exact Hj. }
  apply H. auto.
Qed.

End MmuTlbRuns.

Section MmuTlbFacts.
Import MmuTlb.
Implicit Types (s : Statics) (t : TLB) (v : list TLBEntry) (p : Program).

Lemma initialise_same n s :
  mmutlb_inv n s ->
  recent (initialise n s) = recent s /\
  List.filter valid (tlbEntries (initialise n s)) =
    List.filter valid (tlbEntries s).
Proof.
  intros I.
  destruct (initialise_inv n s I) as (_ & _ & _ & Ho0 & _ & Hyes & Hno).
  destruct (tlbInitialized s) eqn:Ei.
  - rewrite (Hyes eq_refl). auto.
  - destruct (Hno eq_refl) as (Hrep & Hnone).
    pose proof (mi_length n s I) as Hl. rewrite Ei in Hl.
    destruct (tlbEntries s) eqn:Ev; [|discriminate].
    unfold recent. rewrite Ho0, Hnone, Hrep. split; [reflexivity|].
    clear. induction n; [reflexivity|exact IHn].
Qed.

Lemma miss_no_match n s t vp pp0 pp' s1 t1 :
  mmutlb_inv n s -> nEntries t = n ->
  lookup s t vp pp0 = Some (false, pp', s1, t1) ->
  mmutlb_inv n s1 /\ tlbInitialized s1 = true /\ t1 = countLookup t false /\
  pp' = pp0 /\ recent s1 = recent s /\
  forall k e, tlbEntries s1 !! k = Some e ->
              tlbMatch vp (currentASID t) e = false.
Proof.
  intros I Hn Hl.
  destruct (lookup_one n s t vp pp0 I Hn)
    as (hit & pp1 & s' & Hl' & I' & Hi' & He' & Hcase).
  rewrite Hl in Hl'. injection Hl' as <- <- <- ->.
  destruct (initialise_inv n s I) as (_ & _ & Hl0 & Ho0 & _).
  pose proof (findEntry_spec vp (currentASID t) n (tlbEntries (initialise n s)) 0
                ltac:(lia)) as Hf.
  destruct (findEntry n (tlbEntries (initialise n s)) 0 vp (currentASID t))
    as [[[i e]|]|]; [|clear Hl|contradiction].
  - destruct Hcase as (H & _). discriminate.
  - destruct Hcase as (_ & Hpp & Ho & Hm).
    split; [exact I'|]. split; [exact Hi'|]. split; [reflexivity|].
    split; [exact Hpp|]. split.
    + transitivity (recent (initialise n s));
        [|apply (proj1 (initialise_same n s I))].
      unfold recent. rewrite He', Ho, Ho0. reflexivity.
    + intros k e Hk. rewrite He' in Hk. apply (Hf k e); [|exact Hk].
      apply lookup_lt_Some in Hk. lia.
Qed.

Lemma all_invalid_miss n s t vp pp :
  mmutlb_inv n s -> nEntries t = n ->
  (forall i e, tlbEntries s !! i = Some e -> valid e = false) ->
  exists s' t', lookup s t vp pp = Some (false, pp, s', t').
Proof.
  intros I Hn Hoff.
  destruct (lookup_one n s t vp pp I Hn)
    as (hit & pp1 & s' & Hl' & I' & Hi' & He' & Hcase).
  destruct (initialise_inv n s I) as (_ & _ & Hl0 & _ & _ & Hyes & Hno).
  pose proof (findEntry_spec vp (currentASID t) n (tlbEntries (initialise n s)) 0
                ltac:(lia)) as Hf.
  destruct (findEntry n (tlbEntries (initialise n s)) 0 vp (currentASID t))
    as [[[i e]|]|]; [| |contradiction].
  - exfalso. destruct Hf as (_ & Hi & Hmatch & _).
    assert (Hv : valid e = true).
    { unfold tlbMatch in Hmatch. apply andb_true_iff in Hmatch as [Hm _].
      apply andb_true_iff in Hm as [Hm _]. exact Hm. }
    destruct (tlbInitialized s) eqn:Ei.
    + rewrite (Hyes eq_refl) in Hi. rewrite (Hoff i e Hi) in Hv. discriminate.
    + destruct (Hno eq_refl) as (Hrep & _). rewrite Hrep in Hi.
      apply lookup_replicate in Hi as [-> _]. discriminate.
  - destruct Hcase as (-> & -> & _). eauto.
Qed.

Lemma hit_after_add n s t vp pp pp1 :
  mmutlb_inv n s -> nEntries t = n -> (1 <= n)%nat ->
  tlbInitialized s = true ->
  (forall k e, tlbEntries s !! k = Some e ->
               tlbMatch vp (currentASID t) e = false) ->
  exists s2 t2 s3 t3,
    add s t vp pp = Some (s2, t2) /\
    lookup s2 t2 vp pp1 = Some (true, pp, s3, t3).
Proof.
  intros I Hn Hpos Hinit Hnone.
  destruct (add_one n s t vp pp I Hn Hpos)
    as (r & s2 & t2 & Hadd & I2 & Hi2 & Hr & He2 & Hcase).
  destruct (initialise_inv n s I) as (_ & _ & Hl0 & _ & _ & Hyes & _).
  rewrite (Hyes Hinit) in *.
  assert (Ha2 : currentASID t2 = currentASID t).
  { destruct (findEmpty n (tlbEntries s) 0) as [[i|]|];
      destruct Hcase as (_ & -> & _); reflexivity. }
  assert (Hn2 : nEntries t2 = n).
  { destruct (findEmpty n (tlbEntries s) 0) as [[i|]|];
      destruct Hcase as (_ & -> & _); exact Hn. }
  destruct (lookup_one n s2 t2 vp pp1 I2 Hn2)
    as (hit & pp' & s3 & Hl3 & _ & _ & _ & Hc3).
  destruct (initialise_inv n s2 I2) as (_ & _ & Hl2 & _ & _ & Hyes2 & _).
  rewrite (Hyes2 Hi2) in *.
  pose proof (findEntry_spec vp (currentASID t2) n (tlbEntries s2) 0
                ltac:(lia)) as Hf.
  assert (Hnew : tlbEntries s2 !! r = Some (mkEntry vp pp (currentASID t) true)).
  { rewrite He2. apply list_lookup_insert_eq. lia. }
  assert (Hmatch : tlbMatch vp (currentASID t) (mkEntry vp pp (currentASID t) true)
                   = true).
  { unfold tlbMatch. cbn [valid vPage asid]. rewrite !Z.eqb_refl. reflexivity. }
  rewrite Ha2 in *.
  destruct (findEntry n (tlbEntries s2) 0 vp (currentASID t))
    as [[[j e]|]|]; [| |contradiction].
  - destruct Hf as (Hj & Hje & Hm & _).
    destruct (Nat.eq_dec j r) as [->|Hne].
    + rewrite Hnew in Hje. injection Hje as <-.
      destruct Hc3 as (-> & -> & _). cbn [pPage] in Hl3.
      exists s2, t2, s3, (countLookup t2 true). auto.
    + exfalso. rewrite He2, list_lookup_insert_ne in Hje by auto.
      rewrite (Hnone j e Hje) in Hm. discriminate.
  - exfalso. rewrite (Hf r _ ltac:(lia) Hnew) in Hmatch. discriminate.
Qed.

Lemma omap_insert_out (x : TLBEntry) v r l :
  ~ In r l ->
  omap (fun i => <[r := x]> v !! i) l = omap (fun i => v !! i) l.
Proof.
  induction l as [|i l IH]; intros Hr; [reflexivity|].
  cbn [omap list_omap]. fold (omap (fun i => <[r := x]> v !! i) l).
  fold (omap (fun i => v !! i) l).
  rewrite list_lookup_insert_ne by (intros ->; apply Hr; left; reflexivity).
  rewrite IH by (intros H; apply Hr; right; exact H). reflexivity.
Qed.

Lemma omap_snoc_total {A B} (f : A -> option B) l a b :
  f a = Some b -> omap f (l ++ [a]) = omap f l ++ [b].
Proof.
  intros Ha. rewrite omap_app. cbn [omap list_omap]. rewrite Ha. reflexivity.
Qed.

Lemma filter_valid_lt v i e :
  v !! i = Some e -> valid e = false ->
  (length (List.filter valid v) < length v)%nat.
Proof.
  revert i. induction v as [|x v IH]; intros i Hi Hv; [discriminate|].
  cbn [List.filter length]. destruct i as [|i]; cbn in Hi.
  - injection Hi as ->. rewrite Hv. pose proof (filter_valid_le v). lia.
  - specialize (IH i Hi Hv). destruct (valid x); cbn [length]; lia.
Qed.

Lemma filter_valid_all v :
  (forall k e, v !! k = Some e -> valid e = true) ->
  List.filter valid v = v.
Proof.
  induction v as [|x v IH]; intros H; [reflexivity|].
  cbn [List.filter]. rewrite (H 0%nat x eq_refl). f_equal.
  apply IH. intros k e Hk. apply (H (S k) e). exact Hk.
Qed.

Lemma add_recent n s t vp pp :
  mmutlb_inv n s -> nEntries t = n -> (1 <= n)%nat ->
  exists s' t',
    add s t vp pp = Some (s', t') /\ mmutlb_inv n s' /\
    if decide (length (recent s) < n)%nat
    then recent s' = mkEntry vp pp (currentASID t) true :: recent s /\ t' = t
    else recent s' =
           mkEntry vp pp (currentASID t) true :: removelast (recent s) /\
         t' = countEviction t.
Proof.
  intros I Hn Hpos.
  destruct (add_one n s t vp pp I Hn Hpos)
    as (r & s' & t' & Hadd & I' & Hi' & Hr & He' & Hcase).
  destruct (initialise_inv n s I) as (I0 & _ & Hl0 & Ho0 & _).
  destruct (initialise_same n s I) as (Hrec & Hfil).
  pose proof (findEmpty_spec n (tlbEntries (initialise n s)) 0 ltac:(lia)) as Hf.
  pose proof (recent_length n s I) as Hrl.
  pose proof (valid_count n s I) as Hvc.
  exists s', t'. split; [exact Hadd|]. split; [exact I'|].
  set (s0 := initialise n s) in *.
  assert (Hin : forall i, In i (StdList.values (lruOrder s)) ->
                exists e, tlbEntries s0 !! i = Some e).
  { intros i Hi. rewrite <- Ho0 in Hi.
    apply (mi_valid n s0 I0) in Hi as (e & He & _). eauto. }
  destruct (findEmpty n (tlbEntries s0) 0) as [[i|]|]; [| |contradiction].
  - destruct Hf as (Hi & e & Hie & Hv). destruct Hcase as (-> & -> & Hvals).
    pose proof (filter_valid_lt _ _ _ Hie Hv) as Hlt.
    rewrite decide_True by (rewrite Hrl, Hvc, <- Hfil; lia).
    split; [|reflexivity].
    unfold recent at 1. rewrite Hvals, He'. cbn [omap list_omap].
    rewrite list_lookup_insert_eq by lia. f_equal.
    fold (omap (fun i0 => <[i := mkEntry vp pp (currentASID t) true]>
                            (tlbEntries s0) !! i0) (StdList.values (lruOrder s))).
    rewrite omap_insert_out.
    + rewrite <- Hrec. unfold recent. rewrite Ho0. reflexivity.
    + intros H. rewrite <- Ho0 in H.
      apply (mi_valid n s0 I0) in H as (e' & He1 & Hv1). congruence.
  - destruct Hcase as (Hlast & -> & Hvals).
    rewrite (filter_valid_all (tlbEntries s0)) in Hfil.
    2:{ intros k e Hk. apply (Hf k e); [|exact Hk].
        apply lookup_lt_Some in Hk. lia. }
    rewrite decide_False by (rewrite Hrl, Hvc, <- Hfil; lia).
    split; [|reflexivity].
    apply last_Some in Hlast as (l' & El).
    assert (Hnot : ~ In r l').
    { pose proof (li_slots _ _ (mi_lru n s I)) as Hnd. rewrite El in Hnd.
      apply NoDup_app in Hnd as (_ & Hd & _). intros H.
      apply (Hd r); [apply list_elem_of_In; exact H|]. left. }
    destruct (Hin r) as (er & Her).
    { rewrite El. apply in_or_app. right. left. reflexivity. }
    unfold recent at 1. rewrite Hvals, He', El, removelast_last.
    cbn [omap list_omap]. rewrite list_lookup_insert_eq by lia. f_equal.
    fold (omap (fun i0 => <[r := mkEntry vp pp (currentASID t) true]>
                            (tlbEntries s0) !! i0) l').
    rewrite omap_insert_out by exact Hnot.
    rewrite <- Hrec. unfold recent. rewrite Ho0, El.
    rewrite (omap_snoc_total _ l' r er Her), removelast_last. reflexivity.
Qed.

Lemma filter_out_middle (i : nat) l1 l2 :
  ~ In i l1 -> ~ In i l2 ->
  List.filter (fun j => negb (Nat.eqb j i)) (l1 ++ i :: l2) = l1 ++ l2.
Proof.
  intros H1 H2. rewrite List.filter_app. cbn [List.filter].
  rewrite Nat.eqb_refl. cbn [negb].
  assert (H : forall l, ~ In i l ->
            List.filter (fun j => negb (Nat.eqb j i)) l = l).
  { induction l as [|x l IH]; intros Hl; [reflexivity|]. cbn [List.filter].
    destruct (Nat.eqb_spec x i) as [->|_].
    - exfalso. apply Hl. left. reflexivity.
    - cbn [negb]. f_equal. apply IH. intros Hx. apply Hl. right. exact Hx. }
  rewrite (H l1 H1), (H l2 H2). reflexivity.
Qed.

Lemma lookup_recent n s t vp pp0 pp' s' t' :
  mmutlb_inv n s -> nEntries t = n ->
  lookup s t vp pp0 = Some (true, pp', s', t') ->
  exists before e after,
    recent s = before ++ e :: after /\
    tlbMatch vp (currentASID t) e = true /\ pPage e = pp' /\
    recent s' = e :: before ++ after.
Proof.
  intros I Hn Hl.
  destruct (lookup_one n s t vp pp0 I Hn)
    as (hit & pp1 & s1 & Hl' & I' & Hi' & He' & Hcase).
  rewrite Hl in Hl'. injection Hl' as <- <- <- _.
  destruct (initialise_inv n s I) as (I0 & _ & Hl0 & Ho0 & _).
  destruct (initialise_same n s I) as (Hrec & _).
  pose proof (findEntry_spec vp (currentASID t) n (tlbEntries (initialise n s)) 0
                ltac:(lia)) as Hf.
  set (s0 := initialise n s) in *.
  destruct (findEntry n (tlbEntries s0) 0 vp (currentASID t))
    as [[[i e]|]|]; [| |contradiction].
  2:{ destruct Hcase as (H & _). discriminate. }
  destruct Hf as (Hi & Hie & Hm & _). destruct Hcase as (_ & -> & Hvals).
  assert (Hv : valid e = true).
  { unfold tlbMatch in Hm. apply andb_true_iff in Hm as [Hm _].
    apply andb_true_iff in Hm as [Hm _]. exact Hm. }
  assert (Hin : In i (StdList.values (lruOrder s))).
  { rewrite <- Ho0. apply (mi_valid n s0 I0). eauto. }
  apply in_split in Hin as (l1 & l2 & El).
  pose proof (li_slots _ _ (mi_lru n s I)) as Hnd. rewrite El in Hnd.
  apply NoDup_app in Hnd as (_ & Hd & Hnd2).
  apply NoDup_cons in Hnd2 as (Hi2 & _).
  assert (H1 : ~ In i l1).
  { intros H. apply (Hd i); [apply list_elem_of_In; exact H|]. left. }
  assert (H2 : ~ In i l2).
  { intros H. apply Hi2. apply list_elem_of_In. exact H. }
  exists (omap (fun j => tlbEntries s0 !! j) l1), e,
         (omap (fun j => tlbEntries s0 !! j) l2).
  split; [|split; [exact Hm|split; [reflexivity|]]].
  - rewrite <- Hrec. unfold recent. rewrite Ho0, El, omap_app.
    cbn [omap list_omap]. rewrite Hie. reflexivity.
  - unfold recent. rewrite Hvals, He', El, (filter_out_middle i l1 l2 H1 H2).
    cbn [omap list_omap]. rewrite Hie. f_equal. apply omap_app.
Qed.

End MmuTlbFacts.

Section MmuTlbCounters.
Import MmuTlb.
Implicit Types (s : Statics) (t : TLB) (v : list TLBEntry) (p : Program).

Lemma validEntries_recent n s :
  mmutlb_inv n s -> validEntries s = Z.of_nat (length (recent s)).
Proof.
  intros I. unfold validEntries.
  rewrite (recent_length n s I), (valid_count n s I). reflexivity.
Qed.

Lemma filter_valid_none v :
  (forall i e, v !! i = Some e -> valid e = false) -> List.filter valid v = [].
Proof.
  induction v as [|x v IH]; intros H; [reflexivity|].
  cbn [List.filter]. rewrite (H 0%nat x eq_refl).
  apply IH. intros i e Hi. apply (H (S i) e). exact Hi.
Qed.

(** What one operation does to the counters and to the number of valid
    entries. *)
Lemma stepA_counters n p o p' :
  (1 <= n)%nat -> mmutlb_inv n (statics p) -> nEntries (tlbA p) = n ->
  stepA p o = Some p' ->
  nLookups (tlbA p') = nLookups (tlbA p) + lookups [o] /\
  nFlush (tlbA p') = nFlush (tlbA p) + flushes [o] /\
  nHits (tlbA p) <= nHits (tlbA p') <= nHits (tlbA p) + lookups [o] /\
  nEvictions (tlbA p) <= nEvictions (tlbA p') /\
  nFlushEvictions (tlbA p) <= nFlushEvictions (tlbA p') /\
  validEntries (statics p') + nEvictions (tlbA p') + nFlushEvictions (tlbA p') =
  validEntries (statics p) + nEvictions (tlbA p) + nFlushEvictions (tlbA p)
  + adds [o].
Proof.
  intros Hpos I Hn Hstep.
  destruct (stepA_inv n p o Hpos I Hn) as (p1 & Hs1 & I' & _).
  rewrite Hstep in Hs1. injection Hs1 as <-.
  rewrite (validEntries_recent n _ I), (validEntries_recent n _ I').
  destruct o as [vp pp|vp|]; cbn [stepA] in Hstep;
    unfold lookups, flushes, adds; cbn [List.filter length].
  - destruct (add_recent n _ _ vp pp I Hn Hpos) as (s' & t' & Hadd & _ & Hcase).
    rewrite Hadd in Hstep. cbn [mbind option_bind] in Hstep.
    injection Hstep as <-. cbn [statics tlbA].
    destruct (decide (length (recent (statics p)) < n)%nat) as [Hlt|Hge];
      destruct Hcase as (-> & ->).
    + cbn [length]. lia.
    + cbn [length countEviction nLookups nFlush nHits nEvictions nFlushEvictions].
      rewrite removelast_firstn_len, length_take. lia.
  - destruct (lookup_one n _ _ vp 0 I Hn) as (hit & pp' & s' & Hl & _).
    pose proof Hl as Hl2.
    rewrite Hl in Hstep. cbn [mbind option_bind] in Hstep.
    injection Hstep as <-. cbn [statics tlbA].
    destruct hit.
    + destruct (lookup_recent n _ _ vp 0 pp' s' _ I Hn Hl2)
        as (before & e & after & -> & _ & _ & ->).
      cbn [countLookup nLookups nFlush nHits nEvictions nFlushEvictions].
      cbn [length]. rewrite !length_app. cbn [length]. lia.
    + destruct (miss_no_match n _ _ vp 0 pp' s' _ I Hn Hl2)
        as (_ & _ & _ & _ & -> & _).
      cbn [countLookup nLookups nFlush nHits nEvictions nFlushEvictions]. lia.
  - destruct (flush_one n _ _ I Hn) as (s' & Hf & I2 & _ & _ & _ & Hoff).
    rewrite Hf in Hstep. cbn [mbind option_bind] in Hstep.
    injection Hstep as <-. cbn [statics tlbA].
    rewrite <- (validEntries_recent n _ I2), <- (validEntries_recent n _ I).
    unfold validEntries. rewrite (filter_valid_none _ Hoff).
    cbn [nLookups nFlush nHits nEvictions nFlushEvictions length]. lia.
Qed.

Lemma counted_cons o ops :
  lookups (o :: ops) = lookups [o] + lookups ops /\
  flushes (o :: ops) = flushes [o] + flushes ops /\
  adds (o :: ops) = adds [o] + adds ops /\
  0 <= lookups [o] /\ 0 <= adds [o] /\ 0 <= flushes [o].
Proof.
  unfold lookups, flushes, adds. destruct o; cbn [List.filter length]; lia.
Qed.

Lemma runA_counters n ops : forall p p',
  (1 <= n)%nat -> mmutlb_inv n (statics p) -> nEntries (tlbA p) = n ->
  runA p ops = Some p' ->
  nLookups (tlbA p') = nLookups (tlbA p) + lookups ops /\
  nFlush (tlbA p') = nFlush (tlbA p) + flushes ops /\
  nHits (tlbA p) <= nHits (tlbA p') <= nHits (tlbA p) + lookups ops /\
  nEvictions (tlbA p) <= nEvictions (tlbA p') /\
  nFlushEvictions (tlbA p) <= nFlushEvictions (tlbA p') /\
  validEntries (statics p') + nEvictions (tlbA p') + nFlushEvictions (tlbA p') =
  validEntries (statics p) + nEvictions (tlbA p) + nFlushEvictions (tlbA p)
  + adds ops.
Proof.
  induction ops as [|o ops IH]; intros p p' Hpos I Hn Hrun; cbn [runA] in Hrun.
  - injection Hrun as <-. unfold lookups, flushes, adds.
    cbn [List.filter length]. lia.
  - destruct (stepA_inv n p o Hpos I Hn) as (p1 & Hs1 & I1 & Hn1 & _).
    rewrite Hs1 in Hrun. cbn [mbind option_bind] in Hrun.
    pose proof (stepA_counters n p o p1 Hpos I Hn Hs1) as H1.
    pose proof (IH p1 p' Hpos I1 Hn1 Hrun) as H2.
    pose proof (counted_cons o ops) as Hc. lia.
Qed.

Lemma T2_program_run : runA (oneTlb 2) T2_ops = Some T2_program.
Proof. vm_compute. reflexivity. Qed.

End MmuTlbCounters.

Section MmuTlbInt.
Import MmuTlb.
Implicit Types (s : Statics) (t : TLB) (p : Program).

Lemma counted_app ops1 ops2 :
  lookups (ops1 ++ ops2) = lookups ops1 + lookups ops2 /\
  adds (ops1 ++ ops2) = adds ops1 + adds ops2 /\
  flushes (ops1 ++ ops2) = flushes ops1 + flushes ops2 /\
  0 <= lookups ops2 /\ 0 <= adds ops2 /\ 0 <= flushes ops2.
Proof.
  unfold lookups, adds, flushes. rewrite !List.filter_app, !length_app. lia.
Qed.

(** What fits for a run fits for every run it starts with. *)
Lemma withinInt_prefix ops1 ops2 : withinInt (ops1 ++ ops2) -> withinInt ops1.
Proof.
  unfold withinInt. pose proof (counted_app ops1 ops2). lia.
Qed.

Lemma validEntries_nonneg s : 0 <= validEntries s.
Proof. unfold validEntries. lia. Qed.

(** A run within [withinInt] leaves every counter within an [int]. *)
Lemma counters_fit n ops p :
  (1 <= n)%nat -> withinInt ops -> runA (oneTlb n) ops = Some p ->
  countersFit (tlbA p).
Proof.
  intros Hpos (Hl & Ha & Hf) Hrun.
  pose proof (runA_counters n ops (oneTlb n) p Hpos (statics0_inv n) eq_refl Hrun)
    as (Hl' & Hf' & Hh & He & Hfe & Hsum).
  cbn [oneTlb tlbA statics create nLookups nFlush nHits nEvictions
       nFlushEvictions] in Hl', Hf', Hh, He, Hfe, Hsum.
  change (validEntries statics0) with 0 in Hsum.
  pose proof (validEntries_nonneg (statics p)).
  pose proof (counted_app [] ops) as (_ & _ & _ & ? & ? & ?).
  unfold countersFit. lia.
Qed.

Lemma runA_snoc ops : forall p o,
  runA p (ops ++ [o]) = match runA p ops with
                        | Some p' => stepA p' o
                        | None => None
                        end.
Proof.
  induction ops as [|o' ops IH]; intros p o; cbn [app runA].
  - destruct (stepA p o); reflexivity.
  - destruct (stepA p o') as [p1|]; cbn [mbind option_bind]; [apply IH|reflexivity].
Qed.

End MmuTlbInt.

(** ** The TLB of mmu.cc used through one object *)

(** A program that uses one TLB object with a capacity of at least one
    entry never reads or writes outside the vector of entries: every
    sequence of adds, lookups and flushes is defined, the vector has no slot
    or as many as the capacity, and no more entries are valid than the
    capacity. *)
Theorem mmu_tlb_one_object_stays_in_bounds (n : nat) (ops : list MmuTlb.Op) :
  (1 <= n)%nat ->
  exists p, MmuTlb.runA (oneTlb n) ops = Some p /\
    (MmuTlb.tlbEntries (MmuTlb.statics p) = [] \/
     length (MmuTlb.tlbEntries (MmuTlb.statics p)) = n) /\
    0 <= validEntries (MmuTlb.statics p) <= Z.of_nat n.
Proof.
  intros Hpos.
  destruct (runA_inv n ops (oneTlb n) Hpos (statics0_inv n) eq_refl)
    as (p & Hrun & I & _).
  exists p. split; [exact Hrun|].
  pose proof (mi_length n _ I) as Hl.
  pose proof (filter_valid_le (MmuTlb.tlbEntries (MmuTlb.statics p))) as Hle.
  unfold validEntries.
  destruct (MmuTlb.tlbInitialized (MmuTlb.statics p)).
  - split; [right; exact Hl|lia].
  - split; [left; destruct (MmuTlb.tlbEntries (MmuTlb.statics p));
                 [reflexivity|discriminate]|lia].
Qed.

Lemma mmu_tlb_one_object_stays_in_bounds_witness :
  exists p, MmuTlb.runA (oneTlb 2)
              [MmuTlb.Add 1 10; MmuTlb.Add 2 20; MmuTlb.Add 3 30;
               MmuTlb.Lookup 1] = Some p /\
    (MmuTlb.tlbEntries (MmuTlb.statics p) = [] \/
     length (MmuTlb.tlbEntries (MmuTlb.statics p)) = 2%nat) /\
    0 <= validEntries (MmuTlb.statics p) <= Z.of_nat 2.
Proof.
  apply (mmu_tlb_one_object_stays_in_bounds 2). lia.
Defined.

(** After a lookup of a page missed, adding the page makes the next lookup
    of it hit and give the physical page that was added: this is the order
    [MMU::getTranslation] calls them in. *)
Theorem mmu_tlb_add_after_miss_hits (n : nat) (ops : list MmuTlb.Op)
    (p : MmuTlb.Program) (vp pp pp0 pp1 pp' : Z)
    (s1 : MmuTlb.Statics) (t1 : MmuTlb.TLB) :
  (1 <= n)%nat ->
  MmuTlb.runA (oneTlb n) ops = Some p ->
  MmuTlb.lookup (MmuTlb.statics p) (MmuTlb.tlbA p) vp pp0
    = Some (false, pp', s1, t1) ->
  exists s2 t2 s3 t3,
    MmuTlb.add s1 t1 vp pp = Some (s2, t2) /\
    MmuTlb.lookup s2 t2 vp pp1 = Some (true, pp, s3, t3).
Proof.
  intros Hpos Hrun Hmiss.
  destruct (oneTlb_run n ops p Hpos Hrun) as (I & Hn & _).
  destruct (miss_no_match n _ _ vp pp0 pp' s1 t1 I Hn Hmiss)
    as (I1 & Hi1 & -> & _ & _ & Hnone).
  apply (hit_after_add n s1 (MmuTlb.countLookup (MmuTlb.tlbA p) false)
           vp pp pp1 I1 Hn Hpos Hi1 Hnone).
Qed.

Lemma mmu_tlb_add_after_miss_hits_witness :
  exists s2 t2 s3 t3,
    MmuTlb.add (MmuTlb.statics T2_program)
               (MmuTlb.countLookup (MmuTlb.tlbA T2_program) false) 3 30
      = Some (s2, t2) /\
    MmuTlb.lookup s2 t2 3 0 = Some (true, 30, s3, t3).
Proof.
  apply (mmu_tlb_add_after_miss_hits 2 T2_ops T2_program 3 30 0 0 0).
  - lia.
  - vm_compute. reflexivity.
  - vm_compute. reflexivity.
Defined.

(** A flush leaves no translation behind: every lookup after it misses
    and leaves the caller's physical page as it was.  In a run that keeps
    the counters within an [int], the flush is counted, the number of
    entries that were valid is added to the flush evictions, and the
    counters still fit. *)
Theorem mmu_tlb_flush_empties (n : nat) (ops : list MmuTlb.Op)
    (p : MmuTlb.Program) :
  (1 <= n)%nat ->
  withinInt (ops ++ [MmuTlb.Flush]) ->
  MmuTlb.runA (oneTlb n) ops = Some p ->
  exists s' t',
    MmuTlb.flush (MmuTlb.statics p) (MmuTlb.tlbA p) = Some (s', t') /\
    MmuTlb.nFlush t' = MmuTlb.nFlush (MmuTlb.tlbA p) + 1 /\
    MmuTlb.nFlushEvictions t' =
      MmuTlb.nFlushEvictions (MmuTlb.tlbA p) + validEntries (MmuTlb.statics p) /\
    countersFit t' /\
    validEntries s' = 0 /\
    forall vp pp, exists s2 t2,
      MmuTlb.lookup s' t' vp pp = Some (false, pp, s2, t2).
Proof.
  intros Hpos Hint Hrun.
  destruct (oneTlb_run n ops p Hpos Hrun) as (I & Hn & _).
  destruct (flush_one n _ _ I Hn) as (s' & Hf & I' & _ & _ & _ & Hoff).
  eexists s', _. split; [exact Hf|]. cbn [MmuTlb.nFlush MmuTlb.nFlushEvictions].
  split; [reflexivity|]. split; [reflexivity|]. split; [|split].
  - apply (counters_fit n (ops ++ [MmuTlb.Flush])
             (MmuTlb.mkProgram s' _ (MmuTlb.tlbB p)) Hpos Hint).
    rewrite runA_snoc, Hrun. cbn [MmuTlb.stepA]. rewrite Hf. reflexivity.
  - unfold validEntries. rewrite (filter_valid_none _ Hoff). reflexivity.
  - intros vp pp. apply (all_invalid_miss n s' _ vp pp I'); [exact Hn|exact Hoff].
Qed.

Lemma mmu_tlb_flush_empties_witness :
  exists s' t',
    MmuTlb.flush (MmuTlb.statics T2_program) (MmuTlb.tlbA T2_program)
      = Some (s', t') /\
    MmuTlb.nFlush t' = MmuTlb.nFlush (MmuTlb.tlbA T2_program) + 1 /\
    MmuTlb.nFlushEvictions t' =
      MmuTlb.nFlushEvictions (MmuTlb.tlbA T2_program)
      + validEntries (MmuTlb.statics T2_program) /\
    countersFit t' /\
    validEntries s' = 0 /\
    forall vp pp, exists s2 t2,
      MmuTlb.lookup s' t' vp pp = Some (false, pp, s2, t2).
Proof.
  apply (mmu_tlb_flush_empties 2 T2_ops T2_program).
  - lia.
  - unfold withinInt, lookups, adds, flushes, INT_MAX, T2_ops. simpl. lia.
  - vm_compute. reflexivity.
Defined.

(** An add into a TLB that has a free slot puts the new translation in
    front of the others and evicts nothing; an add into a full TLB drops
    the translation that was added or hit longest ago, puts the new one in
    front and counts one eviction.  The run, the add included, keeps the
    counters within an [int]. *)
Theorem mmu_tlb_add_evicts_least_recent (n : nat) (ops : list MmuTlb.Op)
    (p : MmuTlb.Program) (vp pp : Z) :
  (1 <= n)%nat ->
  withinInt (ops ++ [MmuTlb.Add vp pp]) ->
  MmuTlb.runA (oneTlb n) ops = Some p ->
  exists s' t',
    MmuTlb.add (MmuTlb.statics p) (MmuTlb.tlbA p) vp pp = Some (s', t') /\
    countersFit t' /\
    if decide (length (recent (MmuTlb.statics p)) < n)%nat
    then recent s' = MmuTlb.mkEntry vp pp 0 true :: recent (MmuTlb.statics p) /\
         MmuTlb.nEvictions t' = MmuTlb.nEvictions (MmuTlb.tlbA p)
    else recent s' = MmuTlb.mkEntry vp pp 0 true
                       :: removelast (recent (MmuTlb.statics p)) /\
         MmuTlb.nEvictions t' = MmuTlb.nEvictions (MmuTlb.tlbA p) + 1.
Proof.
  intros Hpos Hint Hrun.
  destruct (oneTlb_run n ops p Hpos Hrun) as (I & Hn & Ha).
  destruct (add_recent n _ _ vp pp I Hn Hpos) as (s' & t' & Hadd & _ & Hcase).
  exists s', t'. split; [exact Hadd|]. split.
  - apply (counters_fit n (ops ++ [MmuTlb.Add vp pp])
             (MmuTlb.mkProgram s' t' (MmuTlb.tlbB p)) Hpos Hint).
    rewrite runA_snoc, Hrun. cbn [MmuTlb.stepA]. rewrite Hadd. reflexivity.
  - rewrite Ha in Hcase.
    destruct (decide (length (recent (MmuTlb.statics p)) < n)%nat);
      destruct Hcase as (-> & ->); split; reflexivity.
Qed.

Lemma mmu_tlb_add_evicts_least_recent_witness :
  exists s' t',
    MmuTlb.add (MmuTlb.statics T2_program) (MmuTlb.tlbA T2_program) 3 30
      = Some (s', t') /\
    countersFit t' /\
    recent s' = [MmuTlb.mkEntry 3 30 0 true; MmuTlb.mkEntry 2 20 0 true] /\
    MmuTlb.nEvictions t' = 1.
Proof.
  destruct (mmu_tlb_add_evicts_least_recent 2 T2_ops T2_program 3 30)
    as (s' & t' & Hadd & Hfit & Hcase).
  - lia.
  - unfold withinInt, lookups, adds, flushes, INT_MAX, T2_ops. simpl. lia.
  - vm_compute. reflexivity.
  - exists s', t'. split; [exact Hadd|]. split; [exact Hfit|]. exact Hcase.
Defined.

(** A lookup that hits returns the physical page of an entry for the page
    and moves that entry in front of the others, which keep their order;
    nothing is added or dropped. *)
Theorem mmu_tlb_hit_moves_to_front (n : nat) (ops : list MmuTlb.Op)
    (p : MmuTlb.Program) (vp pp0 pp' : Z)
    (s' : MmuTlb.Statics) (t' : MmuTlb.TLB) :
  (1 <= n)%nat ->
  MmuTlb.runA (oneTlb n) ops = Some p ->
  MmuTlb.lookup (MmuTlb.statics p) (MmuTlb.tlbA p) vp pp0
    = Some (true, pp', s', t') ->
  exists before e after,
    recent (MmuTlb.statics p) = before ++ e :: after /\
    MmuTlb.valid e = true /\ MmuTlb.vPage e = vp /\ MmuTlb.pPage e = pp' /\
    recent s' = e :: before ++ after.
Proof.
  intros Hpos Hrun Hhit.
  destruct (oneTlb_run n ops p Hpos Hrun) as (I & Hn & _).
  destruct (lookup_recent n _ _ vp pp0 pp' s' t' I Hn Hhit)
    as (before & e & after & Hrec & Hm & Hpp & Hrec').
  exists before, e, after. split; [exact Hrec|].
  unfold tlbMatch in Hm. apply andb_true_iff in Hm as [Hm _].
  apply andb_true_iff in Hm as [Hv Hvp]. apply Z.eqb_eq in Hvp.
  auto.
Qed.

Lemma mmu_tlb_hit_moves_to_front_witness :
  exists before e after,
    recent (MmuTlb.statics T2_program) = before ++ e :: after /\
    MmuTlb.valid e = true /\ MmuTlb.vPage e = 1 /\ MmuTlb.pPage e = 10 /\
    recent (MmuTlb.mkStatics
              [MmuTlb.mkEntry 1 10 0 true; MmuTlb.mkEntry 2 20 0 true]
              (StdList.mk [(2, 0); (1, 1)]%nat 3%nat)
              (<[0%nat := 2%nat]> (<[1%nat := 1%nat]> ∅)) true 0)
      = e :: before ++ after.
Proof.
  apply (mmu_tlb_hit_moves_to_front 2 T2_ops T2_program 1 0 10 _
           (MmuTlb.countLookup (MmuTlb.tlbA T2_program) true)).
  - lia.
  - vm_compute. reflexivity.
  - vm_compute. reflexivity.
Defined.

(** The statistics of a TLB object account for what it was asked to do,
    in a run that keeps the counters within an [int]: the lookups and the
    flushes are counted one by one, the hits are among the lookups, every
    add is either still a valid entry or was counted as an eviction or a
    flush eviction, and no counter has passed [INT_MAX]. *)
Theorem mmu_tlb_statistics_account (n : nat) (ops : list MmuTlb.Op)
    (p : MmuTlb.Program) :
  (1 <= n)%nat ->
  withinInt ops ->
  MmuTlb.runA (oneTlb n) ops = Some p ->
  exists hits evictions flushEvictions,
    MmuTlb.getStatistics (MmuTlb.tlbA p)
      = (lookups ops, hits, evictions, flushes ops, flushEvictions) /\
    0 <= hits <= lookups ops /\ 0 <= evictions /\ 0 <= flushEvictions /\
    validEntries (MmuTlb.statics p) + evictions + flushEvictions = adds ops /\
    countersFit (MmuTlb.tlbA p).
Proof.
  intros Hpos Hint Hrun.
  pose proof (counters_fit n ops p Hpos Hint Hrun) as Hfit.
  pose proof (runA_counters n ops (oneTlb n) p Hpos (statics0_inv n) eq_refl Hrun)
    as (Hl & Hf & Hh & He & Hfe & Hsum).
  cbn [oneTlb MmuTlb.tlbA MmuTlb.statics MmuTlb.create MmuTlb.nLookups
       MmuTlb.nFlush MmuTlb.nHits MmuTlb.nEvictions MmuTlb.nFlushEvictions]
    in Hl, Hf, Hh, He, Hfe, Hsum.
  change (validEntries MmuTlb.statics0) with 0 in Hsum.
  exists (MmuTlb.nHits (MmuTlb.tlbA p)), (MmuTlb.nEvictions (MmuTlb.tlbA p)),
         (MmuTlb.nFlushEvictions (MmuTlb.tlbA p)).
  unfold MmuTlb.getStatistics. rewrite Hl, Hf.
  split; [reflexivity|].
  split; [lia|]. split; [lia|]. split; [lia|]. split; [lia|exact Hfit].
Qed.

Lemma mmu_tlb_statistics_account_witness :
  exists hits evictions flushEvictions,
    MmuTlb.getStatistics (MmuTlb.tlbA T2_program)
      = (lookups T2_ops, hits, evictions, flushes T2_ops, flushEvictions) /\
    0 <= hits <= lookups T2_ops /\ 0 <= evictions /\ 0 <= flushEvictions /\
    validEntries (MmuTlb.statics T2_program) + evictions + flushEvictions
      = adds T2_ops /\
    countersFit (MmuTlb.tlbA T2_program).
Proof.
  apply (mmu_tlb_statistics_account 2 T2_ops T2_program).
  - lia.
  - unfold withinInt, lookups, adds, flushes, INT_MAX, T2_ops. simpl. lia.
  - vm_compute. reflexivity.
Defined.

Section MmuFacts.
Import MmuTlb.
Implicit Types (s : Statics) (t : TLB) (p : Program).

Lemma hit_again n s t vp pp0 pp1 pp' s' t' :
  mmutlb_inv n s -> nEntries t = n ->
  lookup s t vp pp0 = Some (true, pp', s', t') ->
  exists s2 t2, lookup s' t' vp pp1 = Some (true, pp', s2, t2).
Proof.
  intros I Hn Hl.
  destruct (lookup_one n s t vp pp0 I Hn)
    as (hit & pp2 & s1 & Hl' & I' & Hi' & He' & Hcase).
  rewrite Hl in Hl'. injection Hl' as <- <- <- ->.
  destruct (lookup_one n s' (countLookup t true) vp pp1 I' Hn)
    as (hit2 & pp3 & s2 & Hl2 & _ & _ & _ & Hcase2).
  destruct (initialise_inv n s' I') as (_ & _ & _ & _ & _ & Hyes & _).
  rewrite (Hyes Hi'), He' in Hcase2. cbn [countLookup currentASID] in Hcase2.
  destruct (findEntry n (tlbEntries (initialise n s)) 0 vp (currentASID t))
    as [[[i e]|]|].
  - destruct Hcase as (_ & -> & _). destruct Hcase2 as (-> & -> & _). eauto.
  - destruct Hcase as (H & _). discriminate.
  - destruct Hcase as (H & _). discriminate.
Qed.

End MmuFacts.

(** ** Translations through the MMU *)

(** Once an access to a page was translated, the TLB answers for the page
    whatever the page tables hold by then: the next access to the page is
    given the same physical page, and the tables are neither read nor
    written.  A store after a load therefore sets no dirty bit, and a page
    that was unmapped in the tables stays translated until the TLB is
    flushed. *)
Theorem getTranslation_cached_whatever_the_tables (n : nat)
    (ops : list MmuTlb.Op) (p : MmuTlb.Program) (m m2 : AArch64.Memory)
    (root : Z) (a1 a2 : Mmu.MemAccess) (pAddr0 pAddr1 pAddr2 : Z)
    (st1 : Mmu.State) :
  (1 <= n)%nat ->
  MmuTlb.runA (oneTlb n) ops = Some p ->
  Mmu.pageOf a2 = Mmu.pageOf a1 ->
  Mmu.getTranslation root (mmuOf m p) a1 pAddr0 = Some (true, pAddr1, st1) ->
  exists pPage st2,
    pAddr1 = Mmu.makePhysicalAddr a1 pPage /\
    Mmu.getTranslation root
      (Mmu.mkState m2 (Mmu.statics st1) (Mmu.tlb st1)) a2 pAddr2
      = Some (true, Mmu.makePhysicalAddr a2 pPage, st2) /\
    Mmu.memory st2 = m2.
Proof.
  intros Hpos Hrun Hpage H1.
  destruct (oneTlb_run n ops p Hpos Hrun) as (I & Hn & _).
  unfold Mmu.getTranslation in H1. cbn [mmuOf Mmu.tlb Mmu.statics Mmu.memory] in H1.
  cbv zeta in H1.
  destruct (MmuTlb.lookup (MmuTlb.statics p) (MmuTlb.tlbA p) (Mmu.pageOf a1) 0)
    as [[[[hit pp] s1] t1]|] eqn:El; [|discriminate].
  destruct hit.
  - injection H1 as <- <-.
    destruct (hit_again n _ _ _ 0 0 pp s1 t1 I Hn El) as (s2 & t2 & Hl2).
    exists pp. eexists. split; [reflexivity|].
    unfold Mmu.getTranslation. cbn [Mmu.tlb Mmu.statics Mmu.memory]. cbv zeta.
    rewrite Hpage, Hl2. split; reflexivity.
  - destruct (miss_no_match n _ _ _ 0 pp s1 t1 I Hn El)
      as (I1 & Hi1 & -> & -> & _ & Hnone).
    destruct (AArch64.performTranslation m root (Mmu.pageOf a1) 0 (Mmu.isWrite a1))
      as [[[ok pPage] m']|]; [|discriminate].
    destruct ok; [|discriminate].
    destruct (hit_after_add n s1 (MmuTlb.countLookup (MmuTlb.tlbA p) false)
                (Mmu.pageOf a1) pPage 0 I1 Hn Hpos Hi1 Hnone)
      as (s2 & t2 & s3 & t3 & Hadd & Hl2).
    rewrite Hadd in H1. injection H1 as <- <-.
    exists pPage. eexists. split; [reflexivity|].
    unfold Mmu.getTranslation. cbn [Mmu.tlb Mmu.statics Mmu.memory]. cbv zeta.
    rewrite Hpage, Hl2. split; reflexivity.
Qed.

Lemma getTranslation_cached_whatever_the_tables_witness :
  exists st1 pPage st2,
    Mmu.getTranslation 0x10000 (mmuOf S2_memory (oneTlb 64)) S2_load 0
      = Some (true, Mmu.makePhysicalAddr S2_load pPage, st1) /\
    Mmu.getTranslation 0x10000
      (Mmu.mkState zeroMemory (Mmu.statics st1) (Mmu.tlb st1)) S2_store 0
      = Some (true, Mmu.makePhysicalAddr S2_store pPage, st2) /\
    Mmu.memory st2 = zeroMemory.
Proof.
  destruct (Mmu.getTranslation 0x10000 (mmuOf S2_memory (oneTlb 64)) S2_load 0)
    as [[[[] pAddr1] st1]|] eqn:E; try (vm_compute in E; discriminate).
  destruct (getTranslation_cached_whatever_the_tables 64 [] (oneTlb 64)
              S2_memory zeroMemory 0x10000 S2_load S2_store 0 pAddr1 0 st1)
    as (pPage & st2 & -> & H2 & Hm).
  - lia.
  - reflexivity.
  - reflexivity.
  - exact E.
  - exists st1, pPage, st2. split; [reflexivity|]. split; [exact H2|exact Hm].
Defined.

(** After [flushTLB] a translation is the walk of the page tables again:
    whatever the walker answers for the page is what [getTranslation]
    answers, with the physical address made from the walker's page on
    success and [pAddr] left alone on a page fault, and the memory is left
    as the walker leaves it. *)
Theorem flushTLB_then_getTranslation_walks (n : nat) (ops : list MmuTlb.Op)
    (p : MmuTlb.Program) (m m' : AArch64.Memory) (root : Z)
    (a : Mmu.MemAccess) (pAddr ok_pPage : Z) (ok : bool) :
  (1 <= n)%nat ->
  MmuTlb.runA (oneTlb n) ops = Some p ->
  AArch64.performTranslation m root (Mmu.pageOf a) 0 (Mmu.isWrite a)
    = Some (ok, ok_pPage, m') ->
  exists st1 st2,
    Mmu.flushTLB (mmuOf m p) = Some st1 /\ Mmu.memory st1 = m /\
    Mmu.getTranslation root st1 a pAddr
      = Some (ok, if ok then Mmu.makePhysicalAddr a ok_pPage else pAddr, st2) /\
    Mmu.memory st2 = m'.
Proof.
  intros Hpos Hrun Hwalk.
  destruct (oneTlb_run n ops p Hpos Hrun) as (I & Hn & _).
  destruct (flush_one n _ _ I Hn) as (s' & Hf & I' & _ & _ & _ & Hoff).
  unfold Mmu.flushTLB. cbn [mmuOf Mmu.tlb Mmu.statics Mmu.memory].
  rewrite Hf.
  set (t' := MmuTlb.mkTLB _ _ _ _ _ _ _).
  exists (Mmu.mkState m s' (Some t')).
  assert (Hn' : MmuTlb.nEntries t' = n) by exact Hn.
  destruct (all_invalid_miss n s' t' (Mmu.pageOf a) 0 I' Hn' Hoff)
    as (s2 & t2 & Hl).
  destruct (miss_no_match n s' t' _ 0 0 s2 t2 I' Hn' Hl)
    as (I2 & _ & -> & _).
  unfold Mmu.getTranslation. cbn [Mmu.tlb Mmu.statics Mmu.memory]. cbv zeta.
  rewrite Hl, Hwalk.
  destruct ok.
  - destruct (add_one n s2 (MmuTlb.countLookup t' false) (Mmu.pageOf a) ok_pPage
                I2 Hn' Hpos) as (r & s3 & t3 & -> & _).
    eexists. split; [reflexivity|]. split; [reflexivity|].
    split; reflexivity.
  - eexists. split; [reflexivity|]. split; [reflexivity|].
    split; reflexivity.
Qed.

Lemma flushTLB_then_getTranslation_walks_witness :
  exists m' st1 st2,
    AArch64.performTranslation S2_memory 0x10000 (Mmu.pageOf S2_store) 0 true
      = Some (true, 0xABCDE, m') /\
    Mmu.flushTLB (mmuOf S2_memory T2_program) = Some st1 /\
    Mmu.getTranslation 0x10000 st1 S2_store 0
      = Some (true, Mmu.makePhysicalAddr S2_store 0xABCDE, st2) /\
    Mmu.memory st2 = m'.
Proof.
  destruct (AArch64.performTranslation S2_memory 0x10000 (Mmu.pageOf S2_store)
              0 (Mmu.isWrite S2_store))
    as [[[[] pPage] m']|] eqn:E; try (vm_compute in E; discriminate).
  assert (Hp : pPage = 0xABCDE) by (vm_compute in E; congruence).
  subst pPage.
  destruct (flushTLB_then_getTranslation_walks 2 T2_ops T2_program S2_memory m'
              0x10000 S2_store 0 0xABCDE true)
    as (st1 & st2 & Hf & _ & Hg & Hm).
  - lia.
  - vm_compute. reflexivity.
  - exact E.
  - exists m', st1, st2. split; [exact E|]. split; [exact Hf|].
    split; [exact Hg|exact Hm].
Defined.

(** The physical address [makePhysicalAddr] builds has the physical page
    above the page bits and the offset of the access within its page
    below them. *)
Theorem makePhysicalAddr_page_and_offset (access : Mmu.MemAccess) (pPage : Z) :
  0 <= pPage < 2 ^ 50 ->
  Z.shiftr (Mmu.makePhysicalAddr access pPage) AArch64.pageBits = pPage /\
  Z.land (Mmu.makePhysicalAddr access pPage) (AArch64.pageSize - 1)
    = Z.land (Mmu.addr access) (AArch64.pageSize - 1).
Proof.
  intros Hp. unfold Mmu.makePhysicalAddr. cbv zeta.
  change AArch64.pageBits with 14. change (AArch64.pageSize - 1) with (Z.ones 14).
  assert (Hw : wrap64 (Z.shiftl pPage 14) = Z.shiftl pPage 14).
  { apply wrap64_small. rewrite Z.shiftl_mul_pow2 by lia. lia. }
  rewrite Hw. split.
  - rewrite Z.shiftr_lor, Z.shiftr_shiftl_l, Z.sub_diag, Z.shiftl_0_r by lia.
    rewrite Z.land_ones, Z.shiftr_div_pow2 by lia.
    rewrite Z.div_small by (apply Z.mod_pos_bound; lia).
    apply Z.lor_0_r.
  - rewrite Z.land_lor_distr_l.
    rewrite <- Z.land_assoc, Z.land_diag.
    rewrite (Z.land_ones (Z.shiftl pPage 14)) by lia.
    rewrite Z.shiftl_mul_pow2 by lia. rewrite Z.mod_mul by lia.
    apply Z.lor_0_l.
Qed.

Lemma makePhysicalAddr_page_and_offset_witness :
  Z.shiftr (Mmu.makePhysicalAddr S2_store 0xABCDE) AArch64.pageBits = 0xABCDE /\
  Z.land (Mmu.makePhysicalAddr S2_store 0xABCDE) (AArch64.pageSize - 1)
    = Z.land (Mmu.addr S2_store) (AArch64.pageSize - 1).
Proof.
  apply (makePhysicalAddr_page_and_offset S2_store 0xABCDE). lia.
Defined.
